(** * A shallow embedding of the performance dashboard's data pipeline

    The development follows the TypeScript sources:
    - [components/providers/DataProvider.tsx]: the sliding-window stream
      buffer ([addData]) and the time-bucket aggregation
      ([aggregateByTimeRange]), the filters, the list of categories and the
      chart configurations;
    - [components/controls/FilterPanel.tsx] and the time range selector:
      the filter controls;
    - [hooks/useVirtualization.ts]: the visible range and the rendered items
      of the virtual list, for fixed and for variable item heights;
    - [lib/canvasUtils.ts]: the data/pixel coordinate transformations and
      the drawing primitives;
    - the [useChartRenderer] hook: the requestAnimationFrame render loop;
    - [lib/performanceUtils.ts]: the memory monitor, the render-time
      measures, [throttle] and [debounce];
    - the charts and the table: the bars of the bar chart, the bounds and
      canvas points of the line chart and the scatter plot, the sorting of
      the data table;
    - [app/dashboard/DashboardClient.tsx]: the displayed data and the load
      controls.

    Conventions.  Timestamps, indices, counts and memory samples are integral
    JavaScript numbers (within the safe integer range) and are modelled in
    [Z]/[nat].  Measured values, scroll offsets, extents and canvas
    coordinates are IEEE-754 binary64 numbers and are modelled by the
    primitive [float] type, whose operations are those of JavaScript;
    [valueOf] reads such a number as the rational it stands for, and the
    facts on roundings are derived from the specification of the
    operations. *)

From Stdlib Require Import String.
From Stdlib Require Import List ZArith QArith Qround Qfield Qpower Qabs.
From Stdlib Require Import Lia Lqa Bool.
From Stdlib Require Import Sorted Permutation Floats.
Import ListNotations.

Set Warnings "-abstract-large-number".

Local Open Scope Z_scope.

(* ================================================================== *)
(** * The JavaScript runtime pieces the sources rely on *)
(* ================================================================== *)

Module JS.

(** What a call can throw, and the completion of a call: it either returns
    a value or throws.  [ConfigurationError] is the error the specification
    names for invalid arguments; [UserError] is any other exception, such as
    one raised inside a draw callback. *)
Inductive Error : Type :=
| ConfigurationError
| UserError (message : string).

Inductive completion (A : Type) : Type :=
| Normal (a : A)
| Throw (e : Error).

Arguments Normal {A} a.
Arguments Throw {A} e.

Section ArraySort.

Context {A : Type}.

(** The comparator protocol of [Array.prototype.sort]: [compareFn a b] is
    negative, zero or positive. *)
Variable compareFn : A -> A -> Z.

(** Insert [x], which arrived before every element of [l], into the sorted
    [l]: it goes in front of the first element it does not exceed, hence in
    front of its equals. *)
Fixpoint insert (x : A) (l : list A) : list A :=
  match l with
  | [] => [x]
  | y :: l' => if compareFn x y <=? 0 then x :: y :: l' else y :: insert x l'
  end.

(** [Array.prototype.sort(compareFn)].  ECMAScript requires the sort to be
    stable, so for a consistent comparator the result is the one a stable
    insertion sort produces. *)
Fixpoint sort (l : list A) : list A :=
  match l with
  | [] => []
  | x :: l' => insert x (sort l')
  end.

End ArraySort.

(** [arr.slice(-n)] for a count [n]: the last [n] elements, or the whole
    array when it has fewer.  [-0] is [0], so [slice(-0)] is the whole
    array. *)
Definition slice_last {A : Type} (n : nat) (l : list A) : list A :=
  match n with
  | O => l
  | S _ => skipn (length l - n) l
  end.

(** Strings.  A [string] of this development holds the UTF-8 bytes of the
    JavaScript string.  JavaScript compares strings ([a < b], and
    [Array.prototype.sort()] without a comparator) by their UTF-16 code
    units, which is not the order of the bytes: a character outside the
    basic plane is a surrogate pair [D800..DFFF] and sorts before the
    characters [E000..FFFF]. *)
Definition byteOf (c : Ascii.ascii) : N := Ascii.N_of_ascii c.

(** The low six bits of a continuation byte. *)
Definition continuation (b : N) : N := N.land b 0x3F.

(** The code points a sequence of UTF-8 bytes encodes.  A sequence cut
    short, which no JavaScript string encodes to, reads as [U+FFFD]. *)
Fixpoint codePoints (bytes : list N) : list N :=
  match bytes with
  | [] => []
  | b0 :: rest =>
      if (b0 <? 0x80)%N then b0 :: codePoints rest
      else if (b0 <? 0xE0)%N then
        match rest with
        | b1 :: rest' =>
            N.lor (N.shiftl (N.land b0 0x1F) 6) (continuation b1)
            :: codePoints rest'
        | _ => [0xFFFD%N]
        end
      else if (b0 <? 0xF0)%N then
        match rest with
        | b1 :: b2 :: rest' =>
            N.lor (N.shiftl (N.land b0 0x0F) 12)
              (N.lor (N.shiftl (continuation b1) 6) (continuation b2))
            :: codePoints rest'
        | _ => [0xFFFD%N]
        end
      else
        match rest with
        | b1 :: b2 :: b3 :: rest' =>
            N.lor (N.shiftl (N.land b0 0x07) 18)
              (N.lor (N.shiftl (continuation b1) 12)
                 (N.lor (N.shiftl (continuation b2) 6) (continuation b3)))
            :: codePoints rest'
        | _ => [0xFFFD%N]
        end
  end.

(** The UTF-16 code units of a code point: itself in the basic plane, a
    surrogate pair above it. *)
Definition utf16 (codePoint : N) : list N :=
  if (codePoint <? 0x10000)%N then [codePoint]
  else
    let v := (codePoint - 0x10000)%N in
    [(0xD800 + N.shiftr v 10)%N; (0xDC00 + N.land v 0x3FF)%N].

Definition codeUnits (s : string) : list N :=
  flat_map utf16 (codePoints (map byteOf (list_ascii_of_string s))).

(** The comparison of two sequences of code units: the first difference
    decides, a proper prefix is smaller. *)
Fixpoint compareUnits (a b : list N) : comparison :=
  match a, b with
  | [], [] => Eq
  | [], _ :: _ => Lt
  | _ :: _, [] => Gt
  | x :: a', y :: b' =>
      match (x ?= y)%N with
      | Eq => compareUnits a' b'
      | c => c
      end
  end.

(** [a < b], [a == b] or [a > b] on strings. *)
Definition compareStrings (a b : string) : comparison :=
  compareUnits (codeUnits a) (codeUnits b).

(** [!(a > b)] on strings. *)
Definition stringLeb (a b : string) : bool :=
  match compareStrings a b with
  | Gt => false
  | _ => true
  end.

(** [Map]: keys are kept in insertion order, [forEach] visits them in that
    order. *)
Section Map.

Context {K V : Type}.
Variable key_eqb : K -> K -> bool.

Definition Map : Type := list (K * V).

Definition has (k : K) (m : Map) : bool :=
  existsb (fun kv => key_eqb (fst kv) k) m.

(** [m.set(k, v)]: an existing key keeps its place. *)
Fixpoint set (k : K) (v : V) (m : Map) : Map :=
  match m with
  | [] => [(k, v)]
  | (k', v') :: m' =>
      if key_eqb k' k then (k', v) :: m' else (k', v') :: set k v m'
  end.

(** [f] applied in place to [m.get(k)]: the stored value is an object shared
    with the map, so [m.get(k)!.push(x)] changes what the map holds under
    [k]. *)
Fixpoint mutate (k : K) (f : V -> V) (m : Map) : Map :=
  match m with
  | [] => []
  | (k', v') :: m' =>
      if key_eqb k' k then (k', f v') :: m' else (k', v') :: mutate k f m'
  end.

End Map.

End JS.

(* ================================================================== *)
(** * lib/types.ts *)
(* ================================================================== *)

Module Types.

(** A value stored in a [Record<string, any>]. *)
Inductive MetaValue : Type :=
| MBool (b : bool)
| MNumber (n : Z)
| MString (s : string).

Record DataPoint : Type := mkDataPoint {
  timestamp : Z;
  value : float;
  category : string;
  metadata : option (list (string * MetaValue))
}.

(** [type TimeRange = '1min' | '5min' | '1hour' | 'all'] *)
Inductive TimeRange : Type :=
| Range1min
| Range5min
| Range1hour
| RangeAll.

End Types.

(* ================================================================== *)
(** * components/providers/DataProvider.tsx: the stream buffer *)
(* ================================================================== *)

Module DataProvider.

Import Types.

(** [(a, b) => a.timestamp - b.timestamp] *)
Definition byTimestamp (a b : DataPoint) : Z := timestamp a - timestamp b.

(** The state updater of [addData]:
    [combined = [...prev, ...newData]; combined.sort(...);
     return combined.slice(-10000)].
    The window size is the literal of the source: the buffer has no other
    capacity. *)
Definition addData (prev newData : list DataPoint) : list DataPoint :=
  let combined := prev ++ newData in
  let combined := JS.sort byTimestamp combined in
  JS.slice_last 10000 combined.

(** The buffer after a sequence of [addData] calls, starting from [data]. *)
Definition addAll (data : list DataPoint) (batches : list (list DataPoint))
  : list DataPoint :=
  fold_left addData batches data.

(* ------------------------------------------------------------------ *)
(** ** The time-bucket aggregation *)

(** One turn of the grouping loops of [aggregateByTimeRange]:
    [if (!m.has(k)) m.set(k, []); m.get(k)!.push(item)]. *)
Definition groupStep {K A B : Type} (key_eqb : K -> K -> bool)
    (key : A -> K) (item : A -> B)
    (m : JS.Map (K := K) (V := list B)) (x : A) : JS.Map :=
  let k := key x in
  let m := if JS.has key_eqb k m then m else JS.set key_eqb k [] m in
  JS.mutate key_eqb k (fun arr => arr ++ [item x]) m.

(** [Math.floor(point.timestamp / bucketSize) * bucketSize] *)
Definition bucketKey (bucketSize : Z) (point : DataPoint) : Z :=
  (timestamp point / bucketSize) * bucketSize.

(** [buckets]: the [Map<number, DataPoint[]>] once
    [filteredData.forEach] has run. *)
Definition buckets (bucketSize : Z) (filteredData : list DataPoint)
  : JS.Map (K := Z) (V := list DataPoint) :=
  fold_left (groupStep Z.eqb (bucketKey bucketSize) (fun point => point))
            filteredData [].

(** [byCategory]: the [Map<string, number[]>] of one bucket. *)
Definition byCategory (points : list DataPoint)
  : JS.Map (K := string) (V := list float) :=
  fold_left (groupStep String.eqb category value) points [].

(** [values.length] as a number. *)
Definition lengthNumber (values : list float) : float :=
  PrimFloat.of_uint63 (Uint63.of_Z (Z.of_nat (length values))).

(** [values.reduce((a, b) => a + b, 0) / values.length] *)
Definition average (values : list float) : float :=
  (fold_left PrimFloat.add values 0 / lengthNumber values)%float.

(** The point pushed on [aggregated] for one category of one bucket. *)
Definition aggregatedPoint (bucketStart : Z) (cat : string)
    (values : list float) : DataPoint :=
  {| timestamp := bucketStart;
     value := average values;
     category := cat;
     metadata := Some [("aggregated"%string, MBool true);
                       ("count"%string, MNumber (Z.of_nat (length values)))] |}.

(** The inner [byCategory.forEach]: the points one bucket contributes. *)
Definition bucketPoints (bucket : Z * list DataPoint) : list DataPoint :=
  map (fun group : string * list float =>
         aggregatedPoint (fst bucket) (fst group) (snd group))
      (byCategory (snd bucket)).

(** [aggregated] once [buckets.forEach] has run. *)
Definition aggregated (bucketSize : Z) (filteredData : list DataPoint)
  : list DataPoint :=
  flat_map bucketPoints (buckets bucketSize filteredData).

(** Lines 200-235 of the source, for the bucket size found for the time
    range: group into buckets, group each bucket by category, emit one point
    per (bucket, category), sort by timestamp. *)
Definition aggregateBuckets (bucketSize : Z) (filteredData : list DataPoint)
  : list DataPoint :=
  JS.sort byTimestamp (aggregated bucketSize filteredData).

(** The object literal indexed by the time range; ['all'] is not a key of
    it, so the lookup is [undefined] there. *)
Definition bucketSizeOf (timeRange : TimeRange) : option Z :=
  match timeRange with
  | Range1min => Some (60 * 1000)
  | Range5min => Some (5 * 60 * 1000)
  | Range1hour => Some (60 * 60 * 1000)
  | RangeAll => None
  end.

(** [aggregateByTimeRange] from [if (!bucketSize) return filteredData] on:
    [undefined] and [0] are falsy. *)
Definition aggregateWithBucketSize (bucketSize : option Z)
    (filteredData : list DataPoint) : list DataPoint :=
  match bucketSize with
  | None => filteredData
  | Some b => if b =? 0 then filteredData else aggregateBuckets b filteredData
  end.

Definition isAll (timeRange : TimeRange) : bool :=
  match timeRange with RangeAll => true | _ => false end.

Definition aggregateByTimeRange (filteredData : list DataPoint)
    (timeRange : TimeRange) : list DataPoint :=
  if isAll timeRange || (length filteredData =? 0)%nat then filteredData
  else aggregateWithBucketSize (bucketSizeOf timeRange) filteredData.

(** What an emitted bucket says about itself. *)
Definition countOf (p : DataPoint) : option Z :=
  match metadata p with
  | Some fields =>
      match find (fun kv => String.eqb (fst kv) "count") fields with
      | Some (_, MNumber n) => Some n
      | _ => None
      end
  | None => None
  end.

End DataProvider.

(* ================================================================== *)
(** * lib/canvasUtils.ts: coordinate transformations *)
(* ================================================================== *)

Module CanvasUtils.

(** The arithmetic the transformations use: the one of JavaScript
    numbers. *)
Class Arith (N : Type) : Type := {
  add : N -> N -> N;
  sub : N -> N -> N;
  mul : N -> N -> N;
  div : N -> N -> N;
  one : N
}.

#[export] Instance float_arith : Arith float := {
  add := PrimFloat.add;
  sub := PrimFloat.sub;
  mul := PrimFloat.mul;
  div := PrimFloat.div;
  one := 1%float
}.

Record ChartViewport (N : Type) : Type := mkViewport {
  xMin : N;
  xMax : N;
  yMin : N;
  yMax : N;
  scale : N
}.

Record Padding (N : Type) : Type := mkPadding {
  top : N;
  right : N;
  bottom : N;
  left : N
}.

Arguments mkViewport {N}.
Arguments xMin {N}.
Arguments xMax {N}.
Arguments yMin {N}.
Arguments yMax {N}.
Arguments scale {N}.
Arguments mkPadding {N}.
Arguments top {N}.
Arguments right {N}.
Arguments bottom {N}.
Arguments left {N}.

(** The default value of the [padding] parameter. *)
Definition defaultPadding : Padding float :=
  {| top := 20%float; right := 20%float; bottom := 40%float;
     left := 60%float |}.

Section Transformations.

Context {N : Type} `{Arith N}.

Definition dataToCanvas (dataX dataY : N) (viewport : ChartViewport N)
    (canvasWidth canvasHeight : N) (padding : Padding N) : N * N :=
  let plotWidth := sub (sub canvasWidth (left padding)) (right padding) in
  let plotHeight := sub (sub canvasHeight (top padding)) (bottom padding) in
  (* Normalize to 0-1 range *)
  let normalizedX :=
    div (sub dataX (xMin viewport)) (sub (xMax viewport) (xMin viewport)) in
  let normalizedY :=
    div (sub dataY (yMin viewport)) (sub (yMax viewport) (yMin viewport)) in
  (* Map to canvas coordinates *)
  let canvasX := add (left padding) (mul normalizedX plotWidth) in
  let canvasY := add (top padding) (mul (sub one normalizedY) plotHeight) in
  (canvasX, canvasY).

Definition canvasToData (canvasX canvasY : N) (viewport : ChartViewport N)
    (canvasWidth canvasHeight : N) (padding : Padding N) : N * N :=
  let plotWidth := sub (sub canvasWidth (left padding)) (right padding) in
  let plotHeight := sub (sub canvasHeight (top padding)) (bottom padding) in
  (* Normalize to 0-1 range *)
  let normalizedX := div (sub canvasX (left padding)) plotWidth in
  let normalizedY := sub one (div (sub canvasY (top padding)) plotHeight) in
  (* Map to data coordinates *)
  let dataX :=
    add (xMin viewport)
        (mul normalizedX (sub (xMax viewport) (xMin viewport))) in
  let dataY :=
    add (yMin viewport)
        (mul normalizedY (sub (yMax viewport) (yMin viewport))) in
  (dataX, dataY).

(** Neither function has a [throw] or a guard: a call completes normally
    with the pair the formulas give. *)
Definition dataToCanvas_call (dataX dataY : N) (viewport : ChartViewport N)
    (canvasWidth canvasHeight : N) (padding : Padding N)
  : JS.completion (N * N) :=
  JS.Normal (dataToCanvas dataX dataY viewport canvasWidth canvasHeight
                          padding).

Definition canvasToData_call (canvasX canvasY : N)
    (viewport : ChartViewport N) (canvasWidth canvasHeight : N)
    (padding : Padding N) : JS.completion (N * N) :=
  JS.Normal (canvasToData canvasX canvasY viewport canvasWidth canvasHeight
                          padding).

End Transformations.

(** [Number.isFinite] *)
Definition isFinite (x : float) : bool :=
  negb (PrimFloat.is_nan x || PrimFloat.is_infinity x).

(** A viewport is degenerate when [xMax == xMin] or [yMax == yMin]. *)
Definition degenerateX (viewport : ChartViewport float) : bool :=
  PrimFloat.eqb (xMax viewport) (xMin viewport).

Definition degenerateY (viewport : ChartViewport float) : bool :=
  PrimFloat.eqb (yMax viewport) (yMin viewport).

End CanvasUtils.

(* ================================================================== *)
(** * lib/performanceUtils.ts: the memory monitor *)
(* ================================================================== *)

Module PerformanceUtils.

(** [class MemoryMonitor]: the private fields.  Samples are the rounded
    megabyte counts [getMemoryUsage] returns. *)
Record MemoryMonitor : Type := mkMemoryMonitor {
  samples : list Z;
  maxSamples : nat
}.

Definition newMemoryMonitor : MemoryMonitor :=
  {| samples := []; maxSamples := 60 |}.

(** [sample()], with the reading [getMemoryUsage()] returned:
    [this.samples.push(usage);
     if (this.samples.length > this.maxSamples) this.samples.shift()]. *)
Definition sample (usage : Z) (m : MemoryMonitor) : MemoryMonitor :=
  let pushed := samples m ++ [usage] in
  {| samples := if (maxSamples m <? length pushed)%nat then tl pushed
                else pushed;
     maxSamples := maxSamples m |}.

(** [isGrowing(thresholdMB)] *)
Definition isGrowing (thresholdMB : Z) (m : MemoryMonitor) : bool :=
  if (length (samples m) <? 10)%nat then false
  else
    match nth_error (samples m) 0,
          nth_error (samples m) (length (samples m) - 1) with
    | Some first, Some last => thresholdMB <? last - first
    | _, _ => false
    end.

End PerformanceUtils.

(* ================================================================== *)
(** * The useChartRenderer hook: the render loop *)
(* ================================================================== *)

Module ChartRenderer.

(** What the host and the hook do, in order. *)
Inductive Event : Type :=
| Drawn
| Requested (id : Z)
| Cancelled (id : Z).

Section Hook.

(** The canvas context handed to the draw callback, and whatever the
    callback can read and change. *)
Variables CanvasContext World : Type.

(** [renderFn: (ctx: CanvasContext) => void]: it changes the world and
    either returns or throws. *)
Definition RenderFn : Type :=
  CanvasContext -> World -> World * JS.completion unit.

(** The hook's refs, and the host: the animation-frame callbacks waiting for
    the next display refresh (the hook only ever registers [renderLoop]),
    the next handle [requestAnimationFrame] will return, the world, and the
    log of events. *)
Record State : Type := mkState {
  canvasContextRef : option CanvasContext;
  animationFrameRef : option Z;
  renderFnRef : option RenderFn;
  pendingFrames : list Z;
  nextFrameId : Z;
  world : World;
  log : list Event
}.

(** [requestAnimationFrame(renderLoop)]: returns the handle. *)
Definition requestAnimationFrame (st : State) : Z * State :=
  let id := nextFrameId st in
  (id,
   {| canvasContextRef := canvasContextRef st;
      animationFrameRef := animationFrameRef st;
      renderFnRef := renderFnRef st;
      pendingFrames := pendingFrames st ++ [id];
      nextFrameId := id + 1;
      world := world st;
      log := log st ++ [Requested id] |}).

(** [cancelAnimationFrame(id)] *)
Definition cancelAnimationFrame (id : Z) (st : State) : State :=
  {| canvasContextRef := canvasContextRef st;
     animationFrameRef := animationFrameRef st;
     renderFnRef := renderFnRef st;
     pendingFrames := filter (fun h => negb (h =? id)) (pendingFrames st);
     nextFrameId := nextFrameId st;
     world := world st;
     log := log st ++ [Cancelled id] |}.

Definition set_animationFrameRef (v : option Z) (st : State) : State :=
  {| canvasContextRef := canvasContextRef st;
     animationFrameRef := v;
     renderFnRef := renderFnRef st;
     pendingFrames := pendingFrames st;
     nextFrameId := nextFrameId st;
     world := world st;
     log := log st |}.

Definition set_renderFnRef (v : option RenderFn) (st : State) : State :=
  {| canvasContextRef := canvasContextRef st;
     animationFrameRef := animationFrameRef st;
     renderFnRef := v;
     pendingFrames := pendingFrames st;
     nextFrameId := nextFrameId st;
     world := world st;
     log := log st |}.

(** The call [renderFnRef.current(canvasContextRef.current)]. *)
Definition callRenderFn (fn : RenderFn) (ctx : CanvasContext) (st : State)
  : State * JS.completion unit :=
  let (w, outcome) := fn ctx (world st) in
  ({| canvasContextRef := canvasContextRef st;
      animationFrameRef := animationFrameRef st;
      renderFnRef := renderFnRef st;
      pendingFrames := pendingFrames st;
      nextFrameId := nextFrameId st;
      world := w;
      log := log st ++ [Drawn] |},
   outcome).

(** [renderLoop]:
    [if (!canvasContextRef.current || !renderFnRef.current) return;
     renderFnRef.current(canvasContextRef.current);
     animationFrameRef.current = requestAnimationFrame(renderLoop)].
    There is no [try]: a throw of the callback leaves [renderLoop] at the
    call. *)
Definition renderLoop (st : State) : State * JS.completion unit :=
  match canvasContextRef st, renderFnRef st with
  | Some ctx, Some fn =>
      match callRenderFn fn ctx st with
      | (st1, JS.Throw e) => (st1, JS.Throw e)
      | (st1, JS.Normal _) =>
          let (id, st2) := requestAnimationFrame st1 in
          (set_animationFrameRef (Some id) st2, JS.Normal tt)
      end
  | _, _ => (st, JS.Normal tt)
  end.

(** A handle is truthy unless it is [null] or [0]. *)
Definition truthyHandle (h : option Z) : option Z :=
  match h with
  | Some id => if id =? 0 then None else Some id
  | None => None
  end.

(** [startRenderLoop(renderFn)] *)
Definition startRenderLoop (renderFn : RenderFn) (st : State) : State :=
  let st :=
    match truthyHandle (animationFrameRef st) with
    | Some id => cancelAnimationFrame id st
    | None => st
    end in
  let st := set_renderFnRef (Some renderFn) st in
  let (id, st) := requestAnimationFrame st in
  set_animationFrameRef (Some id) st.

(** [stopRenderLoop()] *)
Definition stopRenderLoop (st : State) : State :=
  let st :=
    match truthyHandle (animationFrameRef st) with
    | Some id => set_animationFrameRef None (cancelAnimationFrame id st)
    | None => st
    end in
  set_renderFnRef None st.

(** One display refresh: the host takes the oldest waiting callback off its
    list and runs it; with nothing waiting, nothing runs. *)
Definition frame (st : State) : option (State * JS.completion unit) :=
  match pendingFrames st with
  | [] => None
  | _ :: rest =>
      Some (renderLoop
              {| canvasContextRef := canvasContextRef st;
                 animationFrameRef := animationFrameRef st;
                 renderFnRef := renderFnRef st;
                 pendingFrames := rest;
                 nextFrameId := nextFrameId st;
                 world := world st;
                 log := log st |})
  end.

(** [n] display refreshes in a row; an exception of a callback is reported
    by the host and the next refresh proceeds with what is waiting. *)
Fixpoint frames (n : nat) (st : State) : State :=
  match n with
  | O => st
  | S n' =>
      match frame st with
      | Some (st', _) => frames n' st'
      | None => st
      end
  end.

(** How many times the draw callback has been invoked. *)
Definition draws (st : State) : nat :=
  length (filter (fun e => match e with Drawn => true | _ => false end)
                 (log st)).

(** The hook once the canvas is initialised and nothing is scheduled. *)
Definition mounted (ctx : CanvasContext) (w : World) : State :=
  {| canvasContextRef := Some ctx;
     animationFrameRef := None;
     renderFnRef := None;
     pendingFrames := [];
     nextFrameId := 1;
     world := w;
     log := [] |}.

End Hook.

Arguments canvasContextRef {CanvasContext World}.
Arguments animationFrameRef {CanvasContext World}.
Arguments renderFnRef {CanvasContext World}.
Arguments pendingFrames {CanvasContext World}.
Arguments nextFrameId {CanvasContext World}.
Arguments world {CanvasContext World}.
Arguments log {CanvasContext World}.
Arguments renderLoop {CanvasContext World}.
Arguments startRenderLoop {CanvasContext World}.
Arguments stopRenderLoop {CanvasContext World}.
Arguments frame {CanvasContext World}.
Arguments frames {CanvasContext World}.
Arguments draws {CanvasContext World}.
Arguments mounted {CanvasContext World}.

End ChartRenderer.

(* ================================================================== *)
(** * The vocabulary of the statements *)
(* ================================================================== *)

(** A list in non-decreasing order of a numeric key. *)
Definition sortedBy {A : Type} (key : A -> Z) (l : list A) : Prop :=
  StronglySorted (fun a b => key a <= key b) l.

Section StreamVocabulary.

Import Types DataProvider.

(** Non-decreasing timestamps. *)
Definition chronological (l : list DataPoint) : Prop :=
  sortedBy timestamp l.

(** A measurement taken at [t]. *)
Definition measurementAt (t : Z) : DataPoint :=
  {| timestamp := t; value := 0%float; category := "cpu"%string;
     metadata := None |}.

End StreamVocabulary.

Section GroupVocabulary.

Context {K A B : Type}.
Variable key_eqb : K -> K -> bool.
Variable key : A -> K.
Variable item : A -> B.

(** The map after the grouping loop has visited [l]. *)
Definition grouped (l : list A) : JS.Map (K := K) (V := list B) :=
  fold_left (DataProvider.groupStep key_eqb key item) l [].

(** The number of stored items. *)
Definition stored (m : JS.Map (K := K) (V := list B)) : nat :=
  list_sum (map (fun kv => length (snd kv)) m).

(** The items of [l] filed under [k], in order. *)
Definition filed (k : K) (l : list A) : list B :=
  map item (filter (fun x => key_eqb (key x) k) l).

End GroupVocabulary.

Section AggregationVocabulary.

Import Types DataProvider.

(** [point] belongs to the emitted [bucket]: same bucket key, same
    category. *)
Definition sameBucket (bucketSize : Z) (bucket point : DataPoint) : bool :=
  (bucketKey bucketSize point =? timestamp bucket)
  && String.eqb (category point) (category bucket).

(** The identity of an emitted bucket. *)
Definition bucketId (p : DataPoint) : Z * string :=
  (timestamp p, category p).

(** The sum of the counts the emitted buckets carry. *)
Definition totalCount (out : list DataPoint) : Z :=
  fold_right
    (fun p acc => match countOf p with Some n => n + acc | None => acc end)
    0 out.

(** Key, category and count of an emitted bucket. *)
Definition summary (p : DataPoint) : Z * string * option Z :=
  (timestamp p, category p, countOf p).

End AggregationVocabulary.

(** The memory monitor after the readings [usages], oldest first. *)
Definition sampled (usages : list Z) : PerformanceUtils.MemoryMonitor :=
  fold_left (fun m usage => PerformanceUtils.sample usage m) usages
            PerformanceUtils.newMemoryMonitor.

Section RenderVocabulary.

Import ChartRenderer.

(** A draw callback that fails on every frame, and one that counts the
    frames it has drawn. *)
Definition failingDraw : RenderFn unit nat :=
  fun _ w => (w, JS.Throw (JS.UserError "draw failed")).

Definition countingDraw : RenderFn unit nat :=
  fun _ w => (S w, JS.Normal tt).

(** The loop is live: the refs are set and exactly one callback waits. *)
Definition running {CanvasContext World : Type} (ctx : CanvasContext)
    (fn : RenderFn CanvasContext World) (st : State CanvasContext World)
  : Prop :=
  canvasContextRef st = Some ctx
  /\ renderFnRef st = Some fn
  /\ exists id, pendingFrames st = [id].

End RenderVocabulary.

(** The two classes of binary64 values the degenerate viewports lead to. *)
Definition notFinite (s : spec_float) : bool :=
  match s with
  | S754_nan | S754_infinity _ => true
  | _ => false
  end.

Definition zeroOrNaN (s : spec_float) : bool :=
  match s with
  | S754_nan | S754_zero _ => true
  | _ => false
  end.

(** A viewport with [xMax == xMin]. *)
Definition flatViewport : CanvasUtils.ChartViewport float :=
  {| CanvasUtils.xMin := 0%float; CanvasUtils.xMax := 0%float;
     CanvasUtils.yMin := 0%float; CanvasUtils.yMax := 100%float;
     CanvasUtils.scale := 1%float |}.

(* ================================================================== *)
(** * components/providers/DataProvider.tsx: filters and categories *)
(* ================================================================== *)

Module Filtering.

Import Types.

(** [interface FilterConfig]; an absent [startTime] or [endTime] is
    [undefined]. *)
Record FilterConfig : Type := mkFilterConfig {
  categories : list string;
  timeRange : TimeRange;
  startTime : option Z;
  endTime : option Z
}.

(** The initial state of [filterConfig]. *)
Definition initialFilterConfig : FilterConfig :=
  {| categories := []; timeRange := RangeAll; startTime := None;
     endTime := None |}.

(** [Partial<FilterConfig>]: each key is present or not; a present time
    bound may itself be [undefined]. *)
Record PartialFilterConfig : Type := mkPartialFilterConfig {
  newCategories : option (list string);
  newTimeRange : option TimeRange;
  newStartTime : option (option Z);
  newEndTime : option (option Z)
}.

(** [arr.includes(c)] on strings. *)
Definition includes (arr : list string) (c : string) : bool :=
  existsb (fun x => String.eqb x c) arr.

(** The [filteredData] memo. *)
Definition filteredData (data : list DataPoint) (filterConfig : FilterConfig)
  : list DataPoint :=
  let filtered := data in
  (* Filter by categories *)
  let filtered :=
    if (0 <? length (categories filterConfig))%nat
    then filter (fun point =>
                   includes (categories filterConfig) (category point))
                filtered
    else filtered in
  (* Filter by time range *)
  let filtered :=
    match startTime filterConfig with
    | Some from => filter (fun point => from <=? timestamp point) filtered
    | None => filtered
    end in
  let filtered :=
    match endTime filterConfig with
    | Some to => filter (fun point => timestamp point <=? to) filtered
    | None => filtered
    end in
  filtered.

(** [updateFilter]: [{ ...prev, ...partial }]. *)
Definition updateFilter (prev : FilterConfig) (partial : PartialFilterConfig)
  : FilterConfig :=
  {| categories :=
       match newCategories partial with Some v => v | None => categories prev
       end;
     timeRange :=
       match newTimeRange partial with Some v => v | None => timeRange prev
       end;
     startTime :=
       match newStartTime partial with Some v => v | None => startTime prev
       end;
     endTime :=
       match newEndTime partial with Some v => v | None => endTime prev
       end |}.

(** [{ categories: cs }] *)
Definition onlyCategories (cs : list string) : PartialFilterConfig :=
  {| newCategories := Some cs; newTimeRange := None; newStartTime := None;
     newEndTime := None |}.

(** [Set.prototype.add] on a set kept in insertion order. *)
Definition setAdd (s : list string) (c : string) : list string :=
  if includes s c then s else s ++ [c].

(** The order [Array.prototype.sort()] uses without a comparator, on
    strings: by UTF-16 code units. *)
Definition compareStrings (a b : string) : Z :=
  match JS.compareStrings a b with
  | Lt => -1
  | Eq => 0
  | Gt => 1
  end.

(** The [availableCategories] memo:
    [data.forEach((point) => categories.add(point.category));
     return Array.from(categories).sort()]. *)
Definition availableCategories (data : list DataPoint) : list string :=
  let categories := fold_left (fun s point => setAdd s (category point))
                              data [] in
  JS.sort compareStrings categories.

End Filtering.

(* ================================================================== *)
(** * components/controls/FilterPanel.tsx *)
(* ================================================================== *)

Module FilterPanel.

Import Filtering.

(** [toggleCategory] *)
Definition toggleCategory (filterConfig : FilterConfig) (category : string)
  : FilterConfig :=
  let currentCategories := categories filterConfig in
  let newCategories :=
    if includes currentCategories category
    then (* Remove category *)
      filter (fun c => negb (String.eqb c category)) currentCategories
    else (* Add category *)
      currentCategories ++ [category] in
  updateFilter filterConfig (onlyCategories newCategories).

(** [selectAll]: an empty array means show all. *)
Definition selectAll (filterConfig : FilterConfig) : FilterConfig :=
  updateFilter filterConfig (onlyCategories []).

(** [deselectAll]: a special value to show none. *)
Definition deselectAll (filterConfig : FilterConfig) : FilterConfig :=
  updateFilter filterConfig (onlyCategories ["__none__"%string]).

(** The [checked] state of the checkbox of [category]. *)
Definition isSelected (filterConfig : FilterConfig) (category : string)
  : bool :=
  let isAllSelected := (length (categories filterConfig) =? 0)%nat in
  isAllSelected || includes (categories filterConfig) category.

End FilterPanel.

(** A point passes the filters: its category is selected, an empty selection
    selecting every category, and its timestamp is within the bounds that
    are set. *)
Definition passes (cfg : Filtering.FilterConfig) (p : Types.DataPoint)
  : Prop :=
  (Filtering.categories cfg = []
   \/ In (Types.category p) (Filtering.categories cfg))
  /\ (forall from, Filtering.startTime cfg = Some from ->
                   from <= Types.timestamp p)
  /\ (forall to, Filtering.endTime cfg = Some to -> Types.timestamp p <= to).

(* ================================================================== *)
(** * components/providers/DataProvider.tsx: chart configurations *)
(* ================================================================== *)

Module ChartConfigs.

(** [type: 'line' | 'bar' | 'scatter' | 'heatmap'] *)
Inductive ChartType : Type :=
| LineChart
| BarChart
| ScatterChart
| HeatmapChart.

Record ChartConfig : Type := mkChartConfig {
  type : ChartType;
  dataKey : string;
  color : string;
  visible : bool
}.

(** The initial state of [chartConfigs]. *)
Definition initialChartConfigs : list ChartConfig :=
  [ {| type := LineChart; dataKey := "value"; color := "#3b82f6";
       visible := true |};
    {| type := BarChart; dataKey := "value"; color := "#10b981";
       visible := true |};
    {| type := ScatterChart; dataKey := "value"; color := "#f59e0b";
       visible := true |};
    {| type := HeatmapChart; dataKey := "value"; color := "#ef4444";
       visible := true |} ].

(** [arr[index]] for an integral index: [undefined] outside the array. *)
Definition at_index {T : Type} (arr : list T) (index : Z) : option T :=
  if index <? 0 then None else nth_error arr (Z.to_nat index).

(** [arr[index] = v] for an index inside the array. *)
Definition assign {T : Type} (arr : list T) (index : nat) (v : T) : list T :=
  firstn index arr ++ v :: skipn (S index) arr.

(** The state updater of [toggleChartVisibility]:
    [updated = [...prev];
     updated[index] = { ...updated[index], visible: !updated[index].visible };
     return updated].
    Reading [visible] of [undefined] throws a TypeError, so outside the array
    the updater throws. *)
Definition toggleChartVisibility (index : Z) (prev : list ChartConfig)
  : JS.completion (list ChartConfig) :=
  let updated := prev in
  match at_index updated index with
  | Some current =>
      JS.Normal
        (assign updated (Z.to_nat index)
                {| type := type current;
                   dataKey := dataKey current;
                   color := color current;
                   visible := negb (visible current) |})
  | None =>
      JS.Throw
        (JS.UserError
           "TypeError: Cannot read properties of undefined (reading 'visible')")
  end.

End ChartConfigs.

(* ================================================================== *)
(** * The hook driven by its component and the host *)
(* ================================================================== *)

Module HookTrace.

Import ChartRenderer.

Section Trace.

Context {CanvasContext World : Type}.

(** What can happen to a mounted hook between two draw callbacks: the
    component calls [startRenderLoop(renderFn)] or [stopRenderLoop()], or
    the display refreshes.  The draw callbacks are those of
    [ChartRenderer.RenderFn]: they draw, and do not call the hook's
    functions while [renderLoop] runs them. *)
Inductive HookOp : Type :=
| Start (renderFn : RenderFn CanvasContext World)
| Stop
| Refresh.

Definition step (st : State CanvasContext World) (op : HookOp)
  : State CanvasContext World :=
  match op with
  | Start renderFn => startRenderLoop renderFn st
  | Stop => stopRenderLoop st
  | Refresh =>
      match frame st with
      | Some (st', _) => st'
      | None => st
      end
  end.

Definition run (ops : list HookOp) (st : State CanvasContext World)
  : State CanvasContext World :=
  fold_left step ops st.

(** What every use of a mounted hook preserves: the context stays, handles
    are positive, and at most one callback waits; the one that waits is the
    one [animationFrameRef] names, and a draw callback is stored. *)
Definition scheduled_once (ctx : CanvasContext)
    (st : State CanvasContext World) : Prop :=
  canvasContextRef st = Some ctx
  /\ 0 < nextFrameId st
  /\ (pendingFrames st = []
      \/ exists id,
           pendingFrames st = [id]
           /\ animationFrameRef st = Some id
           /\ 0 < id
           /\ renderFnRef st <> None).

End Trace.

End HookTrace.

(* ================================================================== *)
(** * lib/performanceUtils.ts: memory readings and render-time measures *)
(* ================================================================== *)

Module Monitors.

Import PerformanceUtils.

(** [Math.round] of an exact quotient: the nearest integer, a tie going
    up. *)
Definition Math_round (q : Q) : Z := Qfloor (q + (1 # 2)).

(** [v || 0] for a number [v] that may be missing. *)
Definition orZero (v : option Z) : Z :=
  match v with
  | Some n => if n =? 0 then 0 else n
  | None => 0
  end.

(** [getCurrent()]: [this.samples[this.samples.length - 1] || 0]; index
    [-1] of the empty array is [undefined]. *)
Definition getCurrent (m : MemoryMonitor) : Z :=
  orZero (match samples m with
          | [] => None
          | _ => nth_error (samples m) (length (samples m) - 1)
          end).

(** [getAverage()]:
    [if (this.samples.length === 0) return 0;
     const sum = this.samples.reduce((a, b) => a + b, 0);
     return Math.round(sum / this.samples.length)].
    The samples are whole megabyte counts and at most 60 are kept, so the
    quotient of the two integers is far enough from every tie for its
    binary64 value to round as the exact one does. *)
Definition getAverage (m : MemoryMonitor) : Z :=
  match samples m with
  | [] => 0
  | _ =>
      let sum := fold_left Z.add (samples m) 0 in
      Math_round (inject_Z sum / inject_Z (Z.of_nat (length (samples m))))
  end.

(** [reset()] *)
Definition reset (m : MemoryMonitor) : MemoryMonitor :=
  {| samples := []; maxSamples := maxSamples m |}.

(** [const activeMeasures = new Map<string, number>()], holding readings
    of [performance.now()]. *)
Definition Measures : Type := JS.Map (K := string) (V := float).

Definition get (name : string) (m : Measures) : option float :=
  match find (fun kv => String.eqb (fst kv) name) m with
  | Some kv => Some (snd kv)
  | None => None
  end.

Definition delete (name : string) (m : Measures) : Measures :=
  filter (fun kv => negb (String.eqb (fst kv) name)) m.

(** [!x] for a number: true of [0], [-0] and [NaN]. *)
Definition falsy (x : float) : bool :=
  PrimFloat.is_zero x || PrimFloat.is_nan x.

(** [startMeasure(name)], with the reading [performance.now()] returned. *)
Definition startMeasure (name : string) (now : float) (m : Measures)
  : Measures :=
  JS.set String.eqb name now m.

(** [endMeasure(name)], with the reading [performance.now()] would return:
    [const startTime = activeMeasures.get(name);
     if (!startTime) { console.warn(...); return 0; }
     const duration = endTime - startTime;
     activeMeasures.delete(name);
     return duration]. *)
Definition endMeasure (name : string) (now : float) (m : Measures)
  : float * Measures :=
  match get name m with
  | None => (0%float, m)
  | Some startTime =>
      if falsy startTime then (0%float, m)
      else (PrimFloat.sub now startTime, delete name m)
  end.

End Monitors.

(* ================================================================== *)
(** * lib/performanceUtils.ts: throttle and debounce *)
(* ================================================================== *)

Module Timing.

(** What happens to a wrapped function: it is called with [args] at host
    time [t], or the host runs the timer [id] at time [t]. *)
Inductive HostEvent (Args : Type) : Type :=
| Invoke (t : Z) (args : Args)
| Timeout (t : Z) (id : Z).

Arguments Invoke {Args} t args.
Arguments Timeout {Args} t id.

(** [setTimeout(callback, ms)] called at time [t]: the callback is not run
    before [t + ms], and a negative [ms] counts as 0. *)
Definition dueTime (t ms : Z) : Z := t + Z.max 0 ms.

Section Throttle.

Context {Args : Type}.

(** [func.apply(this, args)] returns or throws; [func] does not call the
    wrapped function itself. *)
Variable func : Args -> JS.completion unit.
Variable limit : Z.

(** The closure of [throttle(func, limit)] and the host: [inThrottle]
    ([undefined] at first, which reads as false), the timers set and not yet
    run with their due times, the next timer handle, the host clock, and the
    applications of [func] so far: when, with what, and whether it
    returned. *)
Record Throttled : Type := mkThrottled {
  inThrottle : bool;
  resetTimers : list (Z * Z);
  nextResetTimer : Z;
  throttleClock : Z;
  applications : list (Z * Args * bool)
}.

Definition throttle : Throttled :=
  {| inThrottle := false;
     resetTimers := [];
     nextResetTimer := 1;
     throttleClock := 0;
     applications := [] |}.

(** The returned function:
    [if (!inThrottle) {
       func.apply(this, args);
       inThrottle = true;
       setTimeout(() => (inThrottle = false), limit);
     }]
    and the timer callback [inThrottle = false].  An event the host cannot
    produce (time running backwards, a timer run before it is due or not
    set) has no successor. *)
Definition throttleStep (st : Throttled) (ev : HostEvent Args)
  : option Throttled :=
  match ev with
  | Invoke t args =>
      if t <? throttleClock st then None
      else if inThrottle st then
        Some {| inThrottle := true;
                resetTimers := resetTimers st;
                nextResetTimer := nextResetTimer st;
                throttleClock := t;
                applications := applications st |}
      else
        match func args with
        | JS.Normal _ =>
            Some {| inThrottle := true;
                    resetTimers :=
                      resetTimers st
                      ++ [(nextResetTimer st, dueTime t limit)];
                    nextResetTimer := nextResetTimer st + 1;
                    throttleClock := t;
                    applications := applications st ++ [(t, args, true)] |}
        | JS.Throw _ =>
            Some {| inThrottle := false;
                    resetTimers := resetTimers st;
                    nextResetTimer := nextResetTimer st;
                    throttleClock := t;
                    applications := applications st ++ [(t, args, false)] |}
        end
  | Timeout t id =>
      match find (fun tm => fst tm =? id) (resetTimers st) with
      | Some (_, due) =>
          if (t <? throttleClock st) || (t <? due) then None
          else
            Some {| inThrottle := false;
                    resetTimers :=
                      filter (fun tm => negb (fst tm =? id)) (resetTimers st);
                    nextResetTimer := nextResetTimer st;
                    throttleClock := t;
                    applications := applications st |}
      | None => None
      end
  end.

Fixpoint throttleRun (st : Throttled) (trace : list (HostEvent Args))
  : option Throttled :=
  match trace with
  | [] => Some st
  | ev :: trace' =>
      match throttleStep st ev with
      | Some st' => throttleRun st' trace'
      | None => None
      end
  end.

End Throttle.

Section Debounce.

Context {Args : Type}.

Variable delay : Z.

(** The closure of [debounce(func, delay)] and the host: [timeoutId]
    ([undefined] at first), the timers set and neither run nor cleared, each
    with its handle, its due time and the arguments its callback holds, the
    next handle, the host clock, and the applications of [func]. *)
Record Debounced : Type := mkDebounced {
  timeoutId : option Z;
  callTimers : list (Z * Z * Args);
  nextCallTimer : Z;
  debounceClock : Z;
  applied : list (Z * Args)
}.

Definition debounce : Debounced :=
  {| timeoutId := None;
     callTimers := [];
     nextCallTimer := 1;
     debounceClock := 0;
     applied := [] |}.

(** [clearTimeout(id)]; clearing [undefined] or a handle no longer set does
    nothing. *)
Definition clearTimeout (id : option Z) (timers : list (Z * Z * Args))
  : list (Z * Z * Args) :=
  match id with
  | Some i => filter (fun tm => negb (fst (fst tm) =? i)) timers
  | None => timers
  end.

(** The returned function:
    [clearTimeout(timeoutId);
     timeoutId = setTimeout(() => func.apply(this, args), delay)]
    and the timer callback [func.apply(this, args)]. *)
Definition debounceStep (st : Debounced) (ev : HostEvent Args)
  : option Debounced :=
  match ev with
  | Invoke t args =>
      if t <? debounceClock st then None
      else
        Some {| timeoutId := Some (nextCallTimer st);
                callTimers :=
                  clearTimeout (timeoutId st) (callTimers st)
                  ++ [(nextCallTimer st, dueTime t delay, args)];
                nextCallTimer := nextCallTimer st + 1;
                debounceClock := t;
                applied := applied st |}
  | Timeout t id =>
      match find (fun tm => fst (fst tm) =? id) (callTimers st) with
      | Some (_, due, args) =>
          if (t <? debounceClock st) || (t <? due) then None
          else
            Some {| timeoutId := timeoutId st;
                    callTimers :=
                      filter (fun tm => negb (fst (fst tm) =? id))
                             (callTimers st);
                    nextCallTimer := nextCallTimer st;
                    debounceClock := t;
                    applied := applied st ++ [(t, args)] |}
      | None => None
      end
  end.

Fixpoint debounceRun (st : Debounced) (trace : list (HostEvent Args))
  : option Debounced :=
  match trace with
  | [] => Some st
  | ev :: trace' =>
      match debounceStep st ev with
      | Some st' => debounceRun st' trace'
      | None => None
      end
  end.

(** The most recent call in a trace: when and with what. *)
Fixpoint lastInvoke (trace : list (HostEvent Args)) : option (Z * Args) :=
  match trace with
  | [] => None
  | ev :: trace' =>
      match lastInvoke trace', ev with
      | Some call, _ => Some call
      | None, Invoke t args => Some (t, args)
      | None, Timeout _ _ => None
      end
  end.

End Debounce.

Arguments Throttled : clear implicits.
Arguments Debounced : clear implicits.
Arguments debounce {Args}.
Arguments throttle {Args}.

(** What the throttle keeps true: applications lie in the past, and while
    throttled exactly one reset timer is set, due no earlier than [limit]
    after every application that returned; otherwise no timer is set and
    [limit] has passed since every application that returned. *)
Definition throttling {Args : Type} (limit : Z) (st : Throttled Args)
  : Prop :=
  Forall (fun e => fst (fst e) <= throttleClock st) (applications st)
  /\ exists bound,
       Forall (fun e => snd e = true -> fst (fst e) + limit <= bound)
              (applications st)
       /\ if inThrottle st
          then exists id, resetTimers st = [(id, bound)]
          else resetTimers st = [] /\ bound <= throttleClock st.

(** What the debounce keeps true of a state reached by [trace]: either no
    timer is set, or exactly one, the one [timeoutId] names, holding the
    arguments of the most recent call and due [delay] after it. *)
Definition debouncing {Args : Type} (delay : Z)
    (trace : list (HostEvent Args)) (st : Debounced Args) : Prop :=
  callTimers st = []
  \/ exists id t args,
       callTimers st = [(id, dueTime t delay, args)]
       /\ timeoutId st = Some id
       /\ lastInvoke trace = Some (t, args).


End Timing.

(* ================================================================== *)
(** * The bar chart: aggregation of the data into bars *)
(* ================================================================== *)

Module BarChart.

Import Types.

(** [aggregateBy?: 'category' | 'time'] *)
Inductive AggregateBy : Type :=
| ByCategory
| ByTime.

(** An entry of [aggregatedData]: [{ label, value }]. *)
Record Entry : Type := mkEntry {
  label : string;
  value : float
}.

Section Aggregation.

(** [new Date(timestamp).toLocaleTimeString()], which the host formats. *)
Variable toLocaleTimeString : Z -> string.

(** The category branch: the grouping loop over a [Map<string, number[]>],
    then one entry per key with the average of its values. *)
Definition categoryEntries (data : list DataPoint) : list Entry :=
  map (fun group : string * list float =>
         {| label := fst group; value := DataProvider.average (snd group) |})
      (fold_left (DataProvider.groupStep String.eqb category Types.value)
                 data []).

(** [Math.max(1, Math.floor(data.length / 50))] *)
Definition bucketSize (data : list DataPoint) : nat :=
  Nat.max 1 (length data / 50).

(** The loop [for (let i = 0; i < data.length; i += bucketSize)] with its
    [data.slice(i, i + bucketSize)]; [fuel] bounds the iterations. *)
Fixpoint timeBuckets (fuel : nat) (data : list DataPoint) (size i : nat)
  : list (list DataPoint) :=
  match fuel with
  | O => []
  | S fuel' =>
      if (i <? length data)%nat
      then firstn size (skipn i data)
           :: timeBuckets fuel' data size (i + size)
      else []
  end.

(** The entry pushed for one bucket: the average of its values, labelled
    with the time of [bucket[0]] (a bucket of the loop is never empty). *)
Definition timeEntry (bucket : list DataPoint) : Entry :=
  {| label := match bucket with
              | first :: _ => toLocaleTimeString (timestamp first)
              | [] => EmptyString
              end;
     value := DataProvider.average (map Types.value bucket) |}.

(** The [aggregatedData] memo. *)
Definition aggregatedData (data : list DataPoint) (aggregateBy : AggregateBy)
  : list Entry :=
  match data with
  | [] => []
  | _ =>
      match aggregateBy with
      | ByCategory => categoryEntries data
      | ByTime =>
          map timeEntry
              (timeBuckets (length data) data (bucketSize data) 0)
      end
  end.

End Aggregation.

End BarChart.

(* ================================================================== *)
(** * The data table: sorting *)
(* ================================================================== *)

Module DataTable.

Import Types.

(** [type SortField = 'timestamp' | 'value' | 'category'] and
    [type SortDirection = 'asc' | 'desc'] *)
Inductive SortField : Type :=
| Timestamp
| Value
| Category.

Inductive SortDirection : Type :=
| Asc
| Desc.

(** [aVal < bVal] for the values of the sort field: numbers compare as
    numbers, strings by UTF-16 code units. *)
Definition below (sortField : SortField) (a b : DataPoint) : bool :=
  match sortField with
  | Timestamp => timestamp a <? timestamp b
  | Value => PrimFloat.ltb (value a) (value b)
  | Category =>
      match JS.compareStrings (category a) (category b) with
      | Lt => true
      | _ => false
      end
  end.

(** The comparator of [sortedData]:
    [if (aVal < bVal) return sortDirection === 'asc' ? -1 : 1;
     if (aVal > bVal) return sortDirection === 'asc' ? 1 : -1;
     return 0]. *)
Definition compareRows (sortField : SortField)
    (sortDirection : SortDirection) (a b : DataPoint) : Z :=
  if below sortField a b then
    match sortDirection with Asc => -1 | Desc => 1 end
  else if below sortField b a then
    match sortDirection with Asc => 1 | Desc => -1 end
  else 0.

(** The [sortedData] memo: a sorted copy of [data]. *)
Definition sortedData (data : list DataPoint) (sortField : SortField)
    (sortDirection : SortDirection) : list DataPoint :=
  JS.sort (compareRows sortField sortDirection) data.

(** The two state variables, with their initial values. *)
Record SortState : Type := mkSortState {
  sortField : SortField;
  sortDirection : SortDirection
}.

Definition initialSort : SortState :=
  {| sortField := Timestamp; sortDirection := Desc |}.

Definition sameField (a b : SortField) : bool :=
  match a, b with
  | Timestamp, Timestamp | Value, Value | Category, Category => true
  | _, _ => false
  end.

(** [handleSort(field)]: the same field toggles the direction, another
    field starts ascending. *)
Definition handleSort (field : SortField) (st : SortState) : SortState :=
  if sameField (sortField st) field then
    {| sortField := sortField st;
       sortDirection := match sortDirection st with
                        | Asc => Desc
                        | Desc => Asc
                        end |}
  else {| sortField := field; sortDirection := Asc |}.

End DataTable.

(* ================================================================== *)
(** * The line chart and the scatter plot: from data to canvas points *)
(* ================================================================== *)

Module Charts.

Import Types.

(** A timestamp, an integer number of milliseconds, as a number. *)
Definition number (z : Z) : float :=
  if z <? 0 then (- PrimFloat.of_uint63 (Uint63.of_Z (- z)))%float
  else PrimFloat.of_uint63 (Uint63.of_Z z).

Definition isNegativeZero (x : float) : bool :=
  PrimFloat.is_zero x && PrimFloat.get_sign x.

Definition isPositiveZero (x : float) : bool :=
  PrimFloat.is_zero x && negb (PrimFloat.get_sign x).

(** [Math.min(...values)]: from [+Infinity], a NaN makes the result NaN,
    [-0] is below [+0], a smaller number replaces the lowest. *)
Definition Math_min (values : list float) : float :=
  fold_left
    (fun lowest x =>
       if PrimFloat.is_nan lowest then lowest
       else if PrimFloat.is_nan x then x
       else if isNegativeZero x && isPositiveZero lowest then x
       else if (x <? lowest)%float then x
       else lowest)
    values infinity.

(** [Math.max(...values)]: from [-Infinity], symmetrically. *)
Definition Math_max (values : list float) : float :=
  fold_left
    (fun highest x =>
       if PrimFloat.is_nan highest then highest
       else if PrimFloat.is_nan x then x
       else if isPositiveZero x && isNegativeZero highest then x
       else if (highest <? x)%float then x
       else highest)
    values neg_infinity.

(** What [dataBounds] returns: [{ xMin, xMax, yMin, yMax }]. *)
Record DataBounds : Type := mkDataBounds {
  xMin : float;
  xMax : float;
  yMin : float;
  yMax : float
}.

(** The bounds of a chart without data. *)
Definition emptyBounds : DataBounds :=
  {| xMin := 0; xMax := 1; yMin := 0; yMax := 100 |}.

(** The initial [viewport] state of both charts. *)
Definition initialViewport : CanvasUtils.ChartViewport float :=
  {| CanvasUtils.xMin := 0%float; CanvasUtils.xMax := 1%float;
     CanvasUtils.yMin := 0%float; CanvasUtils.yMax := 100%float;
     CanvasUtils.scale := 1%float |}.

(** The effect [setViewport((prev) => ({ ...prev, ...dataBounds }))]. *)
Definition withBounds (prev : CanvasUtils.ChartViewport float)
    (dataBounds : DataBounds) : CanvasUtils.ChartViewport float :=
  {| CanvasUtils.xMin := xMin dataBounds;
     CanvasUtils.xMax := xMax dataBounds;
     CanvasUtils.yMin := yMin dataBounds;
     CanvasUtils.yMax := yMax dataBounds;
     CanvasUtils.scale := CanvasUtils.scale prev |}.

(** The size the canvas context caches. *)
Record CanvasSize : Type := mkCanvasSize {
  width : float;
  height : float
}.

(** [const padding = { top: 20, right: 20, bottom: 40, left: 60 }] *)
Definition padding : CanvasUtils.Padding float :=
  {| CanvasUtils.top := 20%float; CanvasUtils.right := 20%float;
     CanvasUtils.bottom := 40%float; CanvasUtils.left := 60%float |}.

(** The [canvasPoints] memo of both charts: no points before the canvas is
    ready, then one [dataToCanvas] per point. *)
Definition canvasPoints (canvasContext : option CanvasSize)
    (data : list DataPoint) (viewport : CanvasUtils.ChartViewport float)
  : list (float * float) :=
  match canvasContext with
  | None => []
  | Some size =>
      map (fun point =>
             CanvasUtils.dataToCanvas (H := CanvasUtils.float_arith)
               (number (timestamp point)) (value point) viewport
               (width size) (height size) padding)
          data
  end.

End Charts.

Module LineChart.

Import Types Charts.

(** [if (!category) return data;
     return data.filter((point) => point.category === category)]:
    a missing and an empty category are falsy. *)
Definition filteredData (data : list DataPoint) (category : option string)
  : list DataPoint :=
  match category with
  | None => data
  | Some c =>
      if String.eqb c EmptyString then data
      else filter (fun point => String.eqb (Types.category point) c) data
  end.

(** The [dataBounds] memo, with its 10% padding in y. *)
Definition dataBounds (filteredData : list DataPoint) : DataBounds :=
  match filteredData with
  | [] => emptyBounds
  | _ =>
      let timestamps := map (fun d => number (timestamp d)) filteredData in
      let values := map value filteredData in
      let xMin := Math_min timestamps in
      let xMax := Math_max timestamps in
      let yMin := Math_min values in
      let yMax := Math_max values in
      let yPadding := ((yMax - yMin) * 0x1.999999999999ap-4)%float in
      {| xMin := xMin;
         xMax := xMax;
         yMin := Math_max [0%float; (yMin - yPadding)%float];
         yMax := (yMax + yPadding)%float |}
  end.

End LineChart.

Module ScatterPlot.

Import Types Charts.

(** The [dataBounds] memo. *)
Definition dataBounds (data : list DataPoint) : DataBounds :=
  match data with
  | [] => emptyBounds
  | _ =>
      let timestamps := map (fun d => number (timestamp d)) data in
      let values := map value data in
      {| xMin := Math_min timestamps;
         xMax := Math_max timestamps;
         yMin := Math_min values;
         yMax := Math_max values |}
  end.

End ScatterPlot.

(* ================================================================== *)
(** * hooks/useVirtualization.ts *)
(* ================================================================== *)

Module Virtualization.

Import Charts.

(** [Math.floor]: a number without a fraction (exponent [>= 0]), a zero,
    an infinity and NaN are returned as they are; otherwise the integer
    below [(-1)^s * m * 2^e], which is less than [2^53] in magnitude. *)
Definition Math_floor (x : float) : float :=
  match Prim2SF x with
  | S754_finite s m e =>
      if 0 <=? e then x
      else number (cond_Zopp s (Z.pos m) / 2 ^ (- e))
  | _ => x
  end.

(** [Math.ceil]: likewise the integer above; a number in [(-1, 0)] gives
    [-0]. *)
Definition Math_ceil (x : float) : float :=
  match Prim2SF x with
  | S754_finite s m e =>
      if 0 <=? e then x
      else
        let z := - (- cond_Zopp s (Z.pos m) / 2 ^ (- e)) in
        if z =? 0 then neg_zero else number z
  | _ => x
  end.

(** What the [visibleRange] memo returns: [{ startIndex, endIndex }]. *)
Record VisibleRange : Type := mkRange {
  startIndex : float;
  endIndex : float
}.

(** The [visibleRange] memo of [useVirtualization], on JavaScript
    numbers. *)
Definition visibleRange
    (scrollTop itemHeight containerHeight totalItems overscan : float)
  : VisibleRange :=
  let startIndex := Math_floor (scrollTop / itemHeight) in
  let endIndex := Math_ceil ((scrollTop + containerHeight) / itemHeight) in
  let startWithOverscan :=
    Math_max [0%float; (startIndex - overscan)%float] in
  let endWithOverscan :=
    Math_min [(totalItems - 1)%float; (endIndex + overscan)%float] in
  {| startIndex := startWithOverscan; endIndex := endWithOverscan |}.

(** One entry of [virtualItems]: [{ index: i, offsetTop: i * itemHeight }] *)
Record VirtualItem : Type := mkVirtualItem {
  index : float;
  offsetTop : float
}.

(** The loop of [virtualItems]:
    [for (let i = visibleRange.startIndex; i <= visibleRange.endIndex; i++)
       items.push({ index: i, offsetTop: i * itemHeight });]
    [fuel] bounds the number of iterations. *)
Fixpoint pushItems (fuel : nat) (i endIndex itemHeight : float)
    (items : list VirtualItem) : option (list VirtualItem) :=
  if (i <=? endIndex)%float then
    match fuel with
    | O => None
    | S fuel' =>
        pushItems fuel' (i + 1)%float endIndex itemHeight
                  (items ++ [{| index := i;
                                offsetTop := (i * itemHeight)%float |}])
    end
  else Some items.

(** The [virtualItems] memo of [useVirtualization]. *)
Definition virtualItems (fuel : nat) (visibleRange : VisibleRange)
    (itemHeight : float) : option (list VirtualItem) :=
  pushItems fuel (startIndex visibleRange) (endIndex visibleRange)
            itemHeight [].

End Virtualization.

(* ================================================================== *)
(** * hooks/useVirtualization.ts: items of variable height *)
(* ================================================================== *)

Module DynamicHeight.

(** What the [visibleRange] memo returns: [{ startIndex, endIndex }], two
    indices. *)
Record VisibleRange : Type := mkRange {
  startIndex : Z;
  endIndex : Z
}.

(** [for (let i = startIndex; i <= endIndex; i++) items.push(...)]: the
    indices of the materialized items. *)
Definition virtualIndices (r : VisibleRange) : list Z :=
  map (fun k => startIndex r + Z.of_nat k)
      (seq 0 (Z.to_nat (endIndex r - startIndex r + 1))).

(** [arr[i]] for a number [i]: [undefined] outside the array. *)
Definition lookup (arr : list float) (i : Z) : option float :=
  if i <? 0 then None else nth_error arr (Z.to_nat i).

(** [a < x] where [a] may be [undefined]: a comparison with [undefined] is
    false, and so is one with NaN. *)
Definition lessThan (a : option float) (x : float) : bool :=
  match a with
  | Some v => (v <? x)%float
  | None => false
  end.

(** [cumulativeHeights]:
    [const heights = [0];
     for (let i = 0; i < itemHeights.length; i++)
       heights.push(heights[i] + itemHeights[i]);]
    [pushHeights heights i rest] is the loop at index [i] with [rest] the
    item heights from [i] on. *)
Fixpoint pushHeights (heights : list float) (i : nat) (rest : list float)
  : list float :=
  match rest with
  | [] => heights
  | h :: rest' =>
      pushHeights (heights ++ [(nth i heights 0 + h)%float]) (S i) rest'
  end.

Definition cumulativeHeights (itemHeights : list float) : list float :=
  pushHeights [0%float] 0 itemHeights.

(** [totalHeight]: [cumulativeHeights[cumulativeHeights.length - 1]] *)
Definition totalHeight (itemHeights : list float) : option float :=
  lookup (cumulativeHeights itemHeights)
         (Z.of_nat (length (cumulativeHeights itemHeights)) - 1).

(** The loop of [findStartIndex]:
    [while (left < right) {
       const mid = Math.floor((left + right) / 2);
       if (cumulativeHeights[mid] < scrollTop) left = mid + 1;
       else right = mid;
     }]
    [fuel] bounds the number of iterations. *)
Fixpoint bisect (fuel : nat) (cumulative : list float) (scrollTop : float)
    (left right : Z) : option Z :=
  if left <? right then
    match fuel with
    | O => None
    | S fuel' =>
        let mid := (left + right) / 2 in
        if lessThan (lookup cumulative mid) scrollTop
        then bisect fuel' cumulative scrollTop (mid + 1) right
        else bisect fuel' cumulative scrollTop left mid
    end
  else Some left.

(** [findStartIndex(scrollTop)], ending in [Math.max(0, left - 1)]. *)
Definition findStartIndex (cumulative : list float) (scrollTop : float)
  : option Z :=
  match bisect (length cumulative) cumulative scrollTop
               0 (Z.of_nat (length cumulative) - 1) with
  | Some found => Some (Z.max 0 (found - 1))
  | None => None
  end.

(** The loop of [visibleRange]:
    [while (currentHeight < scrollTop + containerHeight &&
            endIndex < itemHeights.length - 1) {
       endIndex++;
       currentHeight = cumulativeHeights[endIndex + 1];
     }] *)
Fixpoint extend (fuel : nat) (cumulative : list float) (bottom : float)
    (count : Z) (endIndex : Z) (currentHeight : option float) : option Z :=
  if lessThan currentHeight bottom && (endIndex <? count - 1) then
    match fuel with
    | O => None
    | S fuel' =>
        extend fuel' cumulative bottom count (endIndex + 1)
               (lookup cumulative (endIndex + 1 + 1))
    end
  else Some endIndex.

(** [visibleRange] of [useVirtualizationWithDynamicHeight]; the overscan is
    a number of items. *)
Definition visibleRange (itemHeights : list float)
    (scrollTop containerHeight : float) (overscan : Z)
  : option VisibleRange :=
  let cumulative := cumulativeHeights itemHeights in
  let count := Z.of_nat (length itemHeights) in
  match findStartIndex cumulative scrollTop with
  | None => None
  | Some start =>
      match extend (length itemHeights) cumulative
                   (scrollTop + containerHeight)%float count
                   start (lookup cumulative start) with
      | None => None
      | Some endIndex =>
          Some {| startIndex := Z.max 0 (start - overscan);
                  endIndex := Z.min (count - 1) (endIndex + overscan) |}
      end
  end.

(** One entry of [virtualItems]:
    [{ index: i, offsetTop: cumulativeHeights[i], height: itemHeights[i] }] *)
Record VirtualItem : Type := mkVirtualItem {
  index : Z;
  offsetTop : option float;
  height : option float
}.

Definition virtualItems (itemHeights : list float) (range : VisibleRange)
  : list VirtualItem :=
  map (fun i => {| index := i;
                   offsetTop := lookup (cumulativeHeights itemHeights) i;
                   height := lookup itemHeights i |})
      (virtualIndices range).

(** The offsets that follow an offset [a]: each adds the next height. *)
Fixpoint offsetsFrom (a : float) (heights : list float) : list float :=
  match heights with
  | [] => []
  | h :: rest => (a + h)%float :: offsetsFrom (a + h)%float rest
  end.

(** [a <= b], as the program compares numbers. *)
Definition notAbove (a b : float) : Prop := (a <=? b)%float = true.

(** Non-decreasing from one index to the next ones. *)
Definition ascending (arr : list float) : Prop :=
  forall i j a b,
    0 <= i <= j -> lookup arr i = Some a -> lookup arr j = Some b ->
    notAbove a b.

End DynamicHeight.

(* ================================================================== *)
(** * The dashboard: what is displayed, and the load controls *)
(* ================================================================== *)

Module Dashboard.

Import Types DataProvider Filtering.



(** The initial [dataPointCount] and its two updaters:
    [Math.min(prev + 10000, 100000)] and [Math.max(prev - 10000, 1000)]. *)
Definition initialDataPointCount : Z := 10000.

Definition increaseLoad (prev : Z) : Z := Z.min (prev + 10000) 100000.

Definition decreaseLoad (prev : Z) : Z := Z.max (prev - 10000) 1000.

(** A press of one of the two load buttons. *)
Inductive LoadButton : Type :=
| Increase
| Decrease.

Definition press (count : Z) (button : LoadButton) : Z :=
  match button with
  | Increase => increaseLoad count
  | Decrease => decreaseLoad count
  end.

End Dashboard.

(* ================================================================== *)
(** * lib/canvasUtils.ts: drawing primitives *)
(* ================================================================== *)

Module Canvas2D.

(** The part of the drawing state of a [CanvasRenderingContext2D] the
    primitives set: [save()] pushes a copy of it, [restore()] pops one. *)
Record DrawingState : Type := mkDrawingState {
  strokeStyle : string;
  fillStyle : string;
  lineWidth : float;
  lineCap : string;
  lineJoin : string
}.

(** The calls a path has accepted. *)
Inductive PathStep : Type :=
| MoveTo (x y : float)
| LineTo (x y : float)
| Arc (x y radius startAngle endAngle : float).

(** What reaches the bitmap, with the drawing state it was painted in. *)
Inductive Painted : Type :=
| Stroked (path : list PathStep) (style : DrawingState)
| Filled (path : list PathStep) (style : DrawingState)
| FilledRect (x y width height : float) (style : DrawingState).

(** The context: the drawing state, the stack of saved states, the current
    default path (not part of the drawing state) and what has been
    painted. *)
Record Context : Type := mkContext {
  current : DrawingState;
  saved : list DrawingState;
  path : list PathStep;
  painted : list Painted
}.

(** The exception [arc] raises for a negative radius. *)
Definition IndexSizeError : JS.Error := JS.UserError "IndexSizeError".

(** Neither infinite nor NaN. *)
Definition finite (v : float) : bool := PrimFloat.is_finite v.

Definition save (ctx : Context) : Context :=
  {| current := current ctx; saved := current ctx :: saved ctx;
     path := path ctx; painted := painted ctx |}.

(** [restore()] with nothing saved does nothing. *)
Definition restore (ctx : Context) : Context :=
  match saved ctx with
  | [] => ctx
  | top :: below =>
      {| current := top; saved := below; path := path ctx;
         painted := painted ctx |}
  end.

Definition setState (f : DrawingState -> DrawingState) (ctx : Context)
  : Context :=
  {| current := f (current ctx); saved := saved ctx; path := path ctx;
     painted := painted ctx |}.

Section Host.

(** Whether a string parses as a CSS colour; the parser is the host's. *)
Variable isColor : string -> bool.

(** The setters of the styles ignore a string that is no colour. *)
Definition set_strokeStyle (v : string) (ctx : Context) : Context :=
  if isColor v then
    setState (fun s => {| strokeStyle := v; fillStyle := fillStyle s;
                          lineWidth := lineWidth s; lineCap := lineCap s;
                          lineJoin := lineJoin s |}) ctx
  else ctx.

Definition set_fillStyle (v : string) (ctx : Context) : Context :=
  if isColor v then
    setState (fun s => {| strokeStyle := strokeStyle s; fillStyle := v;
                          lineWidth := lineWidth s; lineCap := lineCap s;
                          lineJoin := lineJoin s |}) ctx
  else ctx.

End Host.

(** A line width the setter accepts: zero, negative, infinite and NaN
    values are ignored. *)
Definition acceptedWidth (v : float) : bool :=
  finite v && PrimFloat.ltb 0 v.

Definition set_lineWidth (v : float) (ctx : Context) : Context :=
  if acceptedWidth v then
    setState (fun s => {| strokeStyle := strokeStyle s;
                          fillStyle := fillStyle s;
                          lineWidth := v; lineCap := lineCap s;
                          lineJoin := lineJoin s |}) ctx
  else ctx.

Definition oneOf (keywords : list string) (v : string) : bool :=
  existsb (String.eqb v) keywords.

(** [lineCap] and [lineJoin] are enumerations: another string is
    ignored. *)
Definition set_lineCap (v : string) (ctx : Context) : Context :=
  if oneOf ["butt"; "round"; "square"]%string v then
    setState (fun s => {| strokeStyle := strokeStyle s;
                          fillStyle := fillStyle s;
                          lineWidth := lineWidth s; lineCap := v;
                          lineJoin := lineJoin s |}) ctx
  else ctx.

Definition set_lineJoin (v : string) (ctx : Context) : Context :=
  if oneOf ["round"; "bevel"; "miter"]%string v then
    setState (fun s => {| strokeStyle := strokeStyle s;
                          fillStyle := fillStyle s;
                          lineWidth := lineWidth s; lineCap := lineCap s;
                          lineJoin := v |}) ctx
  else ctx.

Definition beginPath (ctx : Context) : Context :=
  {| current := current ctx; saved := saved ctx; path := [];
     painted := painted ctx |}.

(** The path methods, on the steps of a path ([Path2D] and the default path
    of the context share them).  [moveTo] and [lineTo] return at once when
    a coordinate is infinite or NaN. *)
Definition pathMoveTo (x y : float) (steps : list PathStep)
  : list PathStep :=
  if finite x && finite y then steps ++ [MoveTo x y] else steps.

Definition pathLineTo (x y : float) (steps : list PathStep)
  : list PathStep :=
  if finite x && finite y then steps ++ [LineTo x y] else steps.

(** [arc] returns at once when an argument is infinite or NaN, and
    otherwise throws for a negative radius. *)
Definition pathArc (x y radius startAngle endAngle : float)
    (steps : list PathStep) : JS.completion (list PathStep) :=
  if finite x && finite y && finite radius && finite startAngle
     && finite endAngle
  then
    if PrimFloat.ltb radius 0 then JS.Throw IndexSizeError
    else JS.Normal (steps ++ [Arc x y radius startAngle endAngle])
  else JS.Normal steps.

Definition moveTo (x y : float) (ctx : Context) : Context :=
  {| current := current ctx; saved := saved ctx;
     path := pathMoveTo x y (path ctx); painted := painted ctx |}.

Definition lineTo (x y : float) (ctx : Context) : Context :=
  {| current := current ctx; saved := saved ctx;
     path := pathLineTo x y (path ctx); painted := painted ctx |}.

Definition stroke (ctx : Context) : Context :=
  {| current := current ctx; saved := saved ctx; path := path ctx;
     painted := painted ctx ++ [Stroked (path ctx) (current ctx)] |}.

(** [ctx.fill(path)] for a [Path2D]. *)
Definition fill (path2D : list PathStep) (ctx : Context) : Context :=
  {| current := current ctx; saved := saved ctx; path := path ctx;
     painted := painted ctx ++ [Filled path2D (current ctx)] |}.

(** [fillRect] paints nothing when an argument is infinite or NaN, or when
    the width or the height is zero. *)
Definition paintsRect (x y width height : float) : bool :=
  finite x && finite y && finite width && finite height
  && negb (PrimFloat.eqb width 0) && negb (PrimFloat.eqb height 0).

Definition fillRect (x y width height : float) (ctx : Context) : Context :=
  if paintsRect x y width height then
    {| current := current ctx; saved := saved ctx; path := path ctx;
       painted := painted ctx
                  ++ [FilledRect x y width height (current ctx)] |}
  else ctx.

(** [Math.PI * 2] *)
Definition twoPi : float := 0x1.921fb54442d18p+2%float.

(** A bar: [{ x, y, width, height }]. *)
Record Bar : Type := mkBar {
  x : float;
  y : float;
  width : float;
  height : float
}.

(** The loop of [drawPoints]:
    [for (const [x, y] of points) {
       path.moveTo(x + radius, y); path.arc(x, y, radius, 0, Math.PI * 2) }];
    a throw of [arc] leaves the loop. *)
Fixpoint circles (points : list (float * float)) (radius : float)
    (steps : list PathStep) : JS.completion (list PathStep) :=
  match points with
  | [] => JS.Normal steps
  | p :: rest =>
      let steps := pathMoveTo (fst p + radius)%float (snd p) steps in
      match pathArc (fst p) (snd p) radius 0%float twoPi steps with
      | JS.Normal steps => circles rest radius steps
      | JS.Throw e => JS.Throw e
      end
  end.

Section Primitives.

Variable isColor : string -> bool.

(** [drawLine(ctx, points, color, lineWidth)] *)
Definition drawLine (ctx : Context) (points : list (float * float))
    (color : string) (width : float) : Context :=
  if (length points <? 2)%nat then ctx
  else
    let ctx := save ctx in
    let ctx := set_strokeStyle isColor color ctx in
    let ctx := set_lineWidth width ctx in
    let ctx := set_lineCap "round" ctx in
    let ctx := set_lineJoin "round" ctx in
    let ctx := beginPath ctx in
    match points with
    | [] => ctx
    | first :: rest =>
        let ctx := moveTo (fst first) (snd first) ctx in
        let ctx :=
          fold_left (fun c p => lineTo (fst p) (snd p) c) rest ctx in
        let ctx := stroke ctx in
        restore ctx
    end.

(** [drawPoints(ctx, points, color, radius)]: there is no [try], so a throw
    of [arc] leaves the function before [fill] and [restore]. *)
Definition drawPoints (ctx : Context) (points : list (float * float))
    (color : string) (radius : float) : Context * JS.completion unit :=
  let ctx := save ctx in
  let ctx := set_fillStyle isColor color ctx in
  match circles points radius [] with
  | JS.Throw e => (ctx, JS.Throw e)
  | JS.Normal path2D =>
      let ctx := fill path2D ctx in
      (restore ctx, JS.Normal tt)
  end.

(** [drawBars(ctx, bars, color)] *)
Definition drawBars (ctx : Context) (bars : list Bar) (color : string)
  : Context :=
  let ctx := save ctx in
  let ctx := set_fillStyle isColor color ctx in
  let ctx :=
    fold_left
      (fun c bar => fillRect (x bar) (y bar) (width bar) (height bar) c)
      bars ctx in
  restore ctx.

End Primitives.

(** What [drawLine] adds to the path for a point, and what the loop of
    [drawPoints] adds. *)
Definition lineStep (start : bool) (p : float * float) : list PathStep :=
  if finite (fst p) && finite (snd p) then
    [if start then MoveTo (fst p) (snd p) else LineTo (fst p) (snd p)]
  else [].

Definition circleSteps (radius : float) (p : float * float)
  : list PathStep :=
  (if finite (fst p + radius)%float && finite (snd p)
   then [MoveTo (fst p + radius)%float (snd p)] else [])
  ++ (if finite (fst p) && finite (snd p) && finite radius
      then [Arc (fst p) (snd p) radius 0%float twoPi] else []).

(** [arc] throws for this point and radius. *)
Definition arcThrows (radius : float) (p : float * float) : bool :=
  finite (fst p) && finite (snd p) && finite radius
  && PrimFloat.ltb radius 0.

End Canvas2D.

(* ================================================================== *)
(** * Binary64 numbers and their values *)
(* ================================================================== *)

Module Binary64.

(** [2^e] for any integer [e]. *)
Definition pow2 (e : Z) : Q := (2 ^ e)%Q.

(** The value of a binary64 number; an infinity counts as [2^1024], the
    first power of two that is out of range, and NaN as 0. *)
Definition rank (s : spec_float) : Q :=
  match s with
  | S754_zero _ => 0
  | S754_finite sg m e =>
      (if sg then -1 else 1) * (inject_Z (Z.pos m) * pow2 e)
  | S754_infinity sg => (if sg then -1 else 1) * pow2 1024
  | S754_nan => 0
  end%Q.

(** The value of a JavaScript number. *)
Definition valueOf (x : float) : Q := rank (Prim2SF x).

Definition notNaN (s : spec_float) : Prop := s <> S754_nan.

(** Neither an infinity nor NaN. *)
Definition finiteSF (s : spec_float) : bool :=
  match s with
  | S754_zero _ | S754_finite _ _ _ => true
  | _ => false
  end.

(** The record a rounding works on holds the number [t]: [t] lies in
    [[m, m+1)], the round bit says whether its fraction reaches one half,
    the sticky bit whether it is neither zero nor one half. *)
Definition located (t : Q) (mrs : shr_record) : Prop :=
  (inject_Z (shr_m mrs) <= t < inject_Z (shr_m mrs) + 1)%Q
  /\ (shr_r mrs = true <-> (inject_Z (shr_m mrs) + (1 # 2) <= t)%Q)
  /\ (shr_s mrs = true
      <-> ~ (t == inject_Z (shr_m mrs))%Q
          /\ ~ (t == inject_Z (shr_m mrs) + (1 # 2))%Q).

(** [r] is the binary64 number that [x >= 0] rounds to on the grid of
    step [2^E]: [N] is [x / 2^E] rounded to the nearest integer, and [r] is
    [N * 2^E], or [+Infinity] when that is out of range.  Above the
    subnormal range the grid is the one of the 53-bit significands. *)
Definition rounded (x : Q) (E : Z) (r : spec_float) : Prop :=
  exists N : Z,
    0 <= N <= 2 ^ 53
    /\ (inject_Z N - (1 # 2) <= x * pow2 (- E) <= inject_Z N + (1 # 2))%Q
    /\ (forall K : Z, (x * pow2 (- E) <= inject_Z K)%Q -> N <= K)
    /\ (forall K : Z, (inject_Z K <= x * pow2 (- E))%Q -> K <= N)
    /\ (-1074 < E -> 2 ^ 52 <= N /\ (inject_Z (2 ^ 52) <= x * pow2 (- E))%Q)
    /\ ((r = S754_zero false /\ N = 0)
        \/ (exists (p : positive) (E2 : Z),
              r = S754_finite false p E2
              /\ (inject_Z (Z.pos p) * pow2 E2 == inject_Z N * pow2 E)%Q)
        \/ (r = S754_infinity false
            /\ (pow2 1024 <= inject_Z N * pow2 E)%Q)).

(** [1 - 2^-53]: a rounding in the normal range does not take a number
    below this fraction of it. *)
Definition ulpError : Q := 1 - (1 # 9007199254740992).

(** [z] is the binary64 result of an operation whose exact result is [X]:
    the rounding of [X], with its sign; in the subnormal range a sum is
    exact. *)
Definition sumOf (X : Q) (z : spec_float) : Prop :=
  ((0 < X)%Q ->
   exists E, rounded X E z /\ (-1074 < E \/ (rank z == X)%Q))
  /\ ((X < 0)%Q ->
      exists E z', z = SFopp z' /\ rounded (- X) E z'
                   /\ (-1074 < E \/ (rank z' == - X)%Q))
  /\ ((X == 0)%Q -> exists s, z = S754_zero s).

(** [2^-53]: the relative error of a rounding in the normal range is at
    most this. *)
Definition unitRoundoff : Q := 1 # 9007199254740992.

(** [2^-1075]: the error of a rounding in the subnormal range is at most
    this. *)
Definition tiny : Q := pow2 (-1075).

(** [z] is the binary64 result of an operation whose exact result is [X]:
    the rounding of [X], with its sign. *)
Definition roundingOf (X : Q) (z : spec_float) : Prop :=
  ((0 < X)%Q -> exists E, rounded X E z)
  /\ ((X < 0)%Q -> exists E z', z = SFopp z' /\ rounded (- X) E z')
  /\ ((X == 0)%Q -> exists s, z = S754_zero s).

(** The number [x] is the integer [z]. *)
Definition wholeNumber (x : float) (z : Z) : Prop :=
  finiteSF (Prim2SF x) = true /\ (valueOf x == inject_Z z)%Q.

End Binary64.

(** The tolerance of a round trip through the canvas for the coordinate
    [v] on an axis that starts at [lo] and has the extent [extent], the
    plot area starting [pad] pixels into the canvas and being [plot] pixels
    long:
    [2^-49 * (|v - lo| + |v| + extent * (1 + |pad| / plot))
     + 2^-1073 * (1 + extent * (1 + 1 / plot))]. *)
Definition tolerance (v lo extent pad plot : Q) : Q :=
  ((1 # 562949953421312)
   * (Qabs (v - lo) + Qabs v + extent * (1 + Qabs pad / plot))
   + Binary64.pow2 (-1073) * (1 + extent * (1 + 1 / plot)))%Q.

(* ================================================================== *)
(** * Facts about the runtime pieces *)
(* ================================================================== *)

Section SortFacts.

Context {A : Type}.

(** Sorting by a numeric key: the comparator is [(a, b) => key a - key b]. *)
Variable key : A -> Z.

Let compareFn (a b : A) : Z := key a - key b.

Lemma insert_perm (x : A) (l : list A) :
  Permutation (JS.insert compareFn x l) (x :: l).
Proof.
  induction l as [| y l IH]; simpl.
  - apply Permutation_refl.
  - destruct (compareFn x y <=? 0).
    + apply Permutation_refl.
    + apply perm_trans with (y :: x :: l).
      * now apply perm_skip.
      * apply perm_swap.
Qed.

Lemma sort_perm (l : list A) : Permutation (JS.sort compareFn l) l.
Proof.
  induction l as [| x l IH]; simpl.
  - apply perm_nil.
  - apply perm_trans with (x :: JS.sort compareFn l).
    + apply insert_perm.
    + now apply perm_skip.
Qed.

Lemma insert_sorted (x : A) (l : list A) :
  sortedBy key l -> sortedBy key (JS.insert compareFn x l).
Proof.
  unfold sortedBy.
  induction l as [| y l IH]; simpl; intros Hs.
  - constructor; [constructor | constructor].
  - inversion Hs as [| ? ? Hl Hy]; subst.
    destruct (compareFn x y <=? 0) eqn:Hc; unfold compareFn in Hc.
    + apply Z.leb_le in Hc.
      constructor; [assumption |].
      constructor; [lia |].
      rewrite Forall_forall in Hy |- *.
      intros z Hz. specialize (Hy z Hz). lia.
    + apply Z.leb_gt in Hc.
      constructor; [now apply IH |].
      rewrite Forall_forall in Hy |- *.
      intros z Hz.
      apply (Permutation_in _ (insert_perm x l)) in Hz.
      destruct Hz as [-> | Hz]; [lia | now apply Hy].
Qed.

Lemma sort_sorted (l : list A) : sortedBy key (JS.sort compareFn l).
Proof.
  induction l as [| x l IH]; simpl.
  - constructor.
  - now apply insert_sorted.
Qed.

(** Stability: elements with the same key keep their arrival order. *)
Lemma insert_stable (t : Z) (x : A) (l : list A) :
  filter (fun a => key a =? t) (JS.insert compareFn x l)
  = filter (fun a => key a =? t) (x :: l).
Proof.
  induction l as [| y l IH]; [reflexivity |].
  cbn [JS.insert].
  destruct (compareFn x y <=? 0) eqn:Hc; [reflexivity |].
  unfold compareFn in Hc. apply Z.leb_gt in Hc.
  cbn [filter] in IH |- *. rewrite IH.
  destruct (key x =? t) eqn:Hx; [| reflexivity].
  apply Z.eqb_eq in Hx.
  destruct (key y =? t) eqn:Hy; [| reflexivity].
  apply Z.eqb_eq in Hy. lia.
Qed.

Lemma sort_stable (t : Z) (l : list A) :
  filter (fun a => key a =? t) (JS.sort compareFn l)
  = filter (fun a => key a =? t) l.
Proof.
  induction l as [| x l IH]; [reflexivity |].
  cbn [JS.sort]. rewrite insert_stable.
  cbn [filter]. now rewrite IH.
Qed.

Lemma sortedBy_app_inv (l1 l2 : list A) :
  sortedBy key (l1 ++ l2) ->
  sortedBy key l2 /\ forall a b, In a l1 -> In b l2 -> key a <= key b.
Proof.
  unfold sortedBy.
  induction l1 as [| x l1 IH]; simpl; intros Hs.
  - split; [assumption | intros a b []].
  - inversion Hs as [| ? ? Hl Hx]; subst.
    destruct (IH Hl) as [H2 Hle].
    split; [assumption |].
    intros a b [<- | Ha] Hb.
    + rewrite Forall_forall in Hx. apply Hx, in_or_app. now right.
    + now apply Hle.
Qed.

End SortFacts.

Section SliceFacts.

Context {A : Type}.

Lemma slice_last_suffix (n : nat) (l : list A) :
  exists dropped, l = dropped ++ JS.slice_last n l.
Proof.
  destruct n as [| n]; unfold JS.slice_last.
  - now exists [].
  - exists (firstn (length l - S n) l). symmetry. apply firstn_skipn.
Qed.

Lemma slice_last_length (n : nat) (l : list A) :
  (0 < n)%nat -> length (JS.slice_last n l) = Nat.min n (length l).
Proof.
  destruct n as [| n]; [lia |].
  intros _. unfold JS.slice_last. rewrite length_skipn. lia.
Qed.

End SliceFacts.

(* ================================================================== *)
(** * The stream buffer *)
(* ================================================================== *)

Section StreamBuffer.

Import Types DataProvider.

Lemma combined_sorted (l : list DataPoint) :
  chronological (JS.sort byTimestamp l).
Proof. exact (sort_sorted timestamp l). Qed.

Lemma sort_of_sorted {T : Type} (key : T -> Z) (l : list T) :
  sortedBy key l -> JS.sort (fun a b => key a - key b) l = l.
Proof.
  unfold sortedBy. induction 1 as [| x l Hs IH Hx]; [reflexivity |].
  cbn [JS.sort]. rewrite IH.
  destruct l as [| y l]; [reflexivity |].
  cbn [JS.insert].
  rewrite Forall_forall in Hx. specialize (Hx y (or_introl eq_refl)).
  assert (Hle : (key x - key y <=? 0) = true) by (apply Z.leb_le; lia).
  now rewrite Hle.
Qed.

Lemma slice_last_all {T : Type} (n : nat) (l : list T) :
  (length l <= n)%nat -> JS.slice_last n l = l.
Proof.
  intros H. unfold JS.slice_last. destruct n as [| n]; [reflexivity |].
  replace (length l - S n)%nat with 0%nat by lia. reflexivity.
Qed.


(** The last [n] entries of the sorted concatenation, whatever [n] is. *)
Lemma sorted_split (n : nat) (prev newData : list DataPoint) :
  exists evicted,
    JS.sort byTimestamp (prev ++ newData)
    = evicted ++ JS.slice_last n (JS.sort byTimestamp (prev ++ newData)).
Proof. apply slice_last_suffix. Qed.

Lemma sorted_tail_length (n : nat) (prev newData : list DataPoint) :
  (0 < n)%nat ->
  length (JS.slice_last n (JS.sort byTimestamp (prev ++ newData)))
  = Nat.min n (length prev + length newData).
Proof.
  intros Hc. unfold byTimestamp.
  rewrite (slice_last_length _ _ Hc).
  rewrite (Permutation_length (sort_perm timestamp (prev ++ newData))).
  now rewrite length_app.
Qed.

Lemma window_positive : (0 < 10000)%nat.
Proof. apply Nat.ltb_lt. vm_compute. reflexivity. Qed.

Lemma addData_split (prev newData : list DataPoint) :
  exists evicted,
    JS.sort byTimestamp (prev ++ newData) = evicted ++ addData prev newData.
Proof. apply sorted_split. Qed.

Lemma addData_length (prev newData : list DataPoint) :
  length (addData prev newData)
  = Nat.min 10000 (length prev + length newData).
Proof. apply sorted_tail_length, window_positive. Qed.

Lemma addData_chronological (prev newData : list DataPoint) :
  chronological (addData prev newData).
Proof.
  destruct (addData_split prev newData) as [evicted He].
  pose proof (combined_sorted (prev ++ newData)) as Hs.
  rewrite He in Hs.
  now apply sortedBy_app_inv in Hs.
Qed.

Lemma addData_invariant (prev newData : list DataPoint) :
  (length (addData prev newData) <= 10000)%nat
  /\ chronological (addData prev newData).
Proof.
  split.
  - rewrite addData_length. apply Nat.le_min_l.
  - apply addData_chronological.
Qed.

(** C2.  Starting from the empty buffer, after any sequence of [addData]
    calls the buffer holds at most 10000 measurements and their timestamps
    are non-decreasing. *)
Theorem addData_bounded_and_chronological :
  forall batches : list (list DataPoint),
    (length (addAll [] batches) <= 10000)%nat
    /\ chronological (addAll [] batches).
Proof.
  intros batches. unfold addAll.
  induction batches as [| batch batches _] using rev_ind.
  - simpl. split; [apply Nat.le_0_l | constructor].
  - rewrite fold_left_app. simpl. apply addData_invariant.
Qed.





End StreamBuffer.

(* ================================================================== *)
(** * The grouping loop *)
(* ================================================================== *)

Section GroupFacts.

Context {K A B : Type}.
Variable key_eqb : K -> K -> bool.
Hypothesis key_eqb_eq : forall a b, key_eqb a b = true <-> a = b.
Variable key : A -> K.
Variable item : A -> B.

Local Abbreviation step := (DataProvider.groupStep key_eqb key item).

Lemma has_true_iff (k : K) (m : JS.Map (K := K) (V := list B)) :
  JS.has key_eqb k m = true <-> In k (map fst m).
Proof.
  unfold JS.has. rewrite existsb_exists, in_map_iff.
  split.
  - intros [kv [Hin Heq]]. apply key_eqb_eq in Heq. now exists kv.
  - intros [kv [Heq Hin]]. exists kv. split; [assumption |].
    now apply key_eqb_eq.
Qed.

Lemma has_false_iff (k : K) (m : JS.Map (K := K) (V := list B)) :
  JS.has key_eqb k m = false <-> ~ In k (map fst m).
Proof.
  rewrite <- has_true_iff. destruct (JS.has key_eqb k m); split; intros H.
  - discriminate.
  - now contradiction H.
  - intros Hc. discriminate.
  - reflexivity.
Qed.

Lemma key_eqb_neq (a b : K) : key_eqb a b = false <-> a <> b.
Proof.
  rewrite <- key_eqb_eq. destruct (key_eqb a b); split; intros H.
  - discriminate.
  - now contradiction H.
  - intros Hc. discriminate.
  - reflexivity.
Qed.

Lemma set_fresh (k : K) (v : list B) (m : JS.Map) :
  ~ In k (map fst m) -> JS.set key_eqb k v m = m ++ [(k, v)].
Proof.
  induction m as [| [k' v'] m IH]; simpl; intros Hn; [reflexivity |].
  destruct (key_eqb k' k) eqn:He.
  - apply key_eqb_eq in He. contradiction Hn. now left.
  - rewrite IH; [reflexivity |]. intros Hc. apply Hn. now right.
Qed.

Lemma mutate_fresh (k : K) (f : list B -> list B) (m : JS.Map) :
  ~ In k (map fst m) -> JS.mutate key_eqb k f m = m.
Proof.
  induction m as [| [k' v'] m IH]; simpl; intros Hn; [reflexivity |].
  destruct (key_eqb k' k) eqn:He.
  - apply key_eqb_eq in He. contradiction Hn. now left.
  - rewrite IH; [reflexivity |]. intros Hc. apply Hn. now right.
Qed.

Lemma mutate_app_last (k : K) (f : list B -> list B) (v : list B)
    (m : JS.Map) :
  ~ In k (map fst m) ->
  JS.mutate key_eqb k f (m ++ [(k, v)]) = m ++ [(k, f v)].
Proof.
  induction m as [| [k' v'] m IH]; simpl; intros Hn.
  - assert (He : key_eqb k k = true) by now apply key_eqb_eq.
    now rewrite He.
  - destruct (key_eqb k' k) eqn:He.
    + apply key_eqb_eq in He. contradiction Hn. now left.
    + rewrite IH; [reflexivity |]. intros Hc. apply Hn. now right.
Qed.

(** A new key opens a group at the end; a known key gets the item pushed on
    its group. *)
Lemma step_new (m : JS.Map) (x : A) :
  ~ In (key x) (map fst m) -> step m x = m ++ [(key x, [item x])].
Proof.
  intros Hn. unfold DataProvider.groupStep.
  apply has_false_iff in Hn as Hh. rewrite Hh.
  rewrite (set_fresh _ _ _ Hn).
  now rewrite (mutate_app_last _ _ _ _ Hn).
Qed.

Lemma step_known (m : JS.Map) (x : A) :
  In (key x) (map fst m) ->
  step m x = JS.mutate key_eqb (key x) (fun arr => arr ++ [item x]) m.
Proof.
  intros Hin. unfold DataProvider.groupStep.
  apply has_true_iff in Hin. now rewrite Hin.
Qed.

Lemma mutate_keys (k : K) (f : list B -> list B) (m : JS.Map) :
  map fst (JS.mutate key_eqb k f m) = map fst m.
Proof.
  induction m as [| [k' v'] m IH]; simpl; [reflexivity |].
  destruct (key_eqb k' k); simpl; [reflexivity | now rewrite IH].
Qed.

Lemma mutate_In (k : K) (f : list B -> list B) (m : JS.Map)
    (k' : K) (v' : list B) :
  NoDup (map fst m) ->
  In (k', v') (JS.mutate key_eqb k f m) ->
  (k' <> k /\ In (k', v') m)
  \/ (k' = k /\ exists v, In (k, v) m /\ v' = f v).
Proof.
  induction m as [| [k0 v0] m IH]; simpl; intros Hnd Hin; [contradiction |].
  inversion Hnd as [| ? ? Hk0 Hnd']; subst.
  destruct (key_eqb k0 k) eqn:He.
  - apply key_eqb_eq in He. subst k0.
    destruct Hin as [Heq | Hin].
    + inversion Heq; subst. right. split; [reflexivity |].
      exists v0. split; [now left | reflexivity].
    + left. split; [| now right].
      intros ->. apply Hk0.
      change k with (fst (k, v')). now apply in_map.
  - apply key_eqb_neq in He.
    destruct Hin as [Heq | Hin].
    + inversion Heq; subst. left. split; [assumption | now left].
    + destruct (IH Hnd' Hin) as [[Hne Hm] | [-> [v [Hm ->]]]].
      * left. split; [assumption | now right].
      * right. split; [reflexivity |]. exists v. split; [now right | reflexivity].
Qed.

Lemma mutate_stored (k : K) (y : B) (m : JS.Map) :
  In k (map fst m) ->
  stored (JS.mutate key_eqb k (fun arr => arr ++ [y]) m) = S (stored m).
Proof.
  unfold stored.
  induction m as [| [k0 v0] m IH]; simpl; intros Hin; [contradiction |].
  destruct (key_eqb k0 k) eqn:He; simpl.
  - rewrite length_app. simpl. lia.
  - apply key_eqb_neq in He.
    destruct Hin as [Heq | Hin]; [contradiction |].
    rewrite (IH Hin). lia.
Qed.

Lemma filed_app (k : K) (l1 l2 : list A) :
  filed key_eqb key item k (l1 ++ l2) = filed key_eqb key item k l1 ++ filed key_eqb key item k l2.
Proof. unfold filed. now rewrite filter_app, map_app. Qed.

Lemma filed_own (x : A) : filed key_eqb key item (key x) [x] = [item x].
Proof.
  unfold filed. simpl.
  assert (He : key_eqb (key x) (key x) = true) by now apply key_eqb_eq.
  now rewrite He.
Qed.

Lemma filed_other (k : K) (x : A) : k <> key x -> filed key_eqb key item k [x] = [].
Proof.
  intros Hne. unfold filed. simpl.
  assert (He : key_eqb (key x) k = false).
  { apply key_eqb_neq. intros Hc. now apply Hne. }
  now rewrite He.
Qed.

Lemma filed_absent (k : K) (l : list A) :
  (forall x, In x l -> key x <> k) -> filed key_eqb key item k l = [].
Proof.
  unfold filed. induction l as [| y l IH]; simpl; intros Hne; [reflexivity |].
  assert (He : key_eqb (key y) k = false).
  { apply key_eqb_neq. apply Hne. now left. }
  rewrite He. apply IH. intros x Hx. apply Hne. now right.
Qed.

Lemma grouped_snoc (l : list A) (x : A) :
  grouped key_eqb key item (l ++ [x]) = step (grouped key_eqb key item l) x.
Proof. unfold grouped. now rewrite fold_left_app. Qed.

(** What the loop leaves in the map: one entry per key that occurs, holding
    exactly the items filed under that key, in order of arrival. *)
Lemma grouped_spec (l : list A) :
  NoDup (map fst (grouped key_eqb key item l))
  /\ (forall k vs, In (k, vs) (grouped key_eqb key item l) -> vs = filed key_eqb key item k l /\ vs <> [])
  /\ (forall x, In x l -> In (key x) (map fst (grouped key_eqb key item l)))
  /\ stored (grouped key_eqb key item l) = length l.
Proof.
  induction l as [| x l IH] using rev_ind.
  - unfold grouped, stored. simpl.
    split; [constructor |].
    split; [intros k vs [] |].
    split; [intros x [] | reflexivity].
  - destruct IH as (Hnd & Hspec & Hcov & Hsum).
    rewrite grouped_snoc.
    destruct (JS.has key_eqb (key x) (grouped key_eqb key item l)) eqn:Hh.
    + apply has_true_iff in Hh.
      rewrite (step_known _ _ Hh).
      split; [now rewrite mutate_keys |].
      split; [| split].
      * intros k vs Hin.
        apply mutate_In in Hin; [| assumption].
        destruct Hin as [[Hne Hin] | [-> [v [Hin ->]]]].
        -- destruct (Hspec _ _ Hin) as [-> Hnil].
           rewrite filed_app, (filed_other _ _ Hne), app_nil_r.
           now split.
        -- destruct (Hspec _ _ Hin) as [-> _].
           rewrite filed_app, filed_own.
           split; [reflexivity |].
           intros Hc. now apply app_eq_nil in Hc as [_ Hc].
      * intros y Hy. rewrite mutate_keys.
        apply in_app_or in Hy as [Hy | [<- | []]]; [now apply Hcov | assumption].
      * rewrite (mutate_stored _ _ _ Hh), Hsum, length_app. simpl. lia.
    + apply has_false_iff in Hh.
      rewrite (step_new _ _ Hh).
      split; [| split; [| split]].
      * rewrite map_app. simpl.
        apply NoDup_app; [assumption | constructor; [intros [] | constructor] |].
        intros a Ha [<- | []]. contradiction.
      * intros k vs Hin.
        apply in_app_or in Hin as [Hin | [Heq | []]].
        -- destruct (Hspec _ _ Hin) as [-> Hnil].
           assert (Hne : k <> key x).
           { intros ->. apply Hh.
             change (key x) with (fst (key x, filed key_eqb key item (key x) l)).
             now apply in_map. }
           rewrite filed_app, (filed_other _ _ Hne), app_nil_r.
           now split.
        -- inversion Heq; subst.
           rewrite filed_app, filed_own, filed_absent; [now split |].
           intros y Hy Hc. apply Hh. rewrite <- Hc. now apply Hcov.
      * intros y Hy. rewrite map_app. apply in_or_app.
        apply in_app_or in Hy as [Hy | [<- | []]].
        -- left. now apply Hcov.
        -- right. now left.
      * unfold stored in *. rewrite map_app, list_sum_app, Hsum, length_app.
        simpl. lia.
Qed.

End GroupFacts.

(* ================================================================== *)
(** * The time-bucket aggregation *)
(* ================================================================== *)

Section Aggregation.

Import Types DataProvider.

Lemma buckets_grouped (b : Z) (pts : list DataPoint) :
  buckets b pts = grouped Z.eqb (bucketKey b) (fun point => point) pts.
Proof. reflexivity. Qed.

Lemma byCategory_grouped (points : list DataPoint) :
  byCategory points = grouped String.eqb category value points.
Proof. reflexivity. Qed.

Lemma buckets_spec (b : Z) (pts : list DataPoint) :
  NoDup (map fst (buckets b pts))
  /\ (forall ts points,
         In (ts, points) (buckets b pts) ->
         points = filter (fun q => bucketKey b q =? ts) pts /\ points <> [])
  /\ (forall q, In q pts -> In (bucketKey b q) (map fst (buckets b pts)))
  /\ stored (buckets b pts) = length pts.
Proof.
  rewrite buckets_grouped.
  destruct (grouped_spec Z.eqb Z.eqb_eq (bucketKey b) (fun point => point) pts)
    as (Hnd & Hspec & Hcov & Hsum).
  repeat split; try assumption.
  - destruct (Hspec _ _ H) as [-> _]. unfold filed. apply map_id.
  - now destruct (Hspec _ _ H).
Qed.

Lemma byCategory_spec (points : list DataPoint) :
  NoDup (map fst (byCategory points))
  /\ (forall cat values,
         In (cat, values) (byCategory points) ->
         values
         = map value (filter (fun q => String.eqb (category q) cat) points)
         /\ values <> [])
  /\ (forall q, In q points -> In (category q) (map fst (byCategory points)))
  /\ stored (byCategory points) = length points.
Proof.
  rewrite byCategory_grouped.
  exact (grouped_spec String.eqb String.eqb_eq category value points).
Qed.

Lemma aggregated_In (b : Z) (pts : list DataPoint) (p : DataPoint) :
  In p (aggregated b pts) <->
  exists ts points cat values,
    In (ts, points) (buckets b pts)
    /\ In (cat, values) (byCategory points)
    /\ p = aggregatedPoint ts cat values.
Proof.
  unfold aggregated, bucketPoints. rewrite in_flat_map. split.
  - intros [[ts points] [Hb Hp]]. apply in_map_iff in Hp.
    destruct Hp as [[cat values] [<- Hg]].
    now exists ts, points, cat, values.
  - intros (ts & points & cat & values & Hb & Hg & ->).
    exists (ts, points). split; [assumption |].
    apply in_map_iff. now exists (cat, values).
Qed.

Lemma filter_filter_andb {T : Type} (f g : T -> bool) (l : list T) :
  filter f (filter g l) = filter (fun x => g x && f x) l.
Proof.
  induction l as [| x l IH]; simpl; [reflexivity |].
  destruct (g x); simpl; [| assumption].
  destruct (f x); now rewrite IH.
Qed.

(** Each emitted bucket counts exactly the inputs of its key and
    category. *)
Lemma aggregated_count (b : Z) (pts : list DataPoint) (p : DataPoint) :
  In p (aggregated b pts) ->
  countOf p = Some (Z.of_nat (length (filter (sameBucket b p) pts)))
  /\ filter (sameBucket b p) pts <> [].
Proof.
  intros Hin. apply aggregated_In in Hin.
  destruct Hin as (ts & points & cat & values & Hb & Hg & ->).
  destruct (buckets_spec b pts) as (_ & Hbs & _).
  destruct (Hbs _ _ Hb) as [Hpoints _].
  destruct (byCategory_spec points) as (_ & Hcs & _).
  destruct (Hcs _ _ Hg) as [Hvalues Hnil].
  assert (Hm : filter (sameBucket b (aggregatedPoint ts cat values)) pts
               = filter (fun q => String.eqb (category q) cat) points).
  { rewrite Hpoints, filter_filter_andb. reflexivity. }
  rewrite Hm. split.
  - change (countOf (aggregatedPoint ts cat values))
      with (Some (Z.of_nat (length values))).
    now rewrite Hvalues, length_map.
  - intros Hc. apply Hnil. now rewrite Hvalues, Hc.
Qed.

Lemma NoDup_pair_keys {K1 K2 V W : Type} (g : V -> list (K2 * W))
    (m : list (K1 * V)) :
  NoDup (map fst m) ->
  (forall k v, In (k, v) m -> NoDup (map fst (g v))) ->
  NoDup (flat_map (fun kv => map (fun grp => (fst kv, fst grp)) (g (snd kv)))
                  m).
Proof.
  induction m as [| [k v] m IH]; simpl; intros Hnd Hg; [constructor |].
  inversion Hnd as [| ? ? Hk Hnd']; subst.
  apply NoDup_app.
  - assert (Hv : NoDup (map fst (g v))) by (apply (Hg k); now left).
    induction (g v) as [| [k2 w] l IHl]; simpl in *; [constructor |].
    inversion Hv as [| ? ? Hk2 Hv']; subst.
    constructor; [| now apply IHl].
    intros Hc. apply in_map_iff in Hc. destruct Hc as [[k3 w3] [Heq Hin]].
    inversion Heq; subst. apply Hk2.
    change k2 with (fst (k2, w3)). now apply in_map.
  - apply IH; [assumption |]. intros k' v' Hin. apply (Hg k'). now right.
  - intros [a1 a2] Ha Hc.
    apply in_map_iff in Ha. destruct Ha as [grp [Heq _]].
    simpl in Heq. injection Heq as <- _.
    apply in_flat_map in Hc. destruct Hc as [[k' v'] [Hin Hc]].
    apply in_map_iff in Hc. destruct Hc as [grp' [Heq' _]].
    simpl in Heq'. injection Heq' as -> _. apply Hk.
    change k with (fst (k, v')). now apply in_map.
Qed.

Lemma aggregated_ids (b : Z) (pts : list DataPoint) :
  map bucketId (aggregated b pts)
  = flat_map (fun kv => map (fun grp => (fst kv, fst grp))
                            (byCategory (snd kv)))
             (buckets b pts).
Proof.
  unfold aggregated.
  induction (buckets b pts) as [| bucket m IH]; simpl; [reflexivity |].
  rewrite map_app, IH. f_equal.
  unfold bucketPoints. rewrite map_map. reflexivity.
Qed.

Lemma aggregated_NoDup (b : Z) (pts : list DataPoint) :
  NoDup (map bucketId (aggregated b pts)).
Proof.
  rewrite aggregated_ids.
  apply NoDup_pair_keys.
  - apply buckets_spec.
  - intros k v _. apply byCategory_spec.
Qed.

Lemma aggregated_covers (b : Z) (pts : list DataPoint) (q : DataPoint) :
  In q pts ->
  exists p, In p (aggregated b pts) /\ sameBucket b p q = true.
Proof.
  intros Hq.
  destruct (buckets_spec b pts) as (_ & Hbs & Hbc & _).
  specialize (Hbc q Hq). apply in_map_iff in Hbc.
  destruct Hbc as [[ts points] [Hts Hb]]. simpl in Hts. subst ts.
  destruct (Hbs _ _ Hb) as [Hpoints _].
  assert (Hqp : In q points).
  { rewrite Hpoints. apply filter_In. split; [assumption |].
    apply Z.eqb_refl. }
  destruct (byCategory_spec points) as (_ & _ & Hcc & _).
  specialize (Hcc q Hqp). apply in_map_iff in Hcc.
  destruct Hcc as [[cat values] [Hcat Hg]]. simpl in Hcat. subst cat.
  exists (aggregatedPoint (bucketKey b q) (category q) values).
  split.
  - apply aggregated_In. now exists (bucketKey b q), points, (category q), values.
  - unfold sameBucket. simpl. now rewrite Z.eqb_refl, String.eqb_refl.
Qed.

Lemma totalCount_app (l1 l2 : list DataPoint) :
  totalCount (l1 ++ l2) = totalCount l1 + totalCount l2.
Proof.
  unfold totalCount.
  induction l1 as [| p l1 IH]; simpl; [reflexivity |].
  rewrite IH. destruct (countOf p); lia.
Qed.

Lemma totalCount_bucketPoints (bucket : Z * list DataPoint) :
  totalCount (bucketPoints bucket) = Z.of_nat (length (snd bucket)).
Proof.
  destruct (byCategory_spec (snd bucket)) as (_ & _ & _ & <-).
  unfold bucketPoints, stored.
  induction (byCategory (snd bucket)) as [| [cat values] m IH];
    [reflexivity |].
  cbn [map list_sum fold_right snd fst totalCount] in IH |- *.
  change (countOf (aggregatedPoint (fst bucket) cat values))
    with (Some (Z.of_nat (length values))).
  unfold totalCount in IH. rewrite IH, Nat2Z.inj_add. reflexivity.
Qed.

Lemma totalCount_aggregated (b : Z) (pts : list DataPoint) :
  totalCount (aggregated b pts) = Z.of_nat (length pts).
Proof.
  destruct (buckets_spec b pts) as (_ & _ & _ & <-).
  unfold aggregated, stored.
  induction (buckets b pts) as [| bucket m IH]; [reflexivity |].
  cbn [flat_map map].
  rewrite totalCount_app, totalCount_bucketPoints, IH.
  rewrite <- Nat2Z.inj_add. reflexivity.
Qed.

Lemma totalCount_perm (l l' : list DataPoint) :
  Permutation l l' -> totalCount l = totalCount l'.
Proof.
  unfold totalCount.
  induction 1 as [| p l l' _ IH | p q l | l l' l'' _ IH1 _ IH2]; simpl.
  - reflexivity.
  - now rewrite IH.
  - destruct (countOf p), (countOf q); lia.
  - now rewrite IH1.
Qed.

Lemma aggregateBuckets_perm (b : Z) (pts : list DataPoint) :
  Permutation (aggregateBuckets b pts) (aggregated b pts).
Proof. apply (sort_perm timestamp). Qed.

Lemma bucketKey_floor (b : Z) (q : DataPoint) :
  0 < b ->
  exists n, bucketKey b q = n * b /\ n * b <= timestamp q < (n + 1) * b.
Proof.
  intros Hb. exists (timestamp q / b). unfold bucketKey.
  pose proof (Z.mul_div_le (timestamp q) b Hb).
  pose proof (Z.mul_succ_div_gt (timestamp q) b Hb).
  split; [reflexivity | lia].
Qed.

Lemma aggregateByTimeRange_buckets (tr : TimeRange) (b : Z) :
  bucketSizeOf tr = Some b ->
  0 < b
  /\ forall data, aggregateByTimeRange data tr = aggregateBuckets b data.
Proof.
  intros Hb.
  destruct tr; simpl in Hb; inversion Hb; subst; clear Hb;
    (split; [reflexivity | intros [| q data]; reflexivity]).
Qed.

(** C1.  For a bucket width [b > 0] the aggregation files every point under
    the key [floor(timestamp / b) * b] and, within it, under its category.
    Every emitted bucket carries as count the number of inputs with its key
    and category, and that number is at least one; no two emitted buckets
    share key and category, every input falls in an emitted bucket, and the
    counts add up to the number of inputs; the output is ordered by bucket
    start.  The widths of [aggregateByTimeRange] are instances.  Points at
    0, 500, 999 and 1000 with width 1000 fall in two time buckets, key 0
    with 3 points and key 1000 with 1 point; when they share their category
    the output is two buckets, key 0 with count 3 and key 1000 with
    count 1. *)
Theorem aggregateBuckets_partitions_input :
  (forall (b : Z) (pts : list DataPoint),
      0 < b ->
      let out := aggregateBuckets b pts in
      (forall q, In q pts ->
         exists n,
           bucketKey b q = n * b /\ n * b <= timestamp q < (n + 1) * b)
      /\ (forall p, In p out ->
            countOf p
            = Some (Z.of_nat (length (filter (sameBucket b p) pts)))
            /\ filter (sameBucket b p) pts <> [])
      /\ NoDup (map bucketId out)
      /\ (forall q, In q pts ->
            exists p, In p out /\ sameBucket b p q = true)
      /\ totalCount out = Z.of_nat (length pts)
      /\ chronological out)
  /\ (forall (tr : TimeRange) (b : Z),
         bucketSizeOf tr = Some b ->
         0 < b
         /\ forall data,
              aggregateByTimeRange data tr = aggregateBuckets b data)
  /\ (forall p1 p2 p3 p4 : DataPoint,
         timestamp p1 = 0 -> timestamp p2 = 500 ->
         timestamp p3 = 999 -> timestamp p4 = 1000 ->
         map (fun bucket => (fst bucket, length (snd bucket)))
             (buckets 1000 [p1; p2; p3; p4])
         = [(0, 3%nat); (1000, 1%nat)])
  /\ (forall (p1 p2 p3 p4 : DataPoint) (c : string),
         timestamp p1 = 0 -> timestamp p2 = 500 ->
         timestamp p3 = 999 -> timestamp p4 = 1000 ->
         category p1 = c -> category p2 = c ->
         category p3 = c -> category p4 = c ->
         map summary (aggregateBuckets 1000 [p1; p2; p3; p4])
         = [(0, c, Some 3); (1000, c, Some 1)]).
Proof.
  split; [| split; [| split]].
  - intros b pts Hb. cbv zeta.
    pose proof (aggregateBuckets_perm b pts) as Hperm.
    split; [intros q _; now apply bucketKey_floor |].
    split; [| split; [| split; [| split]]].
    + intros p Hp. apply aggregated_count.
      now apply (Permutation_in _ Hperm).
    + apply (Permutation_NoDup
               (Permutation_map bucketId (Permutation_sym Hperm))).
      apply aggregated_NoDup.
    + intros q Hq. destruct (aggregated_covers b pts q Hq) as [p [Hp Hs]].
      exists p. split; [| assumption].
      now apply (Permutation_in _ (Permutation_sym Hperm)).
    + rewrite (totalCount_perm _ _ Hperm). apply totalCount_aggregated.
    + apply combined_sorted.
  - apply aggregateByTimeRange_buckets.
  - intros [t1 v1 c1 m1] [t2 v2 c2 m2] [t3 v3 c3 m3] [t4 v4 c4 m4].
    cbn [timestamp]. intros; subst. reflexivity.
  - intros [t1 v1 c1 m1] [t2 v2 c2 m2] [t3 v3 c3 m3] [t4 v4 c4 m4] c.
    cbn [timestamp category]. intros; subst.
    unfold aggregateBuckets, aggregated, buckets, bucketPoints, byCategory,
      groupStep, bucketKey.
    cbn -[String.eqb average].
    repeat (rewrite String.eqb_refl; cbn -[String.eqb average]).
    reflexivity.
Qed.

Lemma aggregateBuckets_partitions_witness :
  0 < 1000
  /\ let pts := map measurementAt [0; 500; 999; 1000] in
     let out := aggregateBuckets 1000 pts in
     (forall p, In p out ->
        countOf p
        = Some (Z.of_nat (length (filter (sameBucket 1000 p) pts)))
        /\ filter (sameBucket 1000 p) pts <> [])
     /\ NoDup (map bucketId out)
     /\ totalCount out = Z.of_nat (length pts).
Proof.
  split; [lia |].
  destruct (proj1 aggregateBuckets_partitions_input 1000
              (map measurementAt [0; 500; 999; 1000]))
    as (_ & Hcount & Hnd & _ & Htotal & _); [lia |].
  cbv zeta. repeat split; try assumption; now apply Hcount.
Defined.

(** C10.  At time range ['all'], at any time range with no bucket width,
    and whenever the filtered data is empty, [aggregateByTimeRange] returns
    the filtered data itself; the same holds past the lookup when no bucket
    size was found. *)
Theorem aggregateByTimeRange_identity :
  forall (data : list DataPoint) (tr : TimeRange),
    tr = RangeAll \/ bucketSizeOf tr = None \/ data = [] ->
    aggregateByTimeRange data tr = data
    /\ aggregateWithBucketSize None data = data.
Proof.
  intros data tr H. split; [| reflexivity].
  unfold aggregateByTimeRange.
  destruct H as [-> | [H | ->]].
  - reflexivity.
  - destruct tr; simpl in H; try discriminate. reflexivity.
  - simpl. now rewrite orb_true_r.
Qed.

Lemma aggregateByTimeRange_identity_witness :
  (RangeAll = RangeAll
   \/ bucketSizeOf RangeAll = None
   \/ [measurementAt 1; measurementAt 70000] = [])
  /\ aggregateByTimeRange [measurementAt 1; measurementAt 70000] RangeAll
     = [measurementAt 1; measurementAt 70000].
Proof.
  split; [now left |].
  apply (aggregateByTimeRange_identity
           [measurementAt 1; measurementAt 70000] RangeAll).
  now left.
Defined.

End Aggregation.

(* ================================================================== *)
(** * Binary64 arithmetic: what the operations round to *)
(* ================================================================== *)

Section Binary64Facts.

Import Binary64 Charts Virtualization.

Lemma pow2_pos e : (0 < pow2 e)%Q.
Proof. apply Qpower_0_lt. reflexivity. Qed.

Lemma pow2_add a b : (pow2 (a + b) == pow2 a * pow2 b)%Q.
Proof. apply Qpower_plus. discriminate. Qed.

Lemma pow2_le a b : a <= b -> (pow2 a <= pow2 b)%Q.
Proof. intros H. apply Qpower_le_compat_l; [assumption | discriminate]. Qed.

Lemma pow2_lt a b : a < b -> (pow2 a < pow2 b)%Q.
Proof. intros H. apply Qpower_lt_compat_l; [assumption | reflexivity]. Qed.

Lemma pow2_Z n : 0 <= n -> (inject_Z (2 ^ n) == pow2 n)%Q.
Proof. intros H. unfold pow2. now rewrite Zpower_Qpower. Qed.

Lemma pow2_0 : (pow2 0 == 1)%Q.
Proof. reflexivity. Qed.

Lemma pow2_succ e : (pow2 (e + 1) == 2 * pow2 e)%Q.
Proof. rewrite pow2_add. change (pow2 1) with 2%Q. ring. Qed.

Lemma pow2_pred e : (pow2 (e - 1) == pow2 e / 2)%Q.
Proof.
  assert (H := pow2_succ (e - 1)). replace (e - 1 + 1) with e in H by lia.
  rewrite H. field.
Qed.

Lemma located_ext (t t' : Q) (mrs : shr_record) :
  (t == t')%Q -> located t mrs -> located t' mrs.
Proof.
  intros E (H1 & H2 & H3). unfold located. rewrite <- E. auto.
Qed.

Lemma inject_Z_double (p : positive) :
  (inject_Z (Z.pos p~0) == 2 * inject_Z (Z.pos p))%Q.
Proof. unfold Qeq. cbn. lia. Qed.

Lemma inject_Z_double_1 (p : positive) :
  (inject_Z (Z.pos p~1) == 2 * inject_Z (Z.pos p) + 1)%Q.
Proof. unfold Qeq. cbn. lia. Qed.

Lemma bool_or_iff (r s : bool) (P Q R : Prop) :
  (r = true <-> P) -> (s = true <-> Q) -> (P \/ Q <-> R) ->
  (r || s = true <-> R).
Proof.
  intros Hr Hs H. rewrite orb_true_iff, Hr, Hs. exact H.
Qed.

Lemma shr_1_located (t : Q) (mrs : shr_record) :
  0 <= shr_m mrs -> located t mrs ->
  located (t * (1 # 2)) (shr_1 mrs)
  /\ shr_m (shr_1 mrs) = shr_m mrs / 2.
Proof.
  destruct mrs as [m r s]. cbn [shr_m]. intros Hm (Hin & Hr & Hs).
  cbn [shr_m shr_r shr_s] in *.
  assert (Hsticky : r || s = true <-> ~ (t == inject_Z m)%Q).
  { apply (bool_or_iff _ _ _ _ _ Hr Hs). split.
    - intros [H | [H _]]; [intros E; lra | assumption].
    - intros H. destruct (Qlt_le_dec t (inject_Z m + (1 # 2))) as [Hlt | Hge].
      + right. split; [assumption | intros E; lra].
      + now left. }
  destruct m as [| p | p]; [| | lia].
  - cbn [shr_1]. split; [| reflexivity]. unfold located.
    cbn [shr_m shr_r shr_s].
    change (inject_Z 0) with 0%Q in *.
    split; [lra |]. split.
    + split; [discriminate | intros H; lra].
    + rewrite Hsticky. split.
      * intros H. split; intros E; [apply H | ]; lra.
      * intros [H _] E. apply H. lra.
  - destruct p as [p | p |]; cbn [shr_1]; unfold located;
      cbn [shr_m shr_r shr_s].
    + pose proof (inject_Z_double_1 p) as E2.
      split.
      * split; [lra |]. split.
        -- split; [intros _; lra | reflexivity].
        -- rewrite Hsticky. split.
           ++ intros H. split; intros E; [lra | apply H; lra].
           ++ intros [_ H] E. apply H. lra.
      * rewrite Pos2Z.inj_xI. rewrite Z.mul_comm, Z.div_add_l by lia.
        reflexivity.
    + pose proof (inject_Z_double p) as E2.
      split.
      * split; [lra |]. split.
        -- split; [discriminate | intros H; lra].
        -- rewrite Hsticky. split.
           ++ intros H. split; intros E; [apply H; lra | lra].
           ++ intros [H _] E. apply H. lra.
      * rewrite Pos2Z.inj_xO. rewrite Z.mul_comm, Z.div_mul by lia.
        reflexivity.
    + change (inject_Z 1) with 1%Q in *. change (inject_Z 0) with 0%Q.
      split; [| reflexivity].
      split; [lra |]. split.
      * split; [intros _; lra | reflexivity].
      * rewrite Hsticky. split.
        -- intros H. split; intros E; [lra | apply H; lra].
        -- intros [_ H] E. apply H. lra.
Qed.

Lemma pow2_neg_1 : (pow2 (-1) == 1 # 2)%Q.
Proof. reflexivity. Qed.

Lemma iter_shr_1_located (n : positive) :
  forall (t : Q) (mrs : shr_record),
    0 <= shr_m mrs -> located t mrs ->
    located (t * pow2 (- Z.pos n)) (iter_pos shr_1 n mrs)
    /\ shr_m (iter_pos shr_1 n mrs) = shr_m mrs / 2 ^ Z.pos n.
Proof.
  induction n as [n IH | n IH |]; intros t mrs Hm Hl; cbn [iter_pos].
  - destruct (shr_1_located t mrs Hm Hl) as [L1 M1].
    assert (P1 : 0 <= shr_m (shr_1 mrs)).
    { rewrite M1. apply Z.div_pos; lia. }
    destruct (IH _ _ P1 L1) as [L2 M2].
    assert (P2 : 0 <= shr_m (iter_pos shr_1 n (shr_1 mrs))).
    { rewrite M2. apply Z.div_pos; lia. }
    destruct (IH _ _ P2 L2) as [L3 M3].
    split.
    + revert L3. apply located_ext.
      rewrite Pos2Z.inj_xI.
      replace (- (2 * Z.pos n + 1)) with (-1 + (- Z.pos n + - Z.pos n)) by lia.
      rewrite !pow2_add, pow2_neg_1. ring.
    + rewrite M3, M2, M1. rewrite !Z.div_div by lia.
      f_equal.
      replace (Z.pos n~1) with (1 + Z.pos n + Z.pos n) by lia.
      rewrite !Z.pow_add_r by lia. change (2 ^ 1) with 2. ring.
  - destruct (IH _ _ Hm Hl) as [L2 M2].
    assert (P2 : 0 <= shr_m (iter_pos shr_1 n mrs)).
    { rewrite M2. apply Z.div_pos; lia. }
    destruct (IH _ _ P2 L2) as [L3 M3].
    split.
    + revert L3. apply located_ext.
      rewrite Pos2Z.inj_xO.
      replace (- (2 * Z.pos n)) with (- Z.pos n + - Z.pos n) by lia.
      rewrite !pow2_add. ring.
    + rewrite M3, M2. rewrite !Z.div_div by lia.
      f_equal.
      replace (Z.pos n~0) with (Z.pos n + Z.pos n) by lia.
      rewrite !Z.pow_add_r by lia. reflexivity.
  - destruct (shr_1_located t mrs Hm Hl) as [L1 M1]. split.
    + revert L1. apply located_ext.
      change (pow2 (- 1)) with (1 # 2)%Q. reflexivity.
    + rewrite M1. reflexivity.
Qed.

(** The location of an exact integer, and of a remainder. *)
Lemma located_exact (m : Z) :
  located (inject_Z m) (shr_record_of_loc m loc_Exact).
Proof.
  unfold located. cbn [shr_record_of_loc shr_m shr_r shr_s].
  split; [lra |]. split.
  - split; [discriminate | intros H; lra].
  - split; [discriminate | intros [H _]; now elim H].
Qed.

(** Round to nearest, ties to even, of a located number. *)
Lemma round_nearest_even_located (t : Q) (mrs : shr_record) :
  located t mrs ->
  let N := round_nearest_even (shr_m mrs) (loc_of_shr_record mrs) in
  (N = shr_m mrs \/ N = shr_m mrs + 1)
  /\ (inject_Z N - (1 # 2) <= t <= inject_Z N + (1 # 2))%Q
  /\ (forall K : Z, (t <= inject_Z K)%Q -> N <= K)
  /\ (forall K : Z, (inject_Z K <= t)%Q -> K <= N)
  /\ ((t == inject_Z (shr_m mrs))%Q -> N = shr_m mrs).
Proof.
  destruct mrs as [m r s]. unfold located. cbn [shr_m shr_r shr_s].
  intros (Hin & Hr & Hs). cbv zeta.
  assert (Hup : forall K : Z, (inject_Z m < inject_Z K)%Q -> m + 1 <= K).
  { intros K H. rewrite <- Zlt_Qlt in H. lia. }
  assert (Hdown : forall K : Z, (inject_Z K < inject_Z m + 1)%Q -> K <= m).
  { intros K H. change 1%Q with (inject_Z 1) in H.
    rewrite <- inject_Z_plus, <- Zlt_Qlt in H. lia. }
  assert (Hplus : (inject_Z (m + 1) == inject_Z m + 1)%Q).
  { rewrite inject_Z_plus. reflexivity. }
  destruct r, s; cbn [loc_of_shr_record round_nearest_even].
  - (* above one half *)
    assert (H1 : (inject_Z m + (1 # 2) <= t)%Q) by now apply Hr.
    split; [now right |]. rewrite Hplus.
    split; [lra |]. split; [| split].
    + intros K HK. apply Hup. lra.
    + intros K HK. assert (K <= m) by (apply Hdown; lra). lia.
    + intros E. lra.
  - (* one half *)
    assert (H1 : (inject_Z m + (1 # 2) <= t)%Q) by now apply Hr.
    assert (H2 : (t == inject_Z m + (1 # 2))%Q).
    { destruct (Qeq_dec t (inject_Z m + (1 # 2))) as [E | NE]; [assumption |].
      assert (Hfalse : false = true); [| discriminate].
      apply Hs. split; [intros E; lra | assumption]. }
    destruct (Z.even m).
    + split; [now left |]. split; [lra |]. split; [| split].
      * intros K HK. assert (m + 1 <= K) by (apply Hup; lra). lia.
      * intros K HK. apply Hdown. lra.
      * reflexivity.
    + split; [now right |]. rewrite Hplus. split; [lra |]. split; [| split].
      * intros K HK. apply Hup. lra.
      * intros K HK. assert (K <= m) by (apply Hdown; lra). lia.
      * intros E. lra.
  - (* below one half, not exact *)
    assert (H1 : ~ (inject_Z m + (1 # 2) <= t)%Q).
    { intros H. apply Hr in H. discriminate. }
    split; [now left |]. split; [lra |]. split; [| split].
    + intros K HK.
      assert (H2 : ~ (t == inject_Z m)%Q) by now apply Hs.
      assert (m + 1 <= K) by (apply Hup; lra). lia.
    + intros K HK. apply Hdown. lra.
    + reflexivity.
  - (* exact *)
    assert (H1 : ~ (inject_Z m + (1 # 2) <= t)%Q).
    { intros H. apply Hr in H. discriminate. }
    assert (H2 : (t == inject_Z m)%Q).
    { destruct (Qeq_dec t (inject_Z m)) as [E | NE]; [assumption |].
      assert (Hfalse : false = true); [| discriminate].
      apply Hs. split; [assumption | intros E; lra]. }
    split; [now left |]. split; [lra |]. split; [| split].
    + intros K HK. rewrite H2, <- Zle_Qle in HK. assumption.
    + intros K HK. rewrite H2, <- Zle_Qle in HK. assumption.
    + reflexivity.
Qed.

(* ------------------------------------------------------------------ *)
(** Digits *)

Lemma digits2_pos_spec (p : positive) :
  2 ^ (Z.pos (digits2_pos p) - 1) <= Z.pos p < 2 ^ Z.pos (digits2_pos p).
Proof.
  induction p as [p IH | p IH |]; cbn [digits2_pos].
  - rewrite Pos2Z.inj_succ.
    replace (Z.succ (Z.pos (digits2_pos p)) - 1)
      with (Z.pos (digits2_pos p) - 1 + 1) by lia.
    rewrite Z.pow_succ_r, Z.pow_add_r by lia. change (2 ^ 1) with 2. lia.
  - rewrite Pos2Z.inj_succ.
    replace (Z.succ (Z.pos (digits2_pos p)) - 1)
      with (Z.pos (digits2_pos p) - 1 + 1) by lia.
    rewrite Z.pow_succ_r, Z.pow_add_r by lia. change (2 ^ 1) with 2. lia.
  - cbn. lia.
Qed.

Lemma Zdigits2_spec (m : Z) :
  0 < m -> 0 < Zdigits2 m /\ 2 ^ (Zdigits2 m - 1) <= m < 2 ^ Zdigits2 m.
Proof.
  destruct m as [| p | p]; try lia. intros _. cbn [Zdigits2].
  split; [lia | apply digits2_pos_spec].
Qed.

Lemma Zdigits2_unique (m k : Z) :
  0 < m -> 2 ^ (k - 1) <= m < 2 ^ k -> Zdigits2 m = k.
Proof.
  intros Hm [Hlo Hhi]. destruct (Zdigits2_spec m Hm) as (Hd & Hdlo & Hdhi).
  assert (Hk : 0 < k).
  { destruct (Z.ltb_spec 0 k) as [|Hk]; [assumption |].
    rewrite (Z.pow_neg_r 2 (k - 1)) in Hlo by lia.
    destruct (Z.eq_dec k 0) as [-> | Hne]; [cbn in Hhi; lia |].
    rewrite (Z.pow_neg_r 2 k) in Hhi by lia. lia. }
  destruct (Z.lt_trichotomy (Zdigits2 m) k) as [H | [H | H]];
    [| assumption |].
  - assert (2 ^ Zdigits2 m <= 2 ^ (k - 1)) by (apply Z.pow_le_mono_r; lia).
    lia.
  - assert (2 ^ k <= 2 ^ (Zdigits2 m - 1)) by (apply Z.pow_le_mono_r; lia).
    lia.
Qed.

Lemma fexp_eq (e : Z) : fexp prec emax e = Z.max (e - 53) (-1074).
Proof. reflexivity. Qed.

Lemma loc_of_shr_record_of_loc (m : Z) (l : location) :
  loc_of_shr_record (shr_record_of_loc m l) = l.
Proof. destruct l as [| []]; reflexivity. Qed.

Lemma shr_m_of_loc (m : Z) (l : location) :
  shr_m (shr_record_of_loc m l) = m.
Proof. destruct l as [| []]; reflexivity. Qed.

(** The first shift of [binary_round_aux]. *)
Lemma shr_fexp_spec (m e : Z) (l : location) (t : Q) :
  0 <= m -> located t (shr_record_of_loc m l) ->
  let n := fexp prec emax (Zdigits2 m + e) - e in
  0 <= n ->
  snd (shr_fexp prec emax m e l) = e + n
  /\ located (t * pow2 (- n)) (fst (shr_fexp prec emax m e l))
  /\ shr_m (fst (shr_fexp prec emax m e l)) = m / 2 ^ n
  /\ (n = 0 -> fst (shr_fexp prec emax m e l) = shr_record_of_loc m l).
Proof.
  intros Hm Hl n Hn. unfold shr_fexp. fold n. unfold shr.
  destruct n as [| p | p] eqn:En; [| | lia]; cbn [fst snd].
  - split; [lia |]. split.
    + revert Hl. apply located_ext. change (pow2 (- 0)) with 1%Q. ring.
    + split; [| reflexivity].
      rewrite shr_m_of_loc. change (2 ^ 0) with 1. now rewrite Z.div_1_r.
  - assert (Hm' : 0 <= shr_m (shr_record_of_loc m l))
      by now rewrite shr_m_of_loc.
    destruct (iter_shr_1_located p t _ Hm' Hl) as [L M].
    split; [reflexivity |]. split; [exact L |].
    split; [now rewrite M, shr_m_of_loc | discriminate].
Qed.

(* ------------------------------------------------------------------ *)

Lemma binary_round_aux_sign (m e : Z) (l : location) :
  binary_round_aux prec emax true m e l
  = SFopp (binary_round_aux prec emax false m e l).
Proof.
  unfold binary_round_aux.
  destruct (shr_fexp prec emax m e l) as [mrs' e'].
  destruct (shr_fexp prec emax _ e' loc_Exact) as [mrs'' e''].
  destruct (shr_m mrs''); try reflexivity.
  now destruct (e'' <=? emax - prec).
Qed.

Lemma div_pow2_small (m n : Z) : 0 <= m -> 0 <= n -> m < 2 ^ n -> m / 2 ^ n = 0.
Proof. intros. apply Z.div_small. lia. Qed.

Lemma shifted_below (m d n : Z) :
  0 <= m -> 0 <= n -> 0 <= d -> m < 2 ^ d -> d - n <= 53 -> m / 2 ^ n < 2 ^ 53.
Proof.
  intros Hm Hn Hd Hlt Hdn.
  destruct (Z.le_gt_cases d n) as [Hle | Hgt].
  - rewrite div_pow2_small; try lia.
    assert (2 ^ d <= 2 ^ n) by (apply Z.pow_le_mono_r; lia). lia.
  - apply Z.div_lt_upper_bound; [lia |].
    assert (2 ^ d <= 2 ^ n * 2 ^ 53).
    { rewrite <- Z.pow_add_r by lia. apply Z.pow_le_mono_r; lia. }
    lia.
Qed.

Lemma shifted_above (m d n : Z) :
  0 <= n -> n < d -> 2 ^ (d - 1) <= m -> 2 ^ (d - 1 - n) <= m / 2 ^ n.
Proof.
  intros Hn Hd Hlo.
  apply Z.div_le_lower_bound; [lia |].
  rewrite <- Z.pow_add_r by lia.
  replace (n + (d - 1 - n)) with (d - 1) by lia. assumption.
Qed.

Lemma pow2_53 : 2 ^ 53 = 9007199254740992.
Proof. reflexivity. Qed.

(** What [binary_round_aux] returns for a non-negative number [t * 2^e]
    given by its integer part [m] and the location of its fraction, when the
    exponent is not above the canonical one. *)
Lemma binary_round_aux_spec (m e : Z) (l : location) (t : Q) :
  0 <= m -> located t (shr_record_of_loc m l) ->
  e <= fexp prec emax (Zdigits2 m + e) ->
  let E1 := fexp prec emax (Zdigits2 m + e) in
  let u := (t * pow2 e * pow2 (- E1))%Q in
  let r := binary_round_aux prec emax false m e l in
  exists N1 : Z,
    0 <= N1 <= 2 ^ 53
    /\ (inject_Z N1 - (1 # 2) <= u <= inject_Z N1 + (1 # 2))%Q
    /\ (forall K : Z, (u <= inject_Z K)%Q -> N1 <= K)
    /\ (forall K : Z, (inject_Z K <= u)%Q -> K <= N1)
    /\ (-1074 < E1 -> 2 ^ 52 <= N1 /\ (inject_Z (2 ^ 52) <= u)%Q)
    /\ (l = loc_Exact -> E1 = e -> N1 = m)
    /\ ((r = S754_zero false /\ N1 = 0)
        \/ (exists (p : positive) (E2 : Z),
              r = S754_finite false p E2
              /\ (inject_Z (Z.pos p) * pow2 E2
                  == inject_Z N1 * pow2 E1)%Q)
        \/ (r = S754_infinity false
            /\ (pow2 1024 <= inject_Z N1 * pow2 E1)%Q)).
Proof.
  intros Hm Hl Hnorm E1 u r.
  set (d := Zdigits2 m) in *.
  assert (HE1 : E1 = Z.max (d + e - 53) (-1074)) by apply fexp_eq.
  set (n := E1 - e).
  assert (Hn : 0 <= n) by (unfold n; lia).
  destruct (shr_fexp_spec m e l t Hm Hl Hn) as (He' & Lt & Mm & Hn0).
  fold d in He', Lt, Mm, Hn0. fold E1 in He', Lt, Mm, Hn0.
  fold n in He', Lt, Mm, Hn0.
  assert (Hu : (t * pow2 (- n) == u)%Q).
  { unfold u, n. replace (- (E1 - e)) with (e + - E1) by lia.
    rewrite pow2_add. ring. }
  apply (located_ext _ _ _ Hu) in Lt.
  unfold r, binary_round_aux.
  destruct (shr_fexp prec emax m e l) as [mrs' e'] eqn:Hshr.
  cbn [fst snd] in He', Lt, Mm, Hn0.
  assert (He1 : e' = E1) by (unfold n in He'; lia).
  clear He'. subst e'.
  set (N1 := round_nearest_even (shr_m mrs') (loc_of_shr_record mrs')).
  destruct (round_nearest_even_located _ _ Lt)
    as (Hcase & Hnear & Hup & Hdown & Hexact).
  fold N1 in Hcase, Hnear, Hup, Hdown, Hexact.
  assert (Hd0 : 0 <= d).
  { unfold d. destruct m as [| p | p]; cbn; lia. }
  assert (Hm1 : 0 <= shr_m mrs' < 2 ^ 53).
  { rewrite Mm. split; [apply Z.div_pos; lia |].
    destruct (Z.eq_dec m 0) as [-> | Hne].
    - rewrite Z.div_0_l by lia. lia.
    - destruct (Zdigits2_spec m ltac:(lia)) as (_ & _ & Hhi). fold d in Hhi.
      apply (shifted_below m d n); unfold n; lia. }
  assert (HN1 : 0 <= N1 <= 2 ^ 53) by lia.
  assert (Hnormal : -1074 < E1 -> 2 ^ 52 <= N1 /\ (inject_Z (2 ^ 52) <= u)%Q).
  { intros HE.
    assert (Hmpos : 0 < m).
    { destruct (Z.eq_dec m 0) as [E0 | Hne]; [| lia].
      exfalso. unfold d in HE1. rewrite E0 in HE1. cbn [Zdigits2] in HE1.
      unfold d in Hnorm. rewrite E0 in Hnorm. cbn [Zdigits2] in Hnorm.
      rewrite fexp_eq in Hnorm. lia. }
    destruct (Zdigits2_spec m Hmpos) as (Hdpos & Hlo & _). fold d in Hdpos, Hlo.
    assert (Hn53 : n = d - 53) by (unfold n; lia).
    assert (H52 : 2 ^ (d - 1 - n) <= m / 2 ^ n)
      by (apply shifted_above; lia).
    replace (d - 1 - n) with 52 in H52 by lia.
    rewrite <- Mm in H52. split; [lia |].
    apply Qle_trans with (inject_Z (shr_m mrs')); [| apply Lt].
    rewrite <- Zle_Qle. exact H52. }
  exists N1.
  split; [exact HN1 |]. split; [exact Hnear |].
  split; [exact Hup |]. split; [exact Hdown |].
  split; [exact Hnormal |].
  split.
  { intros -> HEe. assert (Hn' : n = 0) by (unfold n; lia).
    specialize (Hn0 Hn'). unfold N1. rewrite Hn0. reflexivity. }
  (* the second shift *)
  unfold shr_fexp. rewrite fexp_eq.
  destruct (Z.eq_dec N1 0) as [HN0 | HNpos].
  - left. rewrite HN0. cbn [Zdigits2].
    destruct (Z.max (0 + E1 - 53) (-1074) - E1) as [| p | p] eqn:Hn2;
      [| lia |]; cbn; split; reflexivity.
  - destruct (Z.eq_dec N1 (2 ^ 53)) as [HN53 | HNlt].
    + (* the mantissa carried into a 54th bit *)
      rewrite HN53.
      change (Zdigits2 (2 ^ 53)) with 54.
      replace (Z.max (54 + E1 - 53) (-1074) - E1) with 1 by lia.
      cbn -[Z.leb pow2 inject_Z Z.sub].
      destruct (E1 + 1 <=? emax - prec) eqn:Hov.
      * right. left. eexists. eexists. split; [reflexivity |].
        rewrite pow2_add. change (pow2 1) with 2%Q.
        change (inject_Z (2 ^ 53)) with (inject_Z 4503599627370496 * 2)%Q.
        ring.
      * right. right. split; [reflexivity |].
        apply Z.leb_gt in Hov. change (emax - prec) with 971 in Hov.
        assert (Hle : (pow2 971 <= pow2 E1)%Q) by (apply pow2_le; lia).
        change (pow2 1024) with (inject_Z (2 ^ 53) * pow2 971)%Q.
        apply Qmult_le_l; [reflexivity | exact Hle].
    + assert (Hpos : 0 < N1) by lia.
      destruct (Zdigits2_spec N1 Hpos) as (Hd1 & Hlo1 & Hhi1).
      assert (Hd53 : Zdigits2 N1 <= 53).
      { destruct (Z.le_gt_cases (Zdigits2 N1) 53) as [|Hgt]; [assumption |].
        assert (2 ^ 53 <= 2 ^ (Zdigits2 N1 - 1))
          by (apply Z.pow_le_mono_r; lia).
        lia. }
      destruct (Z.max (Zdigits2 N1 + E1 - 53) (-1074) - E1)
        as [| q | q] eqn:Hn2;
        [| lia |].
      * cbn [shr shr_record_of_loc shr_m].
        destruct N1 as [| p | p]; [lia | | lia].
        destruct (E1 <=? emax - prec) eqn:Hov.
        -- right. left. exists p, E1. split; reflexivity.
        -- right. right. split; [reflexivity |].
           apply Z.leb_gt in Hov. change (emax - prec) with 971 in Hov.
           assert (H52 : 2 ^ 52 <= Z.pos p) by (apply Hnormal; lia).
           assert (Hle : (pow2 972 <= pow2 E1)%Q) by (apply pow2_le; lia).
           change (pow2 1024) with (inject_Z (2 ^ 52) * pow2 972)%Q.
           apply Qle_trans with (inject_Z (2 ^ 52) * pow2 E1)%Q.
           ++ apply Qmult_le_l; [reflexivity | exact Hle].
           ++ apply Qmult_le_r; [apply pow2_pos |].
              rewrite <- Zle_Qle. exact H52.
      * cbn [shr shr_record_of_loc shr_m].
        destruct N1 as [| p | p]; [lia | | lia].
        destruct (E1 <=? emax - prec) eqn:Hov.
        -- right. left. exists p, E1. split; reflexivity.
        -- right. right. split; [reflexivity |].
           apply Z.leb_gt in Hov. change (emax - prec) with 971 in Hov.
           assert (H52 : 2 ^ 52 <= Z.pos p) by (apply Hnormal; lia).
           assert (Hle : (pow2 972 <= pow2 E1)%Q) by (apply pow2_le; lia).
           change (pow2 1024) with (inject_Z (2 ^ 52) * pow2 972)%Q.
           apply Qle_trans with (inject_Z (2 ^ 52) * pow2 E1)%Q.
           ++ apply Qmult_le_l; [reflexivity | exact Hle].
           ++ apply Qmult_le_r; [apply pow2_pos |].
              rewrite <- Zle_Qle. exact H52.
Qed.

Lemma binary_round_aux_rounded (m e : Z) (l : location) (t : Q) :
  0 <= m -> located t (shr_record_of_loc m l) ->
  e <= fexp prec emax (Zdigits2 m + e) ->
  rounded (t * pow2 e) (fexp prec emax (Zdigits2 m + e))
          (binary_round_aux prec emax false m e l).
Proof.
  intros Hm Hl Hn.
  destruct (binary_round_aux_spec m e l t Hm Hl Hn)
    as (N & H1 & H2 & H3 & H4 & H5 & _ & H7).
  exists N.
  split; [exact H1 |]. split; [exact H2 |]. split; [exact H3 |].
  split; [exact H4 |]. split; [exact H5 | exact H7].
Qed.

Lemma pow2_inv (e : Z) : (pow2 e * pow2 (- e) == 1)%Q.
Proof. rewrite <- pow2_add. replace (e + - e) with 0 by lia. reflexivity. Qed.

Lemma scale_le (a b : Q) (e : Z) : (a <= b)%Q -> (a * pow2 e <= b * pow2 e)%Q.
Proof.
  intros H. apply Qmult_le_compat_r; [assumption |].
  apply Qlt_le_weak, pow2_pos.
Qed.

Lemma scale_lt (a b : Q) (e : Z) : (a < b)%Q -> (a * pow2 e < b * pow2 e)%Q.
Proof. intros H. apply Qmult_lt_compat_r; [apply pow2_pos | assumption]. Qed.

Lemma unscale (x : Q) (E : Z) : (x * pow2 (- E) * pow2 E == x)%Q.
Proof.
  rewrite <- Qmult_assoc, (Qmult_comm (pow2 (- E))), pow2_inv. ring.
Qed.

Lemma grid_multiple (K j E : Z) :
  E <= j ->
  (inject_Z (K * 2 ^ (j - E)) == inject_Z K * pow2 j * pow2 (- E))%Q.
Proof.
  intros H. rewrite inject_Z_mult, pow2_Z by lia.
  replace (j - E) with (j + - E) by lia. rewrite pow2_add. ring.
Qed.

Lemma rounded_value (x : Q) (E : Z) (r : spec_float) (N : Z) :
  ((r = S754_zero false /\ N = 0)
   \/ (exists (p : positive) (E2 : Z),
         r = S754_finite false p E2
         /\ (inject_Z (Z.pos p) * pow2 E2 == inject_Z N * pow2 E)%Q)
   \/ (r = S754_infinity false
       /\ (pow2 1024 <= inject_Z N * pow2 E)%Q)) ->
  0 <= N ->
  (rank r <= inject_Z N * pow2 E)%Q
  /\ ((inject_Z N * pow2 E < pow2 1024)%Q ->
      (rank r == inject_Z N * pow2 E)%Q).
Proof.
  intros [[-> ->] | [(p & E2 & -> & Hv) | [-> Hv]]] HN; cbn [rank].
  - split; [| intros _]; change (inject_Z 0) with 0%Q; lra.
  - split; [| intros _]; rewrite <- Hv; lra.
  - split; [lra |]. intros H. lra.
Qed.

(** A rounded number is not below a binary64 number its argument is not
    below, and not above one its argument is not above. *)
Lemma rounded_ge (x : Q) (E : Z) (r : spec_float) (K j : Z) :
  rounded x E r ->
  0 <= K < 2 ^ 53 -> -1074 <= j <= 971 ->
  (inject_Z K * pow2 j <= x)%Q ->
  (inject_Z K * pow2 j <= rank r)%Q.
Proof.
  intros (N & HN & Hnear & Hup & Hdown & Hnormal & Hres) HK Hj Hb.
  assert (HNE : (inject_Z K * pow2 j <= inject_Z N * pow2 E)%Q).
  { destruct (Z.le_gt_cases E j) as [Hle | Hgt].
    - assert (HK' : K * 2 ^ (j - E) <= N).
      { apply Hdown. rewrite grid_multiple by assumption.
        now apply scale_le. }
      rewrite Zle_Qle in HK'. rewrite grid_multiple in HK' by assumption.
      apply (scale_le _ _ E) in HK'. rewrite unscale in HK'. exact HK'.
    - destruct (Hnormal ltac:(lia)) as [H52 _].
      apply Qle_trans with (inject_Z (2 ^ 53) * pow2 j)%Q.
      + apply scale_le. rewrite <- Zle_Qle. lia.
      + apply Qle_trans with (inject_Z (2 ^ 52) * pow2 (j + 1))%Q.
        * rewrite pow2_succ.
          change (inject_Z (2 ^ 53)) with (inject_Z (2 ^ 52) * 2)%Q.
          apply Qle_lteq. right. ring.
        * apply Qle_trans with (inject_Z (2 ^ 52) * pow2 E)%Q.
          -- apply Qmult_le_l; [reflexivity | apply pow2_le; lia].
          -- apply scale_le. rewrite <- Zle_Qle. exact H52. }
  destruct Hres as [[-> ->] | [(p & E2 & -> & Hv) | [-> Hv]]]; cbn [rank].
  - change (inject_Z 0) with 0%Q in HNE. lra.
  - rewrite Hv. lra.
  - apply Qle_trans with (inject_Z (2 ^ 53) * pow2 971)%Q.
    + apply Qle_trans with (inject_Z (2 ^ 53) * pow2 j)%Q.
      * apply scale_le. rewrite <- Zle_Qle. lia.
      * apply Qmult_le_l; [reflexivity | apply pow2_le; lia].
    + change (inject_Z (2 ^ 53) * pow2 971)%Q with (pow2 1024). lra.
Qed.

Lemma rounded_le (x : Q) (E : Z) (r : spec_float) (K j : Z) :
  rounded x E r ->
  0 <= K < 2 ^ 53 -> -1074 <= j <= 971 ->
  (x <= inject_Z K * pow2 j)%Q ->
  (rank r <= inject_Z K * pow2 j)%Q.
Proof.
  intros (N & HN & Hnear & Hup & Hdown & Hnormal & Hres) HK Hj Hb.
  assert (HNE : (inject_Z N * pow2 E <= inject_Z K * pow2 j)%Q).
  { destruct (Z.le_gt_cases E j) as [Hle | Hgt].
    - assert (HK' : N <= K * 2 ^ (j - E)).
      { apply Hup. rewrite grid_multiple by assumption.
        now apply scale_le. }
      rewrite Zle_Qle in HK'. rewrite grid_multiple in HK' by assumption.
      apply (scale_le _ _ E) in HK'. rewrite unscale in HK'. exact HK'.
    - exfalso. destruct (Hnormal ltac:(lia)) as [_ H52].
      apply (scale_le _ _ E) in H52. rewrite unscale in H52.
      assert (Hlt : (inject_Z K * pow2 j < inject_Z (2 ^ 52) * pow2 E)%Q).
      { apply Qlt_le_trans with (inject_Z (2 ^ 53) * pow2 j)%Q.
        - apply scale_lt. rewrite <- Zlt_Qlt. lia.
        - apply Qle_trans with (inject_Z (2 ^ 52) * pow2 (j + 1))%Q.
          + rewrite pow2_succ.
            change (inject_Z (2 ^ 53)) with (inject_Z (2 ^ 52) * 2)%Q.
            apply Qle_lteq. right. ring.
          + apply Qmult_le_l; [reflexivity | apply pow2_le; lia]. }
      lra. }
  destruct (rounded_value x E r N Hres ltac:(lia)) as [Hle _].
  lra.
Qed.

(* ------------------------------------------------------------------ *)
(** Valid binary64 numbers *)

Lemma valid_finite (s : bool) (m : positive) (e : Z) :
  valid_binary (S754_finite s m e) = true ->
  Z.pos m < 2 ^ 53 /\ -1074 <= e <= 971 /\ (-1074 < e -> 2 ^ 52 <= Z.pos m)
  /\ fexp prec emax (Z.pos (digits2_pos m) + e) = e.
Proof.
  unfold valid_binary, bounded, canonical_mantissa.
  rewrite andb_true_iff, Z.eqb_eq, Z.leb_le, fexp_eq.
  change (emax - prec) with 971. intros [Hc He].
  destruct (digits2_pos_spec m) as [Hlo Hhi].
  assert (Hd : Z.pos (digits2_pos m) <= 53) by lia.
  split.
  { assert (2 ^ Z.pos (digits2_pos m) <= 2 ^ 53)
      by (apply Z.pow_le_mono_r; lia). lia. }
  split; [lia |]. split; [| exact Hc].
  intros Hn. assert (Hd' : Z.pos (digits2_pos m) = 53) by lia.
  rewrite Hd' in Hlo. exact Hlo.
Qed.

Lemma rank_finite_bounds (s : bool) (m : positive) (e : Z) :
  valid_binary (S754_finite s m e) = true ->
  (0 < inject_Z (Z.pos m) * pow2 e < pow2 1024)%Q.
Proof.
  intros Hv. destruct (valid_finite s m e Hv) as (Hm & He & _).
  split.
  - apply Qmult_lt_0_compat; [| apply pow2_pos].
    change 0%Q with (inject_Z 0). rewrite <- Zlt_Qlt. lia.
  - apply Qlt_le_trans with (inject_Z (2 ^ 53) * pow2 e)%Q.
    + apply scale_lt. rewrite <- Zlt_Qlt. exact Hm.
    + change (pow2 1024) with (inject_Z (2 ^ 53) * pow2 971)%Q.
      apply Qmult_le_l; [reflexivity | apply pow2_le; lia].
Qed.

(** Two valid positive numbers compare as their exponents, then as their
    mantissas. *)
Lemma finite_compare (m1 m2 : positive) (e1 e2 : Z) :
  valid_binary (S754_finite false m1 e1) = true ->
  valid_binary (S754_finite false m2 e2) = true ->
  match Z.compare e1 e2 with
  | Lt => Lt
  | Gt => Gt
  | Eq => Pos.compare_cont Eq m1 m2
  end
  = (inject_Z (Z.pos m1) * pow2 e1 ?= inject_Z (Z.pos m2) * pow2 e2)%Q.
Proof.
  intros V1 V2.
  destruct (valid_finite _ _ _ V1) as (Hm1 & He1 & Hn1 & _).
  destruct (valid_finite _ _ _ V2) as (Hm2 & He2 & Hn2 & _).
  assert (Hlt : forall (ma mb : positive) (ea eb : Z),
             Z.pos ma < 2 ^ 53 -> 2 ^ 52 <= Z.pos mb -> ea < eb ->
             (inject_Z (Z.pos ma) * pow2 ea < inject_Z (Z.pos mb) * pow2 eb)%Q).
  { intros ma mb ea eb Ha Hb Hab.
    apply Qlt_le_trans with (inject_Z (2 ^ 53) * pow2 ea)%Q.
    - apply scale_lt. rewrite <- Zlt_Qlt. exact Ha.
    - apply Qle_trans with (inject_Z (2 ^ 52) * pow2 (ea + 1))%Q.
      + rewrite pow2_succ.
        change (inject_Z (2 ^ 53)) with (inject_Z (2 ^ 52) * 2)%Q.
        apply Qle_lteq. right. ring.
      + apply Qle_trans with (inject_Z (2 ^ 52) * pow2 eb)%Q.
        * apply Qmult_le_l; [reflexivity | apply pow2_le; lia].
        * apply scale_le. rewrite <- Zle_Qle. exact Hb. }
  symmetry. destruct (Z.compare_spec e1 e2) as [-> | H | H].
  - rewrite Pos.compare_cont_spec. cbn [Pos.switch_Eq].
    change (Pos.compare m1 m2) with (Z.compare (Z.pos m1) (Z.pos m2)).
    destruct (Z.compare_spec (Z.pos m1) (Z.pos m2)) as [E | L | G].
    + rewrite <- Qeq_alt. rewrite E. reflexivity.
    + rewrite <- Qlt_alt. apply scale_lt. rewrite <- Zlt_Qlt. exact L.
    + rewrite <- Qgt_alt. apply scale_lt. rewrite <- Zlt_Qlt. lia.
  - rewrite <- Qlt_alt. apply Hlt; [assumption | apply Hn2; lia | assumption].
  - rewrite <- Qgt_alt. apply Hlt; [assumption | apply Hn1; lia | lia].
Qed.

Lemma Qcompare_opp (a b : Q) : (- a ?= - b)%Q = CompOpp (a ?= b)%Q.
Proof.
  destruct (Qcompare_spec a b) as [E | L | G]; cbn [CompOpp].
  - rewrite <- Qeq_alt. now rewrite E.
  - rewrite <- Qgt_alt. lra.
  - rewrite <- Qlt_alt. lra.
Qed.

(** The comparison of binary64 numbers is the comparison of their values. *)
Ltac decide_compare :=
  match goal with
  | |- _ = Eq => rewrite <- Qeq_alt
  | |- _ = Lt => rewrite <- Qlt_alt
  | |- _ = Gt => rewrite <- Qgt_alt
  end; lra.

Lemma SFcompare_rank (x y : spec_float) :
  valid_binary x = true -> valid_binary y = true ->
  notNaN x -> notNaN y ->
  SFcompare x y = Some (rank x ?= rank y)%Q.
Proof.
  intros Vx Vy Nx Ny.
  assert (P1024 : (0 < pow2 1024)%Q) by apply pow2_pos.
  assert (Hb : forall s m e, valid_binary (S754_finite s m e) = true ->
               (0 < inject_Z (Z.pos m) * pow2 e < pow2 1024)%Q)
    by apply rank_finite_bounds.
  destruct x as [sx | sx | | sx mx ex]; [| | now elim Nx |];
    destruct y as [sy | sy | | sy my ey]; try (now elim Ny);
    try pose proof (Hb _ _ _ Vx) as Hx;
    try pose proof (Hb _ _ _ Vy) as Hy;
    cbn [SFcompare rank]; apply f_equal; symmetry.
  - decide_compare.
  - destruct sy; decide_compare.
  - destruct sy; decide_compare.
  - destruct sx; decide_compare.
  - destruct sx, sy; decide_compare.
  - destruct sx, sy; decide_compare.
  - destruct sx; decide_compare.
  - destruct sx, sy; decide_compare.
  - destruct sx, sy; try decide_compare.
    + pose proof (finite_compare mx my ex ey Vx Vy) as Hc.
      destruct (ex ?= ey);
        destruct (Qcompare_spec (inject_Z (Z.pos mx) * pow2 ex)
                                (inject_Z (Z.pos my) * pow2 ey))
          as [E | L | G];
        try discriminate; try rewrite Hc; cbn [CompOpp]; decide_compare.
    + rewrite (finite_compare mx my ex ey Vx Vy).
      destruct (Qcompare_spec (inject_Z (Z.pos mx) * pow2 ex)
                              (inject_Z (Z.pos my) * pow2 ey)) as [E | L | G];
        decide_compare.
Qed.

(* ------------------------------------------------------------------ *)
(** Alignment and [binary_round] *)

Lemma rounded_ext (x x' : Q) (E : Z) (r : spec_float) :
  (x == x')%Q -> rounded x E r -> rounded x' E r.
Proof.
  intros Hx (N & H1 & H2 & H3 & H4 & H5 & H6).
  exists N. split; [exact H1 |].
  split; [now rewrite <- Hx |].
  split; [intros K; rewrite <- Hx; apply H3 |].
  split; [intros K; rewrite <- Hx; apply H4 |].
  split; [intros HE; rewrite <- Hx; now apply H5 | exact H6].
Qed.

Lemma iter_xO (d m : positive) :
  Z.pos (Pos.iter xO m d) = Z.pos m * 2 ^ Z.pos d.
Proof.
  induction d as [| d IH] using Pos.peano_ind.
  - cbn [Pos.iter]. lia.
  - rewrite Pos.iter_succ, Pos2Z.inj_xO, IH, Pos2Z.inj_succ.
    rewrite Z.pow_succ_r by lia. ring.
Qed.

Lemma shl_align_spec (mx : positive) (ex ex' : Z) :
  snd (shl_align mx ex ex') = Z.min ex ex'
  /\ Z.pos (fst (shl_align mx ex ex'))
     = Z.pos mx * 2 ^ (ex - Z.min ex ex').
Proof.
  unfold shl_align. destruct (ex' - ex) as [| d | d] eqn:Hd; cbn [fst snd].
  - split; [lia |]. replace (ex - Z.min ex ex') with 0 by lia. lia.
  - split; [lia |]. replace (ex - Z.min ex ex') with 0 by lia. lia.
  - split; [lia |]. rewrite iter_xO. f_equal. f_equal. lia.
Qed.

Lemma shift_value (m k e : Z) :
  0 <= k ->
  (inject_Z (m * 2 ^ k) * pow2 (e - k) == inject_Z m * pow2 e)%Q.
Proof.
  intros Hk. rewrite inject_Z_mult, pow2_Z by assumption.
  replace e with (k + (e - k)) at 2 by lia. rewrite pow2_add. ring.
Qed.

Lemma Zdigits2_shift (m : positive) (k : Z) :
  0 <= k -> Zdigits2 (Z.pos m * 2 ^ k) = Z.pos (digits2_pos m) + k.
Proof.
  intros Hk. destruct (digits2_pos_spec m) as [Hlo Hhi].
  apply Zdigits2_unique.
  - assert (0 < 2 ^ k) by (apply Z.pow_pos_nonneg; lia). nia.
  - replace (Z.pos (digits2_pos m) + k - 1)
      with (Z.pos (digits2_pos m) - 1 + k) by lia.
    rewrite !Z.pow_add_r by lia.
    assert (0 < 2 ^ k) by (apply Z.pow_pos_nonneg; lia). nia.
Qed.

Lemma binary_round_rounded (mx : positive) (ex : Z) :
  rounded (inject_Z (Z.pos mx) * pow2 ex)
          (fexp prec emax (Z.pos (digits2_pos mx) + ex))
          (binary_round prec emax false mx ex).
Proof.
  unfold binary_round.
  set (ex' := fexp prec emax (Z.pos (digits2_pos mx) + ex)).
  destruct (shl_align_spec mx ex ex') as [He Hm].
  destruct (shl_align mx ex ex') as [mz ez]. cbn [fst snd] in He, Hm.
  assert (Hk : 0 <= ex - ez) by lia.
  assert (Hd : Zdigits2 (Z.pos mz) + ez = Z.pos (digits2_pos mx) + ex).
  { rewrite Hm, <- He, Zdigits2_shift by assumption. lia. }
  assert (Hr : rounded (inject_Z (Z.pos mz) * pow2 ez)
                 (fexp prec emax (Zdigits2 (Z.pos mz) + ez))
                 (binary_round_aux prec emax false (Z.pos mz) ez loc_Exact)).
  { apply binary_round_aux_rounded; [lia | apply located_exact |].
    rewrite Hd. fold ex'. lia. }
  rewrite Hd in Hr. fold ex' in Hr.
  revert Hr. apply rounded_ext.
  rewrite Hm, <- He.
  replace ez with (ex - (ex - ez)) at 2 by lia.
  apply shift_value. assumption.
Qed.

Lemma binary_round_sign (mx : positive) (ex : Z) :
  binary_round prec emax true mx ex
  = SFopp (binary_round prec emax false mx ex).
Proof.
  unfold binary_round.
  destruct (shl_align mx ex _) as [mz ez]. apply binary_round_aux_sign.
Qed.

(** A valid positive number is its own rounding. *)
Lemma rounded_self (m : positive) (e : Z) :
  valid_binary (S754_finite false m e) = true ->
  rounded (inject_Z (Z.pos m) * pow2 e) e (S754_finite false m e).
Proof.
  intros Hv. destruct (valid_finite _ _ _ Hv) as (Hm & He & Hn & _).
  assert (Hu : (inject_Z (Z.pos m) * pow2 e * pow2 (- e)
                == inject_Z (Z.pos m))%Q).
  { rewrite <- Qmult_assoc, pow2_inv. ring. }
  exists (Z.pos m). split; [lia |].
  split; [rewrite Hu; lra |].
  split; [intros K; rewrite Hu, <- Zle_Qle; auto |].
  split; [intros K; rewrite Hu, <- Zle_Qle; auto |].
  split.
  - intros H. split; [now apply Hn |]. rewrite Hu, <- Zle_Qle. now apply Hn.
  - right. left. exists m, e. split; reflexivity.
Qed.

(* ------------------------------------------------------------------ *)
(** Addition and subtraction *)

Lemma rank_opp (s : spec_float) : (rank (SFopp s) == - rank s)%Q.
Proof.
  destruct s as [sg | sg | | sg m e]; cbn [SFopp rank]; try destruct sg;
    cbn [negb]; ring.
Qed.

Lemma rounded_nonneg (x : Q) (E : Z) (r : spec_float) :
  rounded x E r -> (0 <= rank r)%Q.
Proof.
  intros (N & HN & _ & _ & _ & _ & Hres).
  destruct Hres as [[-> ->] | [(p & E2 & -> & Hv) | [-> Hv]]]; cbn [rank].
  - lra.
  - assert (0 < inject_Z (Z.pos p) * pow2 E2)%Q.
    { apply Qmult_lt_0_compat; [| apply pow2_pos].
      change 0%Q with (inject_Z 0). rewrite <- Zlt_Qlt. lia. }
    lra.
  - pose proof (pow2_pos 1024). lra.
Qed.

(** A number on the grid is rounded to itself, unless it overflows. *)
Lemma rounded_on_grid (x : Q) (E : Z) (r : spec_float) (K : Z) :
  rounded x E r -> (x == inject_Z K * pow2 E)%Q ->
  r = S754_infinity false \/ (rank r == x)%Q.
Proof.
  intros (N & HN & Hnear & Hup & Hdown & Hnormal & Hres) Hx.
  assert (Hu : (x * pow2 (- E) == inject_Z K)%Q).
  { rewrite Hx, <- Qmult_assoc, pow2_inv. ring. }
  assert (HNK : N = K).
  { apply Z.le_antisymm; [apply Hup | apply Hdown]; rewrite Hu; lra. }
  subst K.
  destruct Hres as [[-> ->] | [(p & E2 & -> & Hv) | [-> Hv]]]; cbn [rank].
  - right. rewrite Hx. change (inject_Z 0) with 0%Q. ring.
  - right. rewrite Hx, <- Hv. ring.
  - now left.
Qed.

(** The relative error of a rounding in the normal range. *)
Lemma rounded_relative (x : Q) (E : Z) (r : spec_float) :
  rounded x E r -> (-1074 < E \/ (rank r == x)%Q) ->
  r = S754_infinity false \/ (x * ulpError <= rank r)%Q.
Proof.
  intros Hr [HE | Hex].
  - destruct Hr as (N & HN & Hnear & Hup & Hdown & Hnormal & Hres).
    destruct (Hnormal HE) as [_ H52].
    set (u := (x * pow2 (- E))%Q) in *.
    assert (Hx : (x == u * pow2 E)%Q) by (unfold u; now rewrite unscale).
    assert (Hu : (u * ulpError <= inject_Z N)%Q).
    { unfold ulpError.
      change (inject_Z (2 ^ 52)) with 4503599627370496%Q in H52.
      lra. }
    apply (scale_le _ _ E) in Hu.
    assert (Hx' : (x * ulpError <= inject_Z N * pow2 E)%Q).
    { rewrite Hx. 
      apply Qle_trans with (u * ulpError * pow2 E)%Q; [| exact Hu].
      apply Qle_lteq. right. ring. }
    destruct Hres as [[-> ->] | [(p & E2 & -> & Hv) | [-> Hv]]]; cbn [rank].
    + right. change (inject_Z 0) with 0%Q in Hx'. lra.
    + right. rewrite Hv. lra.
    + now left.
  - right. rewrite Hex.
    pose proof (rounded_nonneg _ _ _ Hr) as H0. rewrite Hex in H0.
    unfold ulpError.
    assert (x * (1 - (1 # 9007199254740992))
            == x - x * (1 # 9007199254740992))%Q
      by ring.
    assert (0 <= x * (1 # 9007199254740992))%Q
      by (apply Qmult_le_0_compat; [assumption | discriminate]).
    lra.
Qed.

Lemma binary_normalize_spec (M ez : Z) :
  -1074 <= ez ->
  let z := binary_normalize prec emax M ez false in
  let X := (inject_Z M * pow2 ez)%Q in
  (0 < M -> exists E, rounded X E z /\ (-1074 < E \/ (rank z == X)%Q))
  /\ (M < 0 ->
      exists E z', z = SFopp z' /\ rounded (- X) E z'
                   /\ (-1074 < E \/ (rank z' == - X)%Q))
  /\ (M = 0 -> z = S754_zero false).
Proof.
  intros Hez z X.
  assert (Hpos : forall p : positive,
            exists E, rounded (inject_Z (Z.pos p) * pow2 ez) E
                        (binary_round prec emax false p ez)
                      /\ (-1074 < E
                          \/ (rank (binary_round prec emax false p ez)
                              == inject_Z (Z.pos p) * pow2 ez)%Q)).
  { intros p. pose proof (binary_round_rounded p ez) as Hr.
    set (E := fexp prec emax (Z.pos (digits2_pos p) + ez)) in *.
    exists E. split; [exact Hr |].
    destruct (Z.eq_dec E (-1074)) as [HE | HE].
    - right.
      destruct (rounded_on_grid _ E _ (Z.pos p * 2 ^ (ez - E)) Hr)
        as [Hinf | Hv].
      + rewrite HE. replace ez with (ez - (-1074) - - (-1074)) at 1 by lia.
        set (k := ez - -1074).
        replace (k - - -1074) with (-1074 + k) by lia.
        rewrite inject_Z_mult, pow2_Z by (unfold k; lia).
        rewrite pow2_add. ring.
      + exfalso. destruct Hr as (N & HN & _ & _ & _ & _ & Hres).
        rewrite Hinf in Hres.
        destruct Hres as [[Hc _] | [(q & E2 & Hc & _) | [_ Hv]]];
          try discriminate.
        rewrite HE in Hv.
        assert (inject_Z N * pow2 (-1074) <= inject_Z (2 ^ 53) * pow2 (-1074))%Q
          by (apply scale_le; rewrite <- Zle_Qle; lia).
        assert (inject_Z (2 ^ 53) * pow2 (-1074) < pow2 1024)%Q by reflexivity.
        lra.
      + exact Hv.
    - left. unfold E in *. rewrite fexp_eq in *. lia. }
  split; [| split].
  - intros HM. destruct M as [| p | p]; try lia. apply Hpos.
  - intros HM. destruct M as [| p | p]; try lia.
    destruct (Hpos p) as (E & Hr & Hex).
    exists E, (binary_round prec emax false p ez).
    split; [apply binary_round_sign |].
    assert (HX : (- X == inject_Z (Z.pos p) * pow2 ez)%Q).
    { unfold X. change (Z.neg p) with (- Z.pos p). rewrite inject_Z_opp. ring. }
    split.
    + revert Hr. apply rounded_ext. now rewrite HX.
    + destruct Hex as [H | H]; [now left | right; now rewrite HX].
  - intros ->. reflexivity.
Qed.

Lemma SFsub_as_add (x y : spec_float) :
  SFsub prec emax x y = SFadd prec emax x (SFopp y).
Proof.
  destruct x as [sx | sx | | sx mx ex], y as [sy | sy | | sy my ey];
    try reflexivity; destruct sx, sy; reflexivity.
Qed.

Lemma valid_opp (s : spec_float) :
  valid_binary (SFopp s) = valid_binary s.
Proof. now destruct s. Qed.

Lemma aligned_value (s : bool) (m : positive) (e ez : Z) :
  ez <= e ->
  (inject_Z (cond_Zopp s (Z.pos (fst (shl_align m e ez)))) * pow2 ez
   == rank (S754_finite s m e))%Q.
Proof.
  intros Hle. destruct (shl_align_spec m e ez) as [_ Hm].
  rewrite Hm. replace (Z.min e ez) with ez by lia.
  cbn [rank].
  assert (Hv : (inject_Z (Z.pos m * 2 ^ (e - ez)) * pow2 ez
                == inject_Z (Z.pos m) * pow2 e)%Q).
  { replace ez with (e - (e - ez)) at 2 by lia. apply shift_value. lia. }
  destruct s; cbn [cond_Zopp].
  - rewrite inject_Z_opp. rewrite <- Hv. ring.
  - rewrite <- Hv. ring.
Qed.

Lemma sumOf_ext (X X' : Q) (z : spec_float) :
  (X == X')%Q -> sumOf X z -> sumOf X' z.
Proof.
  intros HX (H1 & H2 & H3). split; [| split].
  - intros H. destruct (H1 ltac:(lra)) as (E & Hr & Hex).
    exists E. split; [now apply (rounded_ext X) |].
    destruct Hex as [? | Hex]; [now left | right; now rewrite <- HX].
  - intros H. destruct (H2 ltac:(lra)) as (E & z' & Hz & Hr & Hex).
    exists E, z'. split; [assumption |].
    split; [apply (rounded_ext (- X)); [now rewrite HX | assumption] |].
    destruct Hex as [? | Hex]; [now left | right; now rewrite <- HX].
  - intros H. apply H3. lra.
Qed.

Lemma sumOf_self (x : spec_float) :
  valid_binary x = true -> finiteSF x = true -> sumOf (rank x) x.
Proof.
  intros Hv Hf. destruct x as [s | s | | s m e]; try discriminate.
  - cbn [rank]. split; [| split]; try (intros H; lra). intros _. now exists s.
  - pose proof (rank_finite_bounds s m e Hv) as Hb.
    destruct s; cbn [rank]; (split; [| split]); try (intros H; lra).
    + intros _. exists e, (S754_finite false m e).
      split; [reflexivity |].
      assert (HX : (- (-1 * (inject_Z (Z.pos m) * pow2 e))
                    == inject_Z (Z.pos m) * pow2 e)%Q) by ring.
      split.
      * apply (rounded_ext (inject_Z (Z.pos m) * pow2 e));
          [now rewrite HX | now apply rounded_self].
      * right. cbn [rank]. rewrite HX. ring.
    + intros _. exists e. split.
      * apply (rounded_ext (inject_Z (Z.pos m) * pow2 e)); [ring |].
        now apply rounded_self.
      * right. reflexivity.
Qed.

Lemma SFadd_finite (x y : spec_float) :
  valid_binary x = true -> valid_binary y = true ->
  finiteSF x = true -> finiteSF y = true ->
  sumOf (rank x + rank y) (SFadd prec emax x y).
Proof.
  intros Vx Vy Fx Fy.
  destruct x as [sx | sx | | sx mx ex]; try discriminate;
    destruct y as [sy | sy | | sy my ey]; try discriminate.
  - cbn [rank]. split; [| split]; try (intros H; lra).
    intros _. cbn [SFadd]. destruct sx, sy; eexists; reflexivity.
  - apply (sumOf_ext (rank (S754_finite sy my ey))); [cbn [rank]; ring |].
    now apply sumOf_self.
  - apply (sumOf_ext (rank (S754_finite sx mx ex))); [cbn [rank]; ring |].
    now apply sumOf_self.
  - cbn [SFadd].
    set (ez := Z.min ex ey).
    set (M := cond_Zopp sx (Z.pos (fst (shl_align mx ex ez)))
              + cond_Zopp sy (Z.pos (fst (shl_align my ey ez)))).
    destruct (valid_finite _ _ _ Vx) as (_ & Hex & _).
    destruct (valid_finite _ _ _ Vy) as (_ & Hey & _).
    assert (Hez : -1074 <= ez) by (unfold ez; lia).
    assert (HX : (inject_Z M * pow2 ez
                  == rank (S754_finite sx mx ex)
                     + rank (S754_finite sy my ey))%Q).
    { unfold M. rewrite inject_Z_plus, Qmult_plus_distr_l.
      rewrite !aligned_value by (unfold ez; lia). reflexivity. }
    destruct (binary_normalize_spec M ez Hez) as (Hp & Hn & H0).
    apply (sumOf_ext (inject_Z M * pow2 ez)); [exact HX |].
    pose proof (pow2_pos ez) as Hpow.
    split; [| split].
    + intros H. apply Hp.
      destruct (Z.lt_trichotomy M 0) as [Hm | [Hm | Hm]]; [| | assumption].
      * exfalso. assert (inject_Z M < 0)%Q
          by (change 0%Q with (inject_Z 0); now rewrite <- Zlt_Qlt).
        assert (inject_Z M * pow2 ez < 0 * pow2 ez)%Q by now apply scale_lt.
        lra.
      * exfalso. rewrite Hm in H. change (inject_Z 0) with 0%Q in H. lra.
    + intros H. apply Hn.
      destruct (Z.lt_trichotomy M 0) as [Hm | [Hm | Hm]]; [assumption | |].
      * exfalso. rewrite Hm in H. change (inject_Z 0) with 0%Q in H. lra.
      * exfalso. assert (0 < inject_Z M)%Q
          by (change 0%Q with (inject_Z 0); now rewrite <- Zlt_Qlt).
        assert (0 * pow2 ez < inject_Z M * pow2 ez)%Q by now apply scale_lt.
        lra.
    + intros H. exists false. apply H0.
      destruct (Z.lt_trichotomy M 0) as [Hm | [Hm | Hm]]; [| assumption |].
      * exfalso. assert (inject_Z M < 0)%Q
          by (change 0%Q with (inject_Z 0); now rewrite <- Zlt_Qlt).
        assert (inject_Z M * pow2 ez < 0 * pow2 ez)%Q by now apply scale_lt.
        lra.
      * exfalso. assert (0 < inject_Z M)%Q
          by (change 0%Q with (inject_Z 0); now rewrite <- Zlt_Qlt).
        assert (0 * pow2 ez < inject_Z M * pow2 ez)%Q by now apply scale_lt.
        lra.
Qed.

(* ------------------------------------------------------------------ *)
(** Division *)

Lemma fraction_facts (r b : Z) :
  0 <= r < b ->
  let f := (inject_Z r / inject_Z b)%Q in
  (0 <= f < 1)%Q
  /\ ((1 # 2 <= f)%Q <-> b <= 2 * r)
  /\ ((f == 0)%Q <-> r = 0)
  /\ ((f == 1 # 2)%Q <-> 2 * r = b).
Proof.
  intros Hr f.
  assert (Hb : (0 < inject_Z b)%Q).
  { change 0%Q with (inject_Z 0). rewrite <- Zlt_Qlt. lia. }
  assert (Hfb : (f * inject_Z b == inject_Z r)%Q).
  { unfold f. field. intros E. rewrite E in Hb. lra. }
  assert (Hcmp : forall c : Q, (c <= f)%Q <-> (c * inject_Z b <= inject_Z r)%Q).
  { intros c. rewrite <- Hfb. split; intros H.
    - apply Qmult_le_compat_r; [assumption | lra].
    - apply Qmult_le_r in H; assumption. }
  assert (Hcmp' : forall c : Q,
             (f <= c)%Q <-> (inject_Z r <= c * inject_Z b)%Q).
  { intros c. rewrite <- Hfb. split; intros H.
    - apply Qmult_le_compat_r; [assumption | lra].
    - apply Qmult_le_r in H; assumption. }
  assert (Hhalf : ((1 # 2) * inject_Z b <= inject_Z r)%Q <-> b <= 2 * r).
  { rewrite (Zle_Qle b (2 * r)), inject_Z_mult.
    change (inject_Z 2) with 2%Q. split; intros H; lra. }
  assert (Hhalf' : (inject_Z r <= (1 # 2) * inject_Z b)%Q <-> 2 * r <= b).
  { rewrite (Zle_Qle (2 * r) b), inject_Z_mult.
    change (inject_Z 2) with 2%Q. split; intros H; lra. }
  assert (Hr0 : (0 <= inject_Z r)%Q).
  { change 0%Q with (inject_Z 0). rewrite <- Zle_Qle. lia. }
  assert (Hrb : (inject_Z r < inject_Z b)%Q) by (rewrite <- Zlt_Qlt; lia).
  split; [| split; [| split]].
  - split.
    + apply Hcmp. lra.
    + apply Qnot_le_lt. intros H. apply Hcmp in H. lra.
  - rewrite Hcmp. exact Hhalf.
  - split.
    + intros E. assert (H : (f <= 0)%Q) by lra. apply Hcmp' in H.
      assert (inject_Z r <= inject_Z 0)%Q
        by (change (inject_Z 0) with 0%Q; lra).
      rewrite <- Zle_Qle in H0. lia.
    + intros ->. unfold f. reflexivity.
  - split.
    + intros E.
      assert (H1 : ((1 # 2) <= f)%Q) by lra.
      assert (H2 : (f <= (1 # 2))%Q) by lra.
      apply Hcmp, Hhalf in H1. apply Hcmp', Hhalf' in H2. lia.
    + intros E. apply Qle_antisym.
      * apply Hcmp', Hhalf'. lia.
      * apply Hcmp, Hhalf. lia.
Qed.

Lemma new_location_located (m' m2 : Z) :
  0 <= m' -> 0 < m2 ->
  located (inject_Z m' / inject_Z m2)
    (shr_record_of_loc (m' / m2) (new_location m2 (m' mod m2))).
Proof.
  intros Hm' Hm2.
  set (q := m' / m2). set (r := m' mod m2).
  assert (Hr : 0 <= r < m2) by (apply Z.mod_pos_bound; lia).
  assert (Hdiv : m' = m2 * q + r) by (apply Z.div_mod; lia).
  destruct (fraction_facts r m2 Hr) as (Hf1 & Hhalf & Hzero & Heq).
  set (f := (inject_Z r / inject_Z m2)%Q) in *.
  assert (Hb : ~ (inject_Z m2 == 0)%Q).
  { intros E. assert (inject_Z 0 < inject_Z m2)%Q by (rewrite <- Zlt_Qlt; lia).
    change (inject_Z 0) with 0%Q in H. lra. }
  assert (Ht : (inject_Z m' / inject_Z m2 == inject_Z q + f)%Q).
  { unfold f. rewrite Hdiv, inject_Z_plus, inject_Z_mult. field. exact Hb. }
  apply (located_ext (inject_Z q + f)); [now rewrite Ht |].
  assert (Hloc : new_location m2 r
                 = if r =? 0 then loc_Exact
                   else loc_Inexact
                          (match Z.compare (2 * r) m2 with
                           | Lt => Lt | Eq => Eq | Gt => Gt end)).
  { unfold new_location, new_location_even, new_location_odd.
    destruct (Z.even m2) eqn:Hev; destruct (r =? 0); try reflexivity.
    - f_equal. now destruct (2 * r ?= m2).
    - f_equal.
      assert (Hodd : m2 <> 2 * r).
      { intros E. rewrite E, Z.even_mul in Hev. discriminate. }
      destruct (Z.compare_spec (2 * r + 1) m2);
        destruct (Z.compare_spec (2 * r) m2); try reflexivity; lia. }
  rewrite Hloc. unfold located.
  destruct (Z.eqb_spec r 0) as [Hr0 | Hr0].
  - cbn [shr_record_of_loc shr_m shr_r shr_s].
    assert (Hf0 : (f == 0)%Q) by now apply Hzero.
    split; [lra |]. split.
    + split; [discriminate | intros H; lra].
    + split; [discriminate | intros [H _]; elim H; lra].
  - assert (Hfn0 : ~ (f == 0)%Q) by (intros E; now apply Hzero in E).
    destruct (Z.compare_spec (2 * r) m2) as [E | L | G];
      cbn [shr_record_of_loc shr_m shr_r shr_s].
    + assert (Hfh : (f == 1 # 2)%Q) by now apply Heq.
      split; [lra |]. split.
      * split; [intros _; lra | reflexivity].
      * split; [discriminate | intros [_ H]; elim H; lra].
    + assert (Hlt : ~ (1 # 2 <= f)%Q) by (intros H; apply Hhalf in H; lia).
      split; [lra |]. split.
      * split; [discriminate | intros H; elim Hlt; lra].
      * split; [intros _ | reflexivity].
        split; intros E; [apply Hfn0; lra | apply Hlt; lra].
    + assert (Hge : (1 # 2 <= f)%Q) by (apply Hhalf; lia).
      assert (Hne : ~ (f == 1 # 2)%Q) by (intros E; apply Heq in E; lia).
      split; [lra |]. split.
      * split; [intros _; lra | reflexivity].
      * split; [intros _ | reflexivity].
        split; intros E; [apply Hfn0; lra | apply Hne; lra].
Qed.

Lemma SFdiv_finite_pos (mx my : positive) (ex ey : Z) :
  valid_binary (S754_finite false mx ex) = true ->
  valid_binary (S754_finite false my ey) = true ->
  exists E,
    rounded (inject_Z (Z.pos mx) * pow2 ex / (inject_Z (Z.pos my) * pow2 ey))
            E
            (SFdiv prec emax (S754_finite false mx ex)
                             (S754_finite false my ey)).
Proof.
  intros Vx Vy.
  destruct (valid_finite _ _ _ Vx) as (Hmx & Hex & _).
  destruct (valid_finite _ _ _ Vy) as (Hmy & Hey & _).
  cbn [SFdiv xorb]. unfold SFdiv_core_binary. cbn [Zdigits2].
  set (d1 := Z.pos (digits2_pos mx)). set (d2 := Z.pos (digits2_pos my)).
  destruct (digits2_pos_spec mx) as [Hlo1 Hhi1].
  destruct (digits2_pos_spec my) as [Hlo2 Hhi2].
  fold d1 in Hlo1, Hhi1. fold d2 in Hlo2, Hhi2.
  assert (Hd1 : 0 < d1 <= 53).
  { split; [unfold d1; lia |].
    destruct (Z.le_gt_cases d1 53) as [|Hgt]; [assumption |].
    assert (2 ^ 53 <= 2 ^ (d1 - 1)) by (apply Z.pow_le_mono_r; lia). lia. }
  assert (Hd2 : 0 < d2) by (unfold d2; lia).
  set (e' := Z.min (fexp prec emax (d1 + ex - (d2 + ey))) (ex - ey)).
  set (s := ex - ey - e').
  assert (Hs : 0 <= s) by (unfold s, e'; lia).
  set (m' := match s with
             | 0 => Z.pos mx
             | Z.pos _ => Z.shiftl (Z.pos mx) s
             | Z.neg _ => 0
             end).
  assert (Hm' : m' = Z.pos mx * 2 ^ s).
  { unfold m'. destruct s as [| p | p] eqn:Es; [lia | | lia].
    rewrite Z.shiftl_mul_pow2 by lia. reflexivity. }
  assert (Hm'pos : 0 < m').
  { rewrite Hm'. assert (0 < 2 ^ s) by (apply Z.pow_pos_nonneg; lia). nia. }
  rewrite (surjective_pairing (Z.div_eucl m' (Z.pos my))).
  change (fst (Z.div_eucl m' (Z.pos my))) with (m' / Z.pos my).
  change (snd (Z.div_eucl m' (Z.pos my))) with (m' mod Z.pos my).
  set (q := m' / Z.pos my).
  assert (Hq : 0 <= q) by (apply Z.div_pos; lia).
  exists (fexp prec emax (Zdigits2 q + e')).
  assert (Hmy0 : ~ (inject_Z (Z.pos my) == 0)%Q).
  { intros E. assert (inject_Z 0 < inject_Z (Z.pos my))%Q
      by (rewrite <- Zlt_Qlt; lia).
    change (inject_Z 0) with 0%Q in H. lra. }
  apply (rounded_ext (inject_Z m' / inject_Z (Z.pos my) * pow2 e')).
  { rewrite Hm', inject_Z_mult, pow2_Z by assumption.
    assert (Hp : (pow2 ex == pow2 s * (pow2 e' * pow2 ey))%Q).
    { rewrite <- !pow2_add. replace (s + (e' + ey)) with ex by (unfold s; lia).
      reflexivity. }
    rewrite Hp.
    pose proof (pow2_pos ey) as Hey0.
    field. split; [intros E; lra | exact Hmy0]. }
  apply binary_round_aux_rounded.
  - exact Hq.
  - apply new_location_located; lia.
  - rewrite fexp_eq.
    destruct (Z.le_gt_cases e' (-1074)) as [Hle | Hgt]; [lia |].
    assert (He' : e' = d1 + ex - (d2 + ey) - 53).
    { unfold e' in Hgt |- *. rewrite fexp_eq in Hgt |- *. lia. }
    assert (Hs' : s = 53 - d1 + d2) by (unfold s; lia).
    assert (Hq52 : 2 ^ 52 <= q).
    { apply Z.div_le_lower_bound; [lia |].
      rewrite Hm'.
      assert (H1 : 2 ^ (d1 - 1) * 2 ^ s <= Z.pos mx * 2 ^ s).
      { apply Z.mul_le_mono_nonneg_r; [apply Z.pow_nonneg; lia | exact Hlo1]. }
      rewrite <- Z.pow_add_r in H1 by lia.
      replace (d1 - 1 + s) with (d2 + 52) in H1 by lia.
      rewrite Z.pow_add_r in H1 by lia.
      assert (H2 : Z.pos my * 2 ^ 52 <= 2 ^ d2 * 2 ^ 52).
      { apply Z.mul_le_mono_nonneg_r; [lia | lia]. }
      lia. }
    destruct (Zdigits2_spec q ltac:(lia)) as (Hdq & _ & Hhq).
    assert (Hdq53 : 53 <= Zdigits2 q).
    { destruct (Z.le_gt_cases 53 (Zdigits2 q)) as [|Hlt]; [assumption |].
      assert (2 ^ Zdigits2 q <= 2 ^ 52) by (apply Z.pow_le_mono_r; lia).
      lia. }
    lia.
Qed.

(* ------------------------------------------------------------------ *)
(** Representable numbers are rounded to themselves *)

Lemma rounded_finite (x : Q) (E : Z) (r : spec_float) :
  rounded x E r -> (rank r < pow2 1024)%Q -> finiteSF r = true.
Proof.
  intros (N & _ & _ & _ & _ & _ & Hres) Hlt.
  destruct Hres as [[-> _] | [(p & E2 & -> & _) | [-> _]]]; try reflexivity.
  cbn [rank] in Hlt. lra.
Qed.

Lemma representable_below (K j : Z) :
  0 <= K < 2 ^ 53 -> -1074 <= j <= 971 ->
  (inject_Z K * pow2 j < pow2 1024)%Q.
Proof.
  intros HK Hj.
  apply Qlt_le_trans with (inject_Z (2 ^ 53) * pow2 j)%Q.
  - apply scale_lt. rewrite <- Zlt_Qlt. lia.
  - change (pow2 1024) with (inject_Z (2 ^ 53) * pow2 971)%Q.
    apply Qmult_le_l; [reflexivity | apply pow2_le; lia].
Qed.

Lemma rounded_representable (x : Q) (E : Z) (r : spec_float) (K j : Z) :
  rounded x E r ->
  0 <= K < 2 ^ 53 -> -1074 <= j <= 971 ->
  (x == inject_Z K * pow2 j)%Q ->
  (rank r == x)%Q /\ finiteSF r = true.
Proof.
  intros Hr HK Hj Hx.
  assert (H1 : (inject_Z K * pow2 j <= rank r)%Q)
    by (apply (rounded_ge x E r K j); try assumption; lra).
  assert (H2 : (rank r <= inject_Z K * pow2 j)%Q)
    by (apply (rounded_le x E r K j); try assumption; lra).
  pose proof (representable_below K j HK Hj) as H3.
  split; [lra |]. apply (rounded_finite x E r Hr). lra.
Qed.

(** A valid positive number is [K * 2^j] for a [K] and a [j] in range. *)
Lemma rank_representable (s : spec_float) :
  valid_binary s = true -> finiteSF s = true -> (0 <= rank s)%Q ->
  exists K j, 0 <= K < 2 ^ 53 /\ -1074 <= j <= 971
              /\ (rank s == inject_Z K * pow2 j)%Q.
Proof.
  intros Hv Hf H0. destruct s as [sg | sg | | sg m e]; try discriminate.
  - exists 0, 0. split; [lia |]. split; [lia |]. cbn [rank].
    change (inject_Z 0) with 0%Q. ring.
  - destruct (valid_finite _ _ _ Hv) as (Hm & He & _).
    pose proof (rank_finite_bounds _ _ _ Hv) as Hb.
    destruct sg; cbn [rank] in H0 |- *; [lra |].
    exists (Z.pos m), e. split; [lia |]. split; [lia | ring].
Qed.

Lemma of_uint63_small (z : Z) :
  0 <= z < 2 ^ 53 ->
  Prim2SF (PrimFloat.of_uint63 (Uint63.of_Z z))
  = binary_normalize prec emax z 0 false.
Proof.
  intros Hz. rewrite FloatAxioms.of_uint63_spec, Uint63.of_Z_spec.
  rewrite Z.mod_small; [reflexivity |].
  split; [lia |]. apply Z.lt_trans with (2 ^ 53); [lia | reflexivity].
Qed.

Lemma number_nonneg (z : Z) :
  0 <= z < 2 ^ 53 ->
  (valueOf (number z) == inject_Z z)%Q
  /\ finiteSF (Prim2SF (number z)) = true.
Proof.
  intros Hz. unfold valueOf, number.
  destruct (Z.ltb_spec z 0) as [| _]; [lia |].
  rewrite of_uint63_small by assumption.
  destruct (binary_normalize_spec z 0 ltac:(lia)) as (Hp & _ & H0).
  destruct (Z.eq_dec z 0) as [-> | Hne].
  - rewrite H0 by reflexivity. split; reflexivity.
  - destruct (Hp ltac:(lia)) as (E & Hr & _).
    destruct (rounded_representable _ E _ z 0 Hr) as [Hv Hf];
      [lia | lia | reflexivity |].
    split; [rewrite Hv; change (pow2 0) with 1%Q; ring | exact Hf].
Qed.

Lemma finiteSF_opp (s : spec_float) : finiteSF (SFopp s) = finiteSF s.
Proof. now destruct s. Qed.

Lemma number_spec (z : Z) :
  - 2 ^ 53 < z < 2 ^ 53 ->
  (valueOf (number z) == inject_Z z)%Q
  /\ finiteSF (Prim2SF (number z)) = true.
Proof.
  intros Hz. destruct (Z.le_gt_cases 0 z) as [Hpos | Hneg].
  - apply number_nonneg. lia.
  - destruct (number_nonneg (- z) ltac:(lia)) as [Hv Hf].
    unfold valueOf, number in *.
    destruct (Z.ltb_spec z 0) as [_ |]; [| lia].
    destruct (Z.ltb_spec (- z) 0) as [|_]; [lia |].
    rewrite FloatAxioms.opp_spec, rank_opp, finiteSF_opp.
    split; [| exact Hf]. rewrite Hv, inject_Z_opp. ring.
Qed.

(* ------------------------------------------------------------------ *)
(** Comparisons *)

Lemma SFeqb_same (s : spec_float) :
  SFeqb s s = match s with S754_nan => false | _ => true end.
Proof.
  destruct s as [[] | [] | | [] m e]; try reflexivity;
    unfold SFeqb, SFcompare;
    now rewrite Z.compare_refl, Pos.compare_cont_refl.
Qed.

Lemma is_nan_spec (x : float) :
  PrimFloat.is_nan x = match Prim2SF x with S754_nan => true | _ => false end.
Proof.
  unfold PrimFloat.is_nan. rewrite FloatAxioms.eqb_spec, SFeqb_same.
  now destruct (Prim2SF x).
Qed.

Lemma is_nan_false (x : float) :
  PrimFloat.is_nan x = false <-> notNaN (Prim2SF x).
Proof.
  rewrite is_nan_spec. unfold notNaN.
  destruct (Prim2SF x); split; intros H; congruence.
Qed.

Lemma leb_value (x y : float) :
  notNaN (Prim2SF x) -> notNaN (Prim2SF y) ->
  ((x <=? y)%float = true <-> (valueOf x <= valueOf y)%Q).
Proof.
  intros Nx Ny. rewrite FloatAxioms.leb_spec. unfold SFleb, valueOf.
  rewrite (SFcompare_rank _ _ (FloatAxioms.Prim2SF_valid x)
             (FloatAxioms.Prim2SF_valid y) Nx Ny).
  destruct (Qcompare_spec (rank (Prim2SF x)) (rank (Prim2SF y)))
    as [E | L | G];
    split; intros Hc; try reflexivity; try discriminate; lra.
Qed.

Lemma ltb_value (x y : float) :
  notNaN (Prim2SF x) -> notNaN (Prim2SF y) ->
  ((x <? y)%float = true <-> (valueOf x < valueOf y)%Q).
Proof.
  intros Nx Ny. rewrite FloatAxioms.ltb_spec. unfold SFltb, valueOf.
  rewrite (SFcompare_rank _ _ (FloatAxioms.Prim2SF_valid x)
             (FloatAxioms.Prim2SF_valid y) Nx Ny).
  destruct (Qcompare_spec (rank (Prim2SF x)) (rank (Prim2SF y)))
    as [E | L | G];
    split; intros Hc; try reflexivity; try discriminate; lra.
Qed.

Lemma leb_true_notNaN (x y : float) :
  (x <=? y)%float = true -> notNaN (Prim2SF x) /\ notNaN (Prim2SF y).
Proof.
  rewrite FloatAxioms.leb_spec. unfold SFleb, notNaN. intros Hc.
  destruct (Prim2SF x), (Prim2SF y); cbn in Hc; split; congruence.
Qed.

Lemma ltb_true_notNaN (x y : float) :
  (x <? y)%float = true -> notNaN (Prim2SF x) /\ notNaN (Prim2SF y).
Proof.
  rewrite FloatAxioms.ltb_spec. unfold SFltb, notNaN. intros Hc.
  destruct (Prim2SF x), (Prim2SF y); cbn in Hc; split; congruence.
Qed.

Lemma finiteSF_notNaN (s : spec_float) : finiteSF s = true -> notNaN s.
Proof. unfold notNaN. destruct s; cbn; intros H; congruence. Qed.

(* ------------------------------------------------------------------ *)
(** [Math.floor] and [Math.ceil] *)

Lemma finite_value (s : bool) (m : positive) (e : Z) :
  e < 0 ->
  (rank (S754_finite s m e) * inject_Z (2 ^ (- e))
   == inject_Z (cond_Zopp s (Z.pos m)))%Q.
Proof.
  intros He. rewrite pow2_Z by lia. cbn [rank].
  assert (H : (pow2 e * pow2 (- e) == 1)%Q) by apply pow2_inv.
  destruct s; cbn [cond_Zopp].
  - rewrite inject_Z_opp.
    transitivity (- inject_Z (Z.pos m) * (pow2 e * pow2 (- e)))%Q; [ring |].
    rewrite H. ring.
  - transitivity (inject_Z (Z.pos m) * (pow2 e * pow2 (- e)))%Q; [ring |].
    rewrite H. ring.
Qed.

Lemma between_multiples (v : Q) (M z k : Z) :
  0 <= k ->
  (v * inject_Z (2 ^ k) == inject_Z M)%Q ->
  2 ^ k * z <= M < 2 ^ k * (z + 1) ->
  (inject_Z z <= v < inject_Z z + 1)%Q.
Proof.
  intros Hk Hv [Hlo Hhi].
  assert (Hp : (0 < inject_Z (2 ^ k))%Q).
  { change 0%Q with (inject_Z 0). rewrite <- Zlt_Qlt.
    apply Z.pow_pos_nonneg; lia. }
  rewrite Zle_Qle, inject_Z_mult in Hlo.
  rewrite Zlt_Qlt, inject_Z_mult, inject_Z_plus in Hhi.
  change (inject_Z 1) with 1%Q in Hhi.
  rewrite <- Hv in Hlo, Hhi.
  split.
  - apply (Qmult_le_r _ _ (inject_Z (2 ^ k))); [assumption |].
    rewrite (Qmult_comm (inject_Z z)). exact Hlo.
  - apply (Qmult_lt_r _ _ (inject_Z (2 ^ k))); [assumption |].
    rewrite (Qmult_comm (inject_Z z + 1)). exact Hhi.
Qed.

Lemma floor_spec (x : float) :
  finiteSF (Prim2SF x) = true ->
  exists z : Z,
    (valueOf (Math_floor x) == inject_Z z)%Q
    /\ (inject_Z z <= valueOf x < inject_Z z + 1)%Q
    /\ finiteSF (Prim2SF (Math_floor x)) = true.
Proof.
  intros Hf. unfold Math_floor, valueOf.
  pose proof (FloatAxioms.Prim2SF_valid x) as Hv.
  destruct (Prim2SF x) as [s | s | | s m e] eqn:Hx; try discriminate.
  - exists 0. rewrite Hx. cbn [rank]. change (inject_Z 0) with 0%Q.
    split; [reflexivity |]. split; [lra | reflexivity].
  - destruct (valid_finite _ _ _ Hv) as (Hm & He & _).
    destruct (Z.leb_spec 0 e) as [Hpos | Hneg].
    + exists (cond_Zopp s (Z.pos m) * 2 ^ e). rewrite Hx.
      assert (Hval : (rank (S754_finite s m e)
                      == inject_Z (cond_Zopp s (Z.pos m) * 2 ^ e))%Q).
      { rewrite inject_Z_mult, pow2_Z by assumption. cbn [rank].
        destruct s; cbn [cond_Zopp]; [rewrite inject_Z_opp |]; ring. }
      split; [exact Hval |]. split; [rewrite Hval; lra | reflexivity].
    + set (M := cond_Zopp s (Z.pos m)).
      set (k := - e). assert (Hk : 0 < k) by (unfold k; lia).
      set (z := M / 2 ^ k).
      assert (Hpow : 0 < 2 ^ k) by (apply Z.pow_pos_nonneg; lia).
      assert (Hdiv : 2 ^ k * z <= M < 2 ^ k * (z + 1)).
      { pose proof (Z.mul_div_le M (2 ^ k) Hpow).
        pose proof (Z.mul_succ_div_gt M (2 ^ k) Hpow).
        unfold z. lia. }
      assert (HM : - 2 ^ 53 < M < 2 ^ 53) by (unfold M; destruct s; cbn; lia).
      assert (Hz : - 2 ^ 53 < z < 2 ^ 53).
      { assert (1 <= 2 ^ k) by lia. nia. }
      destruct (number_spec z Hz) as [Hnv Hnf].
      exists z. split; [exact Hnv |]. split; [| exact Hnf].
      apply (between_multiples _ M z k); [lia | | exact Hdiv].
      apply finite_value. lia.
Qed.

Lemma ceil_spec (x : float) :
  finiteSF (Prim2SF x) = true ->
  exists z : Z,
    (valueOf (Math_ceil x) == inject_Z z)%Q
    /\ (inject_Z z - 1 < valueOf x <= inject_Z z)%Q
    /\ finiteSF (Prim2SF (Math_ceil x)) = true.
Proof.
  intros Hf. unfold Math_ceil, valueOf.
  pose proof (FloatAxioms.Prim2SF_valid x) as Hv.
  destruct (Prim2SF x) as [s | s | | s m e] eqn:Hx; try discriminate.
  - exists 0. rewrite Hx. cbn [rank]. change (inject_Z 0) with 0%Q.
    split; [reflexivity |]. split; [lra | reflexivity].
  - destruct (valid_finite _ _ _ Hv) as (Hm & He & _).
    destruct (Z.leb_spec 0 e) as [Hpos | Hneg].
    + exists (cond_Zopp s (Z.pos m) * 2 ^ e). rewrite Hx.
      assert (Hval : (rank (S754_finite s m e)
                      == inject_Z (cond_Zopp s (Z.pos m) * 2 ^ e))%Q).
      { rewrite inject_Z_mult, pow2_Z by assumption. cbn [rank].
        destruct s; cbn [cond_Zopp]; [rewrite inject_Z_opp |]; ring. }
      split; [exact Hval |]. split; [rewrite Hval; lra | reflexivity].
    + set (M := cond_Zopp s (Z.pos m)).
      set (k := - e). assert (Hk : 0 < k) by (unfold k; lia).
      cbv zeta. set (w := - M / 2 ^ k). set (z := - w).
      assert (Hpow : 0 < 2 ^ k) by (apply Z.pow_pos_nonneg; lia).
      assert (Hdiv : 2 ^ k * w <= - M < 2 ^ k * (w + 1)).
      { pose proof (Z.mul_div_le (- M) (2 ^ k) Hpow).
        pose proof (Z.mul_succ_div_gt (- M) (2 ^ k) Hpow).
        unfold w. lia. }
      assert (HM : - 2 ^ 53 < M < 2 ^ 53) by (unfold M; destruct s; cbn; lia).
      assert (Hz : - 2 ^ 53 < z < 2 ^ 53).
      { assert (1 <= 2 ^ k) by lia. unfold z. nia. }
      assert (Hbetween : (inject_Z z - 1 < rank (S754_finite s m e)
                          <= inject_Z z)%Q).
      { assert (Hv' : (rank (S754_finite s m e) * inject_Z (2 ^ k)
                       == inject_Z M)%Q) by (apply finite_value; lia).
        assert (Hneg' : (- rank (S754_finite s m e) * inject_Z (2 ^ k)
                         == inject_Z (- M))%Q).
        { rewrite inject_Z_opp, <- Hv'. ring. }
        pose proof (between_multiples _ _ w k ltac:(lia) Hneg' Hdiv) as Hb.
        unfold z. rewrite inject_Z_opp. lra. }
      exists z. destruct (Z.eqb_spec z 0) as [Hz0 | Hz0].
      * rewrite Hz0 in *. split; [reflexivity |].
        split; [exact Hbetween | reflexivity].
      * destruct (number_spec z Hz) as [Hnv Hnf].
        split; [exact Hnv |]. split; [exact Hbetween | exact Hnf].
Qed.

Lemma floor_infinite (x : float) :
  finiteSF (Prim2SF x) = false -> Math_floor x = x.
Proof.
  unfold Math_floor. now destruct (Prim2SF x).
Qed.

Lemma ceil_infinite (x : float) :
  finiteSF (Prim2SF x) = false -> Math_ceil x = x.
Proof.
  unfold Math_ceil. now destruct (Prim2SF x).
Qed.

(* ------------------------------------------------------------------ *)
(** The operations on non-negative finite numbers *)

Lemma rounded_shape (x : Q) (E : Z) (r : spec_float) :
  rounded x E r -> r = S754_infinity false \/ finiteSF r = true.
Proof.
  intros (N & _ & _ & _ & _ & _ & Hres).
  destruct Hres as [[-> _] | [(p & E2 & -> & _) | [-> _]]]; auto.
Qed.

Lemma rounded_notNaN (x : Q) (E : Z) (r : spec_float) :
  rounded x E r -> notNaN r.
Proof.
  intros H. destruct (rounded_shape _ _ _ H) as [-> | Hf].
  - discriminate.
  - now apply finiteSF_notNaN.
Qed.

Lemma notNaN_opp (s : spec_float) : notNaN s -> notNaN (SFopp s).
Proof. unfold notNaN. destruct s; cbn; congruence. Qed.

Lemma sumOf_notNaN (X : Q) (z : spec_float) : sumOf X z -> notNaN z.
Proof.
  intros (Hp & Hn & H0).
  destruct (Q_dec 0 X) as [[H | H] | H].
  - destruct (Hp H) as (E & Hr & _). now apply (rounded_notNaN _ _ _ Hr).
  - destruct (Hn H) as (E & z' & -> & Hr & _).
    apply notNaN_opp. now apply (rounded_notNaN _ _ _ Hr).
  - destruct (H0 ltac:(lra)) as [s ->]. discriminate.
Qed.

Lemma sumOf_le (X : Q) (z : spec_float) (K j : Z) :
  sumOf X z -> 0 <= K < 2 ^ 53 -> -1074 <= j <= 971 ->
  (X <= inject_Z K * pow2 j)%Q -> (rank z <= inject_Z K * pow2 j)%Q.
Proof.
  intros (Hp & Hn & H0) HK Hj HX.
  assert (Hb : (0 <= inject_Z K * pow2 j)%Q).
  { apply Qmult_le_0_compat; [| apply Qlt_le_weak, pow2_pos].
    change 0%Q with (inject_Z 0). rewrite <- Zle_Qle. lia. }
  destruct (Q_dec 0 X) as [[H | H] | H].
  - destruct (Hp H) as (E & Hr & _). now apply (rounded_le X E z K j).
  - destruct (Hn H) as (E & z' & -> & Hr & _).
    rewrite rank_opp. pose proof (rounded_nonneg _ _ _ Hr). lra.
  - destruct (H0 ltac:(lra)) as [s ->]. exact Hb.
Qed.

Lemma sumOf_ge (X : Q) (z : spec_float) (K j : Z) :
  sumOf X z -> 0 <= K < 2 ^ 53 -> -1074 <= j <= 971 ->
  (inject_Z K * pow2 j <= X)%Q -> (inject_Z K * pow2 j <= rank z)%Q.
Proof.
  intros (Hp & Hn & H0) HK Hj HX.
  assert (Hb : (0 <= inject_Z K * pow2 j)%Q).
  { apply Qmult_le_0_compat; [| apply Qlt_le_weak, pow2_pos].
    change 0%Q with (inject_Z 0). rewrite <- Zle_Qle. lia. }
  destruct (Q_dec 0 X) as [[H | H] | H].
  - destruct (Hp H) as (E & Hr & _). now apply (rounded_ge X E z K j).
  - lra.
  - destruct (H0 ltac:(lra)) as [s ->]. cbn [rank]. lra.
Qed.

Lemma sumOf_relative (X : Q) (z : spec_float) :
  sumOf X z -> (0 <= X)%Q ->
  z = S754_infinity false
  \/ (finiteSF z = true /\ (X * ulpError <= rank z)%Q).
Proof.
  intros (Hp & Hn & H0) HX.
  destruct (Q_dec 0 X) as [[H | H] | H].
  - destruct (Hp H) as (E & Hr & Hex).
    destruct (rounded_relative _ _ _ Hr Hex) as [Hinf | Hrel];
      [now left |].
    destruct (rounded_shape _ _ _ Hr) as [Hinf | Hf]; [now left |].
    right. now split.
  - lra.
  - destruct (H0 ltac:(lra)) as [s ->]. right. split; [reflexivity |].
    cbn [rank]. rewrite <- H. unfold ulpError. lra.
Qed.

Lemma add_finite (a b : float) :
  finiteSF (Prim2SF a) = true -> finiteSF (Prim2SF b) = true ->
  sumOf (valueOf a + valueOf b) (Prim2SF (a + b)).
Proof.
  intros Fa Fb. rewrite FloatAxioms.add_spec.
  apply SFadd_finite; try assumption; apply FloatAxioms.Prim2SF_valid.
Qed.

Lemma sub_finite (a b : float) :
  finiteSF (Prim2SF a) = true -> finiteSF (Prim2SF b) = true ->
  sumOf (valueOf a - valueOf b) (Prim2SF (a - b)).
Proof.
  intros Fa Fb. rewrite FloatAxioms.sub_spec.
  unfold SF64sub. rewrite SFsub_as_add.
  apply (sumOf_ext (rank (Prim2SF a) + rank (SFopp (Prim2SF b)))).
  { unfold valueOf. rewrite rank_opp. ring. }
  apply SFadd_finite.
  - apply FloatAxioms.Prim2SF_valid.
  - rewrite valid_opp. apply FloatAxioms.Prim2SF_valid.
  - assumption.
  - now rewrite finiteSF_opp.
Qed.

(** The quotient of a non-negative finite number by a positive one. *)
Lemma div_finite (a h : float) :
  finiteSF (Prim2SF a) = true -> finiteSF (Prim2SF h) = true ->
  (0 <= valueOf a)%Q -> (0 < valueOf h)%Q ->
  (exists s, Prim2SF (a / h) = S754_zero s /\ (valueOf a == 0)%Q)
  \/ (exists E, rounded (valueOf a / valueOf h) E (Prim2SF (a / h))).
Proof.
  intros Fa Fh Ha Hh. rewrite FloatAxioms.div_spec. unfold valueOf in *.
  pose proof (FloatAxioms.Prim2SF_valid a) as Va.
  pose proof (FloatAxioms.Prim2SF_valid h) as Vh.
  destruct (Prim2SF h) as [sh | sh | | sh mh eh]; cbn in Fh;
    try discriminate Fh.
  { cbn [rank] in Hh. lra. }
  pose proof (rank_finite_bounds _ _ _ Vh) as Bh.
  destruct sh; [cbn [rank] in Hh; lra |].
  destruct (Prim2SF a) as [sa | sa | | sa ma ea]; cbn in Fa;
    try discriminate Fa.
  - left. exists (xorb sa false). split; reflexivity.
  - pose proof (rank_finite_bounds _ _ _ Va) as Ba.
    destruct sa; [cbn [rank] in Ha; lra |].
    right. destruct (SFdiv_finite_pos ma mh ea eh Va Vh) as [E Hr].
    exists E. revert Hr. apply rounded_ext. cbn [rank].
    field. pose proof (pow2_pos eh) as Hpe. split.
    + intros Hc. lra.
    + intros Hc. rewrite Hc in Bh. lra.
Qed.

(* ------------------------------------------------------------------ *)

Lemma Math_max_zero (x : float) :
  Math_max [0%float; x]
  = if PrimFloat.is_nan x then x
    else if (0 <? x)%float then x else 0%float.
Proof.
  unfold Math_max. cbn [fold_left].
  change (PrimFloat.is_nan neg_infinity) with false.
  change (PrimFloat.is_nan 0) with false.
  change (isPositiveZero 0 && isNegativeZero neg_infinity) with false.
  change (neg_infinity <? 0)%float with true. cbv iota.
  change (PrimFloat.is_nan 0) with false. cbv iota.
  change (isNegativeZero 0) with false. rewrite andb_false_r.
  reflexivity.
Qed.

Lemma Math_max_zero_le (x : float) (v : Q) :
  notNaN (Prim2SF x) -> (valueOf x <= v)%Q -> (0 <= v)%Q ->
  notNaN (Prim2SF (Math_max [0%float; x]))
  /\ (valueOf (Math_max [0%float; x]) <= v)%Q.
Proof.
  intros Nx Hx Hv. rewrite Math_max_zero.
  apply is_nan_false in Nx. rewrite Nx. apply is_nan_false in Nx.
  destruct (0 <? x)%float.
  - now split.
  - split; [discriminate | exact Hv].
Qed.

Lemma infinity_value : (valueOf infinity == pow2 1024)%Q.
Proof.
  unfold valueOf. change (Prim2SF infinity) with (S754_infinity false).
  cbn [rank]. ring.
Qed.

Lemma Math_min_ge (a b : float) (v : Q) :
  notNaN (Prim2SF a) -> notNaN (Prim2SF b) ->
  (v <= valueOf a)%Q -> (v <= valueOf b)%Q -> (v <= pow2 1024)%Q ->
  notNaN (Prim2SF (Math_min [a; b]))
  /\ (v <= valueOf (Math_min [a; b]))%Q.
Proof.
  intros Na Nb Ha Hb Hv. unfold Math_min. cbn [fold_left].
  change (PrimFloat.is_nan infinity) with false. cbv iota.
  pose proof Na as Na'. pose proof Nb as Nb'.
  apply is_nan_false in Na'. apply is_nan_false in Nb'.
  rewrite Na'.
  change (isPositiveZero infinity) with false. rewrite andb_false_r.
  set (first := if (a <? infinity)%float then a else infinity).
  assert (Hfirst : notNaN (Prim2SF first) /\ (v <= valueOf first)%Q).
  { unfold first. destruct (a <? infinity)%float.
    - now split.
    - split; [discriminate | now rewrite infinity_value]. }
  destruct Hfirst as [Nf Hf]. pose proof Nf as Nf'.
  apply is_nan_false in Nf'. rewrite Nf', Nb'.
  destruct (isNegativeZero b && isPositiveZero first); [now split |].
  destruct (b <? first)%float; now split.
Qed.

Lemma is_finite_spec (x : float) :
  PrimFloat.is_finite x = finiteSF (Prim2SF x).
Proof.
  unfold PrimFloat.is_finite, PrimFloat.is_infinity.
  rewrite is_nan_spec, FloatAxioms.eqb_spec, FloatAxioms.abs_spec.
  change (Prim2SF infinity) with (S754_infinity false).
  now destruct (Prim2SF x) as [[] | [] | | [] m e].
Qed.

Lemma one_value : (valueOf 1 == 1)%Q /\ finiteSF (Prim2SF 1) = true.
Proof. split; reflexivity. Qed.

Lemma zero_value : (valueOf 0 == 0)%Q /\ notNaN (Prim2SF 0).
Proof. split; [reflexivity | discriminate]. Qed.

Lemma inject_Z_scaled (K : Z) : (inject_Z K * pow2 0 == inject_Z K)%Q.
Proof. change (pow2 0) with 1%Q. ring. Qed.

Lemma positive_finite (h : float) :
  finiteSF (Prim2SF h) = true -> (0 < valueOf h)%Q ->
  exists m e, Prim2SF h = S754_finite false m e.
Proof.
  unfold valueOf. intros Fh Hh.
  pose proof (FloatAxioms.Prim2SF_valid h) as Vh.
  destruct (Prim2SF h) as [sh | sh | | sh mh eh]; cbn in Fh;
    try discriminate Fh.
  - cbn [rank] in Hh. lra.
  - pose proof (rank_finite_bounds _ _ _ Vh) as Bh.
    destruct sh; [cbn [rank] in Hh; lra |]. now exists mh, eh.
Qed.

Lemma div_infinite (a h : float) :
  Prim2SF a = S754_infinity false ->
  finiteSF (Prim2SF h) = true -> (0 < valueOf h)%Q ->
  Prim2SF (a / h) = S754_infinity false.
Proof.
  intros Ha Fh Hh. destruct (positive_finite h Fh Hh) as (m & e & Hph).
  rewrite FloatAxioms.div_spec, Ha, Hph. reflexivity.
Qed.

Lemma add_infinite (a b : float) :
  Prim2SF a = S754_infinity false -> finiteSF (Prim2SF b) = true ->
  Prim2SF (a + b) = S754_infinity false.
Proof.
  intros Ha Fb. rewrite FloatAxioms.add_spec, Ha.
  destruct (Prim2SF b); cbn in Fb; try discriminate Fb; reflexivity.
Qed.

Lemma infinite_value (a : float) :
  Prim2SF a = S754_infinity false -> (valueOf a == pow2 1024)%Q.
Proof. unfold valueOf. intros ->. cbn [rank]. ring. Qed.

Lemma index_below (i : Z) : 0 <= i < 2 ^ 53 -> (inject_Z i <= pow2 1024)%Q.
Proof.
  intros Hi. pose proof (representable_below i 0 Hi ltac:(lia)) as H.
  rewrite inject_Z_scaled in H. lra.
Qed.

Lemma nonneg_cases (o : float) :
  (0 <=? o)%float = true ->
  (0 <= valueOf o)%Q
  /\ (finiteSF (Prim2SF o) = true \/ Prim2SF o = S754_infinity false).
Proof.
  intros Ho. destruct (leb_true_notNaN _ _ Ho) as [N0 No].
  apply (leb_value _ _ N0 No) in Ho.
  destruct zero_value as [H0 _]. rewrite H0 in Ho. split; [exact Ho |].
  unfold valueOf in Ho.
  destruct (Prim2SF o) as [so | so | | so mo eo]; cbn [finiteSF]; auto.
  - destruct so; [| now right]. cbn [rank] in Ho.
    pose proof (pow2_pos 1024). lra.
Qed.

(** Taking a non-negative overscan from an index does not raise it. *)
Lemma minus_overscan (a o : float) (i : Z) :
  finiteSF (Prim2SF a) = true -> (0 <=? o)%float = true ->
  0 <= i < 2 ^ 53 -> (valueOf a <= inject_Z i)%Q ->
  notNaN (Prim2SF (a - o)) /\ (valueOf (a - o) <= inject_Z i)%Q.
Proof.
  intros Fa Ho Hi Ha. destruct (nonneg_cases o Ho) as [Ho0 [Fo | Io]].
  - pose proof (sub_finite _ _ Fa Fo) as Hsub.
    split; [exact (sumOf_notNaN _ _ Hsub) |].
    rewrite <- (inject_Z_scaled i).
    apply (sumOf_le _ _ i 0 Hsub Hi ltac:(lia)).
    rewrite inject_Z_scaled. lra.
  - assert (Hinf : Prim2SF (a - o) = S754_infinity true).
    { rewrite FloatAxioms.sub_spec, Io.
      destruct (Prim2SF a); cbn in Fa; try discriminate Fa; reflexivity. }
    unfold valueOf. rewrite Hinf. split; [discriminate |].
    cbn [rank]. pose proof (pow2_pos 1024).
    assert (0 <= inject_Z i)%Q.
    { change 0%Q with (inject_Z 0). rewrite <- Zle_Qle. lia. }
    lra.
Qed.

(** Adding a non-negative overscan to an index does not lower it. *)
Lemma plus_overscan (a o : float) (i : Z) :
  finiteSF (Prim2SF a) = true \/ Prim2SF a = S754_infinity false ->
  (0 <=? o)%float = true ->
  0 <= i < 2 ^ 53 -> (inject_Z i <= valueOf a)%Q ->
  notNaN (Prim2SF (a + o)) /\ (inject_Z i <= valueOf (a + o))%Q.
Proof.
  intros Fa Ho Hi Ha. destruct (nonneg_cases o Ho) as [Ho0 [Fo | Io]].
  - destruct Fa as [Fa | Ia].
    + pose proof (add_finite _ _ Fa Fo) as Hadd.
      split; [exact (sumOf_notNaN _ _ Hadd) |].
      rewrite <- (inject_Z_scaled i).
      apply (sumOf_ge _ _ i 0 Hadd Hi ltac:(lia)).
      rewrite inject_Z_scaled. lra.
    + pose proof (add_infinite _ _ Ia Fo) as Hsum.
      split; [unfold notNaN; rewrite Hsum; discriminate |].
      rewrite (infinite_value _ Hsum). now apply index_below.
  - assert (Hsum : Prim2SF (a + o) = S754_infinity false).
    { rewrite FloatAxioms.add_spec, Io. destruct Fa as [Fa | ->].
      - destruct (Prim2SF a); cbn in Fa; try discriminate Fa; reflexivity.
      - reflexivity. }
    split; [unfold notNaN; rewrite Hsum; discriminate |].
    rewrite (infinite_value _ Hsum). now apply index_below.
Qed.

Lemma tiny_pos : (0 < tiny)%Q.
Proof. apply pow2_pos. Qed.

Lemma rounded_error (x : Q) (E : Z) (r : spec_float) :
  rounded x E r -> finiteSF r = true ->
  (-1074 < E -> (- (unitRoundoff * x) <= rank r - x <= unitRoundoff * x)%Q)
  /\ (E <= -1074 -> (- tiny <= rank r - x <= tiny)%Q).
Proof.
  intros (N & HN & [Hlo Hhi] & _ & _ & Hnorm & Hr) Fr.
  assert (Hv : (rank r == inject_Z N * pow2 E)%Q).
  { destruct Hr as [[-> ->] | [(p & E2 & -> & Hv) | [-> _]]].
    - cbn [rank]. change (inject_Z 0) with 0%Q. ring.
    - cbn [rank]. rewrite <- Hv. ring.
    - discriminate Fr. }
  pose proof (pow2_pos E) as HpE.
  pose proof (unscale x E) as Hx.
  assert (Hd1 : (rank r - x == (inject_Z N - x * pow2 (- E)) * pow2 E)%Q).
  { rewrite Hv. rewrite <- Hx at 1. ring. }
  assert (Hb : (- ((1 # 2) * pow2 E) <= rank r - x <= (1 # 2) * pow2 E)%Q).
  { rewrite Hd1. split.
    - assert (H : (- (1 # 2) * pow2 E
                   <= (inject_Z N - x * pow2 (- E)) * pow2 E)%Q)
        by (apply Qmult_le_compat_r; lra).
      lra.
    - apply Qmult_le_compat_r; lra. }
  split.
  - intros HE. destruct (Hnorm HE) as [_ H52].
    assert (Hx52 : (inject_Z (2 ^ 52) * pow2 E <= x)%Q).
    { rewrite <- Hx. apply Qmult_le_compat_r; [exact H52 | lra]. }
    change (inject_Z (2 ^ 52)) with 4503599627370496%Q in Hx52.
    unfold unitRoundoff. lra.
  - intros HE. assert (Hle : (pow2 E <= pow2 (-1074))%Q) by now apply pow2_le.
    assert (Ht : (pow2 (-1074) == 2 * tiny)%Q).
    { unfold tiny. change (-1074) with (-1075 + 1). apply pow2_succ. }
    lra.
Qed.

Lemma sumOf_roundingOf (X : Q) (z : spec_float) : sumOf X z -> roundingOf X z.
Proof.
  intros (Hp & Hn & H0). split; [| split].
  - intros HX. destruct (Hp HX) as (E & Hr & _). now exists E.
  - intros HX. destruct (Hn HX) as (E & z' & Hz & Hr & _). now exists E, z'.
  - exact H0.
Qed.

Lemma roundingOf_ext (X X' : Q) (z : spec_float) :
  (X == X')%Q -> roundingOf X z -> roundingOf X' z.
Proof.
  intros HX (Hp & Hn & H0). split; [| split].
  - intros H. destruct Hp as (E & Hr); [lra |].
    exists E. revert Hr. now apply rounded_ext.
  - intros H. destruct Hn as (E & z' & Hz & Hr); [lra |].
    exists E, z'. split; [exact Hz |]. revert Hr. apply rounded_ext. lra.
  - intros H. apply H0. lra.
Qed.

(** A finite result is within a relative error of [2^-53] of the exact
    one, or within [2^-1075] of it in the subnormal range. *)
Lemma roundingOf_error (X : Q) (z : spec_float) :
  roundingOf X z -> finiteSF z = true ->
  (Qabs (rank z - X) <= unitRoundoff * Qabs X + tiny)%Q.
Proof.
  intros (Hp & Hn & H0) Fz. pose proof tiny_pos as Ht.
  apply Qabs_Qle_condition.
  destruct (Q_dec X 0) as [[Hneg | Hpos] | Hzero].
  - destruct (Hn Hneg) as (E & z' & -> & Hr). rewrite finiteSF_opp in Fz.
    destruct (rounded_error _ _ _ Hr Fz) as [Hnormal Hsub].
    rewrite rank_opp. rewrite (Qabs_neg X) by lra.
    assert (Hu : (0 <= unitRoundoff * - X)%Q)
      by (apply Qmult_le_0_compat; [discriminate | lra]).
    destruct (Z.lt_ge_cases (-1074) E) as [HE | HE].
    + specialize (Hnormal HE). lra.
    + specialize (Hsub ltac:(lia)). lra.
  - destruct (Hp Hpos) as (E & Hr).
    destruct (rounded_error _ _ _ Hr Fz) as [Hnormal Hsub].
    rewrite (Qabs_pos X) by lra.
    assert (Hu : (0 <= unitRoundoff * X)%Q)
      by (apply Qmult_le_0_compat; [discriminate | lra]).
    destruct (Z.lt_ge_cases (-1074) E) as [HE | HE].
    + specialize (Hnormal HE). lra.
    + specialize (Hsub ltac:(lia)). lra.
  - destruct (H0 Hzero) as [s ->]. cbn [rank]. rewrite Hzero.
    change (Qabs 0) with 0%Q. lra.
Qed.

(** A finite sum is within a relative error of [2^-53] of the exact one. *)
Lemma sumOf_error (X : Q) (z : spec_float) :
  sumOf X z -> finiteSF z = true ->
  (Qabs (rank z - X) <= unitRoundoff * Qabs X)%Q.
Proof.
  intros (Hp & Hn & H0) Fz.
  apply Qabs_Qle_condition.
  destruct (Q_dec X 0) as [[Hneg | Hpos] | Hzero].
  - destruct (Hn Hneg) as (E & z' & -> & Hr & Hex). rewrite finiteSF_opp in Fz.
    destruct (rounded_error _ _ _ Hr Fz) as [Hnormal _].
    rewrite rank_opp. rewrite (Qabs_neg X) by lra.
    assert (Hu : (0 <= unitRoundoff * - X)%Q)
      by (apply Qmult_le_0_compat; [discriminate | lra]).
    destruct Hex as [HE | Hv]; [specialize (Hnormal HE) |]; lra.
  - destruct (Hp Hpos) as (E & Hr & Hex).
    destruct (rounded_error _ _ _ Hr Fz) as [Hnormal _].
    rewrite (Qabs_pos X) by lra.
    assert (Hu : (0 <= unitRoundoff * X)%Q)
      by (apply Qmult_le_0_compat; [discriminate | lra]).
    destruct Hex as [HE | Hv]; [specialize (Hnormal HE) |]; lra.
  - destruct (H0 Hzero) as [s ->]. cbn [rank]. rewrite Hzero.
    change (Qabs 0) with 0%Q. lra.
Qed.

(** Multiplication *)

Lemma digits_of_product (mx my : positive) :
  Z.pos (digits2_pos mx) + Z.pos (digits2_pos my) - 1
  <= Z.pos (digits2_pos (mx * my)).
Proof.
  pose proof (digits2_pos_spec mx) as [Hx _].
  pose proof (digits2_pos_spec my) as [Hy _].
  pose proof (digits2_pos_spec (mx * my)) as [_ Hxy].
  set (dx := Z.pos (digits2_pos mx)) in *.
  set (dy := Z.pos (digits2_pos my)) in *.
  set (d := Z.pos (digits2_pos (mx * my))) in *.
  destruct (Z.lt_ge_cases d (dx + dy - 1)) as [Hlt | Hge]; [| lia].
  exfalso.
  assert (Hpow : 2 ^ d <= 2 ^ (dx - 1 + (dy - 1)))
    by (apply Z.pow_le_mono_r; lia).
  rewrite Z.pow_add_r in Hpow by lia.
  assert (Hprod : 2 ^ (dx - 1) * 2 ^ (dy - 1) <= Z.pos mx * Z.pos my)
    by (apply Z.mul_le_mono_nonneg; lia).
  rewrite Pos2Z.inj_mul in Hxy. lia.
Qed.

Lemma SFmul_finite_pos (mx my : positive) (ex ey : Z) :
  valid_binary (S754_finite false mx ex) = true ->
  valid_binary (S754_finite false my ey) = true ->
  exists E,
    rounded (inject_Z (Z.pos mx) * pow2 ex * (inject_Z (Z.pos my) * pow2 ey))
            E
            (SFmul prec emax (S754_finite false mx ex)
                             (S754_finite false my ey)).
Proof.
  intros Vx Vy. cbn [SFmul xorb].
  destruct (valid_finite _ _ _ Vx) as (_ & _ & _ & Hfx).
  destruct (valid_finite _ _ _ Vy) as (_ & _ & _ & Hfy).
  pose proof (digits_of_product mx my) as Hd.
  pose proof (digits2_pos_spec my) as [Hy1 _].
  pose proof (digits2_pos_spec mx) as [Hx1 _].
  rewrite fexp_eq in Hfx, Hfy.
  assert (Hpre : ex + ey
                 <= fexp prec emax (Zdigits2 (Z.pos (mx * my)) + (ex + ey))).
  { rewrite fexp_eq. cbn [Zdigits2]. lia. }
  exists (fexp prec emax (Zdigits2 (Z.pos (mx * my)) + (ex + ey))).
  pose proof (binary_round_aux_rounded (Z.pos (mx * my)) (ex + ey) loc_Exact
                (inject_Z (Z.pos (mx * my))) ltac:(lia)
                (located_exact _) Hpre) as Hr.
  revert Hr. apply rounded_ext.
  rewrite Pos2Z.inj_mul, inject_Z_mult, pow2_add. ring.
Qed.

Lemma signed_rounding (s : bool) (X : Q) (E : Z) (z : spec_float) :
  (0 < X)%Q -> rounded X E z ->
  roundingOf ((if s then -1 else 1) * X) (if s then SFopp z else z).
Proof.
  intros HX Hr. destruct s; (split; [| split]); intros H; try lra.
  - exists E, z. split; [reflexivity |]. revert Hr. apply rounded_ext. ring.
  - exists E. revert Hr. apply rounded_ext. ring.
Qed.

Lemma valid_positive (s : bool) (m : positive) (e : Z) :
  valid_binary (S754_finite s m e) = true ->
  valid_binary (S754_finite false m e) = true.
Proof. now destruct s. Qed.

Lemma SFmul_signs (sx sy : bool) (mx my : positive) (ex ey : Z) :
  SFmul prec emax (S754_finite sx mx ex) (S754_finite sy my ey)
  = if xorb sx sy
    then SFopp (SFmul prec emax (S754_finite false mx ex)
                                (S754_finite false my ey))
    else SFmul prec emax (S754_finite false mx ex) (S754_finite false my ey).
Proof.
  cbn [SFmul]. destruct (xorb sx sy); [| reflexivity].
  apply binary_round_aux_sign.
Qed.

Lemma SFdiv_signs (sx sy : bool) (mx my : positive) (ex ey : Z) :
  SFdiv prec emax (S754_finite sx mx ex) (S754_finite sy my ey)
  = if xorb sx sy
    then SFopp (SFdiv prec emax (S754_finite false mx ex)
                                (S754_finite false my ey))
    else SFdiv prec emax (S754_finite false mx ex) (S754_finite false my ey).
Proof.
  cbn [SFdiv].
  destruct (SFdiv_core_binary prec emax (Z.pos mx) ex (Z.pos my) ey)
    as [[mz ez] lz].
  destruct (xorb sx sy); [| reflexivity].
  apply binary_round_aux_sign.
Qed.

Lemma sign_product (sx sy : bool) (a b : Q) :
  ((if sx then -1 else 1) * a * ((if sy then -1 else 1) * b)
   == (if xorb sx sy then -1 else 1) * (a * b))%Q.
Proof. destruct sx, sy; cbn [xorb]; ring. Qed.

(** The product of two finite binary64 numbers is the rounding of the
    exact product. *)
Lemma SFmul_finite (x y : spec_float) :
  valid_binary x = true -> valid_binary y = true ->
  finiteSF x = true -> finiteSF y = true ->
  roundingOf (rank x * rank y) (SFmul prec emax x y).
Proof.
  intros Vx Vy Fx Fy.
  destruct x as [sx | sx | | sx mx ex]; try discriminate Fx;
    destruct y as [sy | sy | | sy my ey]; try discriminate Fy;
    try (cbn [SFmul rank]; split; [| split]; intros H; try lra;
         eexists; reflexivity).
  rewrite SFmul_signs.
  pose proof (rank_finite_bounds _ _ _ (valid_positive _ _ _ Vx)) as [Hx _].
  pose proof (rank_finite_bounds _ _ _ (valid_positive _ _ _ Vy)) as [Hy _].
  destruct (SFmul_finite_pos mx my ex ey (valid_positive _ _ _ Vx)
              (valid_positive _ _ _ Vy)) as [E Hr].
  apply roundingOf_ext
    with ((if xorb sx sy then -1 else 1)
          * (inject_Z (Z.pos mx) * pow2 ex
             * (inject_Z (Z.pos my) * pow2 ey)))%Q.
  - cbn [rank]. symmetry. apply sign_product.
  - apply signed_rounding with E; [| exact Hr].
    now apply Qmult_lt_0_compat.
Qed.

Lemma sign_quotient (sx sy : bool) (a b : Q) :
  ~ (b == 0)%Q ->
  ((if sx then -1 else 1) * a / ((if sy then -1 else 1) * b)
   == (if xorb sx sy then -1 else 1) * (a / b))%Q.
Proof. intros Hb. destruct sx, sy; cbn [xorb]; field; exact Hb. Qed.

(** The quotient of a finite binary64 number by a finite one that is not
    zero is the rounding of the exact quotient. *)
Lemma SFdiv_finite (x y : spec_float) :
  valid_binary x = true -> valid_binary y = true ->
  finiteSF x = true -> finiteSF y = true -> ~ (rank y == 0)%Q ->
  roundingOf (rank x / rank y) (SFdiv prec emax x y).
Proof.
  intros Vx Vy Fx Fy Hy0.
  destruct y as [sy | sy | | sy my ey]; try discriminate Fy;
    [now elim Hy0 |].
  pose proof (rank_finite_bounds _ _ _ (valid_positive _ _ _ Vy)) as [Hy _].
  destruct x as [sx | sx | | sx mx ex]; try discriminate Fx.
  - cbn [SFdiv]. apply roundingOf_ext with 0%Q.
    + cbn [rank]. unfold Qdiv. ring.
    + split; [| split]; intros H; try lra. eexists; reflexivity.
  - rewrite SFdiv_signs.
    pose proof (rank_finite_bounds _ _ _ (valid_positive _ _ _ Vx)) as [Hx _].
    destruct (SFdiv_finite_pos mx my ex ey (valid_positive _ _ _ Vx)
                (valid_positive _ _ _ Vy)) as [E Hr].
    apply roundingOf_ext
      with ((if xorb sx sy then -1 else 1)
            * (inject_Z (Z.pos mx) * pow2 ex
               / (inject_Z (Z.pos my) * pow2 ey)))%Q.
    + cbn [rank]. symmetry. apply sign_quotient. lra.
    + apply signed_rounding with E; [| exact Hr].
      apply Qlt_shift_div_l; lra.
Qed.

(** The operations on JavaScript numbers, with their errors *)

Lemma add_error (a b : float) :
  finiteSF (Prim2SF a) = true -> finiteSF (Prim2SF b) = true ->
  finiteSF (Prim2SF (a + b)) = true ->
  (Qabs (valueOf (a + b) - (valueOf a + valueOf b))
   <= unitRoundoff * Qabs (valueOf a + valueOf b))%Q.
Proof.
  intros Fa Fb Fs. apply sumOf_error; [now apply add_finite | exact Fs].
Qed.

Lemma sub_error (a b : float) :
  finiteSF (Prim2SF a) = true -> finiteSF (Prim2SF b) = true ->
  finiteSF (Prim2SF (a - b)) = true ->
  (Qabs (valueOf (a - b) - (valueOf a - valueOf b))
   <= unitRoundoff * Qabs (valueOf a - valueOf b))%Q.
Proof.
  intros Fa Fb Fs. apply sumOf_error; [now apply sub_finite | exact Fs].
Qed.

Lemma mul_error (a b : float) :
  finiteSF (Prim2SF a) = true -> finiteSF (Prim2SF b) = true ->
  finiteSF (Prim2SF (a * b)) = true ->
  (Qabs (valueOf (a * b) - valueOf a * valueOf b)
   <= unitRoundoff * Qabs (valueOf a * valueOf b) + tiny)%Q.
Proof.
  intros Fa Fb Fs. apply roundingOf_error; [| exact Fs].
  rewrite FloatAxioms.mul_spec.
  apply SFmul_finite; try assumption; apply FloatAxioms.Prim2SF_valid.
Qed.

Lemma div_error (a b : float) :
  finiteSF (Prim2SF a) = true -> finiteSF (Prim2SF b) = true ->
  ~ (valueOf b == 0)%Q ->
  finiteSF (Prim2SF (a / b)) = true ->
  (Qabs (valueOf (a / b) - valueOf a / valueOf b)
   <= unitRoundoff * Qabs (valueOf a / valueOf b) + tiny)%Q.
Proof.
  intros Fa Fb Hb Fs. apply roundingOf_error; [| exact Fs].
  rewrite FloatAxioms.div_spec.
  apply SFdiv_finite; try assumption; apply FloatAxioms.Prim2SF_valid.
Qed.

(** A finite result has finite arguments. *)

Lemma add_finite_args (a b : float) :
  finiteSF (Prim2SF (a + b)) = true ->
  finiteSF (Prim2SF a) = true /\ finiteSF (Prim2SF b) = true.
Proof.
  rewrite FloatAxioms.add_spec.
  destruct (Prim2SF a) as [sa | sa | | sa ma ea],
           (Prim2SF b) as [sb | sb | | sb mb eb];
    cbn [finiteSF]; try (now split); try discriminate;
    destruct sa, sb; discriminate.
Qed.

Lemma sub_finite_args (a b : float) :
  finiteSF (Prim2SF (a - b)) = true ->
  finiteSF (Prim2SF a) = true /\ finiteSF (Prim2SF b) = true.
Proof.
  rewrite FloatAxioms.sub_spec.
  destruct (Prim2SF a) as [sa | sa | | sa ma ea],
           (Prim2SF b) as [sb | sb | | sb mb eb];
    cbn [finiteSF]; try (now split); try discriminate;
    destruct sa, sb; discriminate.
Qed.

Lemma mul_finite_args (a b : float) :
  finiteSF (Prim2SF (a * b)) = true ->
  finiteSF (Prim2SF a) = true /\ finiteSF (Prim2SF b) = true.
Proof.
  rewrite FloatAxioms.mul_spec.
  destruct (Prim2SF a) as [sa | sa | | sa ma ea],
           (Prim2SF b) as [sb | sb | | sb mb eb];
    cbn [finiteSF]; try (now split); discriminate.
Qed.

Lemma div_finite_left (a b : float) :
  finiteSF (Prim2SF (a / b)) = true -> finiteSF (Prim2SF a) = true.
Proof.
  rewrite FloatAxioms.div_spec.
  destruct (Prim2SF a) as [sa | sa | | sa ma ea],
           (Prim2SF b) as [sb | sb | | sb mb eb];
    cbn [finiteSF]; try reflexivity; discriminate.
Qed.

(** The difference of two numbers, the first below the second, is
    positive when it is finite. *)
Lemma extent_positive (lo hi : float) :
  (lo <? hi)%float = true -> finiteSF (Prim2SF (hi - lo)) = true ->
  (0 < valueOf (hi - lo))%Q.
Proof.
  intros Hlt Fe. destruct (ltb_true_notNaN _ _ Hlt) as [Nlo Nhi].
  apply (ltb_value _ _ Nlo Nhi) in Hlt.
  destruct (sub_finite_args _ _ Fe) as [Fhi Flo].
  destruct (sub_finite _ _ Fhi Flo) as (Hp & _ & _).
  destruct Hp as (E & Hr & Hex); [lra |].
  destruct (rounded_error _ _ _ Hr Fe) as [Hnormal _].
  unfold valueOf at 1.
  destruct Hex as [HE | Hv]; [| lra].
  specialize (Hnormal HE). unfold unitRoundoff in Hnormal. lra.
Qed.

End Binary64Facts.

Section FloatOrder.

Import Binary64.

Lemma leb_refl (a : float) : (0 <=? a)%float = true -> (a <=? a)%float = true.
Proof.
  intros H. destruct (leb_true_notNaN _ _ H) as [_ Na].
  apply leb_value; [exact Na | exact Na | lra].
Qed.

Lemma leb_trans (a b c : float) :
  (a <=? b)%float = true -> (b <=? c)%float = true ->
  (a <=? c)%float = true.
Proof.
  intros Hab Hbc.
  destruct (leb_true_notNaN _ _ Hab) as [Na Nb].
  destruct (leb_true_notNaN _ _ Hbc) as [_ Nc].
  apply (leb_value _ _ Na Nb) in Hab. apply (leb_value _ _ Nb Nc) in Hbc.
  apply leb_value; [exact Na | exact Nc | lra].
Qed.

Lemma leb_ltb_trans (a b c : float) :
  (a <=? b)%float = true -> (b <? c)%float = true ->
  (a <? c)%float = true.
Proof.
  intros Hab Hbc.
  destruct (leb_true_notNaN _ _ Hab) as [Na Nb].
  destruct (ltb_true_notNaN _ _ Hbc) as [_ Nc].
  apply (leb_value _ _ Na Nb) in Hab. apply (ltb_value _ _ Nb Nc) in Hbc.
  apply ltb_value; [exact Na | exact Nc | lra].
Qed.

Lemma ltb_leb_contra (a b : float) :
  (a <? b)%float = true -> (b <=? a)%float = true -> False.
Proof.
  intros Hab Hba.
  destruct (ltb_true_notNaN _ _ Hab) as [Na Nb].
  apply (ltb_value _ _ Na Nb) in Hab. apply (leb_value _ _ Nb Na) in Hba.
  lra.
Qed.

Lemma ltb_asym (a b : float) :
  (a <? b)%float = true -> (b <? a)%float = true -> False.
Proof.
  intros Hab Hba.
  destruct (ltb_true_notNaN _ _ Hab) as [Na Nb].
  apply (ltb_value _ _ Na Nb) in Hab. apply (ltb_value _ _ Nb Na) in Hba.
  lra.
Qed.

Lemma ltb_false_leb (a b : float) :
  notNaN (Prim2SF a) -> notNaN (Prim2SF b) ->
  (a <? b)%float = false -> (b <=? a)%float = true.
Proof.
  intros Na Nb H. apply leb_value; [exact Nb | exact Na |].
  destruct (Qlt_le_dec (valueOf a) (valueOf b)) as [Hlt | Hle];
    [| exact Hle].
  apply (ltb_value _ _ Na Nb) in Hlt. congruence.
Qed.

Lemma finite_below_infinity (x : float) :
  finiteSF (Prim2SF x) = true -> (valueOf x <= pow2 1024)%Q.
Proof.
  unfold valueOf. intros Fx.
  pose proof (FloatAxioms.Prim2SF_valid x) as Vx.
  pose proof (pow2_pos 1024) as Hp.
  destruct (Prim2SF x) as [sx | sx | | sx mx ex]; cbn in Fx;
    try discriminate Fx; cbn [rank]; [lra |].
  pose proof (valid_opp (S754_finite sx mx ex)) as Vo.
  assert (Vpos : valid_binary (S754_finite false mx ex) = true).
  { destruct sx; [| exact Vx]. cbn [SFopp negb] in Vo. now rewrite Vo. }
  pose proof (rank_finite_bounds _ _ _ Vpos) as B. destruct sx; lra.
Qed.

(** Adding a height that is not negative to an offset that is not negative
    does not lower it, whatever the rounding. *)
Lemma add_nonneg (a h : float) :
  (0 <=? a)%float = true -> (0 <=? h)%float = true ->
  (a <=? a + h)%float = true.
Proof.
  intros Ha Hh.
  destruct (leb_true_notNaN _ _ Ha) as [_ Na].
  destruct (nonneg_cases a Ha) as [Ha0 [Fa | Ia]];
    destruct (nonneg_cases h Hh) as [Hh0 [Fh | Ih]].
  - pose proof (add_finite _ _ Fa Fh) as Hadd.
    destruct (rank_representable (Prim2SF a) (FloatAxioms.Prim2SF_valid a)
                Fa Ha0) as (K & j & HK & Hj & Hv).
    apply leb_value; [exact Na | exact (sumOf_notNaN _ _ Hadd) |].
    unfold valueOf at 1. rewrite Hv.
    apply (sumOf_ge _ _ K j Hadd HK Hj). unfold valueOf in *. lra.
  - assert (Hsum : Prim2SF (a + h) = S754_infinity false).
    { rewrite FloatAxioms.add_spec, Ih.
      destruct (Prim2SF a); cbn in Fa; try discriminate Fa; reflexivity. }
    apply leb_value; [exact Na | unfold notNaN; rewrite Hsum; discriminate |].
    rewrite (infinite_value _ Hsum). now apply finite_below_infinity.
  - pose proof (add_infinite _ _ Ia Fh) as Hsum.
    apply leb_value; [exact Na | unfold notNaN; rewrite Hsum; discriminate |].
    rewrite (infinite_value _ Hsum), (infinite_value _ Ia). lra.
  - assert (Hsum : Prim2SF (a + h) = S754_infinity false).
    { rewrite FloatAxioms.add_spec, Ih, Ia. reflexivity. }
    apply leb_value; [exact Na | unfold notNaN; rewrite Hsum; discriminate |].
    rewrite (infinite_value _ Hsum), (infinite_value _ Ia). lra.
Qed.

End FloatOrder.

(* ================================================================== *)
(** * The scroll virtualizer *)
(* ================================================================== *)

Section VirtualizationFacts.

Import Binary64 Charts Virtualization.

(** The start of the range is not past a row whose top edge is not above
    the scroll offset. *)
Lemma start_covers (s h o : float) (i : Z) :
  finiteSF (Prim2SF s) = true -> finiteSF (Prim2SF h) = true ->
  (0 <= valueOf s)%Q -> (0 < valueOf h)%Q ->
  (0 <=? o)%float = true -> 0 <= i < 2 ^ 53 ->
  (valueOf s <= inject_Z i * valueOf h)%Q ->
  (Math_max [0%float; (Math_floor (s / h) - o)%float] <=? number i)%float
  = true.
Proof.
  intros Fs Fh Hs Hh Ho Hi Hcover.
  assert (Hq : finiteSF (Prim2SF (s / h)) = true
               /\ (valueOf (s / h) <= inject_Z i)%Q).
  { destruct (div_finite s h Fs Fh Hs Hh) as [(sg & Hz & _) | [E Hr]].
    - unfold valueOf. rewrite Hz. cbn [rank finiteSF]. split; [reflexivity |].
      change 0%Q with (inject_Z 0). rewrite <- Zle_Qle. lia.
    - assert (Hle : (valueOf s / valueOf h <= inject_Z i * pow2 0)%Q).
      { rewrite inject_Z_scaled. apply Qle_shift_div_r; assumption. }
      pose proof (rounded_le _ _ _ i 0 Hr Hi ltac:(lia) Hle) as Hrank.
      split.
      + apply (rounded_finite _ _ _ Hr).
        pose proof (representable_below i 0 Hi ltac:(lia)). lra.
      + unfold valueOf. rewrite inject_Z_scaled in Hrank. exact Hrank. }
  destruct Hq as [Fq Hq].
  destruct (floor_spec (s / h) Fq) as (z & Hz & [Hzlo _] & Ff).
  destruct (number_spec i ltac:(lia)) as [Hiv Hif].
  assert (Hi0 : (0 <= inject_Z i)%Q).
  { change 0%Q with (inject_Z 0). rewrite <- Zle_Qle. lia. }
  destruct (minus_overscan _ o i Ff Ho Hi ltac:(lra)) as [Ns Hst].
  destruct (Math_max_zero_le _ (inject_Z i) Ns Hst Hi0) as [Nm Hm].
  apply leb_value; [exact Nm | now apply finiteSF_notNaN | lra].
Qed.

(** The end of the range is not before a row of the list whose top edge
    is above the bottom of the window. *)
Lemma end_covers (s h c o : float) (n i : Z) :
  finiteSF (Prim2SF s) = true -> finiteSF (Prim2SF h) = true ->
  finiteSF (Prim2SF c) = true ->
  (0 <= valueOf s)%Q -> (0 < valueOf h)%Q -> (0 < valueOf c)%Q ->
  0 < n <= 2 ^ 52 -> (0 <=? o)%float = true -> 0 <= i < n ->
  (inject_Z i * valueOf h < valueOf s + valueOf c)%Q ->
  (number i
   <=? Math_min [(number n - 1)%float;
                 (Math_ceil ((s + c) / h) + o)%float])%float
  = true.
Proof.
  intros Fs Fh Fc Hs Hh Hc Hn Ho Hi Hcover.
  assert (Hi53 : 0 <= i < 2 ^ 53) by lia.
  destruct (number_spec i ltac:(lia)) as [Hiv Hif].
  destruct (number_spec n ltac:(lia)) as [Hnv Hnf].
  destruct one_value as [H1v H1f].
  assert (Hi0 : (0 <= inject_Z i)%Q).
  { change 0%Q with (inject_Z 0). rewrite <- Zle_Qle. lia. }
  (* the last index *)
  pose proof (sub_finite _ _ Hnf H1f) as Hlast.
  assert (Hlast' : (inject_Z i <= valueOf (number n - 1))%Q).
  { rewrite <- (inject_Z_scaled i).
    apply (sumOf_ge _ _ i 0 Hlast Hi53 ltac:(lia)).
    rewrite inject_Z_scaled, Hnv, H1v.
    assert (inject_Z i <= inject_Z (n - 1))%Q by (rewrite <- Zle_Qle; lia).
    assert (inject_Z (n - 1) == inject_Z n - 1)%Q.
    { unfold Z.sub. rewrite inject_Z_plus. reflexivity. }
    lra. }
  (* the end of the window *)
  assert (Hend : notNaN (Prim2SF (Math_ceil ((s + c) / h) + o))
                 /\ (inject_Z i
                     <= valueOf (Math_ceil ((s + c) / h) + o))%Q).
  { assert (Hinf : forall q : float,
               Prim2SF q = S754_infinity false ->
               notNaN (Prim2SF (Math_ceil q + o))
               /\ (inject_Z i <= valueOf (Math_ceil q + o))%Q).
    { intros q Hq. rewrite ceil_infinite by now rewrite Hq.
      apply plus_overscan; [now right | exact Ho | exact Hi53 |].
      rewrite (infinite_value _ Hq). now apply index_below. }
    pose proof (add_finite _ _ Fs Fc) as Hsum.
    destruct (sumOf_relative _ _ Hsum ltac:(lra)) as [Hsinf | [Fa Hrel]].
    { apply Hinf. now apply div_infinite. }
    assert (Ha0 : (0 < valueOf (s + c))%Q).
    { unfold valueOf at 1. unfold ulpError in Hrel.
      apply Qlt_le_trans with ((valueOf s + valueOf c) * ulpError)%Q;
        [| exact Hrel].
      unfold ulpError. apply Qmult_lt_0_compat; [lra | reflexivity]. }
    destruct (div_finite (s + c) h Fa Fh ltac:(lra) Hh)
      as [(sg & _ & Hz) | [E Hr]]; [lra |].
    assert (Hq : (inject_Z i - (1 # 2) <= rank (Prim2SF ((s + c) / h)))%Q).
    { destruct (Z.eq_dec i 0) as [-> | Hne].
      - pose proof (rounded_nonneg _ _ _ Hr). change (inject_Z 0) with 0%Q. lra.
      - assert (HK : 0 <= 2 * i - 1 < 2 ^ 53) by lia.
        assert (Hhalf : (inject_Z (2 * i - 1) * pow2 (-1)
                         == inject_Z i - (1 # 2))%Q).
        { unfold Z.sub. rewrite inject_Z_plus, inject_Z_mult.
          change (pow2 (-1)) with (1 # 2)%Q.
          change (inject_Z 2) with 2%Q. change (inject_Z (- (1))) with (-1)%Q.
          ring. }
        rewrite <- Hhalf.
        apply (rounded_ge _ _ _ (2 * i - 1) (-1) Hr HK ltac:(lia)).
        rewrite Hhalf. apply Qle_shift_div_l; [exact Hh |].
        set (p := (inject_Z i * valueOf h)%Q) in *.
        assert (Hp : (p <= 4503599627370496 * valueOf h)%Q).
        { unfold p. apply Qmult_le_compat_r; [| lra].
          change 4503599627370496%Q with (inject_Z (2 ^ 52)).
          rewrite <- Zle_Qle. lia. }
        assert (Hexp : ((inject_Z i - (1 # 2)) * valueOf h
                        == p - (1 # 2) * valueOf h)%Q) by (unfold p; ring).
        rewrite Hexp. unfold ulpError in Hrel.
        change (rank (Prim2SF (s + c))) with (valueOf (s + c)) in Hrel.
        lra. }
    destruct (rounded_shape _ _ _ Hr) as [Hqinf | Fq]; [now apply Hinf |].
    destruct (ceil_spec _ Fq) as (z & Hz & [_ Hzhi] & Ff).
    assert (Hzi : i <= z).
    { assert (H : (inject_Z i - 1 < inject_Z z)%Q)
        by (unfold valueOf in Hzhi; lra).
      assert (H' : (inject_Z (i - 1) < inject_Z z)%Q).
      { unfold Z.sub. rewrite inject_Z_plus. exact H. }
      rewrite <- Zlt_Qlt in H'. lia. }
    apply plus_overscan; [now left | exact Ho | exact Hi53 |].
    rewrite Hz. rewrite <- Zle_Qle. lia. }
  destruct Hend as [Ne He].
  destruct (Math_min_ge _ _ (inject_Z i) (sumOf_notNaN _ _ Hlast) Ne
              Hlast' He (index_below i Hi53)) as [Nm Hm].
  apply leb_value; [now apply finiteSF_notNaN | exact Nm | lra].
Qed.

(** From the program's own tests on numbers to their values. *)
Lemma nonneg_value (x : float) :
  (0 <=? x)%float = true -> (0 <= valueOf x)%Q.
Proof. intros H. now apply nonneg_cases. Qed.

Lemma positive_value (x : float) :
  (0 <? x)%float = true -> (0 < valueOf x)%Q.
Proof.
  intros H. destruct (ltb_true_notNaN _ _ H) as [N0 Nx].
  apply (ltb_value _ _ N0 Nx) in H. destruct zero_value as [H0 _].
  now rewrite H0 in H.
Qed.

(** C3, as stated, fails for lists of more than [2^52] items, where
    binary64 no longer tells the quotients of neighbouring rows apart.  With
    [2^53] items of height 0.3 (the number [0x1.3333333333333p-2]), a
    viewport of 0.75 and no overscan, at the scroll offset
    [0x1.0f54b2022a295p+51] the top edge of row 7955504396439291 lies in the
    window, and the range ends one row before it. *)
Lemma huge_list_row_not_covered :
  let scrollTop := 0x1.0f54b2022a295p+51%float in
  let itemHeight := 0x1.3333333333333p-2%float in
  let containerHeight := 0.75%float in
  let totalItems := 9007199254740992 in
  let i := 7955504396439291 in
  let r := visibleRange scrollTop itemHeight containerHeight
                        (number totalItems) 0 in
  (PrimFloat.is_finite scrollTop = true
   /\ PrimFloat.is_finite itemHeight = true
   /\ PrimFloat.is_finite containerHeight = true
   /\ (0 <=? scrollTop)%float = true /\ (0 <? itemHeight)%float = true
   /\ (0 <? containerHeight)%float = true /\ 0 < totalItems
   /\ (0 <=? 0)%float = true)
  /\ 0 <= i < totalItems
  /\ (valueOf scrollTop <= inject_Z i * valueOf itemHeight)%Q
  /\ (inject_Z i * valueOf itemHeight
      < valueOf scrollTop + valueOf containerHeight)%Q
  /\ r = {| startIndex := 7955504396439289; endIndex := 7955504396439290 |}
  /\ (number i <=? endIndex r)%float = false.
Proof.
  cbv zeta.
  split; [repeat split; vm_compute; reflexivity |].
  split; [lia |].
  split; [apply Qle_bool_imp_le; vm_compute; reflexivity |].
  split; [rewrite Qlt_alt; vm_compute; reflexivity |].
  split; vm_compute; reflexivity.
Qed.

(** C3, amended.  For a finite scroll offset [>= 0], finite positive item
    and viewport extents, an item count [0 < totalItems <= 2^52] and an
    overscan [>= 0], the [visibleRange] memo returns
    [max(0, floor(scrollTop / itemHeight) - overscan)] as [startIndex] and
    [min(totalItems - 1, ceil((scrollTop + containerHeight) / itemHeight)
    + overscan)] as [endIndex], computed in binary64 as the hook does.
    Every index [i] of the list whose top edge [i * itemHeight] lies in
    [[scrollTop, scrollTop + containerHeight)], the products and the sum
    being the exact ones of the numbers' values, is within
    [[startIndex, endIndex]]: up to [2^52] items the roundings of the
    quotients and of the sum never push a visible row out of the range.
    At offset 205, item height 40, viewport 400, 1000 items and overscan 3
    the range is 2 to 19. *)
Theorem visibleRange_covers_window :
  (forall (scrollTop itemHeight containerHeight overscan : float)
          (totalItems : Z),
      PrimFloat.is_finite scrollTop = true ->
      PrimFloat.is_finite itemHeight = true ->
      PrimFloat.is_finite containerHeight = true ->
      (0 <=? scrollTop)%float = true -> (0 <? itemHeight)%float = true ->
      (0 <? containerHeight)%float = true ->
      0 < totalItems <= 2 ^ 52 -> (0 <=? overscan)%float = true ->
      let r := visibleRange scrollTop itemHeight containerHeight
                            (number totalItems) overscan in
      startIndex r
      = Math_max [0%float;
                  (Math_floor (scrollTop / itemHeight) - overscan)%float]
      /\ endIndex r
         = Math_min [(number totalItems - 1)%float;
                     (Math_ceil ((scrollTop + containerHeight) / itemHeight)
                      + overscan)%float]
      /\ forall i : Z,
           0 <= i < totalItems ->
           (valueOf scrollTop <= inject_Z i * valueOf itemHeight)%Q ->
           (inject_Z i * valueOf itemHeight
            < valueOf scrollTop + valueOf containerHeight)%Q ->
           (startIndex r <=? number i)%float = true
           /\ (number i <=? endIndex r)%float = true)
  /\ visibleRange 205 40 400 1000 3
     = {| startIndex := 2; endIndex := 19 |}.
Proof.
  split; [| vm_compute; reflexivity].
  intros scrollTop itemHeight containerHeight overscan totalItems
         Fs Fh Fc Hs Hh Hc Hn Ho.
  cbv zeta. split; [reflexivity |]. split; [reflexivity |].
  rewrite is_finite_spec in Fs, Fh, Fc.
  apply nonneg_value in Hs. apply positive_value in Hh, Hc.
  intros i Hi Hlo Hhi. unfold visibleRange. cbn [startIndex endIndex]. split.
  - apply start_covers; try assumption. lia.
  - apply end_covers; assumption.
Qed.

Lemma visibleRange_covers_witness :
  let r := visibleRange 205 40 400 1000 3 in
  (startIndex r <=? 10)%float = true /\ (10 <=? endIndex r)%float = true.
Proof.
  cbv zeta.
  refine (proj2 (proj2 (proj1 visibleRange_covers_window
                          205%float 40%float 400%float 3%float 1000
                          eq_refl eq_refl eq_refl eq_refl eq_refl eq_refl
                          _ eq_refl)) 10 _ _ _).
  - lia.
  - lia.
  - apply Qle_bool_imp_le. vm_compute. reflexivity.
  - rewrite Qlt_alt. vm_compute. reflexivity.
Defined.

End VirtualizationFacts.

(* ================================================================== *)
(** * The rendered items of the virtual list *)
(* ================================================================== *)

Section VirtualItemsFacts.

Import Binary64 Charts Virtualization.

Lemma pow2_53_value : (inject_Z 1 * pow2 53 == inject_Z (2 ^ 53))%Q.
Proof. rewrite pow2_Z by lia. change (inject_Z 1) with 1%Q. ring. Qed.

Lemma sumOf_exact (X : Q) (z : spec_float) (K : Z) :
  sumOf X z -> - 2 ^ 53 < K < 2 ^ 53 -> (X == inject_Z K)%Q ->
  (rank z == X)%Q /\ finiteSF z = true.
Proof.
  intros (Hp & Hn & H0) HK HX.
  destruct (Z.lt_trichotomy K 0) as [Hneg | [Hzero | Hpos]].
  - destruct Hn as (E & z' & -> & Hr & _).
    { rewrite HX. change 0%Q with (inject_Z 0). rewrite <- Zlt_Qlt. lia. }
    destruct (rounded_representable _ _ _ (- K) 0 Hr ltac:(lia) ltac:(lia))
      as [Hv Hf].
    { rewrite HX, inject_Z_scaled, inject_Z_opp. reflexivity. }
    rewrite rank_opp, finiteSF_opp. split; [lra | exact Hf].
  - subst K. destruct H0 as [s ->]; [exact HX |].
    cbn [rank finiteSF]. split; [now rewrite HX | reflexivity].
  - destruct Hp as (E & Hr & _).
    { rewrite HX. change 0%Q with (inject_Z 0). rewrite <- Zlt_Qlt. lia. }
    apply (rounded_representable _ _ _ K 0 Hr); [lia | lia |].
    now rewrite inject_Z_scaled.
Qed.

Lemma wholeNumber_number (z : Z) :
  - 2 ^ 53 < z < 2 ^ 53 -> wholeNumber (number z) z.
Proof.
  intros Hz. destruct (number_spec z Hz) as [Hv Hf]. now split.
Qed.

Lemma wholeNumber_notNaN (x : float) (z : Z) :
  wholeNumber x z -> notNaN (Prim2SF x).
Proof. intros [Hf _]. now apply finiteSF_notNaN. Qed.

(** A sum of whole numbers that stays below [2^53] is exact. *)
Lemma whole_sum_shape (a b : float) (za zb : Z) :
  wholeNumber a za -> wholeNumber b zb -> - 2 ^ 53 < za + zb ->
  notNaN (Prim2SF (a + b))
  /\ ((valueOf (a + b) < inject_Z (2 ^ 53))%Q ->
      wholeNumber (a + b) (za + zb)).
Proof.
  intros [Fa Ha] [Fb Hb] Hlow.
  pose proof (add_finite _ _ Fa Fb) as Hsum.
  split; [exact (sumOf_notNaN _ _ Hsum) |]. intros Hlt.
  assert (HX : (valueOf a + valueOf b == inject_Z (za + zb))%Q)
    by (rewrite Ha, Hb, inject_Z_plus; reflexivity).
  destruct (Z.lt_ge_cases (za + zb) (2 ^ 53)) as [Hsmall | Hbig].
  - destruct (sumOf_exact _ _ (za + zb) Hsum ltac:(lia) HX) as [Hv Hf].
    split; [exact Hf |]. unfold valueOf at 1. now rewrite Hv.
  - exfalso.
    pose proof (sumOf_ge _ _ 1 53 Hsum ltac:(lia) ltac:(lia)) as Hge.
    rewrite pow2_53_value in Hge.
    assert (inject_Z (2 ^ 53) <= valueOf a + valueOf b)%Q
      by (rewrite HX, <- Zle_Qle; exact Hbig).
    specialize (Hge ltac:(assumption)). unfold valueOf in Hlt at 1. lra.
Qed.

Lemma whole_difference_shape (a b : float) (za zb : Z) :
  wholeNumber a za -> wholeNumber b zb -> - 2 ^ 53 < za - zb ->
  notNaN (Prim2SF (a - b))
  /\ ((valueOf (a - b) < inject_Z (2 ^ 53))%Q ->
      wholeNumber (a - b) (za - zb)).
Proof.
  intros [Fa Ha] [Fb Hb] Hlow.
  pose proof (sub_finite _ _ Fa Fb) as Hsum.
  split; [exact (sumOf_notNaN _ _ Hsum) |]. intros Hlt.
  assert (HX : (valueOf a - valueOf b == inject_Z (za - zb))%Q).
  { rewrite Ha, Hb. unfold Z.sub. rewrite inject_Z_plus, inject_Z_opp.
    reflexivity. }
  destruct (Z.lt_ge_cases (za - zb) (2 ^ 53)) as [Hsmall | Hbig].
  - destruct (sumOf_exact _ _ (za - zb) Hsum ltac:(lia) HX) as [Hv Hf].
    split; [exact Hf |]. unfold valueOf at 1. now rewrite Hv.
  - exfalso.
    pose proof (sumOf_ge _ _ 1 53 Hsum ltac:(lia) ltac:(lia)) as Hge.
    rewrite pow2_53_value in Hge.
    assert (inject_Z (2 ^ 53) <= valueOf a - valueOf b)%Q
      by (rewrite HX, <- Zle_Qle; exact Hbig).
    specialize (Hge ltac:(assumption)). unfold valueOf in Hlt at 1. lra.
Qed.


Lemma whole_leb (x y : float) (zx zy : Z) :
  wholeNumber x zx -> wholeNumber y zy ->
  ((x <=? y)%float = true <-> zx <= zy).
Proof.
  intros Hx Hy.
  rewrite (leb_value _ _ (wholeNumber_notNaN _ _ Hx)
             (wholeNumber_notNaN _ _ Hy)).
  destruct Hx as [_ ->]. destruct Hy as [_ ->]. now rewrite <- Zle_Qle.
Qed.

Lemma whole_successor (i : float) (k : Z) :
  wholeNumber i k -> - 2 ^ 53 < k + 1 < 2 ^ 53 ->
  wholeNumber (i + 1) (k + 1).
Proof.
  intros Hi Hk. destruct one_value as [H1 F1].
  pose proof (add_finite _ _ (proj1 Hi) F1) as Hsum.
  destruct (sumOf_exact _ _ (k + 1) Hsum ltac:(lia)) as [Hv Hf].
  { destruct Hi as [_ ->]. rewrite H1, inject_Z_plus. reflexivity. }
  split; [exact Hf |]. unfold valueOf at 1. rewrite Hv.
  destruct Hi as [_ ->]. rewrite H1, inject_Z_plus. reflexivity.
Qed.

(** The loop of [virtualItems] between two whole numbers: one item per
    index, in order. *)
Lemma pushItems_spec (endIndex itemHeight : float) (b : Z) :
  wholeNumber endIndex b -> b < 2 ^ 53 - 1 ->
  forall (fuel : nat) (k : Z) (i : float) (items : list VirtualItem),
    wholeNumber i k -> 0 <= k -> b - k + 1 <= Z.of_nat fuel ->
    exists more,
      pushItems fuel i endIndex itemHeight items = Some (items ++ more)
      /\ Z.of_nat (length more) = Z.max 0 (b - k + 1)
      /\ (forall item, In item more ->
            offsetTop item = (index item * itemHeight)%float
            /\ exists z, k <= z <= b /\ wholeNumber (index item) z)
      /\ (forall z, k <= z <= b ->
            exists item, In item more /\ wholeNumber (index item) z).
Proof.
  intros He Hb. induction fuel as [| fuel IH]; intros k i items Hi Hk Hfuel.
  - cbn [pushItems].
    destruct (i <=? endIndex)%float eqn:Hcmp.
    + apply (whole_leb _ _ _ _ Hi He) in Hcmp. lia.
    + exists []. rewrite app_nil_r. split; [reflexivity |].
      assert (Hgt : ~ k <= b)
        by (intros Hc; apply (whole_leb _ _ _ _ Hi He) in Hc; congruence).
      split; [cbn; lia |]. split; [intros item [] |].
      intros z Hz. lia.
  - cbn [pushItems].
    destruct (i <=? endIndex)%float eqn:Hcmp.
    + apply (whole_leb _ _ _ _ Hi He) in Hcmp.
      pose proof (whole_successor i k Hi ltac:(lia)) as Hnext.
      destruct (IH (k + 1) (i + 1)%float
                   (items ++ [{| index := i;
                                 offsetTop := (i * itemHeight)%float |}])
                   Hnext ltac:(lia) ltac:(lia))
        as (more & Hrun & Hlen & Hitems & Hall).
      exists ({| index := i; offsetTop := (i * itemHeight)%float |} :: more).
      split; [rewrite Hrun, <- app_assoc; reflexivity |].
      split; [cbn [length]; lia |]. split.
      * intros item [<- | Hin].
        -- cbn [index offsetTop]. split; [reflexivity |].
           exists k. split; [lia | exact Hi].
        -- destruct (Hitems item Hin) as [Ho (z & Hz & Hw)].
           split; [exact Ho |]. exists z. split; [lia | exact Hw].
      * intros z Hz. destruct (Z.eq_dec z k) as [-> | Hne].
        -- exists {| index := i; offsetTop := (i * itemHeight)%float |}.
           split; [now left | exact Hi].
        -- destruct (Hall z ltac:(lia)) as (item & Hin & Hw).
           exists item. split; [now right | exact Hw].
    + exists []. rewrite app_nil_r. split; [reflexivity |].
      assert (Hgt : ~ k <= b)
        by (intros Hc; apply (whole_leb _ _ _ _ Hi He) in Hc; congruence).
      split; [cbn; lia |]. split; [intros item [] |].
      intros z Hz. lia.
Qed.

(** The loop returns the same with more fuel. *)
Lemma pushItems_more_fuel (fuel fuel' : nat) (endIndex itemHeight : float) :
  (fuel <= fuel')%nat ->
  forall (i : float) (items result : list VirtualItem),
    pushItems fuel i endIndex itemHeight items = Some result ->
    pushItems fuel' i endIndex itemHeight items = Some result.
Proof.
  revert fuel'. induction fuel as [| fuel IH]; intros fuel' Hle i items result.
  - cbn [pushItems]. destruct fuel'; cbn [pushItems];
      destruct (i <=? endIndex)%float; congruence.
  - destruct fuel' as [| fuel']; [lia |]. cbn [pushItems].
    destruct (i <=? endIndex)%float; [| congruence].
    apply IH. lia.
Qed.

(** [Math.min(a, b)] of two numbers is one of them, and is not above
    either. *)
Lemma Math_min_two (a b : float) :
  finiteSF (Prim2SF a) = true -> notNaN (Prim2SF b) ->
  (Math_min [a; b] = a \/ Math_min [a; b] = b)
  /\ (valueOf (Math_min [a; b]) <= valueOf a)%Q
  /\ (valueOf (Math_min [a; b]) <= valueOf b)%Q.
Proof.
  intros Fa Nb. pose proof (finiteSF_notNaN _ Fa) as Na.
  unfold Math_min. cbn [fold_left].
  change (PrimFloat.is_nan infinity) with false. cbv iota.
  pose proof Na as Na'. pose proof Nb as Nb'.
  apply is_nan_false in Na'. apply is_nan_false in Nb'.
  rewrite Na'.
  change (isPositiveZero infinity) with false. rewrite andb_false_r.
  assert (Hinf : (a <? infinity)%float = true).
  { apply ltb_value; [exact Na | discriminate |].
    rewrite infinity_value. unfold valueOf.
    pose proof (FloatAxioms.Prim2SF_valid a) as Va.
    pose proof (pow2_pos 1024) as Hp.
    destruct (Prim2SF a) as [sa | sa | | sa ma ea]; cbn in Fa;
      try discriminate Fa; cbn [rank]; [lra |].
    pose proof (rank_finite_bounds _ _ _ (valid_positive _ _ _ Va)) as B.
    destruct sa; lra. }
  rewrite Hinf, Na', Nb'.
  destruct (isNegativeZero b && isPositiveZero a) eqn:Hz.
  - split; [now right |]. split; [| lra].
    apply andb_true_iff in Hz. destruct Hz as [Hb Ha].
    unfold isNegativeZero, isPositiveZero in Hb, Ha.
    apply andb_true_iff in Hb, Ha. destruct Hb as [Hb _]. destruct Ha as [Ha _].
    unfold PrimFloat.is_zero in Hb, Ha.
    apply (leb_value b a Nb Na).
    rewrite FloatAxioms.leb_spec. rewrite FloatAxioms.eqb_spec in Hb, Ha.
    change (Prim2SF 0) with (S754_zero false) in Hb, Ha.
    destruct (Prim2SF a) as [sa | sa | | sa ma ea],
             (Prim2SF b) as [sb | sb | | sb mb eb];
      try discriminate; try (destruct sa; discriminate);
      try (destruct sb; discriminate); reflexivity.
  - destruct (b <? a)%float eqn:Hlt.
    + split; [now right |].
      apply (ltb_value _ _ Nb Na) in Hlt. split; lra.
    + split; [now left |]. split; [lra |].
      destruct (Qlt_le_dec (valueOf b) (valueOf a)) as [Hc | Hc];
        [| exact Hc].
      apply (ltb_value _ _ Nb Na) in Hc. congruence.
Qed.


Lemma beyond_whole_numbers (x : float) :
  Prim2SF x = S754_infinity false ->
  notNaN (Prim2SF x) /\ ~ (valueOf x < inject_Z (2 ^ 53))%Q.
Proof.
  intros Hx. split; [unfold notNaN; rewrite Hx; discriminate |].
  rewrite (infinite_value _ Hx), pow2_Z by lia.
  intros Hc. apply Qlt_not_le in Hc. apply Hc, pow2_le. lia.
Qed.

(** A quotient of a number that is not negative by a positive one is
    [+Infinity] or a finite number that is not negative. *)
Lemma quotient_shape (a h : float) :
  finiteSF (Prim2SF a) = true -> finiteSF (Prim2SF h) = true ->
  (0 <= valueOf a)%Q -> (0 < valueOf h)%Q ->
  Prim2SF (a / h) = S754_infinity false
  \/ (finiteSF (Prim2SF (a / h)) = true /\ (0 <= valueOf (a / h))%Q).
Proof.
  intros Fa Fh Ha Hh.
  destruct (div_finite a h Fa Fh Ha Hh) as [(sg & Hz & _) | [E Hr]].
  - right. unfold valueOf. rewrite Hz. cbn [finiteSF rank].
    split; [reflexivity | lra].
  - destruct (rounded_shape _ _ _ Hr) as [Hinf | Hf]; [now left |].
    right. split; [exact Hf | exact (rounded_nonneg _ _ _ Hr)].
Qed.

(** The end of the window, before the clamp to the list: a number, and a
    whole one when it is below [2^53]. *)
Lemma window_end_shape (s h c : float) (o : Z) :
  finiteSF (Prim2SF s) = true -> finiteSF (Prim2SF h) = true ->
  finiteSF (Prim2SF c) = true ->
  (0 <= valueOf s)%Q -> (0 < valueOf h)%Q -> (0 < valueOf c)%Q ->
  0 <= o < 2 ^ 53 ->
  let e := (Math_ceil ((s + c) / h) + number o)%float in
  notNaN (Prim2SF e)
  /\ ((valueOf e < inject_Z (2 ^ 53))%Q ->
      exists z, 0 <= z /\ wholeNumber e z).
Proof.
  intros Fs Fh Fc Hs Hh Hc Ho e.
  pose proof (wholeNumber_number o ltac:(lia)) as Wo.
  assert (Hinf : forall q : float,
             Prim2SF q = S754_infinity false ->
             notNaN (Prim2SF (Math_ceil q + number o))
             /\ ((valueOf (Math_ceil q + number o) < inject_Z (2 ^ 53))%Q ->
                 exists z, 0 <= z /\ wholeNumber (Math_ceil q + number o) z)).
  { intros q Hq. rewrite ceil_infinite by now rewrite Hq.
    destruct (beyond_whole_numbers _ (add_infinite q _ Hq (proj1 Wo)))
      as [Nn Hbig].
    split; [exact Nn |]. intros Hlt. now elim Hbig. }
  assert (Hq : Prim2SF ((s + c) / h) = S754_infinity false
               \/ (finiteSF (Prim2SF ((s + c) / h)) = true
                   /\ (0 <= valueOf ((s + c) / h))%Q)).
  { pose proof (add_finite _ _ Fs Fc) as Hsum.
    destruct (sumOf_relative _ _ Hsum ltac:(lra)) as [Hsinf | [Fa Hrel]].
    - left. now apply div_infinite.
    - apply quotient_shape; try assumption.
      unfold valueOf at 1.
      apply Qle_trans with ((valueOf s + valueOf c) * ulpError)%Q;
        [| exact Hrel].
      apply Qmult_le_0_compat; [lra | discriminate]. }
  destruct Hq as [Hqinf | [Fq Hq0]]; [now apply Hinf |].
  destruct (ceil_spec _ Fq) as (z & Hz & [_ Hzhi] & Ff).
  assert (Hz0 : 0 <= z).
  { rewrite Zle_Qle. change (inject_Z 0) with 0%Q. lra. }
  destruct (whole_sum_shape _ _ z o (conj Ff Hz) Wo ltac:(lia)) as [Nn Hw].
  split; [exact Nn |]. intros Hlt. exists (z + o). split; [lia |].
  now apply Hw.
Qed.

(** The start of the range: a number, and a whole one that is not
    negative when it is below [2^53]. *)
Lemma range_start_shape (s h : float) (o : Z) :
  finiteSF (Prim2SF s) = true -> finiteSF (Prim2SF h) = true ->
  (0 <= valueOf s)%Q -> (0 < valueOf h)%Q -> 0 <= o < 2 ^ 53 ->
  let start := Math_max [0%float; (Math_floor (s / h) - number o)%float] in
  notNaN (Prim2SF start)
  /\ ((valueOf start < inject_Z (2 ^ 53))%Q ->
      exists a, 0 <= a /\ wholeNumber start a).
Proof.
  intros Fs Fh Hs Hh Ho start.
  pose proof (wholeNumber_number o ltac:(lia)) as Wo.
  set (d := (Math_floor (s / h) - number o)%float) in *.
  assert (Hd : notNaN (Prim2SF d)
               /\ ((valueOf d < inject_Z (2 ^ 53))%Q ->
                   exists z, wholeNumber d z)).
  { destruct (quotient_shape s h Fs Fh Hs Hh) as [Hqinf | [Fq Hq0]].
    - assert (Hdinf : Prim2SF d = S754_infinity false).
      { unfold d. rewrite floor_infinite by now rewrite Hqinf.
        rewrite FloatAxioms.sub_spec, Hqinf. destruct Wo as [Fo _].
        destruct (Prim2SF (number o)); cbn in Fo; try discriminate Fo;
          reflexivity. }
      destruct (beyond_whole_numbers _ Hdinf) as [Nn Hbig].
      split; [exact Nn |]. intros Hlt. now elim Hbig.
    - destruct (floor_spec _ Fq) as (z & Hz & [Hzlo Hzhi] & Ff).
      assert (Hz0 : 0 <= z).
      { assert (H : (inject_Z (- 1) < inject_Z z)%Q).
        { change (inject_Z (- 1)) with (- (1))%Q. lra. }
        rewrite <- Zlt_Qlt in H. lia. }
      destruct (whole_difference_shape _ _ z o (conj Ff Hz) Wo ltac:(lia))
        as [Nn Hw].
      split; [exact Nn |]. intros Hlt. exists (z - o). now apply Hw. }
  destruct Hd as [Nd Hd]. unfold start. rewrite Math_max_zero.
  pose proof Nd as Nd'. apply is_nan_false in Nd'. rewrite Nd'.
  destruct (0 <? d)%float eqn:Hpos.
  - split; [exact Nd |]. intros Hlt. destruct (Hd Hlt) as [z Hw].
    exists z. split; [| exact Hw].
    apply positive_value in Hpos. destruct Hw as [_ Hv]. rewrite Hv in Hpos.
    change 0%Q with (inject_Z 0) in Hpos. rewrite <- Zlt_Qlt in Hpos. lia.
  - split; [discriminate |]. intros _. exists 0. split; [lia |].
    split; reflexivity.
Qed.

(** X10.  In the hook's binary64 arithmetic, for a finite scroll offset
    [>= 0], finite positive item and viewport extents, a list of at most
    [2^52] items and an overscan that is a whole number [>= 0]: the loop of
    [virtualItems] ends, after at most [totalItems] iterations, and renders
    at most [totalItems] items.  Every item it renders has a whole number
    between 0 and [totalItems - 1] as index, within
    [[startIndex, endIndex]], and [index * itemHeight] as offset; every
    whole number between [startIndex] and [endIndex] is the index of a
    rendered item.  A list without items renders nothing. *)
Theorem virtualItems_of_visibleRange :
  forall (scrollTop itemHeight containerHeight : float)
         (totalItems overscan : Z),
    PrimFloat.is_finite scrollTop = true ->
    PrimFloat.is_finite itemHeight = true ->
    PrimFloat.is_finite containerHeight = true ->
    (0 <=? scrollTop)%float = true -> (0 <? itemHeight)%float = true ->
    (0 <? containerHeight)%float = true ->
    0 <= totalItems <= 2 ^ 52 -> 0 <= overscan < 2 ^ 53 ->
    let r := visibleRange scrollTop itemHeight containerHeight
                          (number totalItems) (number overscan) in
    exists items,
      (forall fuel, (Z.to_nat totalItems <= fuel)%nat ->
                    virtualItems fuel r itemHeight = Some items)
      /\ (length items <= Z.to_nat totalItems)%nat
      /\ (forall item, In item items ->
            offsetTop item = (index item * itemHeight)%float
            /\ (startIndex r <=? index item)%float = true
            /\ (index item <=? endIndex r)%float = true
            /\ exists z, 0 <= z < totalItems /\ wholeNumber (index item) z)
      /\ (forall z,
            0 <= z < 2 ^ 53 ->
            (startIndex r <=? number z)%float = true ->
            (number z <=? endIndex r)%float = true ->
            exists item, In item items /\ wholeNumber (index item) z).
Proof.
  intros s h c n o Fs Fh Fc Hs Hh Hc Hn Ho. cbv zeta.
  rewrite is_finite_spec in Fs, Fh, Fc.
  apply nonneg_value in Hs. apply positive_value in Hh, Hc.
  unfold virtualItems, visibleRange. cbn [startIndex endIndex].
  set (start := Math_max [0%float; (Math_floor (s / h) - number o)%float]).
  set (e := (Math_ceil ((s + c) / h) + number o)%float).
  set (last := (number n - 1)%float).
  destruct (range_start_shape s h o Fs Fh Hs Hh Ho) as [Nstart Hstart].
  destruct (window_end_shape s h c o Fs Fh Fc Hs Hh Hc Ho) as [Ne He].
  fold start in Nstart, Hstart. fold e in Ne, He.
  (* the last index of the list *)
  destruct one_value as [H1 F1].
  assert (Wlast : wholeNumber last (n - 1)).
  { destruct (whole_difference_shape (number n) 1 n 1
                (wholeNumber_number n ltac:(lia)) (conj F1 H1) ltac:(lia))
      as [_ Hw].
    apply Hw. pose proof (sub_finite _ _ (proj1 (wholeNumber_number n
                                                  ltac:(lia))) F1) as Hsub.
    destruct (sumOf_exact _ _ (n - 1) Hsub ltac:(lia)) as [Hv _].
    { rewrite (proj2 (wholeNumber_number n ltac:(lia))), H1.
      unfold Z.sub. rewrite inject_Z_plus. reflexivity. }
    unfold valueOf at 1. rewrite Hv.
    rewrite (proj2 (wholeNumber_number n ltac:(lia))), H1.
    assert (inject_Z n < inject_Z (2 ^ 53))%Q by (rewrite <- Zlt_Qlt; lia).
    lra. }
  (* the end of the range *)
  assert (Wend : exists b, -1 <= b <= n - 1
                           /\ wholeNumber (Math_min [last; e]) b).
  { destruct (Math_min_two last e (proj1 Wlast) Ne)
      as ([-> | Heq] & Hle1 & Hle2).
    - exists (n - 1). split; [lia | exact Wlast].
    - rewrite Heq in Hle1 |- *.
      destruct Wlast as [_ Hlast]. rewrite Hlast in Hle1.
      destruct He as (z & Hz0 & Wz).
      { apply Qle_lt_trans with (inject_Z (n - 1)); [exact Hle1 |].
        rewrite <- Zlt_Qlt. lia. }
      exists z. split; [| exact Wz].
      destruct Wz as [_ Hv]. rewrite Hv in Hle1. rewrite <- Zle_Qle in Hle1.
      lia. }
  destruct Wend as (b & Hb & Wend).
  set (endIndex := Math_min [last; e]) in *.
  destruct (start <=? endIndex)%float eqn:Hcmp.
  - (* the range is not empty *)
    pose proof Hcmp as Hcmp'.
    apply (leb_value _ _ Nstart (wholeNumber_notNaN _ _ Wend)) in Hcmp'.
    destruct Hstart as (a & Ha0 & Wstart).
    { destruct Wend as [_ Hv]. rewrite Hv in Hcmp'.
      apply Qle_lt_trans with (inject_Z b); [exact Hcmp' |].
      rewrite <- Zlt_Qlt. lia. }
    assert (Hab : a <= b) by (now apply (whole_leb _ _ _ _ Wstart Wend)).
    destruct (pushItems_spec endIndex h b Wend ltac:(lia) (Z.to_nat n) a
                start [] Wstart Ha0 ltac:(lia))
      as (items & Hrun & Hlen & Hitems & Hall).
    exists items. split; [| split; [| split]].
    + intros fuel Hfuel. cbn [app] in Hrun.
      now apply (pushItems_more_fuel (Z.to_nat n)).
    + lia.
    + intros item Hin. destruct (Hitems item Hin) as [Ho' (z & Hz & Wz)].
      split; [exact Ho' |].
      split; [apply (whole_leb _ _ _ _ Wstart Wz); lia |].
      split; [apply (whole_leb _ _ _ _ Wz Wend); lia |].
      exists z. split; [lia | exact Wz].
    + intros z Hz Hlo Hhi.
      pose proof (wholeNumber_number z ltac:(lia)) as Wz.
      apply (whole_leb _ _ _ _ Wstart Wz) in Hlo.
      apply (whole_leb _ _ _ _ Wz Wend) in Hhi.
      apply Hall. lia.
  - (* the range is empty *)
    exists []. split; [| split; [| split]].
    + intros fuel _. destruct fuel; cbn [pushItems]; now rewrite Hcmp.
    + cbn. lia.
    + intros item [].
    + intros z Hz Hlo Hhi.
      pose proof (leb_trans _ _ _ Hlo Hhi). congruence.
Qed.

Lemma virtualItems_witness :
  exists items,
    virtualItems 1000 (visibleRange 205 40 400 1000 3) 40 = Some items
    /\ (length items <= 1000)%nat.
Proof.
  destruct (virtualItems_of_visibleRange 205%float 40%float 400%float 1000 3
              eq_refl eq_refl eq_refl eq_refl eq_refl eq_refl
              ltac:(lia) ltac:(lia))
    as (items & Hrun & Hlen & _).
  exists items. split; [apply Hrun; lia | exact Hlen].
Defined.

End VirtualItemsFacts.

(* ================================================================== *)
(** * The memory monitor *)
(* ================================================================== *)

Section MemoryMonitorFacts.

Import PerformanceUtils.

Lemma sampled_maxSamples (usages : list Z) :
  maxSamples (sampled usages) = 60%nat.
Proof.
  unfold sampled.
  induction usages as [| u usages IH] using rev_ind; [reflexivity |].
  rewrite fold_left_app. simpl. exact IH.
Qed.

Lemma tl_skipn {T : Type} (l : list T) : tl l = skipn 1 l.
Proof. now destruct l. Qed.

(** The rolling buffer retains the most recent 60 readings. *)
Lemma sampled_retains_recent (usages : list Z) :
  samples (sampled usages) = JS.slice_last 60 usages.
Proof.
  induction usages as [| u usages IH] using rev_ind; [reflexivity |].
  pose proof (sampled_maxSamples usages) as Hmax.
  unfold sampled in *. rewrite fold_left_app. cbn [fold_left].
  unfold sample at 1. cbn [samples]. rewrite Hmax, IH.
  unfold JS.slice_last.
  rewrite !length_app, length_skipn. cbn [length].
  destruct (Nat.ltb_spec 60 (length usages - (length usages - 60) + 1))
    as [Hfull | Hroom].
  - rewrite tl_skipn, skipn_app, length_skipn.
    replace (1 - (length usages - (length usages - 60)))%nat with 0%nat by lia.
    rewrite skipn_skipn. cbn [skipn].
    rewrite skipn_app.
    replace (length usages + 1 - 60 - length usages)%nat with 0%nat by lia.
    cbn [skipn]. f_equal. f_equal. lia.
  - rewrite skipn_app.
    replace (length usages + 1 - 60 - length usages)%nat with 0%nat by lia.
    cbn [skipn]. f_equal. f_equal. lia.
Qed.

Lemma first_and_last (l : list Z) (first last : Z) :
  nth_error l 0 = Some first ->
  nth_error l (length l - 1) = Some last ->
  (2 <= length l)%nat ->
  exists middle, l = first :: middle ++ [last].
Proof.
  intros Hf Hl Hlen.
  destruct l as [| a l]; [discriminate |].
  simpl in Hf. injection Hf as ->.
  destruct (exists_last (l := l)) as [middle [z ->]].
  { intros ->. simpl in Hlen. lia. }
  exists middle. f_equal. f_equal.
  cbn [length] in Hl. rewrite Nat.sub_succ, Nat.sub_0_r in Hl.
  change (first :: middle ++ [z]) with ((first :: middle) ++ [z]) in Hl.
  rewrite length_app in Hl. cbn [length] in Hl.
  rewrite nth_error_app2 in Hl by (cbn [length]; lia).
  replace (length middle + 1 - length (first :: middle))%nat with 0%nat in Hl
    by (cbn [length]; lia).
  simpl in Hl. injection Hl as ->. reflexivity.
Qed.

(** C9.  [isGrowing] answers true exactly when at least 10 samples are
    retained and the newest exceeds the oldest by strictly more than the
    threshold; the retained samples are the most recent 60 readings.  Ten
    readings of 50, ..., 50, 65 with threshold 10 give true; with 58 as the
    last reading they give false. *)
Theorem isGrowing_oldest_newest_delta :
  (forall (thresholdMB : Z) (m : MemoryMonitor),
      isGrowing thresholdMB m = true <->
      (10 <= length (samples m))%nat
      /\ exists first middle last,
           samples m = first :: middle ++ [last]
           /\ thresholdMB < last - first)
  /\ (forall usages, samples (sampled usages) = JS.slice_last 60 usages)
  /\ isGrowing 10 (sampled [50; 50; 50; 50; 50; 50; 50; 50; 50; 65]) = true
  /\ isGrowing 10 (sampled [50; 50; 50; 50; 50; 50; 50; 50; 50; 58]) = false.
Proof.
  split; [| split; [exact sampled_retains_recent | split; reflexivity]].
  intros thresholdMB m. unfold isGrowing.
  destruct (Nat.ltb_spec (length (samples m)) 10) as [Hfew | Henough].
  - split; [discriminate |]. intros [Hlen _]. lia.
  - destruct (nth_error (samples m) 0) as [first |] eqn:Hf.
    + destruct (nth_error (samples m) (length (samples m) - 1))
        as [last |] eqn:Hl.
      * destruct (first_and_last _ _ _ Hf Hl) as [middle Hm]; [lia |].
        split.
        -- intros H. apply Z.ltb_lt in H.
           split; [assumption |]. now exists first, middle, last.
        -- intros [_ (f & mid & l & Heq & Hd)].
           rewrite Heq in Hm. injection Hm as -> Hm.
           apply app_inj_tail in Hm as [_ ->].
           now apply Z.ltb_lt.
      * apply nth_error_None in Hl. lia.
    + apply nth_error_None in Hf. lia.
Qed.

End MemoryMonitorFacts.

(* ================================================================== *)
(** * The render loop *)
(* ================================================================== *)

Section RenderLoopFacts.

Import ChartRenderer.

Context {CanvasContext World : Type}.

Lemma renderLoop_returns (ctx : CanvasContext)
    (fn : RenderFn CanvasContext World) (st : State CanvasContext World)
    (w : World) :
  canvasContextRef st = Some ctx ->
  renderFnRef st = Some fn ->
  fn ctx (world st) = (w, JS.Normal tt) ->
  exists st',
    renderLoop st = (st', JS.Normal tt)
    /\ log st' = log st ++ [Drawn; Requested (nextFrameId st)]
    /\ pendingFrames st' = pendingFrames st ++ [nextFrameId st]
    /\ animationFrameRef st' = Some (nextFrameId st)
    /\ canvasContextRef st' = Some ctx
    /\ renderFnRef st' = Some fn
    /\ world st' = w.
Proof.
  intros Hctx Hfn Hcall. unfold renderLoop, callRenderFn.
  rewrite Hctx, Hfn, Hcall. cbn.
  eexists. split; [reflexivity |]. cbn.
  rewrite <- app_assoc. repeat split; assumption.
Qed.

Lemma renderLoop_throws (ctx : CanvasContext)
    (fn : RenderFn CanvasContext World) (st : State CanvasContext World)
    (w : World) (e : JS.Error) :
  canvasContextRef st = Some ctx ->
  renderFnRef st = Some fn ->
  fn ctx (world st) = (w, JS.Throw e) ->
  exists st',
    renderLoop st = (st', JS.Throw e)
    /\ log st' = log st ++ [Drawn]
    /\ pendingFrames st' = pendingFrames st
    /\ animationFrameRef st' = animationFrameRef st.
Proof.
  intros Hctx Hfn Hcall. unfold renderLoop, callRenderFn.
  rewrite Hctx, Hfn, Hcall.
  eexists. split; [reflexivity |]. cbn. repeat split.
Qed.

Lemma draws_app (st : State CanvasContext World) (l1 l2 : list Event) :
  log st = l1 ++ l2 ->
  draws st
  = (length (filter (fun e => match e with Drawn => true | _ => false end) l1)
     + length (filter (fun e => match e with Drawn => true | _ => false end)
                      l2))%nat.
Proof.
  intros H. unfold draws. now rewrite H, filter_app, length_app.
Qed.

(** A frame of a live loop whose callback returns draws once and leaves the
    loop live. *)
Lemma frame_running (ctx : CanvasContext)
    (fn : RenderFn CanvasContext World) (st : State CanvasContext World) :
  (forall c w, snd (fn c w) = JS.Normal tt) ->
  running ctx fn st ->
  exists st',
    frame st = Some (st', JS.Normal tt)
    /\ running ctx fn st'
    /\ draws st' = S (draws st).
Proof.
  intros Hfn (Hctx & Hf & id & Hp).
  unfold frame. rewrite Hp.
  set (st0 := {| canvasContextRef := canvasContextRef st;
                 animationFrameRef := animationFrameRef st;
                 renderFnRef := renderFnRef st;
                 pendingFrames := [];
                 nextFrameId := nextFrameId st;
                 world := world st;
                 log := log st |}).
  destruct (fn ctx (world st0)) as [w outcome] eqn:Hcall.
  pose proof (Hfn ctx (world st0)) as Hn. rewrite Hcall in Hn.
  simpl in Hn. subst outcome.
  destruct (renderLoop_returns ctx fn st0 w Hctx Hf Hcall)
    as (st' & Hloop & Hlog & Hpend & _ & Hctx' & Hfn' & _).
  exists st'. split; [now rewrite Hloop |].
  split.
  - split; [assumption |]. split; [assumption |].
    exists (nextFrameId st0). exact Hpend.
  - rewrite (draws_app st' _ _ Hlog). cbn. unfold draws. cbn. lia.
Qed.

Lemma startRenderLoop_running (ctx : CanvasContext) (w : World)
    (fn : RenderFn CanvasContext World) :
  running ctx fn (startRenderLoop fn (mounted ctx w))
  /\ draws (startRenderLoop fn (mounted ctx w)) = 0%nat.
Proof.
  split; [| reflexivity].
  split; [reflexivity |]. split; [reflexivity |]. now exists 1.
Qed.

(** Stopping a started loop cancels the waiting callback: no frame runs
    anything afterwards. *)
Lemma stopRenderLoop_cancels (ctx : CanvasContext) (w : World)
    (fn : RenderFn CanvasContext World) :
  let st := stopRenderLoop (startRenderLoop fn (mounted ctx w)) in
  pendingFrames st = [] /\ renderFnRef st = None /\ frame st = None.
Proof. cbv zeta. repeat split. Qed.

Lemma frames_running (ctx : CanvasContext)
    (fn : RenderFn CanvasContext World) (n : nat) :
  (forall c w, snd (fn c w) = JS.Normal tt) ->
  forall st,
    running ctx fn st ->
    running ctx fn (frames n st) /\ draws (frames n st) = (draws st + n)%nat.
Proof.
  intros Hfn. induction n as [| n IH]; intros st Hrun.
  - simpl. split; [assumption | lia].
  - destruct (frame_running ctx fn st Hfn Hrun) as (st' & Hframe & Hrun' & Hd).
    cbn [frames]. rewrite Hframe.
    destruct (IH st' Hrun') as [Hr Hdn].
    split; [assumption | lia].
Qed.

End RenderLoopFacts.

(** C6, as stated, fails: start the loop with a draw callback that throws.
    The first frame calls it once, the exception leaves [renderLoop], and
    nothing is waiting afterwards: no later frame runs anything. *)
Lemma throwing_draw_halts_loop :
  let st0 := ChartRenderer.startRenderLoop failingDraw
               (ChartRenderer.mounted tt 0%nat) in
  exists st1,
    ChartRenderer.frame st0
    = Some (st1, JS.Throw (JS.UserError "draw failed"))
    /\ ChartRenderer.pendingFrames st1 = []
    /\ ChartRenderer.frame st1 = None
    /\ forall n, ChartRenderer.draws (ChartRenderer.frames n st1) = 1%nat.
Proof.
  cbv zeta. eexists. split; [reflexivity |].
  split; [reflexivity |]. split; [reflexivity |].
  intros [| n]; reflexivity.
Qed.

(** C6, amended.  A tick whose draw callback returns invokes it exactly
    once and then schedules the next tick, so a loop whose callback never
    throws has drawn [n] times after [n] frames and is still scheduled.  A
    tick whose draw callback throws has invoked it once, passes the
    exception on and schedules nothing. *)
Theorem renderLoop_reschedules_after_draw :
  forall (CanvasContext World : Type) (ctx : CanvasContext)
         (fn : ChartRenderer.RenderFn CanvasContext World),
    (forall (st : ChartRenderer.State CanvasContext World) (w : World),
        ChartRenderer.canvasContextRef st = Some ctx ->
        ChartRenderer.renderFnRef st = Some fn ->
        fn ctx (ChartRenderer.world st) = (w, JS.Normal tt) ->
        exists st',
          ChartRenderer.renderLoop st = (st', JS.Normal tt)
          /\ ChartRenderer.log st'
             = ChartRenderer.log st
               ++ [ChartRenderer.Drawn;
                   ChartRenderer.Requested (ChartRenderer.nextFrameId st)]
          /\ ChartRenderer.pendingFrames st'
             = ChartRenderer.pendingFrames st
               ++ [ChartRenderer.nextFrameId st])
    /\ (forall (st : ChartRenderer.State CanvasContext World) (w : World)
               (e : JS.Error),
           ChartRenderer.canvasContextRef st = Some ctx ->
           ChartRenderer.renderFnRef st = Some fn ->
           fn ctx (ChartRenderer.world st) = (w, JS.Throw e) ->
           exists st',
             ChartRenderer.renderLoop st = (st', JS.Throw e)
             /\ ChartRenderer.log st'
                = ChartRenderer.log st ++ [ChartRenderer.Drawn]
             /\ ChartRenderer.pendingFrames st'
                = ChartRenderer.pendingFrames st)
    /\ ((forall c w, snd (fn c w) = JS.Normal tt) ->
        forall (w : World) (n : nat),
          let st := ChartRenderer.frames n
                      (ChartRenderer.startRenderLoop fn
                         (ChartRenderer.mounted ctx w)) in
          ChartRenderer.draws st = n
          /\ exists id, ChartRenderer.pendingFrames st = [id]).
Proof.
  intros CanvasContext World ctx fn. split; [| split].
  - intros st w Hctx Hfn Hcall.
    destruct (renderLoop_returns ctx fn st w Hctx Hfn Hcall)
      as (st' & Hloop & Hlog & Hpend & _).
    now exists st'.
  - intros st w e Hctx Hfn Hcall.
    destruct (renderLoop_throws ctx fn st w e Hctx Hfn Hcall)
      as (st' & Hloop & Hlog & Hpend & _).
    now exists st'.
  - intros Hfn w n. cbv zeta.
    destruct (startRenderLoop_running ctx w fn) as [Hrun Hd0].
    destruct (frames_running ctx fn n Hfn _ Hrun) as [(_ & _ & Hid) Hd].
    split; [lia | exact Hid].
Qed.

Lemma renderLoop_reschedules_witness :
  (forall c w, snd (countingDraw c w) = JS.Normal tt)
  /\ let st := ChartRenderer.frames 3
                 (ChartRenderer.startRenderLoop countingDraw
                    (ChartRenderer.mounted tt 0%nat)) in
     ChartRenderer.draws st = 3%nat
     /\ exists id, ChartRenderer.pendingFrames st = [id].
Proof.
  split; [reflexivity |].
  apply (proj2 (proj2 (renderLoop_reschedules_after_draw
                         unit nat tt countingDraw))).
  reflexivity.
Defined.

(* ================================================================== *)
(** * The coordinate transformations, as they run *)
(* ================================================================== *)

Section CanvasFloats.

Import CanvasUtils.

Lemma isFinite_spec (x : float) :
  isFinite x = negb (notFinite (Prim2SF x)).
Proof.
  unfold isFinite, PrimFloat.is_nan, PrimFloat.is_infinity.
  rewrite !FloatAxioms.eqb_spec, FloatAxioms.abs_spec, SFeqb_same.
  change (Prim2SF infinity) with (S754_infinity false).
  now destruct (Prim2SF x) as [[] | [] | | [] m e].
Qed.

(** [a == b] makes [a - b] a zero, or NaN when both are the same
    infinity. *)
Lemma sub_of_equals (a b : spec_float) :
  SFeqb a b = true -> zeroOrNaN (SF64sub a b) = true.
Proof.
  destruct a as [sa | sa | | sa ma ea], b as [sb | sb | | sb mb eb];
    try discriminate; try (destruct sa, sb; try discriminate; reflexivity).
  unfold SFeqb, SFcompare. intros H.
  assert (Heq : sa = sb /\ ea = eb /\ ma = mb).
  { destruct sa, sb; try discriminate;
      destruct (Z.compare ea eb) eqn:He; try discriminate;
      apply Z.compare_eq in He;
      destruct (Pos.compare_cont Eq ma mb) eqn:Hm; try discriminate;
      apply Pcompare_Eq_eq in Hm; now repeat split. }
  destruct Heq as (-> & -> & ->).
  unfold SF64sub, SFsub. cbv zeta. rewrite Z.sub_diag. reflexivity.
Qed.

Lemma div_by_zeroOrNaN (n d : spec_float) :
  zeroOrNaN d = true -> notFinite (SF64div n d) = true.
Proof.
  destruct d as [sd | sd | | sd md ed]; try discriminate; intros _;
    now destruct n as [sn | sn | | sn mn en].
Qed.

Lemma mul_notFinite (a b : spec_float) :
  notFinite a = true -> notFinite (SF64mul a b) = true.
Proof.
  destruct a as [sa | sa | | sa ma ea]; try discriminate; intros _;
    now destruct b as [sb | sb | | sb mb eb].
Qed.

Lemma add_notFinite (a b : spec_float) :
  notFinite b = true -> notFinite (SF64add a b) = true.
Proof.
  destruct b as [sb | sb | | sb mb eb]; try discriminate; intros _;
    destruct a as [sa | sa | | sa ma ea]; try reflexivity;
    now destruct sa, sb.
Qed.

Lemma sub_notFinite (a b : spec_float) :
  notFinite b = true -> notFinite (SF64sub a b) = true.
Proof.
  destruct b as [sb | sb | | sb mb eb]; try discriminate; intros _;
    destruct a as [sa | sa | | sa ma ea]; try reflexivity;
    now destruct sa, sb.
Qed.

(** A division by the width of a degenerate axis is not finite. *)
Lemma normalized_notFinite (v lo hi : float) :
  PrimFloat.eqb hi lo = true ->
  notFinite (Prim2SF ((v - lo) / (hi - lo))%float) = true.
Proof.
  intros Hd. rewrite FloatAxioms.eqb_spec in Hd.
  rewrite FloatAxioms.div_spec, (FloatAxioms.sub_spec hi lo).
  now apply div_by_zeroOrNaN, sub_of_equals.
Qed.

Lemma dataToCanvas_degenerateX (dataX dataY : float)
    (vp : ChartViewport float) (w h : float) (p : Padding float) :
  degenerateX vp = true ->
  isFinite (fst (dataToCanvas dataX dataY vp w h p)) = false.
Proof.
  intros Hd. unfold dataToCanvas.
  cbn [fst add sub mul div float_arith].
  rewrite isFinite_spec, FloatAxioms.add_spec, FloatAxioms.mul_spec.
  apply negb_false_iff, add_notFinite, mul_notFinite.
  now apply normalized_notFinite.
Qed.

Lemma dataToCanvas_degenerateY (dataX dataY : float)
    (vp : ChartViewport float) (w h : float) (p : Padding float) :
  degenerateY vp = true ->
  isFinite (snd (dataToCanvas dataX dataY vp w h p)) = false.
Proof.
  intros Hd. unfold dataToCanvas.
  cbn [snd add sub mul div one float_arith].
  rewrite isFinite_spec, FloatAxioms.add_spec, FloatAxioms.mul_spec.
  rewrite (FloatAxioms.sub_spec 1).
  apply negb_false_iff, add_notFinite, mul_notFinite, sub_notFinite.
  now apply normalized_notFinite.
Qed.

(** C7, as stated, fails: on a viewport with [xMax == xMin] both
    transformations return; [dataToCanvas] returns an infinite x, and
    [canvasToData] returns [xMin] as x, whatever the pixel. *)
Lemma degenerate_viewport_returns :
  degenerateX flatViewport = true
  /\ dataToCanvas_call 5%float 5%float flatViewport 800%float 400%float
                       defaultPadding
     = JS.Normal (infinity, 343%float)
  /\ dataToCanvas_call 5%float 5%float flatViewport 800%float 400%float
                       defaultPadding
     <> JS.Throw JS.ConfigurationError
  /\ isFinite infinity = false
  /\ canvasToData_call 5%float 5%float flatViewport 800%float 400%float
                       defaultPadding
     = JS.Normal (0%float, 0x1.a1a5a5a5a5a5bp+6%float)
  /\ canvasToData_call 5%float 5%float flatViewport 800%float 400%float
                       defaultPadding
     <> JS.Throw JS.ConfigurationError.
Proof.
  split; [reflexivity |].
  split; [reflexivity |].
  split; [discriminate |].
  split; [reflexivity |].
  split; [reflexivity | discriminate].
Qed.

(** C7, amended.  The coordinate mapper validates nothing and never fails:
    both transformations return for every input.  On a viewport with
    [xMax == xMin] the x that [dataToCanvas] returns is not finite, and on
    one with [yMax == yMin] the y it returns is not finite. *)
Theorem degenerate_viewport_not_finite :
  forall (a b : float) (vp : ChartViewport float) (w h : float)
         (p : Padding float),
    (exists pixel, dataToCanvas_call a b vp w h p = JS.Normal pixel)
    /\ (exists data, canvasToData_call a b vp w h p = JS.Normal data)
    /\ (degenerateX vp = true ->
        isFinite (fst (dataToCanvas a b vp w h p)) = false)
    /\ (degenerateY vp = true ->
        isFinite (snd (dataToCanvas a b vp w h p)) = false).
Proof.
  intros a b vp w h p.
  split; [eexists; reflexivity |].
  split; [eexists; reflexivity |].
  split; [apply dataToCanvas_degenerateX | apply dataToCanvas_degenerateY].
Qed.

Lemma degenerate_viewport_witness :
  degenerateX flatViewport = true
  /\ isFinite (fst (dataToCanvas 5%float 5%float flatViewport 800%float
                                 400%float defaultPadding)) = false.
Proof.
  split; [reflexivity |].
  apply (degenerate_viewport_not_finite 5%float 5%float flatViewport
           800%float 400%float defaultPadding).
  reflexivity.
Defined.

Lemma mul_by_notFinite (a b : spec_float) :
  notFinite b = true -> notFinite (SF64mul a b) = true.
Proof.
  destruct b as [sb | sb | | sb mb eb]; try discriminate; intros _;
    now destruct a as [sa | sa | | sa ma ea].
Qed.

End CanvasFloats.

(* ================================================================== *)
(** * The coordinate transformations: to the canvas and back *)
(* ================================================================== *)

Section ErrorChains.

Import Binary64.

Local Open Scope Q_scope.

Lemma Qabs_ge_opp (z : Q) : - z <= Qabs z.
Proof. rewrite <- Qabs_opp. apply Qle_Qabs. Qed.

Lemma scaled_error (a b k t : Q) :
  0 < k ->
  Qabs (a - b) <= unitRoundoff * Qabs b + t ->
  Qabs (a * k - b * k) <= unitRoundoff * Qabs (b * k) + t * k.
Proof.
  intros Hk H.
  assert (E1 : a * k - b * k == (a - b) * k) by ring.
  rewrite E1, !Qabs_Qmult, (Qabs_pos k) by lra.
  assert (E2 : unitRoundoff * (Qabs b * k) + t * k
               == (unitRoundoff * Qabs b + t) * k) by ring.
  rewrite E2. apply Qmult_le_compat_r; lra.
Qed.

(** The x coordinate: the errors of the eight operations add up. *)
Lemma chain_x (x x0 L d N P C Q M r x' hE hR t : Q) :
  0 <= hE -> 0 <= hR -> 0 <= t ->
  Qabs (d - (x - x0)) <= unitRoundoff * Qabs (x - x0) ->
  Qabs (N - d) <= unitRoundoff * Qabs d + hE ->
  Qabs (P - N) <= unitRoundoff * Qabs N + hR ->
  Qabs (C - (L + P)) <= unitRoundoff * Qabs (L + P) ->
  Qabs (Q - (C - L)) <= unitRoundoff * Qabs (C - L) ->
  Qabs (M - Q) <= unitRoundoff * Qabs Q + hE ->
  Qabs (r - M) <= unitRoundoff * Qabs M + t ->
  Qabs (x' - (x0 + r)) <= unitRoundoff * Qabs (x0 + r) ->
  Qabs (x' - x)
  <= (1 # 562949953421312) * (Qabs (x - x0) + Qabs x + Qabs L)
     + 3 * (hE + hR + t).
Proof.
  intros HE HR Ht H1 H2 H3 H4 H5 H6 H7 H8.
  unfold unitRoundoff in *.
  apply Qabs_Qle_condition in H1, H2, H3, H4, H5, H6, H7, H8.
  pose proof (Qle_Qabs (x - x0)). pose proof (Qabs_ge_opp (x - x0)).
  pose proof (Qle_Qabs x). pose proof (Qabs_ge_opp x).
  pose proof (Qle_Qabs L). pose proof (Qabs_ge_opp L).
  set (D := Qabs (x - x0)) in *. set (G := hE + hR + t).
  assert (HG : G == hE + hR + t) by reflexivity. clearbody G.
  assert (B1 : Qabs d <= (101 # 100) * D)
    by (apply Qabs_Qle_condition; split; lra).
  assert (B2 : Qabs N <= (102 # 100) * D + G)
    by (apply Qabs_Qle_condition; split; lra).
  assert (B3 : Qabs P <= (103 # 100) * D + (21 # 10) * G)
    by (apply Qabs_Qle_condition; split; lra).
  assert (B4 : Qabs (L + P) <= Qabs L + (103 # 100) * D + (21 # 10) * G)
    by (apply Qabs_Qle_condition; split; lra).
  assert (B5 : Qabs (C - L)
               <= (104 # 100) * D + (1 # 100) * Qabs L + (22 # 10) * G)
    by (apply Qabs_Qle_condition; split; lra).
  assert (B6 : Qabs Q
               <= (105 # 100) * D + (2 # 100) * Qabs L + (23 # 10) * G)
    by (apply Qabs_Qle_condition; split; lra).
  assert (B7 : Qabs M
               <= (106 # 100) * D + (3 # 100) * Qabs L + (34 # 10) * G)
    by (apply Qabs_Qle_condition; split; lra).
  assert (B8 : Qabs (x0 + r)
               <= Qabs x + (1 # 100) * D + (1 # 100) * Qabs L + 3 * G)
    by (apply Qabs_Qle_condition; split; lra).
  apply Qabs_Qle_condition; split; lra.
Qed.

(** The y coordinate: ten operations, the axis being reversed. *)
Lemma chain_y (y y0 E T d N K P C Q G M r y' hE hR t : Q) :
  0 <= E -> 0 <= hE -> 0 <= hR -> 0 <= t ->
  Qabs (d - (y - y0)) <= unitRoundoff * Qabs (y - y0) ->
  Qabs (N - d) <= unitRoundoff * Qabs d + hE ->
  Qabs (K - (E - N)) <= unitRoundoff * Qabs (E - N) ->
  Qabs (P - K) <= unitRoundoff * Qabs K + hR ->
  Qabs (C - (T + P)) <= unitRoundoff * Qabs (T + P) ->
  Qabs (Q - (C - T)) <= unitRoundoff * Qabs (C - T) ->
  Qabs (G - Q) <= unitRoundoff * Qabs Q + hE ->
  Qabs (M - (E - G)) <= unitRoundoff * Qabs (E - G) ->
  Qabs (r - M) <= unitRoundoff * Qabs M + t ->
  Qabs (y' - (y0 + r)) <= unitRoundoff * Qabs (y0 + r) ->
  Qabs (y' - y)
  <= (1 # 562949953421312) * (Qabs (y - y0) + Qabs y + E + Qabs T)
     + 3 * (hE + hR + t).
Proof.
  intros HE0 HE HR Ht H1 H2 H3 H4 H5 H6 H7 H8 H9 H10.
  unfold unitRoundoff in *.
  apply Qabs_Qle_condition in H1, H2, H3, H4, H5, H6, H7, H8, H9, H10.
  pose proof (Qle_Qabs (y - y0)). pose proof (Qabs_ge_opp (y - y0)).
  pose proof (Qle_Qabs y). pose proof (Qabs_ge_opp y).
  pose proof (Qle_Qabs T). pose proof (Qabs_ge_opp T).
  set (D := Qabs (y - y0)) in *. set (S := hE + hR + t).
  assert (HS : S == hE + hR + t) by reflexivity. clearbody S.
  assert (B1 : Qabs d <= (101 # 100) * D)
    by (apply Qabs_Qle_condition; split; lra).
  assert (B2 : Qabs N <= (102 # 100) * D + S)
    by (apply Qabs_Qle_condition; split; lra).
  assert (B3 : Qabs (E - N) <= E + (102 # 100) * D + S)
    by (apply Qabs_Qle_condition; split; lra).
  assert (B4 : Qabs K <= (101 # 100) * E + (103 # 100) * D + (11 # 10) * S)
    by (apply Qabs_Qle_condition; split; lra).
  assert (B5 : Qabs P <= (102 # 100) * E + (104 # 100) * D + (22 # 10) * S)
    by (apply Qabs_Qle_condition; split; lra).
  assert (B6 : Qabs (T + P)
               <= Qabs T + (102 # 100) * E + (104 # 100) * D
                  + (22 # 10) * S)
    by (apply Qabs_Qle_condition; split; lra).
  assert (B7 : Qabs (C - T)
               <= (1 # 100) * Qabs T + (103 # 100) * E + (105 # 100) * D
                  + (23 # 10) * S)
    by (apply Qabs_Qle_condition; split; lra).
  assert (B8 : Qabs Q
               <= (2 # 100) * Qabs T + (104 # 100) * E + (106 # 100) * D
                  + (24 # 10) * S)
    by (apply Qabs_Qle_condition; split; lra).
  assert (B9 : Qabs (E - G)
               <= (1 # 100) * Qabs T + (1 # 100) * E + (103 # 100) * D
                  + 4 * S)
    by (apply Qabs_Qle_condition; split; lra).
  assert (B10 : Qabs M
                <= (2 # 100) * Qabs T + (2 # 100) * E + (104 # 100) * D
                   + (41 # 10) * S)
    by (apply Qabs_Qle_condition; split; lra).
  assert (B11 : Qabs (y0 + r)
                <= Qabs y + (1 # 100) * Qabs T + (1 # 100) * E
                   + (1 # 100) * D + 5 * S)
    by (apply Qabs_Qle_condition; split; lra).
  apply Qabs_Qle_condition; split; lra.
Qed.

End ErrorChains.

Section CanvasRoundTrip.

Import Binary64 CanvasUtils.

Lemma scaled_sum_error (a b k : Q) :
  (0 < k)%Q ->
  (Qabs (a - b) <= unitRoundoff * Qabs b)%Q ->
  (Qabs (a * k - b * k) <= unitRoundoff * Qabs (b * k))%Q.
Proof.
  intros Hk H.
  assert (H' : (Qabs (a - b) <= unitRoundoff * Qabs b + 0)%Q) by lra.
  pose proof (scaled_error a b k 0 Hk H') as Hs. lra.
Qed.

Lemma four_tiny : (pow2 (-1073) == 4 * tiny)%Q.
Proof.
  unfold tiny. change (-1073) with (-1074 + 1). rewrite pow2_succ.
  change (-1074) with (-1075 + 1). rewrite pow2_succ. ring.
Qed.

Lemma round_trip_x (x x0 x1 w L R : float) :
  let E := (x1 - x0)%float in
  let W := (w - L - R)%float in
  let c := (L + (x - x0) / E * W)%float in
  let x' := (x0 + (c - L) / W * E)%float in
  (x0 <? x1)%float = true -> (0 <? W)%float = true ->
  finiteSF (Prim2SF x') = true ->
  (Qabs (valueOf x' - valueOf x)
   <= tolerance (valueOf x) (valueOf x0) (valueOf E) (valueOf L)
                (valueOf W))%Q.
Proof.
  intros E W c x' Hlt HW Fx'.
  set (d := (x - x0)%float) in *. set (n := (d / E)%float) in *.
  set (p := (n * W)%float) in *. set (q := (c - L)%float) in *.
  set (m := (q / W)%float) in *. set (r := (m * E)%float) in *.
  destruct (add_finite_args _ _ Fx') as [Fx0 Fr].
  destruct (mul_finite_args _ _ Fr) as [Fm FE].
  pose proof (div_finite_left _ _ Fm) as Fq.
  destruct (sub_finite_args _ _ Fq) as [Fc FL].
  destruct (add_finite_args _ _ Fc) as [_ Fp].
  destruct (mul_finite_args _ _ Fp) as [Fn FW].
  pose proof (div_finite_left _ _ Fn) as Fd.
  destruct (sub_finite_args _ _ Fd) as [Fx _].
  pose proof (extent_positive _ _ Hlt FE) as HE.
  change (0 < valueOf E)%Q in HE.
  pose proof (positive_value _ HW) as HW0.
  pose proof tiny_pos as Ht.
  assert (HE' : ~ (valueOf E == 0)%Q) by (intros Hc; lra).
  assert (HW' : ~ (valueOf W == 0)%Q) by (intros Hc; lra).
  set (vE := valueOf E) in *. set (vW := valueOf W) in *.
  assert (Hrho : (0 < vE / vW)%Q) by (apply Qlt_shift_div_l; lra).
  pose proof (sub_error _ _ Fx Fx0 Fd) as H1.
  pose proof (scaled_error _ _ vE _ HE
                (div_error d E Fd FE HE' Fn)) as H2.
  pose proof (scaled_error _ _ (vE / vW) _ Hrho (mul_error n W Fn FW Fp))
    as H3.
  pose proof (scaled_sum_error _ _ (vE / vW) Hrho (add_error L p FL Fp Fc))
    as H4.
  pose proof (scaled_sum_error _ _ (vE / vW) Hrho (sub_error c L Fc FL Fq))
    as H5.
  pose proof (scaled_error _ _ vE _ HE
                (div_error q W Fq FW HW' Fm)) as H6.
  pose proof (mul_error m E Fm FE Fr) as H7.
  pose proof (add_error x0 r Fx0 Fr Fx') as H8.
  fold d n p c q m r vE vW in H1, H2, H3, H4, H5, H6, H7, H8.
  setoid_replace (valueOf d / vE * vE)%Q with (valueOf d) in H2
    by (field; lra).
  setoid_replace (valueOf n * vW * (vE / vW))%Q with (valueOf n * vE)%Q
    in H3 by (field; lra).
  setoid_replace ((valueOf L + valueOf p) * (vE / vW))%Q
    with (valueOf L * (vE / vW) + valueOf p * (vE / vW))%Q
    in H4 by ring.
  setoid_replace ((valueOf c - valueOf L) * (vE / vW))%Q
    with (valueOf c * (vE / vW) - valueOf L * (vE / vW))%Q
    in H5 by ring.
  setoid_replace (valueOf q / vW * vE)%Q with (valueOf q * (vE / vW))%Q
    in H6 by (field; lra).
  pose proof (chain_x (valueOf x) (valueOf x0) (valueOf L * (vE / vW))
                (valueOf d) (valueOf n * vE) (valueOf p * (vE / vW))
                (valueOf c * (vE / vW)) (valueOf q * (vE / vW))
                (valueOf m * vE) (valueOf r) (valueOf x')
                (tiny * vE) (tiny * (vE / vW)) tiny) as Hchain.
  eapply Qle_trans.
  - apply Hchain; try assumption.
    + apply Qmult_le_0_compat; lra.
    + apply Qmult_le_0_compat; lra.
    + lra.
  - unfold tolerance. rewrite four_tiny.
    rewrite (Qabs_Qmult (valueOf L)), (Qabs_pos (vE / vW)) by lra.
    assert (HL := Qabs_nonneg (valueOf L)).
    assert (Hx := Qabs_nonneg (valueOf x)).
    assert (HD := Qabs_nonneg (valueOf x - valueOf x0)).
    set (aL := Qabs (valueOf L)) in *.
    setoid_replace (vE * (1 + aL / vW))%Q with (vE + aL * (vE / vW))%Q
      by (field; lra).
    setoid_replace (vE * (1 + 1 / vW))%Q with (vE + vE / vW)%Q
      by (field; lra).
    assert (0 <= aL * (vE / vW))%Q by (apply Qmult_le_0_compat; lra).
    assert (0 <= tiny * vE)%Q by (apply Qmult_le_0_compat; lra).
    assert (0 <= tiny * (vE / vW))%Q by (apply Qmult_le_0_compat; lra).
    lra.
Qed.

Lemma round_trip_y (y y0 y1 h T B : float) :
  let E := (y1 - y0)%float in
  let H := (h - T - B)%float in
  let c := (T + (1 - (y - y0) / E) * H)%float in
  let y' := (y0 + (1 - (c - T) / H) * E)%float in
  (y0 <? y1)%float = true -> (0 <? H)%float = true ->
  finiteSF (Prim2SF y') = true ->
  (Qabs (valueOf y' - valueOf y)
   <= tolerance (valueOf y) (valueOf y0) (valueOf E) (valueOf T)
                (valueOf H))%Q.
Proof.
  intros E H c y' Hlt HH Fy'.
  set (d := (y - y0)%float) in *. set (n := (d / E)%float) in *.
  set (k := (1 - n)%float) in *. set (p := (k * H)%float) in *.
  set (q := (c - T)%float) in *. set (g := (q / H)%float) in *.
  set (m := (1 - g)%float) in *. set (r := (m * E)%float) in *.
  destruct (add_finite_args _ _ Fy') as [Fy0 Fr].
  destruct (mul_finite_args _ _ Fr) as [Fm FE].
  destruct (sub_finite_args _ _ Fm) as [F1 Fg].
  pose proof (div_finite_left _ _ Fg) as Fq.
  destruct (sub_finite_args _ _ Fq) as [Fc FT].
  destruct (add_finite_args _ _ Fc) as [_ Fp].
  destruct (mul_finite_args _ _ Fp) as [Fk FH].
  destruct (sub_finite_args _ _ Fk) as [_ Fn].
  pose proof (div_finite_left _ _ Fn) as Fd.
  destruct (sub_finite_args _ _ Fd) as [Fy _].
  pose proof (extent_positive _ _ Hlt FE) as HE.
  change (0 < valueOf E)%Q in HE.
  pose proof (positive_value _ HH) as HH0.
  pose proof tiny_pos as Ht.
  destruct one_value as [Hone _].
  assert (HE' : ~ (valueOf E == 0)%Q) by (intros Hc; lra).
  assert (HH' : ~ (valueOf H == 0)%Q) by (intros Hc; lra).
  set (vE := valueOf E) in *. set (vH := valueOf H) in *.
  assert (Hrho : (0 < vE / vH)%Q) by (apply Qlt_shift_div_l; lra).
  pose proof (sub_error _ _ Fy Fy0 Fd) as H1.
  pose proof (scaled_error _ _ vE _ HE (div_error d E Fd FE HE' Fn)) as H2.
  pose proof (scaled_sum_error _ _ vE HE (sub_error 1 n F1 Fn Fk)) as H3.
  pose proof (scaled_error _ _ (vE / vH) _ Hrho (mul_error k H Fk FH Fp))
    as H4.
  pose proof (scaled_sum_error _ _ (vE / vH) Hrho (add_error T p FT Fp Fc))
    as H5.
  pose proof (scaled_sum_error _ _ (vE / vH) Hrho (sub_error c T Fc FT Fq))
    as H6.
  pose proof (scaled_error _ _ vE _ HE (div_error q H Fq FH HH' Fg)) as H7.
  pose proof (scaled_sum_error _ _ vE HE (sub_error 1 g F1 Fg Fm)) as H8.
  pose proof (mul_error m E Fm FE Fr) as H9.
  pose proof (add_error y0 r Fy0 Fr Fy') as H10.
  fold d n k p c q g m r vE vH in H1, H2, H3, H4, H5, H6, H7, H8, H9, H10.
  setoid_replace (valueOf d / vE * vE)%Q with (valueOf d) in H2
    by (field; lra).
  setoid_replace ((valueOf 1 - valueOf n) * vE)%Q
    with (vE - valueOf n * vE)%Q in H3 by (rewrite Hone; ring).
  setoid_replace (valueOf k * vH * (vE / vH))%Q with (valueOf k * vE)%Q
    in H4 by (field; lra).
  setoid_replace ((valueOf T + valueOf p) * (vE / vH))%Q
    with (valueOf T * (vE / vH) + valueOf p * (vE / vH))%Q
    in H5 by ring.
  setoid_replace ((valueOf c - valueOf T) * (vE / vH))%Q
    with (valueOf c * (vE / vH) - valueOf T * (vE / vH))%Q
    in H6 by ring.
  setoid_replace (valueOf q / vH * vE)%Q with (valueOf q * (vE / vH))%Q
    in H7 by (field; lra).
  setoid_replace ((valueOf 1 - valueOf g) * vE)%Q
    with (vE - valueOf g * vE)%Q in H8 by (rewrite Hone; ring).
  pose proof (chain_y (valueOf y) (valueOf y0) vE (valueOf T * (vE / vH))
                (valueOf d) (valueOf n * vE) (valueOf k * vE)
                (valueOf p * (vE / vH)) (valueOf c * (vE / vH))
                (valueOf q * (vE / vH)) (valueOf g * vE) (valueOf m * vE)
                (valueOf r) (valueOf y')
                (tiny * vE) (tiny * (vE / vH)) tiny) as Hchain.
  eapply Qle_trans.
  - apply Hchain; try assumption.
    + lra.
    + apply Qmult_le_0_compat; lra.
    + apply Qmult_le_0_compat; lra.
    + lra.
  - unfold tolerance. rewrite four_tiny.
    rewrite (Qabs_Qmult (valueOf T)), (Qabs_pos (vE / vH)) by lra.
    assert (HT := Qabs_nonneg (valueOf T)).
    assert (Hy := Qabs_nonneg (valueOf y)).
    assert (HD := Qabs_nonneg (valueOf y - valueOf y0)).
    set (aT := Qabs (valueOf T)) in *.
    setoid_replace (vE * (1 + aT / vH))%Q with (vE + aT * (vE / vH))%Q
      by (field; lra).
    setoid_replace (vE * (1 + 1 / vH))%Q with (vE + vE / vH)%Q
      by (field; lra).
    assert (0 <= aT * (vE / vH))%Q by (apply Qmult_le_0_compat; lra).
    assert (0 <= tiny * vE)%Q by (apply Qmult_le_0_compat; lra).
    assert (0 <= tiny * (vE / vH))%Q by (apply Qmult_le_0_compat; lra).
    lra.
Qed.

Lemma isFinite_finiteSF (x : float) : isFinite x = finiteSF (Prim2SF x).
Proof. rewrite isFinite_spec. now destruct (Prim2SF x). Qed.

Lemma wide_extent_not_finite (lo v e : float) :
  isFinite e = false -> isFinite (lo + v * e)%float = false.
Proof.
  rewrite !isFinite_spec, FloatAxioms.add_spec, FloatAxioms.mul_spec.
  intros He. apply negb_false_iff in He.
  apply negb_false_iff, add_notFinite, mul_by_notFinite. exact He.
Qed.

(** C4, as stated, fails: the viewport from [-2^1023] to [2^1023] is not
    degenerate and the plot area of an 800 by 400 surface with the default
    padding is positive, yet the data point [(5, 5)] mapped to the canvas
    and back has NaN as its x: the extent [xMax - xMin] overflows. *)
Lemma wide_viewport_round_trip_is_NaN :
  let vp := {| xMin := (-0x1p+1023)%float; xMax := 0x1p+1023%float;
               yMin := 0%float; yMax := 100%float; scale := 1%float |} in
  let pixel := dataToCanvas 5%float 5%float vp 800%float 400%float
                            defaultPadding in
  let data := canvasToData (fst pixel) (snd pixel) vp 800%float 400%float
                           defaultPadding in
  (xMin vp <? xMax vp)%float = true
  /\ (yMin vp <? yMax vp)%float = true
  /\ (0 <? 800 - left defaultPadding - right defaultPadding)%float = true
  /\ (0 <? 400 - top defaultPadding - bottom defaultPadding)%float = true
  /\ isFinite (xMax vp - xMin vp)%float = false
  /\ PrimFloat.is_nan (fst data) = true
  /\ PrimFloat.eqb (fst data) 5 = false.
Proof. cbv zeta. repeat split; vm_compute; reflexivity. Qed.

(** C4, amended.  For a viewport with [xMin < xMax] and [yMin < yMax] and
    a surface whose plot area, as the functions compute it, is positive in
    both directions, mapping a data point to the canvas and back either
    overflows, the coordinate returned being an infinity or NaN, or gives
    the point back up to rounding: whenever the x returned is finite, it
    differs from [x] by at most
    [2^-49 * (|x - xMin| + |x| + (xMax - xMin) * (1 + |left| / plotWidth))
     + 2^-1073 * (1 + (xMax - xMin) * (1 + 1 / plotWidth))],
    and likewise the y returned with [yMin], [yMax], [top] and the plot
    height.  The first term is the relative error of the eight (for y, ten)
    binary64 operations of the round trip, the second is what a product or
    a quotient can lose in the subnormal range.  The round trip overflows
    whenever the extent [xMax - xMin] (or [yMax - yMin]) does: the
    coordinate returned is then not finite. *)
Theorem canvasToData_inverts_dataToCanvas :
  forall (x y : float) (vp : ChartViewport float) (w h : float)
         (p : Padding float),
    (xMin vp <? xMax vp)%float = true ->
    (yMin vp <? yMax vp)%float = true ->
    (0 <? w - left p - right p)%float = true ->
    (0 <? h - top p - bottom p)%float = true ->
    let pixel := dataToCanvas x y vp w h p in
    let data := canvasToData (fst pixel) (snd pixel) vp w h p in
    (isFinite (fst data) = true ->
     (Qabs (valueOf (fst data) - valueOf x)
      <= tolerance (valueOf x) (valueOf (xMin vp))
                   (valueOf (xMax vp - xMin vp)) (valueOf (left p))
                   (valueOf (w - left p - right p)))%Q)
    /\ (isFinite (snd data) = true ->
        (Qabs (valueOf (snd data) - valueOf y)
         <= tolerance (valueOf y) (valueOf (yMin vp))
                      (valueOf (yMax vp - yMin vp)) (valueOf (top p))
                      (valueOf (h - top p - bottom p)))%Q)
    /\ (isFinite (xMax vp - xMin vp) = false -> isFinite (fst data) = false)
    /\ (isFinite (yMax vp - yMin vp) = false -> isFinite (snd data) = false).
Proof.
  intros x y [x0 x1 y0 y1 sc] w h [pt pr pb pl].
  cbn [xMin xMax yMin yMax left right top bottom].
  intros Hx Hy Hw Hh. cbv zeta.
  unfold canvasToData, dataToCanvas.
  cbn [fst snd xMin xMax yMin yMax left right top bottom
       add sub mul div one float_arith].
  split; [| split; [| split]].
  - rewrite isFinite_finiteSF. intros Fx.
    exact (round_trip_x x x0 x1 w pl pr Hx Hw Fx).
  - rewrite isFinite_finiteSF. intros Fy.
    exact (round_trip_y y y0 y1 h pt pb Hy Hh Fy).
  - apply wide_extent_not_finite.
  - apply wide_extent_not_finite.
Qed.

Lemma canvasToData_inverts_witness :
  let vp := {| xMin := 0%float; xMax := 10%float; yMin := 0%float;
               yMax := 100%float; scale := 1%float |} in
  let pixel := dataToCanvas 3%float 7%float vp 800%float 400%float
                            defaultPadding in
  let data := canvasToData (fst pixel) (snd pixel) vp 800%float 400%float
                           defaultPadding in
  (Qabs (valueOf (fst data) - valueOf 3)
   <= tolerance (valueOf 3) (valueOf (xMin vp))
                (valueOf (xMax vp - xMin vp))
                (valueOf (left defaultPadding))
                (valueOf (800 - left defaultPadding
                          - right defaultPadding)))%Q
  /\ (Qabs (valueOf (snd data) - valueOf 7)
      <= tolerance (valueOf 7) (valueOf (yMin vp))
                   (valueOf (yMax vp - yMin vp))
                   (valueOf (top defaultPadding))
                   (valueOf (400 - top defaultPadding
                             - bottom defaultPadding)))%Q.
Proof.
  cbv zeta.
  destruct (canvasToData_inverts_dataToCanvas 3%float 7%float
              {| xMin := 0%float; xMax := 10%float; yMin := 0%float;
                 yMax := 100%float; scale := 1%float |}
              800%float 400%float defaultPadding
              eq_refl eq_refl eq_refl eq_refl) as (Hx & Hy & _).
  split; [apply Hx | apply Hy]; reflexivity.
Defined.

End CanvasRoundTrip.

(* ================================================================== *)
(** * Filters and categories *)
(* ================================================================== *)

Section FilteringFacts.

Import Types DataProvider Filtering FilterPanel.

Lemma includes_In (arr : list string) (c : string) :
  includes arr c = true <-> In c arr.
Proof.
  unfold includes. rewrite existsb_exists. split.
  - intros [x [Hin He]]. apply String.eqb_eq in He. now subst.
  - intros Hin. exists c. split; [assumption | apply String.eqb_refl].
Qed.

Lemma includes_false (arr : list string) (c : string) :
  includes arr c = false <-> ~ In c arr.
Proof.
  rewrite <- includes_In. destruct (includes arr c); split; intros H.
  - discriminate.
  - now contradiction H.
  - intros Hc. discriminate.
  - reflexivity.
Qed.

Lemma byCategories_In (cs : list string) (l : list DataPoint)
    (p : DataPoint) :
  In p (if (0 <? length cs)%nat
        then filter (fun point => includes cs (category point)) l
        else l)
  <-> In p l /\ (cs = [] \/ In (category p) cs).
Proof.
  destruct cs as [| c cs]; cbn [length Nat.ltb Nat.leb].
  - split; [intros H; split; [assumption | now left] | now intros [H _]].
  - rewrite filter_In, includes_In. split.
    + intros [H Hc]. split; [assumption | now right].
    + intros [H [Hnil | Hc]]; [discriminate | now split].
Qed.

Lemma byStartTime_In (from : option Z) (l : list DataPoint) (p : DataPoint) :
  In p (match from with
        | Some f => filter (fun point => f <=? timestamp point) l
        | None => l
        end)
  <-> In p l /\ (forall f, from = Some f -> f <= timestamp p).
Proof.
  destruct from as [f |].
  - rewrite filter_In, Z.leb_le. split.
    + intros [H Hf]. split; [assumption |]. intros f' Heq. injection Heq as <-. exact Hf.
    + intros [H Hf]. split; [assumption | now apply Hf].
  - split; [intros H; split; [assumption | intros x Hx; discriminate Hx] | now intros [H _]].
Qed.

Lemma byEndTime_In (to : option Z) (l : list DataPoint) (p : DataPoint) :
  In p (match to with
        | Some e => filter (fun point => timestamp point <=? e) l
        | None => l
        end)
  <-> In p l /\ (forall e, to = Some e -> timestamp p <= e).
Proof.
  destruct to as [e |].
  - rewrite filter_In, Z.leb_le. split.
    + intros [H He]. split; [assumption |]. intros e' Heq. injection Heq as <-. exact He.
    + intros [H He]. split; [assumption | now apply He].
  - split; [intros H; split; [assumption | intros x Hx; discriminate Hx] | now intros [H _]].
Qed.

Lemma filteredData_In (data : list DataPoint) (cfg : FilterConfig)
    (p : DataPoint) :
  In p (filteredData data cfg) <-> In p data /\ passes cfg p.
Proof.
  unfold filteredData, passes. cbv zeta.
  rewrite byEndTime_In, byStartTime_In, byCategories_In. tauto.
Qed.

Lemma filter_if_active {T : Type} (active : bool) (f : T -> bool)
    (l : list T) :
  (if active then filter f l else l)
  = filter (fun x => if active then f x else true) l.
Proof.
  destruct active; [reflexivity |].
  induction l as [| x l IH]; [reflexivity |]. cbn [filter]. now rewrite <- IH.
Qed.

Lemma filteredData_one_filter (data : list DataPoint) (cfg : FilterConfig) :
  exists keep : DataPoint -> bool, filteredData data cfg = filter keep data.
Proof.
  unfold filteredData. cbv zeta.
  rewrite (filter_if_active (0 <? length (categories cfg))%nat).
  destruct (endTime cfg) as [to |], (startTime cfg) as [from |];
    rewrite ?filter_filter_andb; eexists; reflexivity.
Qed.

Lemma filter_length_le {T : Type} (f : T -> bool) (l : list T) :
  (length (filter f l) <= length l)%nat.
Proof.
  induction l as [| x l IH]; [apply Nat.le_refl |].
  cbn [filter]. destruct (f x); cbn [length]; lia.
Qed.

Lemma sortedBy_filter {T : Type} (key : T -> Z) (f : T -> bool)
    (l : list T) :
  sortedBy key l -> sortedBy key (filter f l).
Proof.
  unfold sortedBy. induction 1 as [| x l Hs IH Hx]; [constructor |].
  cbn [filter]. destruct (f x); [| assumption].
  constructor; [assumption |].
  rewrite Forall_forall in Hx |- *. intros y Hy.
  apply filter_In in Hy. now apply Hx.
Qed.

Lemma filter_all {T : Type} (f : T -> bool) (l : list T) :
  (forall x, In x l -> f x = true) -> filter f l = l.
Proof.
  induction l as [| x l IH]; intros H; [reflexivity |].
  cbn [filter]. rewrite (H x (or_introl eq_refl)).
  f_equal. apply IH. intros y Hy. apply H. now right.
Qed.

(** X1.  [filteredData] keeps, in their original order, exactly the points
    that pass every active filter: the category is selected, where an empty
    selection selects every category, and the timestamp is not before
    [startTime] and not after [endTime] when these are set.  Filtering the
    result again with the same configuration changes nothing. *)
Theorem filteredData_keeps_passing_points :
  forall (data : list DataPoint) (cfg : FilterConfig),
    (forall p, In p (filteredData data cfg) <-> In p data /\ passes cfg p)
    /\ (exists keep : DataPoint -> bool,
           filteredData data cfg = filter keep data)
    /\ filteredData (filteredData data cfg) cfg = filteredData data cfg.
Proof.
  intros data cfg.
  split; [intros p; apply filteredData_In |].
  split; [apply filteredData_one_filter |].
  destruct (filteredData_one_filter (filteredData data cfg) cfg)
    as [keep Hkeep].
  rewrite Hkeep. apply filter_all. intros p Hp.
  assert (Hin : In p (filteredData (filteredData data cfg) cfg)).
  { apply filteredData_In. split; [assumption |].
    now apply filteredData_In in Hp. }
  rewrite Hkeep in Hin. now apply filter_In in Hin.
Qed.

Lemma addAll_invariant (batches : list (list DataPoint)) :
  (length (addAll [] batches) <= 10000)%nat
  /\ chronological (addAll [] batches).
Proof.
  unfold addAll.
  induction batches as [| batch batches _] using rev_ind.
  - simpl. split; [apply Nat.le_0_l | constructor].
  - rewrite fold_left_app. simpl. apply addData_invariant.
Qed.

(** X2.  Whatever batches have been appended and whatever the filter
    configuration, the filtered view of the stream buffer is in
    chronological order and holds at most 10000 points. *)
Theorem filteredData_of_buffer_chronological :
  forall (batches : list (list DataPoint)) (cfg : FilterConfig),
    chronological (filteredData (addAll [] batches) cfg)
    /\ (length (filteredData (addAll [] batches) cfg) <= 10000)%nat.
Proof.
  intros batches cfg.
  destruct (addAll_invariant batches) as [Hlen Hchr].
  destruct (filteredData_one_filter (addAll [] batches) cfg) as [keep ->].
  split.
  - now apply sortedBy_filter.
  - apply Nat.le_trans with (length (addAll [] batches));
      [apply filter_length_le | assumption].
Qed.

Lemma includes_ext (cs cs' : list string) :
  (forall x, In x cs <-> In x cs') ->
  forall x, includes cs x = includes cs' x.
Proof.
  intros H x. destruct (includes cs' x) eqn:He.
  - apply includes_In, H, includes_In, He.
  - apply includes_false. intros Hc. apply H in Hc.
    apply includes_In in Hc. congruence.
Qed.

Lemma filteredData_categories_ext (data : list DataPoint)
    (cfg cfg' : FilterConfig) :
  (categories cfg = [] <-> categories cfg' = []) ->
  (forall x, In x (categories cfg) <-> In x (categories cfg')) ->
  startTime cfg = startTime cfg' -> endTime cfg = endTime cfg' ->
  filteredData data cfg = filteredData data cfg'.
Proof.
  intros Hnil Hin Hs He. unfold filteredData. cbv zeta.
  rewrite Hs, He.
  assert (Hcat :
            (if (0 <? length (categories cfg))%nat
             then filter (fun point => includes (categories cfg)
                                                (category point)) data
             else data)
            = (if (0 <? length (categories cfg'))%nat
               then filter (fun point => includes (categories cfg')
                                                  (category point)) data
               else data)).
  { destruct (categories cfg) as [| c cs] eqn:Hc,
             (categories cfg') as [| c' cs'] eqn:Hc'.
    - reflexivity.
    - destruct Hnil as [Hnil _]. now specialize (Hnil eq_refl).
    - destruct Hnil as [_ Hnil]. now specialize (Hnil eq_refl).
    - cbn [length Nat.ltb Nat.leb]. apply filter_ext. intros p.
      now apply includes_ext. }
  now rewrite Hcat.
Qed.

(** X3.  Toggling a category twice brings back the same filtered data,
    whatever the selection was before. *)
Theorem toggleCategory_twice_same_view :
  forall (data : list DataPoint) (cfg : FilterConfig) (c : string),
    filteredData data (toggleCategory (toggleCategory cfg c) c)
    = filteredData data cfg.
Proof.
  intros data cfg c.
  apply filteredData_categories_ext; try reflexivity.
  - unfold toggleCategory. cbn [updateFilter onlyCategories newCategories
                                 categories].
    destruct (includes (categories cfg) c) eqn:Hc.
    + assert (Hout : includes (filter (fun x => negb (String.eqb x c))
                                      (categories cfg)) c = false).
      { apply includes_false. intros Hin. apply filter_In in Hin.
        destruct Hin as [_ Hin]. now rewrite String.eqb_refl in Hin. }
      rewrite Hout. apply includes_In in Hc. split.
      * intros H. now apply app_eq_nil in H as [_ H].
      * intros H. now rewrite H in Hc.
    + assert (Hin : includes (categories cfg ++ [c]) c = true).
      { apply includes_In, in_or_app. right. now left. }
      rewrite Hin, filter_app. cbn [filter].
      rewrite String.eqb_refl. cbn [negb]. rewrite app_nil_r.
      rewrite filter_all; [tauto |].
      intros x Hx. apply negb_true_iff, String.eqb_neq. intros ->.
      apply includes_false in Hc. contradiction.
  - intros x. unfold toggleCategory.
    cbn [updateFilter onlyCategories newCategories categories].
    destruct (includes (categories cfg) c) eqn:Hc.
    + assert (Hout : includes (filter (fun x => negb (String.eqb x c))
                                      (categories cfg)) c = false).
      { apply includes_false. intros Hin. apply filter_In in Hin.
        destruct Hin as [_ Hin]. now rewrite String.eqb_refl in Hin. }
      rewrite Hout. apply includes_In in Hc.
      rewrite in_app_iff, filter_In. cbn [In]. split.
      * intros [[H _] | [<- | []]]; assumption.
      * intros H. destruct (String.eqb x c) eqn:He.
        -- apply String.eqb_eq in He. right. left. now symmetry.
        -- left. now split.
    + assert (Hin : includes (categories cfg ++ [c]) c = true).
      { apply includes_In, in_or_app. right. now left. }
      rewrite Hin, filter_app. cbn [filter].
      rewrite String.eqb_refl. cbn [negb]. rewrite app_nil_r.
      rewrite filter_all; [tauto |].
      intros y Hy. apply negb_true_iff, String.eqb_neq. intros ->.
      apply includes_false in Hc. contradiction.
Qed.

Lemma passes_time_only (cfg cfg' : FilterConfig) (p : DataPoint) :
  startTime cfg' = startTime cfg -> endTime cfg' = endTime cfg ->
  passes cfg' p <->
  (categories cfg' = [] \/ In (category p) (categories cfg'))
  /\ (forall from, startTime cfg = Some from -> from <= timestamp p)
  /\ (forall to, endTime cfg = Some to -> timestamp p <= to).
Proof. intros Hs He. unfold passes. now rewrite Hs, He. Qed.

(** X4.  While every category is selected (the selection is empty), every
    checkbox shows as checked, and toggling the checkbox of a category
    leaves exactly the points of that category in view.  While a single
    category is selected, toggling its checkbox empties the selection, so
    every checkbox shows as checked again and the category filter is off. *)
Theorem toggleCategory_at_the_boundaries :
  forall (data : list DataPoint) (cfg : FilterConfig) (c : string),
    (categories cfg = [] ->
     (forall x, isSelected cfg x = true)
     /\ forall p,
          In p (filteredData data (toggleCategory cfg c))
          <-> In p (filteredData data cfg) /\ category p = c)
    /\ (categories cfg = [c] ->
        categories (toggleCategory cfg c) = []
        /\ (forall x, isSelected (toggleCategory cfg c) x = true)
        /\ forall p,
             In p (filteredData data (toggleCategory cfg c))
             <-> In p data
                 /\ (forall from, startTime cfg = Some from ->
                                  from <= timestamp p)
                 /\ (forall to, endTime cfg = Some to ->
                                timestamp p <= to)).
Proof.
  intros data cfg c. split.
  - intros Hnil. split.
    + intros x. unfold isSelected. now rewrite Hnil.
    + intros p. rewrite !filteredData_In.
      rewrite (passes_time_only cfg (toggleCategory cfg c) p);
        [| reflexivity | reflexivity].
      assert (Hcs : categories (toggleCategory cfg c) = [c]).
      { unfold toggleCategory.
        cbn [updateFilter onlyCategories newCategories categories].
        now rewrite Hnil. }
      unfold passes. rewrite Hcs, Hnil. cbn [In].
      split.
      * intros (Hin & [Hc | [Hc | []]] & Hf & Ht); [discriminate |].
        split; [| now symmetry].
        split; [assumption |]. split; [now left | now split].
      * intros ((Hin & _ & Hf & Ht) & Hc).
        split; [assumption |].
        split; [right; left; now symmetry | now split].
  - intros Hone.
    assert (Hcs : categories (toggleCategory cfg c) = []).
    { unfold toggleCategory.
      cbn [updateFilter onlyCategories newCategories categories].
      rewrite Hone. cbn [includes existsb filter].
      rewrite String.eqb_refl. reflexivity. }
    split; [assumption |]. split.
    + intros x. unfold isSelected. now rewrite Hcs.
    + intros p. rewrite filteredData_In.
      rewrite (passes_time_only cfg (toggleCategory cfg c) p);
        [| reflexivity | reflexivity].
      rewrite Hcs. tauto.
Qed.

Lemma toggleCategory_boundaries_witness :
  categories initialFilterConfig = []
  /\ forall p,
       In p (filteredData [measurementAt 1; measurementAt 2]
                          (toggleCategory initialFilterConfig "cpu"))
       <-> In p (filteredData [measurementAt 1; measurementAt 2]
                              initialFilterConfig)
           /\ category p = "cpu"%string.
Proof.
  split; [reflexivity |].
  apply (proj1 (toggleCategory_at_the_boundaries
                  [measurementAt 1; measurementAt 2]
                  initialFilterConfig "cpu")).
  reflexivity.
Defined.

(** X5.  After [deselectAll] the view holds exactly the points that pass
    the time bounds and whose category is the string ["__none__"]: nothing
    is shown unless the data has such a category, and the only checkbox
    that shows as checked is the one of that category. *)
Theorem deselectAll_shows_only_the_sentinel :
  forall (data : list DataPoint) (cfg : FilterConfig),
    (forall p,
        In p (filteredData data (deselectAll cfg))
        <-> In p (filteredData data (selectAll cfg))
            /\ category p = "__none__"%string)
    /\ (forall x,
           isSelected (deselectAll cfg) x = true <-> x = "__none__"%string).
Proof.
  intros data cfg. split.
  - intros p. rewrite !filteredData_In.
    rewrite (passes_time_only cfg (deselectAll cfg) p);
      [| reflexivity | reflexivity].
    rewrite (passes_time_only cfg (selectAll cfg) p);
      [| reflexivity | reflexivity].
    cbn [deselectAll selectAll updateFilter onlyCategories newCategories
         categories In].
    split.
    + intros (Hin & [Hc | [Hc | []]] & Hf & Ht); [discriminate |].
      split; [| now symmetry].
      split; [assumption |]. split; [now left | now split].
    + intros ((Hin & _ & Hf & Ht) & Hc).
      split; [assumption |].
      split; [right; left; now symmetry | now split].
  - intros x. unfold isSelected.
    cbn [deselectAll updateFilter onlyCategories newCategories categories
         length Nat.eqb orb includes existsb].
    rewrite orb_false_r, String.eqb_eq. split; intros H; now symmetry.
Qed.

End FilteringFacts.

Section SortAnyFacts.

Context {A : Type}.

(** Sorting with any comparator that is total and transitive. *)
Variable compareFn : A -> A -> Z.

Let notAfter (a b : A) : Prop := compareFn a b <= 0.

Hypothesis compareFn_total : forall a b, notAfter a b \/ notAfter b a.
Hypothesis compareFn_trans :
  forall a b c, notAfter a b -> notAfter b c -> notAfter a c.

Lemma insert_any_perm (x : A) (l : list A) :
  Permutation (JS.insert compareFn x l) (x :: l).
Proof.
  induction l as [| y l IH]; simpl.
  - apply Permutation_refl.
  - destruct (compareFn x y <=? 0).
    + apply Permutation_refl.
    + apply perm_trans with (y :: x :: l);
        [now apply perm_skip | apply perm_swap].
Qed.

Lemma sort_any_perm (l : list A) : Permutation (JS.sort compareFn l) l.
Proof.
  induction l as [| x l IH]; simpl; [apply perm_nil |].
  apply perm_trans with (x :: JS.sort compareFn l);
    [apply insert_any_perm | now apply perm_skip].
Qed.

Lemma insert_any_sorted (x : A) (l : list A) :
  StronglySorted notAfter l ->
  StronglySorted notAfter (JS.insert compareFn x l).
Proof.
  induction l as [| y l IH]; simpl; intros Hs.
  - constructor; [constructor | constructor].
  - inversion Hs as [| ? ? Hl Hy]; subst.
    destruct (compareFn x y <=? 0) eqn:Hc.
    + apply Z.leb_le in Hc.
      constructor; [assumption |].
      constructor; [exact Hc |].
      rewrite Forall_forall in Hy |- *.
      intros z Hz. apply compareFn_trans with y; [exact Hc | now apply Hy].
    + apply Z.leb_gt in Hc.
      constructor; [now apply IH |].
      rewrite Forall_forall in Hy |- *.
      intros z Hz.
      apply (Permutation_in _ (insert_any_perm x l)) in Hz.
      destruct Hz as [-> | Hz]; [| now apply Hy].
      destruct (compareFn_total y z) as [H | H]; [exact H |].
      unfold notAfter in H. lia.
Qed.

Lemma sort_any_sorted (l : list A) :
  StronglySorted notAfter (JS.sort compareFn l).
Proof.
  induction l as [| x l IH]; simpl; [constructor |].
  now apply insert_any_sorted.
Qed.

End SortAnyFacts.

Section CategoryFacts.

Import Types Filtering.

Lemma compareUnits_antisym (a : list N) :
  forall b, JS.compareUnits b a = CompOpp (JS.compareUnits a b).
Proof.
  induction a as [| x a IH]; intros [| y b]; cbn [JS.compareUnits];
    try reflexivity.
  rewrite (N.compare_antisym x y).
  destruct (x ?= y)%N; cbn [CompOpp]; [apply IH | reflexivity | reflexivity].
Qed.

Lemma compareUnits_trans (a : list N) :
  forall b c,
    JS.compareUnits a b <> Gt -> JS.compareUnits b c <> Gt ->
    JS.compareUnits a c <> Gt.
Proof.
  induction a as [| x a IH]; intros [| y b] [| z c];
    cbn [JS.compareUnits]; try congruence.
  destruct (N.compare_spec x y); destruct (N.compare_spec y z);
    destruct (N.compare_spec x z);
    try congruence; try lia.
  apply IH.
Qed.

Lemma stringLeb_total (a b : string) :
  JS.stringLeb a b = true \/ JS.stringLeb b a = true.
Proof.
  unfold JS.stringLeb, JS.compareStrings.
  rewrite (compareUnits_antisym (JS.codeUnits a) (JS.codeUnits b)).
  destruct (JS.compareUnits (JS.codeUnits a) (JS.codeUnits b)); cbn;
    auto.
Qed.

Lemma stringLeb_spec (a b : string) :
  JS.stringLeb a b = true
  <-> JS.compareUnits (JS.codeUnits a) (JS.codeUnits b) <> Gt.
Proof.
  unfold JS.stringLeb, JS.compareStrings.
  destruct (JS.compareUnits (JS.codeUnits a) (JS.codeUnits b));
    split; intros H; congruence.
Qed.

Lemma stringLeb_trans (a b c : string) :
  JS.stringLeb a b = true -> JS.stringLeb b c = true ->
  JS.stringLeb a c = true.
Proof.
  rewrite !stringLeb_spec. apply compareUnits_trans.
Qed.

Lemma compareStrings_leb (a b : string) :
  compareStrings a b <= 0 <-> JS.stringLeb a b = true.
Proof.
  unfold compareStrings, JS.stringLeb.
  destruct (JS.compareStrings a b); split; intros H;
    try reflexivity; try lia; discriminate.
Qed.

Lemma setAdd_spec (s : list string) (c : string) :
  NoDup s ->
  NoDup (setAdd s c) /\ forall x, In x (setAdd s c) <-> In x s \/ x = c.
Proof.
  intros Hnd. unfold setAdd. destruct (includes s c) eqn:Hc.
  - apply includes_In in Hc. split; [assumption |].
    intros x. split; [now left | intros [H | ->]; assumption].
  - apply includes_false in Hc. split.
    + apply NoDup_app; [assumption | constructor; [intros [] | constructor] |].
      intros a Ha [<- | []]. contradiction.
    + intros x. rewrite in_app_iff. cbn [In]. split.
      * intros [H | [<- | []]]; [now left | now right].
      * intros [H | ->]; [now left | right; now left].
Qed.

Lemma categories_collected (data : list DataPoint) :
  let categories := fold_left (fun s point => setAdd s (category point))
                              data [] in
  NoDup categories
  /\ forall x, In x categories <-> exists p, In p data /\ category p = x.
Proof.
  cbv zeta.
  induction data as [| q data IH] using rev_ind.
  - simpl. split; [constructor |].
    intros x. split; [intros [] | intros [p [[] _]]].
  - rewrite fold_left_app. cbn [fold_left].
    destruct IH as [Hnd Hin].
    destruct (setAdd_spec _ (category q) Hnd) as [Hnd' Hin'].
    split; [assumption |].
    intros x. rewrite Hin', Hin. split.
    + intros [[p [Hp Hc]] | ->].
      * exists p. split; [apply in_or_app; now left | assumption].
      * exists q. split; [apply in_or_app; right; now left | reflexivity].
    + intros [p [Hp Hc]]. apply in_app_or in Hp as [Hp | [<- | []]].
      * left. now exists p.
      * right. now symmetry.
Qed.

Lemma StronglySorted_weaken {T : Type} (R R' : T -> T -> Prop)
    (l : list T) :
  (forall a b, R a b -> R' a b) ->
  StronglySorted R l -> StronglySorted R' l.
Proof.
  intros Himp. induction 1 as [| a l Hs IH Ha]; constructor; [assumption |].
  rewrite Forall_forall in Ha |- *. intros b Hb. now apply Himp, Ha.
Qed.

(** X6.  [availableCategories] lists every category that occurs in the data
    exactly once, and nothing else, in ascending order of their UTF-16 code
    units. *)
Theorem availableCategories_distinct_sorted :
  forall data : list DataPoint,
    NoDup (availableCategories data)
    /\ (forall x,
           In x (availableCategories data)
           <-> exists p, In p data /\ category p = x)
    /\ StronglySorted (fun a b => JS.stringLeb a b = true)
                      (availableCategories data).
Proof.
  intros data. unfold availableCategories. cbv zeta.
  destruct (categories_collected data) as [Hnd Hin].
  set (collected := fold_left (fun s point => setAdd s (category point))
                              data []) in *.
  pose proof (sort_any_perm compareStrings collected) as Hperm.
  split; [| split].
  - apply (Permutation_NoDup (Permutation_sym Hperm) Hnd).
  - intros x. rewrite <- Hin. split.
    + apply (Permutation_in _ Hperm).
    + apply (Permutation_in _ (Permutation_sym Hperm)).
  - assert (Hs : StronglySorted (fun a b => compareStrings a b <= 0)
                                (JS.sort compareStrings collected)).
    { apply sort_any_sorted.
      - intros a b. rewrite !compareStrings_leb. apply stringLeb_total.
      - intros a b c. rewrite !compareStrings_leb. apply stringLeb_trans. }
    revert Hs. apply StronglySorted_weaken.
    intros a b. apply compareStrings_leb.
Qed.

End CategoryFacts.

Section BufferIdempotence.

Import Types DataProvider.

(** X7.  Appending an empty batch leaves the buffer as it is exactly when
    the buffer is in chronological order and holds at most 10000 points;
    so it changes nothing on a buffer that [addData] built. *)
Theorem addData_empty_batch_identity :
  (forall s : list DataPoint,
      addData s [] = s <-> chronological s /\ (length s <= 10000)%nat)
  /\ (forall batches : list (list DataPoint),
         addData (addAll [] batches) [] = addAll [] batches).
Proof.
  assert (Hiff : forall s : list DataPoint,
             addData s [] = s <-> chronological s /\ (length s <= 10000)%nat).
  { intros s. split.
    - intros H. destruct (addData_invariant s []) as [Hlen Hchr].
      rewrite H in Hlen, Hchr. now split.
    - intros [Hchr Hlen]. unfold addData, byTimestamp. cbv zeta.
      rewrite app_nil_r, (sort_of_sorted timestamp s Hchr).
      now apply slice_last_all. }
  split; [exact Hiff |].
  intros batches. apply Hiff.
  destruct (addAll_invariant batches) as [Hlen Hchr]. now split.
Qed.

End BufferIdempotence.

(* ================================================================== *)
(** * Appending in one batch or in several *)
(* ================================================================== *)

Section StableSortFacts.

Context {A : Type}.
Variable key : A -> Z.

Local Abbreviation byKey := (fun a b : A => key a - key b).
Local Abbreviation keyed t := (fun a : A => key a =? t).

(** A list sorted by key is determined by its key classes: two sorted lists
    that agree on the elements of every key, in order, are equal. *)
Lemma stable_sorted_unique (l1 : list A) :
  forall l2,
    sortedBy key l1 -> sortedBy key l2 ->
    (forall t, filter (keyed t) l1 = filter (keyed t) l2) ->
    l1 = l2.
Proof.
  unfold sortedBy.
  induction l1 as [| x l1 IH]; intros l2 Hs1 Hs2 Hf.
  - destruct l2 as [| y l2]; [reflexivity |].
    specialize (Hf (key y)). cbn [filter] in Hf.
    rewrite Z.eqb_refl in Hf. discriminate.
  - destruct l2 as [| y l2].
    + specialize (Hf (key x)). cbn [filter] in Hf.
      rewrite Z.eqb_refl in Hf. discriminate.
    + inversion Hs1 as [| ? ? Hs1' Hx]; subst.
      inversion Hs2 as [| ? ? Hs2' Hy]; subst.
      rewrite Forall_forall in Hx, Hy.
      assert (Hxy : key x = key y).
      { assert (Hle1 : key x <= key y).
        { assert (Hin : In y (filter (keyed (key y)) (x :: l1))).
          { rewrite Hf. cbn [filter]. rewrite Z.eqb_refl. now left. }
          apply filter_In in Hin. destruct Hin as [[<- | Hin] _];
            [lia | now apply Hx]. }
        assert (Hle2 : key y <= key x).
        { assert (Hin : In x (filter (keyed (key x)) (y :: l2))).
          { rewrite <- Hf. cbn [filter]. rewrite Z.eqb_refl. now left. }
          apply filter_In in Hin. destruct Hin as [[<- | Hin] _];
            [lia | now apply Hy]. }
        lia. }
      pose proof (Hf (key x)) as Hfx. cbn [filter] in Hfx.
      rewrite <- Hxy, Z.eqb_refl in Hfx.
      injection Hfx as Heq Htl. subst y.
      f_equal. apply IH; try assumption.
      intros t. specialize (Hf t). cbn [filter] in Hf.
      destruct (key x =? t); [now injection Hf | assumption].
Qed.

(** Sorting a list whose front part is already sorted gives the same result
    as sorting it as it came. *)
Lemma sort_presorted_prefix (l1 l2 : list A) :
  JS.sort byKey (JS.sort byKey l1 ++ l2) = JS.sort byKey (l1 ++ l2).
Proof.
  apply stable_sorted_unique; try apply (sort_sorted key).
  intros t. rewrite !(sort_stable key), !filter_app, (sort_stable key).
  reflexivity.
Qed.

(** Where [insert] puts a new element in a sorted list. *)
Lemma insert_splits (x : A) (l : list A) :
  exists front back,
    l = front ++ back
    /\ JS.insert byKey x l = front ++ x :: back
    /\ forall y, In y front -> key y < key x.
Proof.
  induction l as [| y l IH].
  - exists [], []. repeat split. intros y [].
  - cbn [JS.insert]. destruct (key x - key y <=? 0) eqn:Hc.
    + exists [], (y :: l). repeat split. intros z [].
    + apply Z.leb_gt in Hc. destruct IH as (front & back & Hl & Hi & Hf).
      exists (y :: front), back. rewrite Hl at 1. rewrite Hi.
      repeat split. intros z [<- | Hz]; [lia | now apply Hf].
Qed.

Lemma filter_length_perm (f : A -> bool) (l l' : list A) :
  Permutation l l' -> length (filter f l) = length (filter f l').
Proof.
  induction 1 as [| x l l' _ IH | x y l | l l' l'' _ IH1 _ IH2].
  - reflexivity.
  - cbn [filter]. destruct (f x); cbn [length]; now rewrite IH.
  - cbn [filter]. destruct (f x), (f y); reflexivity.
  - now rewrite IH1.
Qed.

Lemma slice_last_app (n : nat) (front back : list A) :
  (0 < n <= length back)%nat ->
  JS.slice_last n (front ++ back) = JS.slice_last n back.
Proof.
  intros [Hn Hb]. unfold JS.slice_last. destruct n as [| n]; [lia |].
  rewrite length_app, skipn_app.
  replace (length front + length back - S n - length front)%nat
    with (length back - S n)%nat by lia.
  rewrite skipn_all2 by lia. reflexivity.
Qed.

(** Inserting an element that at least [n] elements of the sorted list are
    not before does not change the last [n] elements. *)
Lemma insert_keeps_slice_last (n : nat) (x : A) (l : list A) :
  (0 < n)%nat ->
  (n <= length (filter (fun y => Z.leb (key x) (key y)) l))%nat ->
  JS.slice_last n (JS.insert byKey x l) = JS.slice_last n l.
Proof.
  intros Hn Hcount.
  destruct (insert_splits x l) as (front & back & Hl & Hi & Hf).
  assert (Hback : (n <= length back)%nat).
  { rewrite Hl, filter_app, length_app in Hcount.
    assert (Hnone : filter (fun y => Z.leb (key x) (key y)) front = []).
    { clear - Hf. induction front as [| y front IH]; [reflexivity |].
      cbn [filter].
      assert (Hy : (key x <=? key y) = false).
      { apply Z.leb_gt. apply Hf. now left. }
      rewrite Hy. apply IH. intros z Hz. apply Hf. now right. }
    rewrite Hnone in Hcount. cbn [length] in Hcount.
    pose proof (filter_length_le (fun y => Z.leb (key x) (key y)) back). lia. }
  rewrite Hi, Hl.
  change (front ++ x :: back) with (front ++ [x] ++ back).
  rewrite app_assoc, !slice_last_app by lia. reflexivity.
Qed.

(** Old elements that the kept ones are not before never come back: sorting
    them together with the kept ones and a new batch ends in the same last
    [n] elements as sorting without them. *)
Lemma evicted_stay_out (n : nat) (evicted kept batch : list A) :
  (0 < n)%nat ->
  (evicted <> [] -> (n <= length kept)%nat) ->
  (forall e k, In e evicted -> In k kept -> key e <= key k) ->
  JS.slice_last n (JS.sort byKey (evicted ++ kept ++ batch))
  = JS.slice_last n (JS.sort byKey (kept ++ batch)).
Proof.
  intros Hn Hfull Hle.
  induction evicted as [| e evicted IH]; [reflexivity |].
  assert (Hlen : (n <= length kept)%nat) by (apply Hfull; discriminate).
  cbn [app JS.sort].
  rewrite insert_keeps_slice_last; [| assumption |].
  - apply IH.
    + intros _. exact Hlen.
    + intros e' k He' Hk. apply Hle; [now right | assumption].
  - rewrite (filter_length_perm _ _ _
               (sort_perm key (evicted ++ kept ++ batch))).
    rewrite !filter_app, !length_app.
    assert (Hall : filter (fun y => Z.leb (key e) (key y)) kept = kept).
    { apply filter_all. intros k Hk.
      apply Z.leb_le, Hle; [now left | exact Hk]. }
    rewrite Hall. lia.
Qed.

End StableSortFacts.

Section Batching.

Import Types DataProvider.

Lemma sorted_tail_batches (n : nat)
    (prev batch1 batch2 : list DataPoint) :
  (0 < n)%nat ->
  JS.slice_last n
    (JS.sort byTimestamp
       (JS.slice_last n (JS.sort byTimestamp (prev ++ batch1)) ++ batch2))
  = JS.slice_last n (JS.sort byTimestamp (prev ++ batch1 ++ batch2)).
Proof.
  intros Hc.
  destruct (sorted_split n prev batch1) as [evicted He].
  pose proof (sorted_tail_length n prev batch1 Hc) as Hlen.
  set (kept := JS.slice_last n (JS.sort byTimestamp (prev ++ batch1))) in *.
  pose proof (combined_sorted (prev ++ batch1)) as Hs.
  rewrite He in Hs. apply sortedBy_app_inv in Hs as [_ Hle].
  assert (Htotal : length (JS.sort byTimestamp (prev ++ batch1))
                   = (length prev + length batch1)%nat).
  { unfold byTimestamp.
    now rewrite (Permutation_length (sort_perm timestamp _)), length_app. }
  rewrite He, length_app in Htotal.
  unfold byTimestamp.
  rewrite app_assoc, <- (sort_presorted_prefix timestamp (prev ++ batch1)).
  change (fun a b : DataPoint => timestamp a - timestamp b)
    with byTimestamp in He |- *.
  rewrite He, <- app_assoc. unfold byTimestamp.
  symmetry. apply (evicted_stay_out timestamp); [assumption | | assumption].
  intros Hne. destruct evicted as [| e evicted]; [contradiction |].
  cbn [length] in Htotal. lia.
Qed.

(** X8.  Appending a batch and then another gives the same buffer as
    appending the two batches as one; hence the buffer after any sequence
    of appends is the one a single append of all the points, in order of
    arrival, gives. *)
Theorem addData_batches_compose :
  (forall prev batch1 batch2 : list DataPoint,
      addData (addData prev batch1) batch2
      = addData prev (batch1 ++ batch2))
  /\ (forall batches : list (list DataPoint),
         addAll [] batches = addData [] (concat batches)).
Proof.
  assert (Hpair : forall prev batch1 batch2 : list DataPoint,
             addData (addData prev batch1) batch2
             = addData prev (batch1 ++ batch2)).
  { intros prev batch1 batch2. unfold addData. cbv zeta.
    apply sorted_tail_batches, window_positive. }
  split; [exact Hpair |].
  intros batches. unfold addAll.
  induction batches as [| batch batches IH] using rev_ind.
  - reflexivity.
  - rewrite fold_left_app, concat_app. cbn [fold_left concat].
    rewrite IH, app_nil_r. apply Hpair.
Qed.

End Batching.

(* ================================================================== *)
(** * Chart configurations *)
(* ================================================================== *)

Section ChartConfigFacts.

Import ChartConfigs.

Lemma assign_length {T : Type} (arr : list T) :
  forall (i : nat) (v : T),
    (i < length arr)%nat -> length (assign arr i v) = length arr.
Proof.
  induction arr as [| a arr IH]; intros [| i] v Hi; cbn [length] in *;
    try lia; [reflexivity |].
  change (assign (a :: arr) (S i) v) with (a :: assign arr i v).
  cbn [length]. rewrite IH; [reflexivity | lia].
Qed.

Lemma assign_same {T : Type} (arr : list T) :
  forall (i : nat) (v : T),
    (i < length arr)%nat -> nth_error (assign arr i v) i = Some v.
Proof.
  induction arr as [| a arr IH]; intros [| i] v Hi; cbn [length] in *;
    try lia; [reflexivity |].
  change (assign (a :: arr) (S i) v) with (a :: assign arr i v).
  cbn [nth_error]. apply IH. lia.
Qed.

Lemma assign_other {T : Type} (arr : list T) :
  forall (i j : nat) (v : T),
    (i < length arr)%nat -> j <> i ->
    nth_error (assign arr i v) j = nth_error arr j.
Proof.
  induction arr as [| a arr IH]; intros [| i] [| j] v Hi Hj;
    cbn [length] in *; try lia; try reflexivity.
  change (assign (a :: arr) (S i) v) with (a :: assign arr i v).
  cbn [nth_error]. apply IH; lia.
Qed.

Lemma assign_back {T : Type} (arr : list T) :
  forall (i : nat) (v w : T),
    nth_error arr i = Some w -> assign (assign arr i v) i w = arr.
Proof.
  induction arr as [| a arr IH]; intros [| i] v w Hw;
    cbn [nth_error] in Hw; try discriminate.
  - injection Hw as ->. reflexivity.
  - change (assign (a :: arr) (S i) v) with (a :: assign arr i v).
    change (assign (a :: assign arr i v) (S i) w)
      with (a :: assign (assign arr i v) i w).
    f_equal. now apply IH.
Qed.

Lemma at_index_Some {T : Type} (arr : list T) (index : Z) :
  0 <= index < Z.of_nat (length arr) ->
  exists v, at_index arr index = Some v
            /\ nth_error arr (Z.to_nat index) = Some v.
Proof.
  intros Hi. unfold at_index.
  assert (Hneg : (index <? 0) = false) by (apply Z.ltb_ge; lia).
  rewrite Hneg.
  destruct (nth_error arr (Z.to_nat index)) as [v |] eqn:Hv.
  - now exists v.
  - apply nth_error_None in Hv. lia.
Qed.

Lemma at_index_None {T : Type} (arr : list T) (index : Z) :
  ~ 0 <= index < Z.of_nat (length arr) -> at_index arr index = None.
Proof.
  intros Hi. unfold at_index.
  destruct (index <? 0) eqn:Hneg; [reflexivity |].
  apply Z.ltb_ge in Hneg. apply nth_error_None. lia.
Qed.

(** X9.  For an index inside the array, [toggleChartVisibility] returns the
    configurations with the visibility of that one chart negated and
    everything else as it was, and toggling the same chart again gives back
    the original configurations.  For any other index the updater throws
    and returns nothing. *)
Theorem toggleChartVisibility_flips_one :
  forall (index : Z) (prev : list ChartConfig),
    (0 <= index < Z.of_nat (length prev) ->
     exists current once,
       nth_error prev (Z.to_nat index) = Some current
       /\ toggleChartVisibility index prev = JS.Normal once
       /\ length once = length prev
       /\ nth_error once (Z.to_nat index)
          = Some {| type := type current; dataKey := dataKey current;
                    color := color current;
                    visible := negb (visible current) |}
       /\ (forall j, j <> Z.to_nat index ->
                     nth_error once j = nth_error prev j)
       /\ toggleChartVisibility index once = JS.Normal prev)
    /\ (~ 0 <= index < Z.of_nat (length prev) ->
        exists e, toggleChartVisibility index prev = JS.Throw e).
Proof.
  intros index prev. split.
  - intros Hi.
    destruct (at_index_Some prev index Hi) as (current & Hat & Hnth).
    assert (Hlt : (Z.to_nat index < length prev)%nat) by lia.
    set (flipped := {| type := type current; dataKey := dataKey current;
                       color := color current;
                       visible := negb (visible current) |}).
    exists current, (assign prev (Z.to_nat index) flipped).
    split; [assumption |].
    split; [unfold toggleChartVisibility; cbv zeta; now rewrite Hat |].
    split; [now apply assign_length |].
    split; [now apply assign_same |].
    split; [intros j Hj; now apply assign_other |].
    unfold toggleChartVisibility. cbv zeta.
    assert (Hat' : at_index (assign prev (Z.to_nat index) flipped) index
                   = Some flipped).
    { unfold at_index.
      assert (Hneg : (index <? 0) = false) by (apply Z.ltb_ge; lia).
      rewrite Hneg. now apply assign_same. }
    rewrite Hat'. f_equal.
    replace {| type := type flipped; dataKey := dataKey flipped;
               color := color flipped; visible := negb (visible flipped) |}
      with current.
    + now apply assign_back.
    + destruct current as [t d c v]. unfold flipped. cbn.
      now rewrite negb_involutive.
  - intros Hi. unfold toggleChartVisibility. cbv zeta.
    rewrite (at_index_None prev index Hi). eexists. reflexivity.
Qed.

Lemma toggleChartVisibility_witness :
  0 <= 2 < Z.of_nat (length initialChartConfigs)
  /\ exists current once,
       nth_error initialChartConfigs (Z.to_nat 2) = Some current
       /\ toggleChartVisibility 2 initialChartConfigs = JS.Normal once
       /\ length once = length initialChartConfigs
       /\ nth_error once (Z.to_nat 2)
          = Some {| type := type current; dataKey := dataKey current;
                    color := color current;
                    visible := negb (visible current) |}
       /\ (forall j, j <> Z.to_nat 2 ->
                     nth_error once j = nth_error initialChartConfigs j)
       /\ toggleChartVisibility 2 once = JS.Normal initialChartConfigs.
Proof.
  split; [cbn; lia |].
  apply (proj1 (toggleChartVisibility_flips_one 2 initialChartConfigs)).
  cbn. lia.
Defined.

End ChartConfigFacts.

(* ================================================================== *)
(** * The render loop under any use of the hook *)
(* ================================================================== *)

Section HookTraceFacts.

Import ChartRenderer HookTrace.

Context {CanvasContext World : Type}.

Lemma scheduled_once_mounted (ctx : CanvasContext) (w : World) :
  scheduled_once ctx (mounted ctx w).
Proof. split; [reflexivity |]. split; [reflexivity |]. now left. Qed.

Lemma truthyHandle_positive (id : Z) :
  0 < id -> truthyHandle (Some id) = Some id.
Proof.
  intros H. unfold truthyHandle.
  destruct (id =? 0) eqn:E; [apply Z.eqb_eq in E; lia | reflexivity].
Qed.

Lemma truthyHandle_cancels_nothing_waiting
    (st : State CanvasContext World) (id : Z) :
  pendingFrames st = [] ->
  pendingFrames (cancelAnimationFrame _ _ id st) = [].
Proof. intros H. unfold cancelAnimationFrame. cbn. now rewrite H. Qed.

(** Whatever handle [animationFrameRef] holds, cancelling it leaves nothing
    waiting. *)
Lemma cancel_current_handle (ctx : CanvasContext)
    (st : State CanvasContext World) :
  scheduled_once ctx st ->
  pendingFrames
    (match truthyHandle (animationFrameRef st) with
     | Some id => cancelAnimationFrame _ _ id st
     | None => st
     end) = [].
Proof.
  intros (_ & _ & [Hp | (id & Hp & Href & Hid & _)]).
  - destruct (truthyHandle (animationFrameRef st)); [| exact Hp].
    now apply truthyHandle_cancels_nothing_waiting.
  - rewrite Href, (truthyHandle_positive id Hid).
    unfold cancelAnimationFrame. cbn. rewrite Hp. cbn.
    now rewrite Z.eqb_refl.
Qed.

Lemma cancelled_draws (st : State CanvasContext World) :
  draws
    (match truthyHandle (animationFrameRef st) with
     | Some id => cancelAnimationFrame _ _ id st
     | None => st
     end) = draws st.
Proof.
  destruct (truthyHandle (animationFrameRef st)); [| reflexivity].
  unfold draws, cancelAnimationFrame. cbn.
  rewrite filter_app. cbn. now rewrite app_nil_r.
Qed.

Lemma startRenderLoop_fields (fn : RenderFn CanvasContext World)
    (st : State CanvasContext World) :
  let st0 := match truthyHandle (animationFrameRef st) with
             | Some id => cancelAnimationFrame _ _ id st
             | None => st
             end in
  let st' := startRenderLoop fn st in
  canvasContextRef st' = canvasContextRef st
  /\ renderFnRef st' = Some fn
  /\ animationFrameRef st' = Some (nextFrameId st)
  /\ nextFrameId st' = nextFrameId st + 1
  /\ pendingFrames st' = pendingFrames st0 ++ [nextFrameId st]
  /\ draws st' = draws st0.
Proof.
  cbv zeta. unfold startRenderLoop.
  destruct (truthyHandle (animationFrameRef st)); cbn;
    (split; [reflexivity |]); (split; [reflexivity |]);
    (split; [reflexivity |]); (split; [reflexivity |]);
    (split; [reflexivity |]);
    unfold draws; cbn; rewrite !filter_app; cbn; now rewrite !app_nil_r.
Qed.

Lemma stopRenderLoop_fields (st : State CanvasContext World) :
  let st0 := match truthyHandle (animationFrameRef st) with
             | Some id => cancelAnimationFrame _ _ id st
             | None => st
             end in
  let st' := stopRenderLoop st in
  canvasContextRef st' = canvasContextRef st
  /\ renderFnRef st' = None
  /\ nextFrameId st' = nextFrameId st
  /\ pendingFrames st' = pendingFrames st0
  /\ draws st' = draws st0.
Proof.
  cbv zeta. unfold stopRenderLoop.
  destruct (truthyHandle (animationFrameRef st)); cbn;
    (split; [reflexivity |]); (split; [reflexivity |]);
    (split; [reflexivity |]); (split; reflexivity).
Qed.

Lemma startRenderLoop_from_scheduled_once (ctx : CanvasContext)
    (fn : RenderFn CanvasContext World) (st : State CanvasContext World) :
  scheduled_once ctx st ->
  scheduled_once ctx (startRenderLoop fn st)
  /\ running ctx fn (startRenderLoop fn st)
  /\ draws (startRenderLoop fn st) = draws st.
Proof.
  intros Hst. pose proof (cancel_current_handle ctx st Hst) as Hcancel.
  destruct Hst as (Hctx & Hnext & _).
  destruct (startRenderLoop_fields fn st)
    as (Hc & Hf & Ha & Hn & Hp & Hd).
  rewrite Hcancel in Hp. cbn in Hp. rewrite cancelled_draws in Hd.
  split; [| split].
  - split; [now rewrite Hc |]. split; [lia |].
    right. exists (nextFrameId st).
    split; [exact Hp |]. split; [exact Ha |]. split; [exact Hnext |].
    rewrite Hf. discriminate.
  - split; [now rewrite Hc |]. split; [exact Hf |].
    now exists (nextFrameId st).
  - exact Hd.
Qed.

Lemma stopRenderLoop_from_scheduled_once (ctx : CanvasContext)
    (st : State CanvasContext World) :
  scheduled_once ctx st ->
  scheduled_once ctx (stopRenderLoop st)
  /\ pendingFrames (stopRenderLoop st) = []
  /\ renderFnRef (stopRenderLoop st) = None
  /\ draws (stopRenderLoop st) = draws st.
Proof.
  intros Hst. pose proof (cancel_current_handle ctx st Hst) as Hcancel.
  destruct Hst as (Hctx & Hnext & _).
  destruct (stopRenderLoop_fields st) as (Hc & Hf & Hn & Hp & Hd).
  rewrite Hcancel in Hp. rewrite cancelled_draws in Hd.
  split; [| split; [| split]]; try assumption.
  split; [now rewrite Hc |]. split; [lia |]. now left.
Qed.

Lemma refresh_from_scheduled_once (ctx : CanvasContext)
    (st : State CanvasContext World) :
  scheduled_once ctx st ->
  scheduled_once ctx (step st Refresh).
Proof.
  intros (Hctx & Hnext & Hp). unfold step, frame.
  destruct Hp as [Hp | (id & Hp & Href & Hid & Hfn)]; rewrite Hp.
  - split; [assumption |]. split; [assumption |]. now left.
  - unfold renderLoop, callRenderFn. cbn. rewrite Hctx.
    destruct (renderFnRef st) as [fn |] eqn:Ef; [| now elim Hfn].
    destruct (fn ctx (world st)) as [w [[] | e]]; unfold scheduled_once; cbn.
    + split; [reflexivity |]. split; [lia |]. right.
      exists (nextFrameId st).
      split; [reflexivity |]. split; [reflexivity |].
      split; [exact Hnext | discriminate].
    + split; [reflexivity |]. split; [assumption |]. now left.
Qed.

Lemma run_scheduled_once (ctx : CanvasContext) (ops : list HookOp)
    (st : State CanvasContext World) :
  scheduled_once ctx st -> scheduled_once ctx (run ops st).
Proof.
  unfold run. revert st.
  induction ops as [| op ops IH]; intros st Hst; [exact Hst |].
  cbn [fold_left]. apply IH.
  destruct op as [fn | |].
  - now apply startRenderLoop_from_scheduled_once.
  - now apply stopRenderLoop_from_scheduled_once.
  - now apply refresh_from_scheduled_once.
Qed.

Lemma frames_nothing_waiting (st : State CanvasContext World) (n : nat) :
  pendingFrames st = [] -> frames n st = st.
Proof.
  intros Hp. destruct n as [| n]; [reflexivity |].
  cbn [frames]. unfold frame. now rewrite Hp.
Qed.

(** X12.  For draw callbacks that only draw (they change the world and
    return or throw, and do not call [startRenderLoop] or [stopRenderLoop]
    themselves): whatever the component and the host have done to a mounted
    hook between two callbacks (any sequence of [startRenderLoop] with such
    callbacks, of [stopRenderLoop] and of display refreshes), at most one
    callback waits for the next refresh, and when one waits it is the one
    whose handle [animationFrameRef] holds.  [stopRenderLoop] then leaves
    nothing waiting and no callback stored, so no later refresh draws. *)
Theorem hook_schedules_at_most_one_callback :
  forall (ctx : CanvasContext) (w : World) (ops : list HookOp),
    let st := run ops (mounted ctx w) in
    (length (pendingFrames st) <= 1)%nat
    /\ (forall id, In id (pendingFrames st) ->
          animationFrameRef st = Some id /\ renderFnRef st <> None)
    /\ pendingFrames (stopRenderLoop st) = []
    /\ renderFnRef (stopRenderLoop st) = None
    /\ forall n,
         frames n (stopRenderLoop st) = stopRenderLoop st
         /\ draws (frames n (stopRenderLoop st)) = draws st.
Proof.
  intros ctx w ops. cbv zeta.
  pose proof (run_scheduled_once ctx ops _ (scheduled_once_mounted ctx w))
    as Hst.
  destruct (stopRenderLoop_from_scheduled_once ctx _ Hst)
    as (_ & Hnone & Hfn & Hdraws).
  destruct Hst as (_ & _ & Hp).
  split; [| split; [| split; [| split]]].
  - destruct Hp as [Hp | (id & Hp & _)]; rewrite Hp; cbn; lia.
  - intros id Hin. destruct Hp as [Hp | (id' & Hp & Href & _ & Hf)];
      rewrite Hp in Hin; [contradiction |].
    destruct Hin as [<- | []]. now split.
  - exact Hnone.
  - exact Hfn.
  - intros n. rewrite (frames_nothing_waiting _ n Hnone). now split.
Qed.

(** X13.  For draw callbacks that only draw (they do not call
    [startRenderLoop] or [stopRenderLoop] themselves): starting the loop
    again from the component, after any such use of the hook, replaces the
    loop instead of adding a second one: with a callback that never throws,
    [n] refreshes after the restart draw exactly [n] times more, and the
    loop is still scheduled once. *)
Theorem restart_replaces_the_loop :
  forall (ctx : CanvasContext) (w : World) (ops : list HookOp)
         (fn : RenderFn CanvasContext World) (n : nat),
    (forall c w', snd (fn c w') = JS.Normal tt) ->
    let st := run ops (mounted ctx w) in
    let st' := frames n (startRenderLoop fn st) in
    draws st' = (draws st + n)%nat
    /\ running ctx fn st'.
Proof.
  intros ctx w ops fn n Hfn. cbv zeta.
  pose proof (run_scheduled_once ctx ops _ (scheduled_once_mounted ctx w))
    as Hst.
  destruct (startRenderLoop_from_scheduled_once ctx fn _ Hst)
    as (_ & Hrun & Hdraws).
  destruct (frames_running ctx fn n Hfn _ Hrun) as [Hr Hd].
  split; [| exact Hr]. rewrite Hd, Hdraws. reflexivity.
Qed.

End HookTraceFacts.

Lemma restart_replaces_witness :
  let st := HookTrace.run
              [HookTrace.Start failingDraw; HookTrace.Refresh;
               HookTrace.Start countingDraw; HookTrace.Refresh]
              (ChartRenderer.mounted tt 0%nat) in
  let st' := ChartRenderer.frames 3
               (ChartRenderer.startRenderLoop countingDraw st) in
  ChartRenderer.draws st' = (ChartRenderer.draws st + 3)%nat
  /\ running tt countingDraw st'.
Proof.
  apply (restart_replaces_the_loop tt 0%nat
           [HookTrace.Start failingDraw; HookTrace.Refresh;
            HookTrace.Start countingDraw; HookTrace.Refresh]
           countingDraw 3).
  intros c w'. reflexivity.
Defined.

(* ================================================================== *)
(** * Memory readings and render-time measures *)
(* ================================================================== *)

Section MonitorFacts.

Import PerformanceUtils Monitors.

Lemma fold_add_shift (l : list Z) (a : Z) :
  fold_left Z.add l a = a + fold_left Z.add l 0.
Proof.
  revert a. induction l as [| x l IH]; intros a; cbn [fold_left]; [lia |].
  rewrite (IH (a + x)), (IH (0 + x)). lia.
Qed.

Lemma fold_add_bounds (l : list Z) (lo hi : Z) :
  (forall s, In s l -> lo <= s <= hi) ->
  lo * Z.of_nat (length l) <= fold_left Z.add l 0
  <= hi * Z.of_nat (length l).
Proof.
  induction l as [| x l IH]; intros Hb; [cbn; lia |].
  cbn [fold_left length]. rewrite fold_add_shift.
  pose proof (Hb x (or_introl eq_refl)) as Hx.
  assert (Hl : forall s, In s l -> lo <= s <= hi)
    by (intros s Hs; apply Hb; now right).
  specialize (IH Hl). lia.
Qed.

(** Rounding a quotient that lies between two integers stays between
    them. *)
Lemma Math_round_between (sum n lo hi : Z) :
  0 < n -> lo * n <= sum <= hi * n ->
  lo <= Math_round (inject_Z sum / inject_Z n) <= hi.
Proof.
  intros Hn [Hlo Hhi]. unfold Math_round.
  assert (Hq : (0 < inject_Z n)%Q).
  { change 0%Q with (inject_Z 0). now rewrite <- Zlt_Qlt. }
  assert (Hlow : (inject_Z lo <= inject_Z sum / inject_Z n)%Q).
  { apply Qle_shift_div_l; [exact Hq |].
    rewrite <- inject_Z_mult, <- Zle_Qle. exact Hlo. }
  assert (Hhigh : (inject_Z sum / inject_Z n <= inject_Z hi)%Q).
  { apply Qle_shift_div_r; [exact Hq |].
    rewrite <- inject_Z_mult, <- Zle_Qle. exact Hhi. }
  split.
  - rewrite <- (Qfloor_Z lo). apply Qfloor_resp_le. lra.
  - assert (Hlt : (inject_Z sum / inject_Z n + (1 # 2)
                   < inject_Z (hi + 1))%Q).
    { rewrite inject_Z_plus. change (inject_Z 1) with 1%Q. lra. }
    pose proof (Qfloor_le (inject_Z sum / inject_Z n + (1 # 2))) as Hf.
    assert (Hz : (inject_Z (Qfloor (inject_Z sum / inject_Z n + (1 # 2)))
                  < inject_Z (hi + 1))%Q) by lra.
    rewrite <- Zlt_Qlt in Hz. lia.
Qed.

Lemma last_sample (l : list Z) (u : Z) :
  getCurrent {| samples := l ++ [u]; maxSamples := 60 |} = u.
Proof.
  unfold getCurrent. cbn [samples].
  destruct (l ++ [u]) eqn:E; [now destruct l |]. rewrite <- E.
  rewrite length_app. cbn [length].
  rewrite nth_error_app2 by lia.
  replace (length l + 1 - 1 - length l)%nat with 0%nat by lia.
  cbn. destruct (u =? 0) eqn:Eu; [apply Z.eqb_eq in Eu; lia | reflexivity].
Qed.

(** X14.  The average the memory monitor reports lies between the smallest
    and the largest retained sample (so it is the common value when they
    are all equal), and the current value is the reading sampled last; a
    monitor without samples, fresh or reset, reports 0 for both and is not
    growing. *)
Theorem getAverage_between_extremes :
  (forall (m : MemoryMonitor) (lo hi : Z),
      samples m <> [] ->
      (forall s, In s (samples m) -> lo <= s <= hi) ->
      lo <= getAverage m <= hi)
  /\ (forall (usages : list Z) (u : Z),
        getCurrent (sampled (usages ++ [u])) = u)
  /\ (forall (m : MemoryMonitor) (threshold : Z),
        getAverage (reset m) = 0
        /\ getCurrent (reset m) = 0
        /\ isGrowing threshold (reset m) = false)
  /\ getAverage newMemoryMonitor = 0
  /\ getCurrent newMemoryMonitor = 0.
Proof.
  split; [| split; [| split; [| split]]]; try reflexivity.
  - intros m lo hi Hne Hb. unfold getAverage.
    destruct (samples m) as [| s l] eqn:E; [now elim Hne |].
    rewrite <- E in *. cbv zeta.
    apply Math_round_between.
    + rewrite E. cbn [length]. lia.
    + now apply fold_add_bounds.
  - intros usages u.
    assert (Hs : exists l, samples (sampled (usages ++ [u])) = l ++ [u]).
    { rewrite sampled_retains_recent. unfold JS.slice_last.
      rewrite length_app. cbn [length].
      rewrite skipn_app.
      replace (length usages + 1 - 60 - length usages)%nat with 0%nat by lia.
      cbn [skipn]. now eexists. }
    destruct Hs as [l Hl].
    pose proof (sampled_maxSamples (usages ++ [u])) as Hmax.
    destruct (sampled (usages ++ [u])) as [ss mx].
    cbn [samples maxSamples] in *. subst. apply last_sample.
  - intros m threshold. repeat split.
Qed.

Lemma getAverage_between_witness :
  samples (sampled [120; 121; 125]) <> []
  /\ 120 <= getAverage (sampled [120; 121; 125]) <= 125.
Proof.
  assert (Hne : samples (sampled [120; 121; 125]) <> [])
    by (cbn; discriminate).
  split; [exact Hne |].
  apply (proj1 getAverage_between_extremes (sampled [120; 121; 125])
               120 125 Hne).
  cbn. intros s [<- | [<- | [<- | []]]]; lia.
Defined.

Lemma get_set_same (name : string) (v : float) (m : Measures) :
  get name (JS.set String.eqb name v m) = Some v.
Proof.
  unfold get. induction m as [| [k v'] m IH]; cbn.
  - now rewrite String.eqb_refl.
  - destruct (String.eqb k name) eqn:E; cbn; rewrite E; [reflexivity |].
    exact IH.
Qed.

Lemma get_set_other (name other : string) (v : float) (m : Measures) :
  other <> name ->
  get other (JS.set String.eqb name v m) = get other m.
Proof.
  intros Hne. unfold get. induction m as [| [k v'] m IH]; cbn.
  - destruct (String.eqb name other) eqn:E; [| reflexivity].
    apply String.eqb_eq in E. now elim Hne.
  - destruct (String.eqb k name) eqn:E; cbn.
    + apply String.eqb_eq in E. subst k.
      destruct (String.eqb name other) eqn:E'; [| reflexivity].
      apply String.eqb_eq in E'. now elim Hne.
    + destruct (String.eqb k other); [reflexivity | exact IH].
Qed.

Lemma get_delete_same (name : string) (m : Measures) :
  get name (delete name m) = None.
Proof.
  unfold get, delete. induction m as [| [k v] m IH]; [reflexivity |].
  cbn. destruct (String.eqb k name) eqn:E; cbn; [exact IH |].
  rewrite E. exact IH.
Qed.

Lemma get_delete_other (name other : string) (m : Measures) :
  other <> name -> get other (delete name m) = get other m.
Proof.
  intros Hne. unfold get, delete.
  induction m as [| [k v] m IH]; [reflexivity |].
  cbn. destruct (String.eqb k name) eqn:E; cbn.
  - apply String.eqb_eq in E. subst k.
    destruct (String.eqb name other) eqn:E'; [| exact IH].
    apply String.eqb_eq in E'. now elim Hne.
  - destruct (String.eqb k other); [reflexivity | exact IH].
Qed.

(** X15.  A measure started at a reading [t] other than zero and NaN ends
    with the duration [now - t] and is forgotten: ending it again returns 0
    and changes nothing, and measures of other names are untouched
    throughout.  A measure started at the reading 0 is taken for a missing
    one: ending it returns 0 and the entry stays in the map. *)
Theorem endMeasure_after_startMeasure :
  forall (name : string) (t now later : float) (m : Measures),
    (falsy t = false ->
       let m1 := startMeasure name t m in
       let (duration, m2) := endMeasure name now m1 in
       duration = PrimFloat.sub now t
       /\ get name m2 = None
       /\ endMeasure name later m2 = (0%float, m2)
       /\ forall other, other <> name ->
            get other m1 = get other m /\ get other m2 = get other m)
    /\ (falsy t = true ->
          endMeasure name now (startMeasure name t m)
          = (0%float, startMeasure name t m)).
Proof.
  intros name t now later m. split; intros Ht.
  - cbv zeta. unfold endMeasure at 1, startMeasure.
    rewrite get_set_same, Ht.
    split; [reflexivity |]. split; [apply get_delete_same |].
    split.
    + unfold endMeasure. now rewrite get_delete_same.
    + intros other Hne. split.
      * now apply get_set_other.
      * rewrite get_delete_other by assumption. now apply get_set_other.
  - unfold endMeasure, startMeasure. now rewrite get_set_same, Ht.
Qed.

Lemma endMeasure_witness :
  falsy 1000%float = false
  /\ fst (endMeasure "chart-render" 1016.5%float
            (startMeasure "chart-render" 1000%float [])) = 16.5%float.
Proof.
  split; [reflexivity |].
  pose proof (proj1 (endMeasure_after_startMeasure
                       "chart-render" 1000%float 1016.5%float 0%float [])
                    eq_refl) as H.
  cbv zeta in H.
  destruct (endMeasure "chart-render" 1016.5%float
              (startMeasure "chart-render" 1000%float [])) as [d m2].
  destruct H as [-> _]. reflexivity.
Defined.

End MonitorFacts.

(* ================================================================== *)
(** * Throttle and debounce *)
(* ================================================================== *)

Section OrderedPairs.

Context {A : Type}.
Variable R : A -> A -> Prop.

Lemma ForallOrdPairs_snoc (l : list A) (x : A) :
  ForallOrdPairs R l -> Forall (fun e => R e x) l ->
  ForallOrdPairs R (l ++ [x]).
Proof.
  induction 1 as [| a l Ha Hl IH]; intros Hx; cbn.
  - constructor; constructor.
  - inversion Hx as [| ? ? Hax Hlx]; subst.
    constructor; [| now apply IH].
    apply Forall_app. split; [exact Ha | now constructor].
Qed.

Lemma ForallOrdPairs_nth (l : list A) :
  ForallOrdPairs R l ->
  forall i j a b,
    (i < j)%nat -> nth_error l i = Some a -> nth_error l j = Some b ->
    R a b.
Proof.
  induction 1 as [| x l Hx Hl IH]; intros i j a b Hij Hi Hj.
  - now destruct i.
  - destruct j as [| j]; [lia |]. cbn in Hj.
    destruct i as [| i].
    + cbn in Hi. injection Hi as ->.
      rewrite Forall_forall in Hx. apply Hx.
      now apply nth_error_In with j.
    + cbn in Hi. apply (IH i j); [lia | assumption | assumption].
Qed.

End OrderedPairs.

Section ThrottleFacts.

Import Timing.

Context {Args : Type}.
Variable func : Args -> JS.completion unit.
Variable limit : Z.

Lemma throttling_initially : throttling limit (@throttle Args).
Proof.
  split; [constructor |]. exists 0. split; [constructor |].
  cbn. split; [reflexivity | lia].
Qed.

Lemma throttleStep_throttling (st st' : Throttled Args)
    (ev : HostEvent Args) :
  throttling limit st ->
  ForallOrdPairs
    (fun e1 e2 => snd e1 = true -> fst (fst e1) + limit <= fst (fst e2))
    (applications st) ->
  throttleStep func limit st ev = Some st' ->
  throttling limit st'
  /\ ForallOrdPairs
       (fun e1 e2 => snd e1 = true -> fst (fst e1) + limit <= fst (fst e2))
       (applications st').
Proof.
  intros (Hpast & bound & Hbound & Htimers) Hsep Hstep.
  destruct ev as [t args | t id]; cbn [throttleStep] in Hstep.
  - destruct (Z.ltb_spec t (throttleClock st)) as [| Hclock];
      [discriminate |].
    destruct (inThrottle st) eqn:Hin.
    + injection Hstep as <-. split; [| exact Hsep].
      split; cbn.
      * revert Hpast. apply Forall_impl. intros e He. lia.
      * exists bound. split; [exact Hbound |]. exact Htimers.
    + destruct Htimers as [Hnone Hle].
      assert (Hnew : Forall
                       (fun e => snd e = true ->
                                 fst (fst e) + limit <= t)
                       (applications st)).
      { revert Hbound. apply Forall_impl. intros e He Hr.
        specialize (He Hr). lia. }
      assert (Hpast' : Forall (fun e => fst (fst e) <= t) (applications st)).
      { revert Hpast. apply Forall_impl. intros e He. lia. }
      destruct (func args) as [[] | err]; injection Hstep as <-; cbn.
      * split; [split |]; cbn.
        -- apply Forall_app. split; [exact Hpast' |].
           constructor; [cbn; lia | constructor].
        -- exists (dueTime t limit). split.
           ++ apply Forall_app. split.
              ** revert Hnew. apply Forall_impl. intros e He Hr.
                 specialize (He Hr). unfold dueTime. lia.
              ** constructor; [| constructor]. cbn. intros _.
                 unfold dueTime. lia.
           ++ rewrite Hnone. cbn. now eexists.
        -- apply ForallOrdPairs_snoc; [exact Hsep |].
           revert Hnew. apply Forall_impl. intros e He Hr. cbn. auto.
      * split; [split |]; cbn.
        -- apply Forall_app. split; [exact Hpast' |].
           constructor; [cbn; lia | constructor].
        -- exists t. split.
           ++ apply Forall_app. split; [exact Hnew |].
              constructor; [| constructor]. cbn. discriminate.
           ++ split; [exact Hnone | lia].
        -- apply ForallOrdPairs_snoc; [exact Hsep |].
           revert Hnew. apply Forall_impl. intros e He Hr. cbn. auto.
  - destruct (inThrottle st) eqn:Hin.
    + destruct Htimers as [id0 Hone]. rewrite Hone in Hstep. cbn in Hstep.
      destruct (id0 =? id) eqn:Hid; [| discriminate].
      destruct (Z.ltb_spec t (throttleClock st)) as [| Hclock];
        [discriminate |].
      destruct (Z.ltb_spec t bound) as [| Hdue]; [discriminate |].
      cbn in Hstep. injection Hstep as <-. split; [| exact Hsep].
      split; cbn.
      * revert Hpast. apply Forall_impl. intros e He. lia.
      * exists bound. split; [exact Hbound |].
        cbn. split; [reflexivity | lia].
    + destruct Htimers as [Hnone _]. rewrite Hnone in Hstep. discriminate.
Qed.

Lemma throttleRun_throttling (trace : list (HostEvent Args)) :
  forall st st',
    throttling limit st ->
    ForallOrdPairs
      (fun e1 e2 => snd e1 = true -> fst (fst e1) + limit <= fst (fst e2))
      (applications st) ->
    throttleRun func limit st trace = Some st' ->
    throttling limit st'
    /\ ForallOrdPairs
         (fun e1 e2 => snd e1 = true -> fst (fst e1) + limit <= fst (fst e2))
         (applications st').
Proof.
  induction trace as [| ev trace IH]; intros st st' Hinv Hsep Hrun.
  - injection Hrun as <-. now split.
  - cbn [throttleRun] in Hrun.
    destruct (throttleStep func limit st ev) as [st1 |] eqn:Hstep;
      [| discriminate].
    destruct (throttleStep_throttling st st1 ev Hinv Hsep Hstep)
      as [Hinv1 Hsep1].
    exact (IH st1 st' Hinv1 Hsep1 Hrun).
Qed.

(** X16.  However a throttled function is called and whenever the host
    runs its timers, an application of [func] that returned is followed by
    no other application for [limit] milliseconds (for a [func] that does
    not call the wrapped function itself).  At most one reset timer is ever
    set, one is set whenever the throttle is closed, and the first call is
    always applied.  An application that throws leaves the throttle open
    and sets no timer: the next call, however soon it comes, is applied as
    well. *)
Theorem throttle_spaces_applications :
  forall (trace : list (HostEvent Args)) (st : Throttled Args),
    throttleRun func limit throttle trace = Some st ->
    (forall i j t1 args1 t2 args2 returned,
        (i < j)%nat ->
        nth_error (applications st) i = Some (t1, args1, true) ->
        nth_error (applications st) j = Some (t2, args2, returned) ->
        t1 + limit <= t2)
    /\ (length (resetTimers st) <= 1)%nat
    /\ (inThrottle st = true -> exists id due, resetTimers st = [(id, due)])
    /\ (forall t args trace',
          trace = Invoke t args :: trace' ->
          exists returned rest,
            applications st = (t, args, returned) :: rest)
    /\ (forall t args e t' args',
          inThrottle st = false ->
          throttleClock st <= t <= t' ->
          func args = JS.Throw e ->
          exists st1 st2 returned,
            throttleStep func limit st (Invoke t args) = Some st1
            /\ inThrottle st1 = false
            /\ resetTimers st1 = []
            /\ throttleStep func limit st1 (Invoke t' args') = Some st2
            /\ applications st2
               = applications st
                 ++ [(t, args, false); (t', args', returned)]).
Proof.
  intros trace st Hrun.
  destruct (throttleRun_throttling trace throttle st throttling_initially
              (FOP_nil _) Hrun) as [(Hpast & bound & Hbound & Htimers) Hsep].
  split; [| split; [| split; [| split]]].
  5: {
    intros t args e t' args' Hopen [Hclock Htt] Hthrow.
    rewrite Hopen in Htimers. destruct Htimers as [Hnone _].
    cbn [throttleStep].
    destruct (Z.ltb_spec t (throttleClock st)) as [Hlt |]; [lia |].
    rewrite Hopen, Hthrow.
    destruct (func args') as [[] | e'] eqn:Hnext;
      eexists; eexists; eexists;
      (split; [reflexivity |]);
      cbn [inThrottle resetTimers throttleClock applications];
      (split; [reflexivity |]); (split; [exact Hnone |]);
      cbn [throttleStep inThrottle resetTimers throttleClock applications];
      (destruct (Z.ltb_spec t' t) as [Hlt |]; [lia |]);
      (split; [reflexivity |]); cbn [applications];
      now rewrite <- app_assoc. }
  - intros i j t1 args1 t2 args2 returned Hij Hi Hj.
    exact (ForallOrdPairs_nth _ _ Hsep i j _ _ Hij Hi Hj eq_refl).
  - destruct (inThrottle st).
    + destruct Htimers as [id ->]. cbn. lia.
    + destruct Htimers as [-> _]. cbn. lia.
  - intros Hin. rewrite Hin in Htimers. destruct Htimers as [id Hid].
    now exists id, bound.
  - intros t args trace' ->. cbn [throttleRun throttleStep] in Hrun.
    destruct (Z.ltb_spec t (throttleClock (@throttle Args))) as [| Hclock];
      [discriminate |].
    cbn [inThrottle throttle] in Hrun.
    assert (Hgrow : forall tr s s',
               throttleRun func limit s tr = Some s' ->
               exists more, applications s' = applications s ++ more).
    { induction tr as [| ev tr IH]; intros s s' Hs.
      - injection Hs as <-. exists []. now rewrite app_nil_r.
      - cbn [throttleRun] in Hs.
        destruct (throttleStep func limit s ev) as [s1 |] eqn:Hstep;
          [| discriminate].
        destruct (IH s1 s' Hs) as [more Hmore].
        assert (H1 : exists m1, applications s1 = applications s ++ m1).
        { destruct ev as [t0 a0 | t0 id0]; cbn [throttleStep] in Hstep.
          - destruct (t0 <? throttleClock s); [discriminate |].
            destruct (inThrottle s).
            + injection Hstep as <-. exists []. cbn. now rewrite app_nil_r.
            + destruct (func a0); injection Hstep as <-; cbn;
                now eexists.
          - destruct (find (fun tm => fst tm =? id0) (resetTimers s))
              as [[i d] |]; [| discriminate].
            destruct ((t0 <? throttleClock s) || (t0 <? d));
              [discriminate |].
            injection Hstep as <-. exists []. cbn. now rewrite app_nil_r. }
        destruct H1 as [m1 Hm1]. exists (m1 ++ more).
        rewrite Hmore, Hm1. now rewrite app_assoc. }
    destruct (func args) as [[] | err];
      apply Hgrow in Hrun; destruct Hrun as [more Hmore];
      cbn in Hmore; rewrite Hmore; now eexists; eexists.
Qed.

End ThrottleFacts.

Lemma throttle_spaces_witness :
  exists st,
    Timing.throttleRun (fun _ : nat => JS.Normal tt) 100 Timing.throttle
      [Timing.Invoke 0 1%nat; Timing.Invoke 40 2%nat; Timing.Timeout 103 1;
       Timing.Invoke 110 3%nat] = Some st
    /\ Timing.applications st = [(0, 1%nat, true); (110, 3%nat, true)]
    /\ 0 + 100 <= 110.
Proof.
  eexists. split; [reflexivity |]. split; [reflexivity |].
  refine (proj1 (throttle_spaces_applications
                   (fun _ : nat => JS.Normal tt) 100
                   [Timing.Invoke 0 1%nat; Timing.Invoke 40 2%nat;
                    Timing.Timeout 103 1; Timing.Invoke 110 3%nat]
                   _ eq_refl)
                0%nat 1%nat 0 1%nat 110 3%nat true _ eq_refl eq_refl).
  lia.
Defined.

Section DebounceFacts.

Import Timing.

Context {Args : Type}.
Variable delay : Z.

Lemma debounceRun_snoc (trace : list (HostEvent Args))
    (ev : HostEvent Args) :
  forall st,
    debounceRun delay st (trace ++ [ev])
    = match debounceRun delay st trace with
      | Some st' => debounceStep delay st' ev
      | None => None
      end.
Proof.
  induction trace as [| e trace IH]; intros st; cbn [app debounceRun].
  - now destruct (debounceStep delay st ev).
  - destruct (debounceStep delay st e); [apply IH | reflexivity].
Qed.

Lemma lastInvoke_snoc (trace : list (HostEvent Args))
    (ev : HostEvent Args) :
  lastInvoke (trace ++ [ev])
  = match ev with
    | Invoke t args => Some (t, args)
    | Timeout _ _ => lastInvoke trace
    end.
Proof.
  induction trace as [| e trace IH]; cbn [app lastInvoke].
  - now destruct ev.
  - rewrite IH. destruct ev as [t args | t id]; [reflexivity |].
    reflexivity.
Qed.

Lemma clearTimeout_current (st : Debounced Args)
    (trace : list (HostEvent Args)) :
  debouncing delay trace st ->
  clearTimeout (timeoutId st) (callTimers st) = [].
Proof.
  intros [Hnone | (id & t & args & Hone & Hid & _)].
  - rewrite Hnone. now destruct (timeoutId st).
  - rewrite Hone, Hid. cbn. now rewrite Z.eqb_refl.
Qed.

(** A timer the host can run is the one set by the most recent call. *)
Lemma debounceStep_timeout (st st' : Debounced Args)
    (trace : list (HostEvent Args)) (t id : Z) :
  debouncing delay trace st ->
  debounceStep delay st (Timeout t id) = Some st' ->
  exists t0 args,
    lastInvoke trace = Some (t0, args)
    /\ t0 + delay <= t
    /\ callTimers st = [(id, dueTime t0 delay, args)]
    /\ applied st' = applied st ++ [(t, args)]
    /\ callTimers st' = [].
Proof.
  intros [Hnone | (id0 & t0 & args & Hone & Hid & Hlast)] Hstep;
    cbn [debounceStep] in Hstep.
  - rewrite Hnone in Hstep. discriminate.
  - rewrite Hone in Hstep. cbn in Hstep.
    destruct (Z.eqb_spec id0 id) as [-> | Hne]; [| discriminate].
    destruct (Z.ltb_spec t (debounceClock st)) as [| Hclock];
      [discriminate |].
    destruct (Z.ltb_spec t (dueTime t0 delay)) as [| Hdue];
      [discriminate |].
    cbn in Hstep. injection Hstep as <-.
    exists t0, args. cbn.
    unfold dueTime in Hdue. repeat split; try assumption; lia.
Qed.

Lemma debounceRun_debouncing (trace : list (HostEvent Args)) :
  forall st,
    debounceRun delay debounce trace = Some st ->
    debouncing delay trace st
    /\ (length (applied st) + length (callTimers st)
        <= length (filter (fun ev => match ev with
                                     | Invoke _ _ => true
                                     | Timeout _ _ => false
                                     end) trace))%nat.
Proof.
  induction trace as [| ev trace IH] using rev_ind; intros st Hrun.
  - injection Hrun as <-. split; [now left | cbn; lia].
  - rewrite debounceRun_snoc in Hrun.
    destruct (debounceRun delay debounce trace) as [st0 |];
      [| discriminate].
    destruct (IH st0 eq_refl) as [Hinv Hcount].
    rewrite filter_app, length_app.
    destruct ev as [t args | t id].
    + pose proof (clearTimeout_current st0 trace Hinv) as Hclear.
      cbn [debounceStep] in Hrun.
      destruct (t <? debounceClock st0); [discriminate |].
      injection Hrun as <-. cbn. rewrite Hclear. cbn. split.
      * right. exists (nextCallTimer st0), t, args.
        split; [reflexivity |]. split; [reflexivity |].
        now rewrite lastInvoke_snoc.
      * lia.
    + destruct (debounceStep_timeout st0 st trace t id Hinv Hrun)
        as (t0 & args & _ & _ & Hone & Happ & Hnone).
      split; [now left |].
      rewrite Happ, Hnone, length_app. rewrite Hone in Hcount.
      cbn in *. lia.
Qed.

(** X17.  However a debounced function is called and whenever the host
    runs its timers, at most one timer is set.  When the host runs it,
    [func] is applied once, to the arguments of the most recent call, at
    least [delay] milliseconds after that call, and no timer remains: the
    calls before the most recent one are never applied.  [func] has been
    applied at most once per call. *)
Theorem debounce_applies_last_call :
  forall (trace : list (HostEvent Args)) (st : Debounced Args),
    debounceRun delay debounce trace = Some st ->
    (length (callTimers st) <= 1)%nat
    /\ (length (applied st)
        <= length (filter (fun ev => match ev with
                                     | Invoke _ _ => true
                                     | Timeout _ _ => false
                                     end) trace))%nat
    /\ forall t id st',
         debounceStep delay st (Timeout t id) = Some st' ->
         exists t0 args,
           lastInvoke trace = Some (t0, args)
           /\ t0 + delay <= t
           /\ applied st' = applied st ++ [(t, args)]
           /\ callTimers st' = [].
Proof.
  intros trace st Hrun.
  destruct (debounceRun_debouncing trace st Hrun) as [Hinv Hcount].
  split; [| split].
  - destruct Hinv as [-> | (id & t & args & -> & _)]; cbn; lia.
  - lia.
  - intros t id st' Hstep.
    destruct (debounceStep_timeout st st' trace t id Hinv Hstep)
      as (t0 & args & Hlast & Hdelay & _ & Happ & Hnone).
    now exists t0, args.
Qed.

End DebounceFacts.

Lemma debounce_applies_witness :
  exists st st',
    Timing.debounceRun 300 Timing.debounce
      [Timing.Invoke 0 "a"%string; Timing.Invoke 100 "ab"%string;
       Timing.Invoke 250 "abc"%string]
    = Some st
    /\ Timing.debounceStep 300 st (Timing.Timeout 560 3) = Some st'
    /\ Timing.applied st' = [(560, "abc"%string)].
Proof.
  eexists. eexists. split; [reflexivity |]. split; [reflexivity |].
  destruct (proj2 (proj2 (debounce_applies_last_call 300
                            [Timing.Invoke 0 "a"%string;
                             Timing.Invoke 100 "ab"%string;
                             Timing.Invoke 250 "abc"%string] _ eq_refl))
                  560 3 _ eq_refl)
    as (t0 & args & Hlast & _ & Happ & _).
  cbn in Hlast. injection Hlast as <- <-. exact Happ.
Defined.

(* ================================================================== *)
(** * Items of variable height *)
(* ================================================================== *)

Section DynamicHeightFacts.

Import Binary64 DynamicHeight.

Lemma virtualIndices_range (r : VisibleRange) (i : Z) :
  In i (virtualIndices r) -> startIndex r <= i <= endIndex r.
Proof.
  unfold virtualIndices. intros H. apply in_map_iff in H.
  destruct H as [k [<- Hk]]. apply in_seq in Hk. lia.
Qed.

Lemma lookup_spec (arr : list float) (i : Z) (a : float) :
  lookup arr i = Some a <-> 0 <= i /\ nth_error arr (Z.to_nat i) = Some a.
Proof.
  unfold lookup. destruct (Z.ltb_spec i 0) as [Hneg | Hpos].
  - split; [discriminate | lia].
  - split; [now split | now intros [_ H]].
Qed.

Lemma lookup_in_range (arr : list float) (i : Z) (a : float) :
  lookup arr i = Some a -> 0 <= i < Z.of_nat (length arr).
Proof.
  intros H. apply lookup_spec in H. destruct H as [Hi Hn].
  assert (Hlt : (Z.to_nat i < length arr)%nat).
  { apply nth_error_Some. rewrite Hn. discriminate. }
  lia.
Qed.

Lemma lookup_defined (arr : list float) (i : Z) :
  0 <= i < Z.of_nat (length arr) -> exists a, lookup arr i = Some a.
Proof.
  intros Hi. destruct (nth_error arr (Z.to_nat i)) as [a |] eqn:E.
  - exists a. apply lookup_spec. split; [lia | exact E].
  - apply nth_error_None in E. lia.
Qed.

Lemma offsetsFrom_length (a : float) (heights : list float) :
  length (offsetsFrom a heights) = length heights.
Proof.
  revert a. induction heights as [| h rest IH]; intros a; cbn;
    [reflexivity | now rewrite IH].
Qed.

Lemma pushHeights_offsets (rest : list float) :
  forall (heights : list float) (i : nat),
    length heights = S i ->
    pushHeights heights i rest
    = heights ++ offsetsFrom (nth i heights 0%float) rest.
Proof.
  induction rest as [| h rest IH]; intros heights i Hlen; cbn.
  - now rewrite app_nil_r.
  - rewrite IH by (rewrite length_app; cbn; lia).
    rewrite app_nth2 by lia.
    replace (S i - length heights)%nat with 0%nat by lia.
    cbn. now rewrite <- app_assoc.
Qed.

Lemma cumulativeHeights_offsets (itemHeights : list float) :
  cumulativeHeights itemHeights = 0%float :: offsetsFrom 0%float itemHeights.
Proof.
  unfold cumulativeHeights. now rewrite pushHeights_offsets.
Qed.

Lemma cumulativeHeights_length (itemHeights : list float) :
  length (cumulativeHeights itemHeights) = S (length itemHeights).
Proof.
  rewrite cumulativeHeights_offsets. cbn. now rewrite offsetsFrom_length.
Qed.

Lemma offsetsFrom_above (heights : list float) :
  forall a,
    notAbove 0 a ->
    Forall (notAbove 0) heights ->
    Forall (notAbove a) (offsetsFrom a heights).
Proof.
  unfold notAbove.
  induction heights as [| h rest IH]; intros a Ha Hpos; cbn; [constructor |].
  inversion Hpos as [| ? ? Hh Hrest]; subst.
  pose proof (add_nonneg a h Ha Hh) as Hstep.
  constructor; [exact Hstep |].
  specialize (IH (a + h)%float (leb_trans _ _ _ Ha Hstep) Hrest).
  revert IH. apply Forall_impl.
  intros b Hb. now apply leb_trans with (a + h)%float.
Qed.

Lemma offsetsFrom_sorted (heights : list float) :
  forall a,
    notAbove 0 a ->
    Forall (notAbove 0) heights ->
    StronglySorted notAbove (a :: offsetsFrom a heights)
    /\ Forall (notAbove 0) (a :: offsetsFrom a heights).
Proof.
  induction heights as [| h rest IH]; intros a Ha Hpos.
  - cbn. split; repeat constructor. exact Ha.
  - inversion Hpos as [| ? ? Hh Hrest]; subst.
    pose proof (add_nonneg a h Ha Hh) as Hstep.
    destruct (IH (a + h)%float (leb_trans _ _ _ Ha Hstep) Hrest)
      as [Hs Hn].
    split.
    + constructor; [exact Hs | now apply offsetsFrom_above].
    + constructor; [exact Ha | exact Hn].
Qed.

Lemma sorted_ascending (arr : list float) :
  StronglySorted notAbove arr -> Forall (notAbove 0) arr -> ascending arr.
Proof.
  intros Hs Hn i j a b Hij Hi Hj.
  apply lookup_spec in Hi. apply lookup_spec in Hj.
  destruct Hi as [_ Hi]. destruct Hj as [_ Hj].
  assert (Hle : (Z.to_nat i <= Z.to_nat j)%nat) by lia.
  revert Hle Hi Hj. generalize (Z.to_nat i) (Z.to_nat j). clear i j Hij.
  induction Hs as [| x l Hl IH Hx]; intros i j Hle Hi Hj.
  - now destruct i.
  - inversion Hn as [| ? ? Hx0 Hl0]; subst.
    destruct i as [| i], j as [| j]; try lia; cbn in Hi, Hj.
    + injection Hi as <-. injection Hj as <-. now apply leb_refl.
    + injection Hi as <-. rewrite Forall_forall in Hx. apply Hx.
      now apply nth_error_In with j.
    + apply (IH Hl0 i j); [lia | assumption | assumption].
Qed.

Lemma cumulativeHeights_ascending (itemHeights : list float) :
  Forall (notAbove 0) itemHeights ->
  ascending (cumulativeHeights itemHeights).
Proof.
  intros Hpos. rewrite cumulativeHeights_offsets.
  destruct (offsetsFrom_sorted itemHeights 0%float eq_refl Hpos) as [Hs Hn].
  now apply sorted_ascending.
Qed.

(** The binary search, on any ascending array: it ends, at the first index
    whose entry is not below [scrollTop], or at [right] when there is
    none. *)
Lemma bisect_first_not_below (cumulative : list float) (scrollTop : float) :
  ascending cumulative ->
  forall (fuel : nat) (left right : Z),
    0 <= left <= right ->
    right <= Z.of_nat (length cumulative) - 1 ->
    right - left <= Z.of_nat fuel ->
    (forall i a, 0 <= i < left -> lookup cumulative i = Some a ->
                 (a <? scrollTop)%float = true) ->
    (forall a, right < Z.of_nat (length cumulative) - 1 ->
               lookup cumulative right = Some a ->
               (a <? scrollTop)%float = false) ->
    exists found,
      bisect fuel cumulative scrollTop left right = Some found
      /\ left <= found <= right
      /\ (forall i a, 0 <= i < found -> lookup cumulative i = Some a ->
                      (a <? scrollTop)%float = true)
      /\ (forall a, found < Z.of_nat (length cumulative) - 1 ->
                    lookup cumulative found = Some a ->
                    (a <? scrollTop)%float = false).
Proof.
  intros Hasc. induction fuel as [| fuel IH];
    intros left right Hlr Hr Hfuel Hbelow Habove.
  - cbn [bisect]. destruct (Z.ltb_spec left right) as [Hlt | Hge]; [lia |].
    exists left. assert (left = right) by lia. subst right.
    split; [reflexivity |]. split; [lia |]. now split.
  - cbn [bisect]. destruct (Z.ltb_spec left right) as [Hlt | Hge].
    + cbv zeta.
      assert (Hmid : left <= (left + right) / 2 < right)
        by (Z.div_mod_to_equations; lia).
      set (mid := (left + right) / 2) in *.
      destruct (lookup_defined cumulative mid) as [c Hc]; [lia |].
      rewrite Hc. cbn [lessThan].
      destruct (c <? scrollTop)%float eqn:Hcmp.
      * assert (Hbelow' : forall i a,
                   0 <= i < mid + 1 -> lookup cumulative i = Some a ->
                   (a <? scrollTop)%float = true).
        { intros i a Hi Hia.
          apply leb_ltb_trans with c; [| exact Hcmp].
          apply (Hasc i mid a c); [lia | assumption | assumption]. }
        destruct (IH (mid + 1) right ltac:(lia) Hr ltac:(lia) Hbelow' Habove)
          as (found & Hrun & Hrange & Hb & Ha).
        exists found. split; [exact Hrun |]. split; [lia |]. now split.
      * assert (Habove' : forall a,
                   mid < Z.of_nat (length cumulative) - 1 ->
                   lookup cumulative mid = Some a ->
                   (a <? scrollTop)%float = false).
        { intros a _ Ha. rewrite Hc in Ha. injection Ha as <-. exact Hcmp. }
        destruct (IH left mid ltac:(lia) ltac:(lia) ltac:(lia) Hbelow Habove')
          as (found & Hrun & Hrange & Hb & Ha).
        exists found. split; [exact Hrun |]. split; [lia |]. now split.
    + exists left. assert (left = right) by lia. subst right.
      split; [reflexivity |]. split; [lia |]. now split.
Qed.

Lemma findStartIndex_found (cumulative : list float) (scrollTop : float) :
  ascending cumulative -> cumulative <> [] ->
  exists found,
    findStartIndex cumulative scrollTop = Some (Z.max 0 (found - 1))
    /\ 0 <= found <= Z.of_nat (length cumulative) - 1
    /\ (forall i a, 0 <= i < found -> lookup cumulative i = Some a ->
                    (a <? scrollTop)%float = true)
    /\ (forall a, found < Z.of_nat (length cumulative) - 1 ->
                  lookup cumulative found = Some a ->
                  (a <? scrollTop)%float = false).
Proof.
  intros Hasc Hne.
  assert (Hlen : (0 < length cumulative)%nat)
    by (destruct cumulative; [now elim Hne | cbn; lia]).
  assert (Hbelow : forall i a,
             0 <= i < 0 -> lookup cumulative i = Some a ->
             (a <? scrollTop)%float = true) by (intros i a Hi; lia).
  assert (Habove : forall a,
             Z.of_nat (length cumulative) - 1
             < Z.of_nat (length cumulative) - 1 ->
             lookup cumulative (Z.of_nat (length cumulative) - 1) = Some a ->
             (a <? scrollTop)%float = false) by (intros a Hlt; lia).
  destruct (bisect_first_not_below cumulative scrollTop Hasc
              (length cumulative) 0 (Z.of_nat (length cumulative) - 1)
              ltac:(lia) ltac:(lia) ltac:(lia) Hbelow Habove)
    as (found & Hrun & Hrange & Hb & Ha).
  exists found. unfold findStartIndex. rewrite Hrun.
  split; [reflexivity |]. split; [lia |]. now split.
Qed.

(** X20.  For item heights that are not negative (and not NaN), the binary
    search of [findStartIndex] over the offsets the hook accumulates in
    binary64 ends and finds the item the scroll position falls in: for
    [0 < scrollTop <= totalHeight] the item [s] returned begins above
    [scrollTop] and ends at or below it, in the program's own comparisons.
    A scroll position of 0 or less gives item 0 and one past the total
    height gives the last item. *)
Theorem findStartIndex_locates_scroll_position :
  forall (itemHeights : list float) (scrollTop total : float),
    Forall (notAbove 0) itemHeights ->
    totalHeight itemHeights = Some total ->
    let cumulative := cumulativeHeights itemHeights in
    let count := Z.of_nat (length itemHeights) in
    exists s,
      findStartIndex cumulative scrollTop = Some s
      /\ 0 <= s <= Z.max 0 (count - 1)
      /\ ((0 <? scrollTop)%float = true ->
          (scrollTop <=? total)%float = true ->
          exists top bottom,
            s < count
            /\ lookup cumulative s = Some top
            /\ lookup cumulative (s + 1) = Some bottom
            /\ (top <? scrollTop)%float = true
            /\ (scrollTop <=? bottom)%float = true)
      /\ ((scrollTop <=? 0)%float = true -> s = 0)
      /\ ((total <? scrollTop)%float = true -> s = Z.max 0 (count - 1)).
Proof.
  intros itemHeights scrollTop total Hpos Htotal. cbv zeta.
  pose proof (cumulativeHeights_ascending itemHeights Hpos) as Hasc.
  pose proof (cumulativeHeights_length itemHeights) as Hlen.
  unfold totalHeight in Htotal. rewrite Hlen in Htotal.
  assert (Hzero : lookup (cumulativeHeights itemHeights) 0 = Some 0%float)
    by (now rewrite cumulativeHeights_offsets).
  assert (Hne : cumulativeHeights itemHeights <> [])
    by (rewrite cumulativeHeights_offsets; discriminate).
  destruct (findStartIndex_found (cumulativeHeights itemHeights) scrollTop
              Hasc Hne)
    as (found & Hrun & Hrange & Hb & Ha).
  rewrite Hlen in Hrange, Ha.
  exists (Z.max 0 (found - 1)). split; [exact Hrun |].
  split; [lia |]. split; [| split].
  - intros Hlow Hhigh.
    assert (Hfound : 1 <= found).
    { destruct (Z_lt_le_dec found 1) as [Hlt | Hge]; [| exact Hge].
      assert (found = 0) by lia. subst found.
      destruct (Z_lt_le_dec 0 (Z.of_nat (S (length itemHeights)) - 1))
        as [Hsome | Hnone].
      - specialize (Ha 0%float Hsome Hzero). congruence.
      - replace (Z.of_nat (S (length itemHeights)) - 1) with 0 in Htotal
          by lia.
        rewrite Hzero in Htotal. injection Htotal as <-.
        elim (ltb_leb_contra _ _ Hlow Hhigh). }
    replace (Z.max 0 (found - 1)) with (found - 1) by lia.
    destruct (lookup_defined (cumulativeHeights itemHeights) (found - 1))
      as [top Htop]; [lia |].
    destruct (lookup_defined (cumulativeHeights itemHeights) found)
      as [bottom Hbottom]; [lia |].
    exists top, bottom. split; [lia |]. split; [exact Htop |].
    replace (found - 1 + 1) with found by lia.
    split; [exact Hbottom |]. split.
    + apply (Hb (found - 1) top); [lia | exact Htop].
    + destruct (Z_lt_le_dec found (Z.of_nat (S (length itemHeights)) - 1))
        as [Hlt | Hge].
      * apply ltb_false_leb; [| | now apply Ha].
        -- pose proof (Hasc found found bottom bottom ltac:(lia)
                         Hbottom Hbottom) as Hrefl.
           now destruct (leb_true_notNaN _ _ Hrefl).
        -- now destruct (ltb_true_notNaN _ _ Hlow).
      * replace found with (Z.of_nat (S (length itemHeights)) - 1)
          in Hbottom by lia.
        rewrite Hbottom in Htotal. injection Htotal as <-. exact Hhigh.
  - intros Hneg.
    destruct (Z_lt_le_dec 1 found) as [Hlt | Hge]; [| lia].
    specialize (Hb 0 0%float ltac:(lia) Hzero).
    elim (ltb_leb_contra _ _ Hb Hneg).
  - intros Hpast.
    destruct (Z_lt_le_dec found (Z.of_nat (S (length itemHeights)) - 1))
      as [Hlt | Hge]; [| lia].
    destruct (lookup_defined (cumulativeHeights itemHeights) found)
      as [c Hc]; [lia |].
    specialize (Ha c Hlt Hc).
    assert (Hle : notAbove c total).
    { apply (Hasc found (Z.of_nat (S (length itemHeights)) - 1) c total);
        [lia | exact Hc | exact Htotal]. }
    pose proof (leb_ltb_trans _ _ _ Hle Hpast). congruence.
Qed.

Lemma findStartIndex_locates_witness :
  exists s,
    findStartIndex (cumulativeHeights [30; 50; 20; 40]%float) 85 = Some s
    /\ s = 2.
Proof.
  assert (Hpos : Forall (notAbove 0) [30; 50; 20; 40]%float)
    by (repeat constructor).
  destruct (findStartIndex_locates_scroll_position
              [30; 50; 20; 40]%float 85 140 Hpos eq_refl) as (s & Hs & _).
  exists s. split; [exact Hs |].
  vm_compute in Hs. now injection Hs as <-.
Defined.

(** The loop that extends the range downwards ends; it stops at the last
    item or at an offset that is not below the window's bottom edge. *)
Lemma extend_reaches_bottom (cumulative : list float) (bottom : float)
    (count : Z) :
  Z.of_nat (length cumulative) = count + 1 ->
  forall (fuel : nat) (endIndex : Z) (k : Z) (c : float),
    0 <= endIndex -> k <= endIndex + 1 ->
    lookup cumulative k = Some c ->
    count - 1 - endIndex <= Z.of_nat fuel ->
    exists e,
      extend fuel cumulative bottom count endIndex (Some c) = Some e
      /\ endIndex <= e
      /\ (count - 1 <= e
          \/ exists k' c',
               k' <= e + 1 /\ lookup cumulative k' = Some c'
               /\ (c' <? bottom)%float = false).
Proof.
  intros Hlen. induction fuel as [| fuel IH];
    intros endIndex k c He Hk Hc Hfuel; cbn [extend lessThan].
  - destruct (c <? bottom)%float eqn:Hcmp; cbn [andb].
    + destruct (Z.ltb_spec endIndex (count - 1)) as [Hlt | Hge]; [lia |].
      exists endIndex. split; [reflexivity |]. split; [lia |]. now left.
    + exists endIndex. split; [reflexivity |]. split; [lia |].
      right. now exists k, c.
  - destruct (c <? bottom)%float eqn:Hcmp; cbn [andb].
    + destruct (Z.ltb_spec endIndex (count - 1)) as [Hlt | Hge].
      * destruct (lookup_defined cumulative (endIndex + 1 + 1))
          as [c1 Hc1]; [lia |].
        rewrite Hc1.
        destruct (IH (endIndex + 1) (endIndex + 1 + 1) c1
                    ltac:(lia) ltac:(lia) Hc1 ltac:(lia))
          as (e & Hrun & Hle & Hstop).
        exists e. split; [exact Hrun |]. split; [lia | exact Hstop].
      * exists endIndex. split; [reflexivity |]. split; [lia |]. now left.
    + exists endIndex. split; [reflexivity |]. split; [lia |].
      right. now exists k, c.
Qed.

(** X21.  For item heights that are not negative (and not NaN) and an
    overscan that is not negative, [visibleRange] of the variable-height
    virtualizer ends and covers the window: every item whose top offset is
    below the bottom edge [scrollTop + containerHeight] and whose bottom
    offset is above [scrollTop], offsets, edge and comparisons being the
    hook's own binary64 ones, lies between [startIndex] and [endIndex].
    The range never leaves the list, and the entries of [virtualItems]
    carry the offsets and heights of their indices. *)
Theorem dynamic_visibleRange_covers_window :
  forall (itemHeights : list float) (scrollTop containerHeight : float)
         (overscan : Z),
    Forall (notAbove 0) itemHeights ->
    0 <= overscan ->
    let cumulative := cumulativeHeights itemHeights in
    let count := Z.of_nat (length itemHeights) in
    exists range,
      visibleRange itemHeights scrollTop containerHeight overscan
      = Some range
      /\ 0 <= startIndex range
      /\ endIndex range <= count - 1
      /\ (forall i top bottom,
            lookup cumulative i = Some top ->
            lookup cumulative (i + 1) = Some bottom ->
            (top <? scrollTop + containerHeight)%float = true ->
            (scrollTop <? bottom)%float = true ->
            startIndex range <= i <= endIndex range)
      /\ (forall item,
            In item (virtualItems itemHeights range) ->
            exists top h,
              offsetTop item = Some top /\ height item = Some h
              /\ lookup cumulative (index item + 1)
                 = Some (top + h)%float).
Proof.
  intros itemHeights scrollTop containerHeight overscan Hpos Ho. cbv zeta.
  pose proof (cumulativeHeights_ascending itemHeights Hpos) as Hasc.
  pose proof (cumulativeHeights_length itemHeights) as Hlen.
  assert (Hne : cumulativeHeights itemHeights <> [])
    by (rewrite cumulativeHeights_offsets; discriminate).
  destruct (findStartIndex_found (cumulativeHeights itemHeights) scrollTop
              Hasc Hne)
    as (found & Hrun & Hrange & Hb & Ha).
  rewrite Hlen in Hrange.
  set (start := Z.max 0 (found - 1)) in *.
  destruct (lookup_defined (cumulativeHeights itemHeights) start)
    as [c Hc]; [rewrite Hlen; lia |].
  destruct (extend_reaches_bottom (cumulativeHeights itemHeights)
              (scrollTop + containerHeight)%float
              (Z.of_nat (length itemHeights))
              ltac:(rewrite Hlen; lia)
              (length itemHeights) start start c
              ltac:(lia) ltac:(lia) Hc ltac:(lia))
    as (e & Hext & Hse & Hstop).
  exists {| startIndex := Z.max 0 (start - overscan);
            endIndex := Z.min (Z.of_nat (length itemHeights) - 1)
                              (e + overscan) |}.
  split.
  { unfold visibleRange. cbv zeta. rewrite Hrun, Hc, Hext. reflexivity. }
  cbn [startIndex endIndex].
  split; [lia |]. split; [lia |]. split.
  - intros i top bottom Htop Hbottom Hin Hout.
    pose proof (lookup_in_range _ _ _ Htop) as Hi.
    pose proof (lookup_in_range _ _ _ Hbottom) as Hi1.
    rewrite Hlen in Hi, Hi1.
    assert (Hlow : start <= i).
    { destruct (Z_lt_le_dec i start) as [Hlt | Hge]; [| exact Hge].
      assert (Hbelow : (bottom <? scrollTop)%float = true)
        by (apply (Hb (i + 1) bottom); [lia | exact Hbottom]).
      elim (ltb_asym _ _ Hout Hbelow). }
    assert (Hhigh : i <= e \/ i <= Z.of_nat (length itemHeights) - 1 <= e).
    { destruct Hstop as [Hlast | (k' & c' & Hk' & Hc' & Hle)]; [right; lia |].
      left. destruct (Z_lt_le_dec e i) as [Hlt | Hge]; [| exact Hge].
      pose proof (lookup_in_range _ _ _ Hc') as Hk0.
      assert (Hcle : notAbove c' top)
        by (apply (Hasc k' i c' top); [lia | exact Hc' | exact Htop]).
      pose proof (leb_ltb_trans _ _ _ Hcle Hin). congruence. }
    lia.
  - intros item Hitem. unfold virtualItems in Hitem.
    apply in_map_iff in Hitem. destruct Hitem as [i [<- Hi]].
    apply virtualIndices_range in Hi. cbn [startIndex endIndex] in Hi.
    cbn [index offsetTop height].
    assert (Hi0 : 0 <= i < Z.of_nat (length itemHeights)) by lia.
    rewrite cumulativeHeights_offsets.
    clear - Hi0. revert i Hi0. generalize 0%float.
    induction itemHeights as [| h rest IH]; intros a i Hi0;
      [cbn in Hi0; lia |].
    destruct (Z.eq_dec i 0) as [-> | Hne].
    + exists a, h. repeat split.
    + assert (Hi1 : 0 <= i - 1 < Z.of_nat (length rest))
        by (cbn [length] in Hi0; lia).
      destruct (IH (a + h)%float (i - 1) Hi1) as (top & h' & Ht & Hh & Hn).
      exists top, h'.
      apply lookup_spec in Ht. apply lookup_spec in Hh.
      apply lookup_spec in Hn.
      destruct Ht as [_ Ht]. destruct Hh as [_ Hh]. destruct Hn as [_ Hn].
      replace (Z.to_nat (i - 1 + 1)) with (S (Z.to_nat (i - 1))) in Hn
        by lia.
      split; [| split]; apply lookup_spec; (split; [lia |]).
      * replace (Z.to_nat i) with (S (Z.to_nat (i - 1))) by lia. exact Ht.
      * replace (Z.to_nat i) with (S (Z.to_nat (i - 1))) by lia. exact Hh.
      * replace (Z.to_nat (i + 1)) with (S (S (Z.to_nat (i - 1)))) by lia.
        exact Hn.
Qed.

Lemma dynamic_visibleRange_witness :
  exists range,
    visibleRange [30; 50; 20; 40; 60; 10]%float 85 60 1 = Some range
    /\ startIndex range <= 3 <= endIndex range.
Proof.
  assert (Hpos : Forall (notAbove 0) [30; 50; 20; 40; 60; 10]%float)
    by (repeat constructor).
  destruct (dynamic_visibleRange_covers_window
              [30; 50; 20; 40; 60; 10]%float 85 60 1 Hpos ltac:(lia))
    as (range & Hrange & _ & _ & Hcover & _).
  exists range. split; [exact Hrange |].
  apply (Hcover 3 100%float 140%float); reflexivity.
Defined.

End DynamicHeightFacts.

(* ================================================================== *)
(** * The bars of the bar chart *)
(* ================================================================== *)

Section BarChartFacts.

Import Types BarChart.

Variable toLocaleTimeString : Z -> string.

(** The bucket loop from index [i]: it ends within [fuel] iterations when
    [fuel] covers what is left of the data, cuts the rest of the data into
    consecutive buckets, none empty and none longer than [size], and all
    but the last full. *)
Lemma timeBuckets_cut (data : list DataPoint) (size : nat) :
  (0 < size)%nat ->
  forall (fuel i : nat),
    (length data - i <= fuel)%nat ->
    let buckets := timeBuckets fuel data size i in
    concat buckets = skipn i data
    /\ Forall (fun b => b <> [] /\ (length b <= size)%nat) buckets
    /\ ((i < length data)%nat ->
        ((length buckets - 1) * size < length data - i
         /\ length data - i <= length buckets * size)%nat)
    /\ ((length data <= i)%nat -> buckets = []).
Proof.
  intros Hsize. induction fuel as [| fuel IH]; intros i Hfuel; cbv zeta.
  - cbn [timeBuckets concat]. split; [| split; [| split]].
    + symmetry. apply skipn_all2. lia.
    + constructor.
    + intros Hlt. lia.
    + reflexivity.
  - cbn [timeBuckets]. destruct (Nat.ltb_spec i (length data)) as [Hlt | Hge].
    + destruct (IH (i + size)%nat ltac:(lia)) as (Hcat & Hall & Hcount & Hnil).
      cbv zeta in Hcat, Hall, Hcount, Hnil.
      assert (Hb : length (firstn size (skipn i data))
                   = Nat.min size (length data - i))
        by (now rewrite length_firstn, length_skipn).
      split; [| split; [| split]].
      * cbn [concat]. rewrite Hcat.
        replace (i + size)%nat with (size + i)%nat by lia.
        rewrite <- skipn_skipn. apply firstn_skipn.
      * constructor; [| exact Hall]. split; [| lia].
        intros Hempty. rewrite Hempty in Hb. cbn in Hb. lia.
      * intros _. cbn [length].
        destruct (Nat.ltb_spec (i + size) (length data)) as [Hmore | Hlast].
        -- destruct (Hcount Hmore) as [Hlo Hhi].
           assert (Hr : (1 <= length (timeBuckets fuel data size
                                                  (i + size)))%nat)
             by (destruct (timeBuckets fuel data size (i + size));
                 [cbn in Hhi; lia | cbn; lia]).
           split; nia.
        -- rewrite (Hnil Hlast). cbn [length]. split; lia.
      * intros Hle. lia.
    + split; [| split; [| split]].
      * symmetry. apply skipn_all2. lia.
      * constructor.
      * intros Hlt. lia.
      * reflexivity.
Qed.

(** X22.  With [aggregateBy = 'time'] the bars come from consecutive
    buckets that cut the data in order, none empty and none longer than
    [max(1, floor(n / 50))]; each bar averages its bucket and is labelled
    with the time of the bucket's first point.  So [n] points give
    [ceil(n / bucketSize)] bars: as many as points below 50 points, never
    more than 99, and 99 for 99 points. *)
Theorem aggregatedData_by_time_cuts_data :
  forall data : list DataPoint,
    data <> [] ->
    let size := bucketSize data in
    let bars := aggregatedData toLocaleTimeString data ByTime in
    (exists buckets,
        bars = map (timeEntry toLocaleTimeString) buckets
        /\ concat buckets = data
        /\ Forall (fun b => b <> [] /\ (length b <= size)%nat) buckets)
    /\ ((length bars - 1) * size < length data <= length bars * size)%nat
    /\ (length bars <= 99)%nat
    /\ ((length data < 50)%nat -> length bars = length data)
    /\ (length data = 99%nat -> length bars = 99%nat).
Proof.
  intros data Hne. cbv zeta.
  assert (Hsize : (0 < bucketSize data)%nat) by (unfold bucketSize; lia).
  assert (Hlen : (0 < length data)%nat)
    by (destruct data; [now elim Hne | cbn; lia]).
  destruct (timeBuckets_cut data (bucketSize data) Hsize (length data) 0
              ltac:(lia)) as (Hcat & Hall & Hcount & _).
  cbv zeta in Hcat, Hall, Hcount. cbn [skipn] in Hcat.
  destruct (Hcount Hlen) as [Hlo Hhi]. rewrite Nat.sub_0_r in Hlo, Hhi.
  assert (Hbars : aggregatedData toLocaleTimeString data ByTime
                  = map (timeEntry toLocaleTimeString)
                        (timeBuckets (length data) data (bucketSize data) 0))
    by (destruct data; [now elim Hne | reflexivity]).
  rewrite Hbars, length_map.
  set (count := length (timeBuckets (length data) data (bucketSize data) 0))
    in *.
  assert (Hq : (50 * (length data / 50) <= length data
                < 50 * (length data / 50) + 50)%nat).
  { pose proof (Nat.div_mod_eq (length data) 50) as Hdm.
    pose proof (Nat.mod_upper_bound (length data) 50 ltac:(lia)). lia. }
  split; [| split; [| split; [| split]]].
  - eexists. split; [reflexivity |]. now split.
  - lia.
  - unfold bucketSize in *.
    set (q := (length data / 50)%nat) in *.
    assert (Hmax : (Nat.max 1 q = 1 /\ q <= 1 \/ Nat.max 1 q = q /\ 1 <= q)%nat)
      by lia.
    destruct Hmax as [[Hm Hq1] | [Hm Hq1]]; rewrite Hm in *; nia.
  - intros Hsmall. unfold bucketSize in *.
    rewrite (Nat.div_small _ _ Hsmall) in *. cbn in Hlo, Hhi. lia.
  - intros H99. unfold bucketSize in *. rewrite H99 in *.
    cbn in Hlo, Hhi. lia.
Qed.

(** X23.  With [aggregateBy = 'category'] there is one bar per category
    that occurs in the data, labelled with the category; its value is the
    average of the values of that category's points, taken in data order.
    Without data there are no bars, whatever the mode. *)
Theorem aggregatedData_by_category_groups :
  forall data : list DataPoint,
    let bars := aggregatedData toLocaleTimeString data ByCategory in
    NoDup (map label bars)
    /\ (forall bar,
          In bar bars ->
          value bar
          = DataProvider.average
              (map Types.value
                   (filter (fun p => String.eqb (category p) (label bar))
                           data))
          /\ exists p, In p data /\ category p = label bar)
    /\ (forall p, In p data -> In (category p) (map label bars))
    /\ (forall mode, aggregatedData toLocaleTimeString [] mode = []).
Proof.
  intros data. cbv zeta.
  assert (Hbars : aggregatedData toLocaleTimeString data ByCategory
                  = map (fun group : string * list float =>
                           {| label := fst group;
                              value := DataProvider.average (snd group) |})
                        (DataProvider.byCategory data))
    by (destruct data; reflexivity).
  rewrite Hbars.
  destruct (byCategory_spec data) as (Hnd & Hspec & Hcov & _).
  assert (Hlabels :
            map label
                (map (fun group : string * list float =>
                        {| label := fst group;
                           value := DataProvider.average (snd group) |})
                     (DataProvider.byCategory data))
            = map fst (DataProvider.byCategory data)).
  { rewrite map_map. apply map_ext. reflexivity. }
  rewrite Hlabels.
  split; [exact Hnd |]. split; [| split].
  - intros bar Hin. apply in_map_iff in Hin.
    destruct Hin as [[cat values] [<- Hgroup]]. cbn [label value fst snd].
    destruct (Hspec cat values Hgroup) as [Hvalues Hne].
    split; [now rewrite <- Hvalues |].
    rewrite Hvalues in Hne.
    destruct (filter (fun q => String.eqb (category q) cat) data)
      as [| p rest] eqn:Ef; [now elim Hne |].
    assert (Hp : In p (filter (fun q => String.eqb (category q) cat) data))
      by (rewrite Ef; now left).
    apply filter_In in Hp. destruct Hp as [Hp Hc].
    exists p. split; [exact Hp | now apply String.eqb_eq].
  - exact Hcov.
  - intros mode. reflexivity.
Qed.

End BarChartFacts.

Lemma aggregatedData_by_time_witness :
  let data := map measurementAt [1000; 2000; 3000] in
  data <> []
  /\ length (BarChart.aggregatedData (fun _ => "12:00:00 AM"%string) data
                                     BarChart.ByTime) = 3%nat.
Proof.
  cbv zeta. split; [discriminate |].
  apply (proj1 (proj2 (proj2 (proj2
           (aggregatedData_by_time_cuts_data
              (fun _ => "12:00:00 AM"%string)
              (map measurementAt [1000; 2000; 3000])
              ltac:(discriminate)))))).
  cbn. lia.
Defined.

(* ================================================================== *)
(** * The rows of the data table *)
(* ================================================================== *)

Section DataTableFacts.

Import Types DataTable.

Lemma sort_ext {T : Type} (f g : T -> T -> Z) (l : list T) :
  (forall a b, (f a b <=? 0) = (g a b <=? 0)) ->
  JS.sort f l = JS.sort g l.
Proof.
  intros Hfg. induction l as [| x l IH]; [reflexivity |].
  cbn [JS.sort]. rewrite IH.
  generalize (JS.sort g l). intros s.
  induction s as [| y s IHs]; [reflexivity |].
  cbn [JS.insert]. rewrite Hfg, IHs. reflexivity.
Qed.

Lemma sortedData_timestamp_asc (data : list DataPoint) :
  sortedData data Timestamp Asc
  = JS.sort (fun a b => timestamp a - timestamp b) data.
Proof.
  apply sort_ext. intros a b. unfold compareRows, below.
  destruct (Z.ltb_spec (timestamp a) (timestamp b));
    destruct (Z.ltb_spec (timestamp b) (timestamp a));
    destruct (Z.leb_spec (timestamp a - timestamp b) 0);
    try reflexivity; lia.
Qed.

Lemma sortedData_timestamp_desc (data : list DataPoint) :
  sortedData data Timestamp Desc
  = JS.sort (fun a b => - timestamp a - - timestamp b) data.
Proof.
  apply sort_ext. intros a b. unfold compareRows, below.
  destruct (Z.ltb_spec (timestamp a) (timestamp b));
    destruct (Z.ltb_spec (timestamp b) (timestamp a));
    destruct (Z.leb_spec (- timestamp a - - timestamp b) 0);
    try reflexivity; lia.
Qed.

Lemma sortedBy_descending (l : list DataPoint) :
  sortedBy (fun p => - timestamp p) l
  <-> StronglySorted (fun a b => timestamp b <= timestamp a) l.
Proof.
  unfold sortedBy. split; induction 1 as [| x l Hs IH Hx]; constructor;
    try assumption; revert Hx; apply Forall_impl; intros y Hy; lia.
Qed.

Lemma sortedBy_rev (l : list DataPoint) :
  sortedBy timestamp l -> sortedBy (fun p => - timestamp p) (rev l).
Proof.
  unfold sortedBy. induction 1 as [| x l Hs IH Hx]; [constructor |].
  cbn [rev].
  assert (Hgen : forall l1 : list DataPoint,
             StronglySorted (fun a b => - timestamp a <= - timestamp b) l1 ->
             Forall (fun y => timestamp x <= timestamp y) l1 ->
             StronglySorted (fun a b => - timestamp a <= - timestamp b)
                            (l1 ++ [x])).
  { induction 1 as [| y l1 Hs1 IH1 Hy]; intros Hall; cbn.
    - constructor; constructor.
    - inversion Hall as [| ? ? Hxy Hall']; subst.
      constructor; [now apply IH1 |].
      apply Forall_app. split; [exact Hy |].
      constructor; [lia | constructor]. }
  apply Hgen; [exact IH |].
  rewrite Forall_forall in Hx |- *. intros y Hy.
  apply Hx. now apply in_rev.
Qed.

Lemma filter_at_most_one (t : Z) (l : list DataPoint) :
  NoDup (map timestamp l) ->
  (length (filter (fun p => Z.eqb (timestamp p) t) l) <= 1)%nat.
Proof.
  induction l as [| x l IH]; intros Hnd; [cbn; lia |].
  cbn [map] in Hnd. inversion Hnd as [| ? ? Hx Hl]; subst.
  cbn [filter]. destruct (Z.eqb_spec (timestamp x) t) as [Ht | Ht];
    [| now apply IH].
  assert (Hnone : filter (fun p => timestamp p =? t) l = []).
  { destruct (filter (fun p => timestamp p =? t) l) as [| y rest] eqn:Ef;
      [reflexivity |].
    assert (Hy : In y (filter (fun p => timestamp p =? t) l))
      by (rewrite Ef; now left).
    apply filter_In in Hy. destruct Hy as [Hy Hty].
    apply Z.eqb_eq in Hty. exfalso. apply Hx.
    rewrite Ht, <- Hty. now apply in_map. }
  rewrite Hnone. cbn. lia.
Qed.

Lemma rev_short {T : Type} (l : list T) : (length l <= 1)%nat -> rev l = l.
Proof.
  destruct l as [| x [| y l]]; cbn; try reflexivity. lia.
Qed.

Lemma filter_rev {T : Type} (f : T -> bool) (l : list T) :
  filter f (rev l) = rev (filter f l).
Proof.
  induction l as [| x l IH]; [reflexivity |].
  cbn [rev filter]. rewrite filter_app, IH. cbn [filter].
  destruct (f x); [reflexivity | now rewrite app_nil_r].
Qed.

(** X24.  Sorting the table by timestamp gives a rearrangement of the data
    in non-decreasing order for ['asc'] and non-increasing order for
    ['desc'], rows of equal timestamp keeping their data order in both
    directions; so the descending table is the reverse of the ascending one
    when the timestamps are distinct.  Clicking the header of the sorted
    column twice restores the direction, and clicking another column sorts
    it ascending. *)
Theorem sortedData_by_timestamp :
  forall data : list DataPoint,
    let asc := sortedData data Timestamp Asc in
    let desc := sortedData data Timestamp Desc in
    Permutation asc data /\ Permutation desc data
    /\ StronglySorted (fun a b => timestamp a <= timestamp b) asc
    /\ StronglySorted (fun a b => timestamp b <= timestamp a) desc
    /\ (forall t,
          filter (fun p => timestamp p =? t) asc
          = filter (fun p => timestamp p =? t) data
          /\ filter (fun p => timestamp p =? t) desc
             = filter (fun p => timestamp p =? t) data)
    /\ (NoDup (map timestamp data) -> desc = rev asc)
    /\ (forall st,
          handleSort (sortField st) (handleSort (sortField st) st) = st)
    /\ (forall st field,
          sameField (sortField st) field = false ->
          handleSort field st
          = {| sortField := field; sortDirection := Asc |}).
Proof.
  intros data. cbv zeta.
  rewrite sortedData_timestamp_asc, sortedData_timestamp_desc.
  pose proof (sort_sorted timestamp data) as Hasc.
  pose proof (sort_sorted (fun p => - timestamp p) data) as Hdesc.
  assert (Hstable_desc : forall t,
             filter (fun p => timestamp p =? t)
                    (JS.sort (fun a b => - timestamp a - - timestamp b) data)
             = filter (fun p => timestamp p =? t) data).
  { intros t.
    pose proof (sort_stable (fun p => - timestamp p) (- t) data) as Hs.
    assert (Hext : forall l : list DataPoint,
               filter (fun p => - timestamp p =? - t) l
               = filter (fun p => timestamp p =? t) l).
    { intros l. apply filter_ext. intros p.
      destruct (Z.eqb_spec (- timestamp p) (- t));
        destruct (Z.eqb_spec (timestamp p) t); try reflexivity; lia. }
    now rewrite !Hext in Hs. }
  split; [apply sort_perm |]. split; [apply sort_perm |].
  split; [exact Hasc |]. split; [now apply sortedBy_descending |].
  split; [| split; [| split]].
  - intros t. split; [apply (sort_stable timestamp) | apply Hstable_desc].
  - intros Hnd.
    apply (stable_sorted_unique (fun p => - timestamp p));
      [exact Hdesc | now apply sortedBy_rev |].
    intros t.
    assert (Hext : forall l : list DataPoint,
               filter (fun p => - timestamp p =? t) l
               = filter (fun p => timestamp p =? - t) l).
    { intros l. apply filter_ext. intros p.
      destruct (Z.eqb_spec (- timestamp p) t);
        destruct (Z.eqb_spec (timestamp p) (- t)); try reflexivity; lia. }
    rewrite !Hext, Hstable_desc, filter_rev, (sort_stable timestamp).
    symmetry. apply rev_short. now apply filter_at_most_one.
  - intros [[] []]; reflexivity.
  - intros [f d] field Hdiff. unfold handleSort. cbn [sortField] in *.
    now rewrite Hdiff.
Qed.

Lemma sortedData_by_timestamp_witness :
  NoDup (map timestamp (map measurementAt [3; 1; 2]))
  /\ sortedData (map measurementAt [3; 1; 2]) Timestamp Desc
     = rev (sortedData (map measurementAt [3; 1; 2]) Timestamp Asc).
Proof.
  assert (Hnd : NoDup (map timestamp (map measurementAt [3; 1; 2]))).
  { cbn. repeat constructor; cbn; intuition discriminate. }
  split; [exact Hnd |].
  exact (proj1 (proj2 (proj2 (proj2 (proj2 (proj2
           (sortedData_by_timestamp (map measurementAt [3; 1; 2])))))))
           Hnd).
Defined.

Lemma compareRows_category (dir : SortDirection) (a b : DataPoint) :
  compareRows Category dir a b <= 0
  <-> match dir with
      | Asc => JS.stringLeb (category a) (category b) = true
      | Desc => JS.stringLeb (category b) (category a) = true
      end.
Proof.
  unfold compareRows, below, JS.stringLeb, JS.compareStrings.
  rewrite (compareUnits_antisym (JS.codeUnits (category a))
             (JS.codeUnits (category b))).
  destruct (JS.compareUnits (JS.codeUnits (category a))
              (JS.codeUnits (category b))), dir; cbn;
    split; intros H;
    first [reflexivity | lia | discriminate | exfalso; lia].
Qed.

(** X25.  Sorting the table by category gives a rearrangement of the data
    with the categories in the order of their UTF-16 code units, ascending
    for ['asc'] and descending for ['desc']. *)
Theorem sortedData_by_category :
  forall (data : list DataPoint) (dir : SortDirection),
    Permutation (sortedData data Category dir) data
    /\ StronglySorted
         (fun a b =>
            match dir with
            | Asc => JS.stringLeb (category a) (category b) = true
            | Desc => JS.stringLeb (category b) (category a) = true
            end)
         (sortedData data Category dir).
Proof.
  intros data dir. split; [apply sort_any_perm |].
  assert (Hs : StronglySorted (fun a b => compareRows Category dir a b <= 0)
                              (sortedData data Category dir)).
  { apply sort_any_sorted.
    - intros a b. rewrite !compareRows_category.
      destruct dir; apply stringLeb_total.
    - intros a b c. rewrite !compareRows_category. destruct dir.
      + apply stringLeb_trans.
      + intros H1 H2. exact (stringLeb_trans _ _ _ H2 H1). }
  revert Hs. apply StronglySorted_weaken.
  intros a b. apply compareRows_category.
Qed.

End DataTableFacts.

(* ================================================================== *)
(** * Charts whose data has no extent *)
(* ================================================================== *)

Section ChartFacts.

Import Types CanvasUtils Charts.

Lemma below_infinity (v : float) :
  PrimFloat.is_nan v = false -> (v <? infinity)%float = true \/ v = infinity.
Proof.
  rewrite is_nan_spec, FloatAxioms.ltb_spec.
  change (Prim2SF infinity) with (S754_infinity false).
  destruct (Prim2SF v) as [s | [] | | s m e] eqn:E; intros Hnan;
    try discriminate; try (left; reflexivity).
  right. apply FloatAxioms.Prim2SF_inj. now rewrite E.
Qed.

Lemma above_neg_infinity (v : float) :
  PrimFloat.is_nan v = false ->
  (neg_infinity <? v)%float = true \/ v = neg_infinity.
Proof.
  rewrite is_nan_spec, FloatAxioms.ltb_spec.
  change (Prim2SF neg_infinity) with (S754_infinity true).
  destruct (Prim2SF v) as [s | [] | | s m e] eqn:E; intros Hnan;
    try discriminate; try (left; reflexivity).
  right. apply FloatAxioms.Prim2SF_inj. now rewrite E.
Qed.

(** The least and the greatest of equal numbers is that number. *)
Lemma Math_min_constant (v : float) (values : list float) :
  values <> [] -> (forall x, In x values -> x = v) ->
  Math_min values = v.
Proof.
  destruct values as [| x rest]; [now intros H |]. intros _ Hall.
  assert (Hx : x = v) by (apply Hall; now left). subst x.
  assert (Hrest : forall y, In y rest -> y = v)
    by (intros y Hy; apply Hall; now right).
  unfold Math_min. cbn [fold_left].
  assert (Hfirst :
            (if PrimFloat.is_nan infinity then infinity
             else if PrimFloat.is_nan v then v
             else if isNegativeZero v && isPositiveZero infinity then v
             else if (v <? infinity)%float then v else infinity) = v).
  { change (PrimFloat.is_nan infinity) with false. cbv iota.
    destruct (PrimFloat.is_nan v) eqn:Hnan; [reflexivity |].
    change (isPositiveZero infinity) with false. rewrite andb_false_r.
    destruct (below_infinity v Hnan) as [-> | ->]; reflexivity. }
  rewrite Hfirst. clear Hfirst Hall.
  induction rest as [| y rest IH]; [reflexivity |].
  cbn [fold_left]. rewrite (Hrest y (or_introl eq_refl)).
  assert (Hstep :
            (if PrimFloat.is_nan v then v
             else if PrimFloat.is_nan v then v
             else if isNegativeZero v && isPositiveZero v then v
             else if (v <? v)%float then v else v) = v).
  { destruct (PrimFloat.is_nan v); [reflexivity |].
    destruct (isNegativeZero v && isPositiveZero v); [reflexivity |].
    now destruct (v <? v)%float. }
  rewrite Hstep. apply IH. intros z Hz. apply Hrest. now right.
Qed.

Lemma Math_max_constant (v : float) (values : list float) :
  values <> [] -> (forall x, In x values -> x = v) ->
  Math_max values = v.
Proof.
  destruct values as [| x rest]; [now intros H |]. intros _ Hall.
  assert (Hx : x = v) by (apply Hall; now left). subst x.
  assert (Hrest : forall y, In y rest -> y = v)
    by (intros y Hy; apply Hall; now right).
  unfold Math_max. cbn [fold_left].
  assert (Hfirst :
            (if PrimFloat.is_nan neg_infinity then neg_infinity
             else if PrimFloat.is_nan v then v
             else if isPositiveZero v && isNegativeZero neg_infinity then v
             else if (neg_infinity <? v)%float then v else neg_infinity)
            = v).
  { change (PrimFloat.is_nan neg_infinity) with false. cbv iota.
    destruct (PrimFloat.is_nan v) eqn:Hnan; [reflexivity |].
    change (isNegativeZero neg_infinity) with false. rewrite andb_false_r.
    destruct (above_neg_infinity v Hnan) as [-> | ->]; reflexivity. }
  rewrite Hfirst. clear Hfirst Hall.
  induction rest as [| y rest IH]; [reflexivity |].
  cbn [fold_left]. rewrite (Hrest y (or_introl eq_refl)).
  assert (Hstep :
            (if PrimFloat.is_nan v then v
             else if PrimFloat.is_nan v then v
             else if isPositiveZero v && isNegativeZero v then v
             else if (v <? v)%float then v else v) = v).
  { destruct (PrimFloat.is_nan v); [reflexivity |].
    destruct (isPositiveZero v && isNegativeZero v); [reflexivity |].
    now destruct (v <? v)%float. }
  rewrite Hstep. apply IH. intros z Hz. apply Hrest. now right.
Qed.

Lemma sub_of_same (s : spec_float) : zeroOrNaN (SF64sub s s) = true.
Proof.
  destruct s as [sa | sa | | sa m e] eqn:E; try reflexivity;
    try (now destruct sa).
  apply sub_of_equals. now rewrite SFeqb_same.
Qed.

(** On an axis whose two bounds are the same number, no coordinate is
    finite. *)
Lemma dataToCanvas_flat_x (dataX dataY : float) (vp : ChartViewport float)
    (w h : float) (p : Padding float) :
  CanvasUtils.xMax vp = CanvasUtils.xMin vp ->
  isFinite (fst (dataToCanvas dataX dataY vp w h p)) = false.
Proof.
  intros Heq. unfold dataToCanvas.
  cbn [fst add sub mul div float_arith]. rewrite Heq.
  rewrite isFinite_spec, FloatAxioms.add_spec, FloatAxioms.mul_spec.
  apply negb_false_iff, add_notFinite, mul_notFinite.
  rewrite FloatAxioms.div_spec,
    (FloatAxioms.sub_spec (CanvasUtils.xMin vp) (CanvasUtils.xMin vp)).
  apply div_by_zeroOrNaN, sub_of_same.
Qed.

Lemma dataToCanvas_flat_y (dataX dataY : float) (vp : ChartViewport float)
    (w h : float) (p : Padding float) :
  CanvasUtils.yMax vp = CanvasUtils.yMin vp ->
  isFinite (snd (dataToCanvas dataX dataY vp w h p)) = false.
Proof.
  intros Heq. unfold dataToCanvas.
  cbn [snd add sub mul div one float_arith]. rewrite Heq.
  rewrite isFinite_spec, FloatAxioms.add_spec, FloatAxioms.mul_spec.
  rewrite (FloatAxioms.sub_spec 1).
  apply negb_false_iff, add_notFinite, mul_notFinite, sub_notFinite.
  rewrite FloatAxioms.div_spec,
    (FloatAxioms.sub_spec (CanvasUtils.yMin vp) (CanvasUtils.yMin vp)).
  apply div_by_zeroOrNaN, sub_of_same.
Qed.

Lemma canvasPoints_In (size : CanvasSize) (data : list DataPoint)
    (viewport : ChartViewport float) (pt : float * float) :
  In pt (canvasPoints (Some size) data viewport) ->
  exists point,
    In point data
    /\ pt = dataToCanvas (number (timestamp point)) (value point) viewport
                         (width size) (height size) padding.
Proof.
  unfold canvasPoints. intros Hin. apply in_map_iff in Hin.
  destruct Hin as [point [<- Hp]]. now exists point.
Qed.

(** X26.  A line chart whose shown points all carry the same timestamp (a
    single point, for one) computes the bounds [xMin = xMax] from them, and
    with these bounds as viewport none of its canvas points has a finite x
    coordinate: [dataToCanvas] divides by [xMax - xMin].  There is one
    canvas point per shown point, and none before the canvas is ready. *)
Theorem lineChart_equal_timestamps_not_finite :
  forall (data : list DataPoint) (category : option string)
         (size : CanvasSize) (prev : ChartViewport float) (t : Z),
    let shown := LineChart.filteredData data category in
    shown <> [] ->
    (forall p, In p shown -> timestamp p = t) ->
    let viewport := withBounds prev (LineChart.dataBounds shown) in
    let points := canvasPoints (Some size) shown viewport in
    CanvasUtils.xMin viewport = number t
    /\ CanvasUtils.xMax viewport = number t
    /\ length points = length shown
    /\ (forall pt, In pt points -> isFinite (fst pt) = false)
    /\ canvasPoints None shown viewport = [].
Proof.
  intros data category size prev t. cbv zeta.
  set (shown := LineChart.filteredData data category).
  intros Hne Hall.
  assert (Hts : forall x,
             In x (map (fun d => number (timestamp d)) shown) ->
             x = number t).
  { intros x Hx. apply in_map_iff in Hx. destruct Hx as [p [<- Hp]].
    now rewrite (Hall p Hp). }
  assert (Hne' : map (fun d => number (timestamp d)) shown <> [])
    by (destruct shown; [now elim Hne | discriminate]).
  assert (Hmin : CanvasUtils.xMin
                   (withBounds prev (LineChart.dataBounds shown))
                 = number t).
  { destruct shown; [now elim Hne |]. cbn [LineChart.dataBounds].
    cbv zeta. cbn [withBounds CanvasUtils.xMin xMin].
    now apply Math_min_constant. }
  assert (Hmax : CanvasUtils.xMax
                   (withBounds prev (LineChart.dataBounds shown))
                 = number t).
  { destruct shown; [now elim Hne |]. cbn [LineChart.dataBounds].
    cbv zeta. cbn [withBounds CanvasUtils.xMax xMax].
    now apply Math_max_constant. }
  split; [exact Hmin |]. split; [exact Hmax |].
  split; [unfold canvasPoints; apply length_map |].
  split; [| reflexivity].
  intros pt Hpt. apply canvasPoints_In in Hpt.
  destruct Hpt as [point [_ ->]].
  apply dataToCanvas_flat_x. now rewrite Hmin, Hmax.
Qed.

(** X27.  A scatter plot whose points all carry the same timestamp has no
    canvas point with a finite x coordinate, and one whose points all carry
    the same value has none with a finite y coordinate; so the point of a
    one-point scatter plot has no finite coordinate at all. *)
Theorem scatterPlot_flat_data_not_finite :
  forall (data : list DataPoint) (size : CanvasSize)
         (prev : ChartViewport float),
    data <> [] ->
    let viewport := withBounds prev (ScatterPlot.dataBounds data) in
    let points := canvasPoints (Some size) data viewport in
    ((exists t, forall p, In p data -> timestamp p = t) ->
     forall pt, In pt points -> isFinite (fst pt) = false)
    /\ ((exists v, forall p, In p data -> value p = v) ->
        forall pt, In pt points -> isFinite (snd pt) = false)
    /\ ((exists p, data = [p]) ->
        forall pt, In pt points ->
                   isFinite (fst pt) = false /\ isFinite (snd pt) = false).
Proof.
  intros data size prev Hne. cbv zeta.
  assert (Hx : (exists t, forall p, In p data -> timestamp p = t) ->
               forall pt,
                 In pt (canvasPoints (Some size) data
                          (withBounds prev (ScatterPlot.dataBounds data))) ->
                 isFinite (fst pt) = false).
  { intros [t Hall] pt Hpt. apply canvasPoints_In in Hpt.
    destruct Hpt as [point [_ ->]]. apply dataToCanvas_flat_x.
    assert (Hts : forall x,
               In x (map (fun d => number (timestamp d)) data) ->
               x = number t).
    { intros x Hin. apply in_map_iff in Hin. destruct Hin as [p [<- Hp]].
      now rewrite (Hall p Hp). }
    destruct data as [| d data]; [now elim Hne |].
    cbn [ScatterPlot.dataBounds withBounds CanvasUtils.xMin CanvasUtils.xMax
         xMin xMax].
    rewrite Math_min_constant with (v := number t),
            Math_max_constant with (v := number t);
      try assumption; try discriminate. reflexivity. }
  assert (Hy : (exists v, forall p, In p data -> value p = v) ->
               forall pt,
                 In pt (canvasPoints (Some size) data
                          (withBounds prev (ScatterPlot.dataBounds data))) ->
                 isFinite (snd pt) = false).
  { intros [v Hall] pt Hpt. apply canvasPoints_In in Hpt.
    destruct Hpt as [point [_ ->]]. apply dataToCanvas_flat_y.
    assert (Hvs : forall x, In x (map value data) -> x = v).
    { intros x Hin. apply in_map_iff in Hin. destruct Hin as [p [<- Hp]].
      now apply Hall. }
    destruct data as [| d data]; [now elim Hne |].
    cbn [ScatterPlot.dataBounds withBounds CanvasUtils.yMin CanvasUtils.yMax
         yMin yMax].
    rewrite Math_min_constant with (v := v),
            Math_max_constant with (v := v);
      try assumption; try discriminate. reflexivity. }
  split; [exact Hx |]. split; [exact Hy |].
  intros [p ->] pt Hpt. split.
  - apply Hx; [| exact Hpt]. exists (timestamp p).
    intros q [<- | []]. reflexivity.
  - apply Hy; [| exact Hpt]. exists (value p).
    intros q [<- | []]. reflexivity.
Qed.

End ChartFacts.

Lemma lineChart_equal_timestamps_witness :
  let shown := LineChart.filteredData [measurementAt 1000] None in
  let viewport :=
    Charts.withBounds Charts.initialViewport (LineChart.dataBounds shown) in
  let points :=
    Charts.canvasPoints
      (Some {| Charts.width := 800; Charts.height := 400 |}) shown viewport in
  length points = length shown
  /\ forall pt, In pt points -> CanvasUtils.isFinite (fst pt) = false.
Proof.
  cbv zeta.
  assert (Hne : LineChart.filteredData [measurementAt 1000] None <> [])
    by discriminate.
  assert (Hall : forall p,
             In p (LineChart.filteredData [measurementAt 1000] None) ->
             Types.timestamp p = 1000)
    by (intros p [<- | []]; reflexivity).
  destruct (lineChart_equal_timestamps_not_finite
              [measurementAt 1000] None
              {| Charts.width := 800; Charts.height := 400 |}
              Charts.initialViewport 1000 Hne Hall)
    as (_ & _ & Hlen & Hpts & _).
  split; [exact Hlen | exact Hpts].
Defined.

Lemma scatterPlot_flat_data_witness :
  [measurementAt 1000] <> []
  /\ forall pt,
       In pt (Charts.canvasPoints
                (Some {| Charts.width := 800; Charts.height := 400 |})
                [measurementAt 1000]
                (Charts.withBounds Charts.initialViewport
                   (ScatterPlot.dataBounds [measurementAt 1000]))) ->
       CanvasUtils.isFinite (fst pt) = false
       /\ CanvasUtils.isFinite (snd pt) = false.
Proof.
  assert (Hne : [measurementAt 1000] <> []) by discriminate.
  split; [exact Hne |].
  apply (proj2 (proj2 (scatterPlot_flat_data_not_finite
                         [measurementAt 1000]
                         {| Charts.width := 800; Charts.height := 400 |}
                         Charts.initialViewport Hne))).
  now exists (measurementAt 1000).
Defined.

(* ================================================================== *)
(** * What the dashboard displays *)
(* ================================================================== *)

Section DashboardFacts.

Import Types DataProvider Filtering Dashboard.




Lemma press_keeps_grid (count : Z) (button : LoadButton) :
  1000 <= count <= 100000 ->
  (exists k, count = 10000 * k \/ count = 10000 * k + 1000) ->
  1000 <= press count button <= 100000
  /\ exists k, press count button = 10000 * k
               \/ press count button = 10000 * k + 1000.
Proof.
  intros Hrange [k Hk].
  destruct button; unfold press, increaseLoad, decreaseLoad.
  - split; [lia |].
    destruct (Z_le_gt_dec (count + 10000) 100000) as [Hle | Hgt].
    + exists (k + 1). lia.
    + exists 10. lia.
  - split; [lia |].
    destruct (Z_le_gt_dec 1000 (count - 10000)) as [Hle | Hgt].
    + exists (k - 1). lia.
    + exists 0. lia.
Qed.

(** X29.  However the two load buttons are pressed, the number of data
    points requested stays between 1000 and 100000, on the grid of the
    multiples of 10000 and of those plus 1000.  A decrease undoes an
    increase from 90000 points down, and an increase undoes a decrease from
    11000 points up; at the initial 10000 points it does not: a decrease
    followed by an increase gives 11000. *)
Theorem load_buttons_keep_count_in_range :
  forall presses : list LoadButton,
    let count := fold_left press presses initialDataPointCount in
    1000 <= count <= 100000
    /\ (exists k, count = 10000 * k \/ count = 10000 * k + 1000)
    /\ (count <= 90000 -> decreaseLoad (increaseLoad count) = count)
    /\ (11000 <= count -> increaseLoad (decreaseLoad count) = count)
    /\ increaseLoad (decreaseLoad initialDataPointCount) = 11000.
Proof.
  intros presses. cbv zeta.
  assert (Hinv : 1000 <= fold_left press presses initialDataPointCount
                 <= 100000
                 /\ exists k,
                      fold_left press presses initialDataPointCount
                      = 10000 * k
                      \/ fold_left press presses initialDataPointCount
                         = 10000 * k + 1000).
  { induction presses as [| button presses IH] using rev_ind.
    - cbn. unfold initialDataPointCount. split; [lia |]. exists 1. lia.
    - rewrite fold_left_app. cbn [fold_left].
      destruct IH as [Hr Hk]. now apply press_keeps_grid. }
  destruct Hinv as [Hr Hk].
  set (count := fold_left press presses initialDataPointCount) in *.
  split; [exact Hr |]. split; [exact Hk |].
  unfold increaseLoad, decreaseLoad.
  split; [lia |]. split; [lia | reflexivity].
Qed.

End DashboardFacts.

(* ================================================================== *)
(** * The drawing primitives *)
(* ================================================================== *)

Section Canvas2DFacts.

Import Canvas2D.

Variable isColor : string -> bool.

Lemma lineTo_loop (rest : list (float * float)) :
  forall ctx,
    fold_left (fun c p => lineTo (fst p) (snd p) c) rest ctx
    = {| current := current ctx; saved := saved ctx;
         path := path ctx ++ flat_map (lineStep false) rest;
         painted := painted ctx |}.
Proof.
  induction rest as [| p rest IH]; intros [cur sv pth pnt]; cbn.
  - now rewrite app_nil_r.
  - rewrite IH. cbn. unfold pathLineTo, lineStep.
    destruct (finite (fst p) && finite (snd p)); cbn.
    + now rewrite <- app_assoc.
    + reflexivity.
Qed.

Lemma fillRect_loop (bars : list Bar) :
  forall ctx,
    fold_left
      (fun c bar => fillRect (x bar) (y bar) (width bar) (height bar) c)
      bars ctx
    = {| current := current ctx; saved := saved ctx; path := path ctx;
         painted :=
           painted ctx
           ++ flat_map
                (fun bar =>
                   if paintsRect (x bar) (y bar) (width bar) (height bar)
                   then [FilledRect (x bar) (y bar) (width bar)
                                    (height bar) (current ctx)]
                   else [])
                bars |}.
Proof.
  induction bars as [| bar bars IH]; intros [cur sv pth pnt]; cbn.
  - now rewrite app_nil_r.
  - rewrite IH. unfold fillRect.
    destruct (paintsRect (x bar) (y bar) (width bar) (height bar)); cbn.
    + now rewrite <- app_assoc.
    + reflexivity.
Qed.

Lemma circles_loop (radius : float) (points : list (float * float)) :
  forall steps,
    circles points radius steps
    = if existsb (arcThrows radius) points then JS.Throw IndexSizeError
      else JS.Normal (steps ++ flat_map (circleSteps radius) points).
Proof.
  induction points as [| p points IH]; intros steps; cbn [circles].
  - cbn. now rewrite app_nil_r.
  - cbn [existsb flat_map]. unfold pathArc, pathMoveTo, arcThrows at 1.
    unfold circleSteps at 1.
    change (finite 0) with true. change (finite twoPi) with true.
    rewrite !andb_true_r.
    destruct (finite (fst p) && finite (snd p) && finite radius);
      destruct (PrimFloat.ltb radius 0); cbn [andb orb];
      try reflexivity;
      rewrite IH; destruct (existsb (arcThrows radius) points);
      try reflexivity;
      destruct (finite (fst p + radius) && finite (snd p));
      cbn [app]; now rewrite <- ?app_assoc.
Qed.

Lemma setters_of_drawLine (ctx : Context) (color : string) (w : float) :
  set_lineJoin "round"
    (set_lineCap "round"
       (set_lineWidth w (set_strokeStyle isColor color (save ctx))))
  = {| current :=
         {| strokeStyle :=
              if isColor color then color else strokeStyle (current ctx);
            fillStyle := fillStyle (current ctx);
            lineWidth :=
              if acceptedWidth w then w else lineWidth (current ctx);
            lineCap := "round";
            lineJoin := "round" |};
       saved := current ctx :: saved ctx;
       path := path ctx;
       painted := painted ctx |}.
Proof.
  destruct ctx as [[ss fs lw lc lj] sv pth pnt].
  unfold set_lineJoin, set_lineCap, set_lineWidth, set_strokeStyle, save.
  cbn [oneOf existsb String.eqb Ascii.eqb Bool.eqb orb andb].
  destruct (isColor color), (acceptedWidth w); reflexivity.
Qed.

(** X30.  The canvas ignores a colour it cannot parse, a line width that is
    not a positive finite number and a coordinate that is infinite or NaN,
    and [arc] throws for a negative radius.  With that: [drawLine] and
    [drawBars] leave the drawing state and the stack of saved states as
    they found them.  [drawLine] paints nothing and touches nothing for
    fewer than two points; otherwise it strokes exactly one path, through
    the points with finite coordinates in order, with round caps and joins
    and in the colour and width given where the canvas accepts them.
    [drawBars] fills one rectangle per bar that has finite coordinates and
    a non-zero width and height, in order.  [drawPoints] fills exactly one
    path, of one circle per point with finite coordinates, and restores
    the state, unless the radius is negative and finite and some point has
    finite coordinates: then it throws, paints nothing and leaves the
    state it saved on the stack. *)
Theorem drawing_primitives_restore_state :
  forall ctx : Context,
    (forall points color lineWidth',
        let ctx' := drawLine isColor ctx points color lineWidth' in
        current ctx' = current ctx
        /\ saved ctx' = saved ctx
        /\ ((length points < 2)%nat -> ctx' = ctx)
        /\ (forall first rest,
              points = first :: rest -> rest <> [] ->
              painted ctx'
              = painted ctx
                ++ [Stroked
                      (lineStep true first
                       ++ flat_map (lineStep false) rest)
                      {| strokeStyle :=
                           if isColor color then color
                           else strokeStyle (current ctx);
                         fillStyle := fillStyle (current ctx);
                         lineWidth :=
                           if acceptedWidth lineWidth' then lineWidth'
                           else lineWidth (current ctx);
                         lineCap := "round";
                         lineJoin := "round" |}]))
    /\ (forall points color radius,
          let ctx' := fst (drawPoints isColor ctx points color radius) in
          let outcome := snd (drawPoints isColor ctx points color radius) in
          let style :=
            {| strokeStyle := strokeStyle (current ctx);
               fillStyle :=
                 if isColor color then color else fillStyle (current ctx);
               lineWidth := lineWidth (current ctx);
               lineCap := lineCap (current ctx);
               lineJoin := lineJoin (current ctx) |} in
          if existsb (arcThrows radius) points then
            outcome = JS.Throw IndexSizeError
            /\ current ctx' = style
            /\ saved ctx' = current ctx :: saved ctx
            /\ painted ctx' = painted ctx
          else
            outcome = JS.Normal tt
            /\ current ctx' = current ctx
            /\ saved ctx' = saved ctx
            /\ path ctx' = path ctx
            /\ painted ctx'
               = painted ctx
                 ++ [Filled (flat_map (circleSteps radius) points) style])
    /\ (forall bars color,
          let ctx' := drawBars isColor ctx bars color in
          current ctx' = current ctx
          /\ saved ctx' = saved ctx
          /\ path ctx' = path ctx
          /\ painted ctx'
             = painted ctx
               ++ flat_map
                    (fun bar =>
                       if paintsRect (x bar) (y bar) (width bar)
                                     (height bar)
                       then
                         [FilledRect (x bar) (y bar) (width bar)
                            (height bar)
                            {| strokeStyle := strokeStyle (current ctx);
                               fillStyle :=
                                 if isColor color then color
                                 else fillStyle (current ctx);
                               lineWidth := lineWidth (current ctx);
                               lineCap := lineCap (current ctx);
                               lineJoin := lineJoin (current ctx) |}]
                       else [])
                    bars).
Proof.
  intros ctx. split; [| split].
  - intros points color w. cbv zeta.
    destruct points as [| first [| second rest]].
    + cbn. repeat split. intros f r H. discriminate.
    + cbn. repeat split. intros f r H Hne. injection H as <- <-.
      now elim Hne.
    + unfold drawLine.
      change (length (first :: second :: rest) <? 2)%nat with false.
      cbv iota zeta. rewrite setters_of_drawLine, lineTo_loop.
      cbn [beginPath moveTo stroke restore current saved path painted
           pathMoveTo app].
      split; [reflexivity |]. split; [reflexivity |].
      split; [cbn [length]; intros H; lia |].
      intros f r H _. injection H as <- <-.
      unfold pathMoveTo, lineStep.
      destruct (finite (fst first) && finite (snd first)); reflexivity.
  - intros points color radius. cbv zeta. unfold drawPoints. cbv zeta.
    rewrite circles_loop.
    destruct ctx as [[ss fs lw lc lj] sv pth pnt].
    unfold set_fillStyle, save.
    destruct (existsb (arcThrows radius) points);
      destruct (isColor color); cbn; repeat split.
  - intros bars color. cbv zeta. unfold drawBars. cbv zeta.
    rewrite fillRect_loop.
    destruct ctx as [[ss fs lw lc lj] sv pth pnt].
    unfold set_fillStyle, save.
    destruct (isColor color); cbn; repeat split.
Qed.

End Canvas2DFacts.

Lemma drawing_primitives_witness :
  let ctx :=
    {| Canvas2D.current :=
         {| Canvas2D.strokeStyle := "#000000"; Canvas2D.fillStyle := "#000000";
            Canvas2D.lineWidth := 1%float; Canvas2D.lineCap := "butt";
            Canvas2D.lineJoin := "miter" |};
       Canvas2D.saved := []; Canvas2D.path := []; Canvas2D.painted := [] |} in
  let thrown :=
    Canvas2D.drawPoints (fun _ => true) ctx [(1%float, 2%float)] "#3b82f6"
      (-1)%float in
  let drawn :=
    Canvas2D.drawPoints (fun _ => true) ctx
      [(1%float, 2%float); (nan, 2%float)] "#3b82f6" 3%float in
  (snd thrown = JS.Throw Canvas2D.IndexSizeError
   /\ Canvas2D.saved (fst thrown) = [Canvas2D.current ctx]
   /\ Canvas2D.painted (fst thrown) = [])
  /\ (snd drawn = JS.Normal tt
      /\ Canvas2D.current (fst drawn) = Canvas2D.current ctx
      /\ Canvas2D.saved (fst drawn) = []
      /\ exists style,
           Canvas2D.painted (fst drawn)
           = [Canvas2D.Filled
                [Canvas2D.MoveTo 4%float 2%float;
                 Canvas2D.Arc 1%float 2%float 3%float 0%float
                   Canvas2D.twoPi]
                style]).
Proof.
  cbv zeta.
  match goal with
  | |- (snd (Canvas2D.drawPoints ?c ?ctx ?pts ?col ?r) = _ /\ _) /\ _ =>
      pose proof (proj1 (proj2 (drawing_primitives_restore_state c ctx))
                    pts col r) as Hthrown
  end.
  match goal with
  | |- _ /\ (snd (Canvas2D.drawPoints ?c ?ctx ?pts ?col ?r) = _ /\ _) =>
      pose proof (proj1 (proj2 (drawing_primitives_restore_state c ctx))
                    pts col r) as Hdrawn
  end.
  cbv zeta in Hthrown, Hdrawn.
  change (existsb (Canvas2D.arcThrows (-1)%float) [(1%float, 2%float)])
    with true in Hthrown.
  change (existsb (Canvas2D.arcThrows 3%float)
            [(1%float, 2%float); (nan, 2%float)])
    with false in Hdrawn.
  cbv iota in Hthrown, Hdrawn.
  destruct Hthrown as (H1 & _ & H3 & H4).
  destruct Hdrawn as (D1 & D2 & D3 & _ & D5).
  split.
  - split; [exact H1 |]. split; [exact H3 | exact H4].
  - split; [exact D1 |]. split; [exact D2 |]. split; [exact D3 |].
    eexists. rewrite D5. reflexivity.
Defined.
